(** * Connection session manager ([useSocket])

    A shallow embedding of [src/hooks/useSocket.ts]: the hook's React state
    and refs, the socket objects it creates, the timers it arms and the
    promises it hands out are fields of one [World]; every callback of the
    hook is a function on worlds, and the event loop is a step function
    driven by renders, transport events, timer expiries and calls from the
    owning component.  A second part embeds [fixRCTInstance] of the patch
    script [fix-fabric-runtime.js] over strings and a file system. *)

From Stdlib Require Import ZArith Lia.
From stdpp Require Import base tactics decidable option strings numbers gmap list.

Open Scope Z_scope.

(** ** Data *)

(** [connectionQuality]: 'good' | 'poor' | 'disconnected'. *)
Inductive Quality := QGood | QPoor | QDisconnected.

(** The three-valued connection state of the specification, read off the
    two booleans the hook exposes. *)
Inductive ConnState := SDisconnected | SConnecting | SConnected.

(** Names of the transport events the hook subscribes to. *)
Inductive EventName :=
  | NConnect | NDisconnect | NConnectError | NReconnect | NReconnectAttempt | NPong.

(** A JavaScript value that [-] can coerce to a number, as far as
    [handlePong] looks at [data.timestamp]: it is coerced to a boolean by
    [||] and to a number by [-] ([toNumber = None] stands for NaN). The
    values on which [-] throws are the payloads [ObjThrowing] below. *)
Record JsVal := { truthy : bool; toNumber : option Z }.

Definition jsNumber (n : Z) : JsVal :=
  {| truthy := negb (n =? 0); toNumber := Some n |}.
Definition jsUndefined : JsVal := {| truthy := false; toNumber := None |}.

(** The argument of a 'pong' event has type [any], and line 254 computes
    [Date.now() - (data.timestamp || lastPingTime.current)]. Reading a
    property of [null] or [undefined] throws ([Nullish]). Any other
    argument yields the value of its [timestamp] property ([jsUndefined]
    when the property is missing), which is either a value the
    subtraction can use ([Obj]), or a truthy value on which [-] throws a
    TypeError: a BigInt, a Symbol, an object without a primitive value
    ([ObjThrowing]). *)
Inductive Payload := Nullish | Obj (timestamp : JsVal) | ObjThrowing.

(** A transport event together with the argument passed to its listeners. *)
Inductive Event :=
  | EvConnect
  | EvDisconnect (reason : string)
  | EvConnectError (message : string)
  | EvReconnect (attemptNumber : Z)
  | EvReconnectAttempt (attemptNumber : Z)
  | EvPong (data : Payload).

Definition eventName (ev : Event) : EventName :=
  match ev with
  | EvConnect => NConnect
  | EvDisconnect _ => NDisconnect
  | EvConnectError _ => NConnectError
  | EvReconnect _ => NReconnect
  | EvReconnectAttempt _ => NReconnectAttempt
  | EvPong _ => NPong
  end.

(** The closures the hook registers on a socket. The six handlers of the
    effect are identified by their name; an [onConnect] closure of
    [ensureConnected] captures the [resolve] function of its promise and
    the id of its timeout. *)
Inductive Listener :=
  | LHandleConnect | LHandleDisconnect | LHandleConnectError
  | LHandleReconnect | LHandleReconnectAttempt | LHandlePong
  | LOnConnect (resolve : nat) (timeout : nat).

(** A socket of the transport library: the [connected] flag, the listener
    table in registration order, the number of [connect()] calls made on
    it, the timestamps of the 'ping' packets emitted through it and the
    token of its handshake. *)
Record Socket := {
  connected : bool;
  listeners : list (EventName * Listener);
  connectCalls : nat;
  emitted : list Z;
  auth : string
}.

(** Callbacks handed to [setInterval] and [setTimeout]. *)
Inductive TimerCb := CbSendPing | CbEnsureTimeout (resolve : nat).

(** An armed timer; [period] is [Some d] for an interval. *)
Record Timer := { callback : TimerCb; due : Z; period : option Z }.

(** State of a promise returned by [ensureConnected]. *)
Inductive Promise := Pending | Fulfilled (v : bool) | Rejected.

(** Lines written to the console, with the values interpolated in them. *)
Inductive LogEntry :=
  | LogAlreadyConnected | LogNoSocket | LogWaiting | LogTimeout | LogCanSend
  | LogNotLoggedIn | LogInit | LogCleanup | LogMaxAttempts
  | LogConnect (ms : Z) | LogDisconnect (reason : string)
  | LogConnectError (message : string)
  | LogReconnect (n : Z) | LogReconnectAttempt (n : Z)
  | LogPong (ms : option Z).

Global Instance Quality_eq_dec : EqDecision Quality.
Proof. solve_decision. Defined.
Global Instance ConnState_eq_dec : EqDecision ConnState.
Proof. solve_decision. Defined.
Global Instance EventName_eq_dec : EqDecision EventName.
Proof. solve_decision. Defined.
Global Instance Listener_eq_dec : EqDecision Listener.
Proof. solve_decision. Defined.
Global Instance TimerCb_eq_dec : EqDecision TimerCb.
Proof. solve_decision. Defined.
Global Instance Promise_eq_dec : EqDecision Promise.
Proof. solve_decision. Defined.

(** The hook instance and its environment.
    - [isConnected], [isConnecting], [connectionQuality]: the [useState] cells,
      as the setters were last called (after an unmount React discards
      the updates, and nothing reads the cells any more);
    - [socketRef] .. [pingIntervalRef]: the [useRef] cells ([.current]);
    - [userToken]: the dependency the effect last ran with ([None] before
      the first render); [pendingCleanup]: the socket captured by the
      cleanup closure the last effect run returned; [unmounted];
    - [sockets], [timers], [promises]: the objects allocated so far, by id
      (a cleared or expired timer is [None]);
    - [presence]: the arguments of the [setOnlineStatus] calls, oldest first;
    - [console]; [clock]: the time of the last step. *)
Record World := {
  isConnected : bool;
  isConnecting : bool;
  connectionQuality : Quality;
  socketRef : option nat;
  reconnectAttempts : nat;
  connectionStartTime : Z;
  lastPingTime : Z;
  pingIntervalRef : option nat;
  userToken : option (option string);
  pendingCleanup : option nat;
  unmounted : bool;
  sockets : list Socket;
  timers : list (option Timer);
  promises : list Promise;
  presence : list bool;
  console : list LogEntry;
  clock : Z
}.

Definition setIsConnected (v : bool) (w : World) : World :=
  {| isConnected := v;
     isConnecting := isConnecting w;
     connectionQuality := connectionQuality w;
     socketRef := socketRef w;
     reconnectAttempts := reconnectAttempts w;
     connectionStartTime := connectionStartTime w;
     lastPingTime := lastPingTime w;
     pingIntervalRef := pingIntervalRef w;
     userToken := userToken w;
     pendingCleanup := pendingCleanup w;
     unmounted := unmounted w;
     sockets := sockets w;
     timers := timers w;
     promises := promises w;
     presence := presence w;
     console := console w;
     clock := clock w |}.

Definition setIsConnecting (v : bool) (w : World) : World :=
  {| isConnected := isConnected w;
     isConnecting := v;
     connectionQuality := connectionQuality w;
     socketRef := socketRef w;
     reconnectAttempts := reconnectAttempts w;
     connectionStartTime := connectionStartTime w;
     lastPingTime := lastPingTime w;
     pingIntervalRef := pingIntervalRef w;
     userToken := userToken w;
     pendingCleanup := pendingCleanup w;
     unmounted := unmounted w;
     sockets := sockets w;
     timers := timers w;
     promises := promises w;
     presence := presence w;
     console := console w;
     clock := clock w |}.

Definition setConnectionQuality (v : Quality) (w : World) : World :=
  {| isConnected := isConnected w;
     isConnecting := isConnecting w;
     connectionQuality := v;
     socketRef := socketRef w;
     reconnectAttempts := reconnectAttempts w;
     connectionStartTime := connectionStartTime w;
     lastPingTime := lastPingTime w;
     pingIntervalRef := pingIntervalRef w;
     userToken := userToken w;
     pendingCleanup := pendingCleanup w;
     unmounted := unmounted w;
     sockets := sockets w;
     timers := timers w;
     promises := promises w;
     presence := presence w;
     console := console w;
     clock := clock w |}.

Definition set_socketRef (v : option nat) (w : World) : World :=
  {| isConnected := isConnected w;
     isConnecting := isConnecting w;
     connectionQuality := connectionQuality w;
     socketRef := v;
     reconnectAttempts := reconnectAttempts w;
     connectionStartTime := connectionStartTime w;
     lastPingTime := lastPingTime w;
     pingIntervalRef := pingIntervalRef w;
     userToken := userToken w;
     pendingCleanup := pendingCleanup w;
     unmounted := unmounted w;
     sockets := sockets w;
     timers := timers w;
     promises := promises w;
     presence := presence w;
     console := console w;
     clock := clock w |}.

Definition set_reconnectAttempts (v : nat) (w : World) : World :=
  {| isConnected := isConnected w;
     isConnecting := isConnecting w;
     connectionQuality := connectionQuality w;
     socketRef := socketRef w;
     reconnectAttempts := v;
     connectionStartTime := connectionStartTime w;
     lastPingTime := lastPingTime w;
     pingIntervalRef := pingIntervalRef w;
     userToken := userToken w;
     pendingCleanup := pendingCleanup w;
     unmounted := unmounted w;
     sockets := sockets w;
     timers := timers w;
     promises := promises w;
     presence := presence w;
     console := console w;
     clock := clock w |}.

Definition set_connectionStartTime (v : Z) (w : World) : World :=
  {| isConnected := isConnected w;
     isConnecting := isConnecting w;
     connectionQuality := connectionQuality w;
     socketRef := socketRef w;
     reconnectAttempts := reconnectAttempts w;
     connectionStartTime := v;
     lastPingTime := lastPingTime w;
     pingIntervalRef := pingIntervalRef w;
     userToken := userToken w;
     pendingCleanup := pendingCleanup w;
     unmounted := unmounted w;
     sockets := sockets w;
     timers := timers w;
     promises := promises w;
     presence := presence w;
     console := console w;
     clock := clock w |}.

Definition set_lastPingTime (v : Z) (w : World) : World :=
  {| isConnected := isConnected w;
     isConnecting := isConnecting w;
     connectionQuality := connectionQuality w;
     socketRef := socketRef w;
     reconnectAttempts := reconnectAttempts w;
     connectionStartTime := connectionStartTime w;
     lastPingTime := v;
     pingIntervalRef := pingIntervalRef w;
     userToken := userToken w;
     pendingCleanup := pendingCleanup w;
     unmounted := unmounted w;
     sockets := sockets w;
     timers := timers w;
     promises := promises w;
     presence := presence w;
     console := console w;
     clock := clock w |}.

Definition set_pingIntervalRef (v : option nat) (w : World) : World :=
  {| isConnected := isConnected w;
     isConnecting := isConnecting w;
     connectionQuality := connectionQuality w;
     socketRef := socketRef w;
     reconnectAttempts := reconnectAttempts w;
     connectionStartTime := connectionStartTime w;
     lastPingTime := lastPingTime w;
     pingIntervalRef := v;
     userToken := userToken w;
     pendingCleanup := pendingCleanup w;
     unmounted := unmounted w;
     sockets := sockets w;
     timers := timers w;
     promises := promises w;
     presence := presence w;
     console := console w;
     clock := clock w |}.

Definition set_userToken (v : option (option string)) (w : World) : World :=
  {| isConnected := isConnected w;
     isConnecting := isConnecting w;
     connectionQuality := connectionQuality w;
     socketRef := socketRef w;
     reconnectAttempts := reconnectAttempts w;
     connectionStartTime := connectionStartTime w;
     lastPingTime := lastPingTime w;
     pingIntervalRef := pingIntervalRef w;
     userToken := v;
     pendingCleanup := pendingCleanup w;
     unmounted := unmounted w;
     sockets := sockets w;
     timers := timers w;
     promises := promises w;
     presence := presence w;
     console := console w;
     clock := clock w |}.

Definition set_pendingCleanup (v : option nat) (w : World) : World :=
  {| isConnected := isConnected w;
     isConnecting := isConnecting w;
     connectionQuality := connectionQuality w;
     socketRef := socketRef w;
     reconnectAttempts := reconnectAttempts w;
     connectionStartTime := connectionStartTime w;
     lastPingTime := lastPingTime w;
     pingIntervalRef := pingIntervalRef w;
     userToken := userToken w;
     pendingCleanup := v;
     unmounted := unmounted w;
     sockets := sockets w;
     timers := timers w;
     promises := promises w;
     presence := presence w;
     console := console w;
     clock := clock w |}.

Definition set_unmounted (v : bool) (w : World) : World :=
  {| isConnected := isConnected w;
     isConnecting := isConnecting w;
     connectionQuality := connectionQuality w;
     socketRef := socketRef w;
     reconnectAttempts := reconnectAttempts w;
     connectionStartTime := connectionStartTime w;
     lastPingTime := lastPingTime w;
     pingIntervalRef := pingIntervalRef w;
     userToken := userToken w;
     pendingCleanup := pendingCleanup w;
     unmounted := v;
     sockets := sockets w;
     timers := timers w;
     promises := promises w;
     presence := presence w;
     console := console w;
     clock := clock w |}.

Definition set_sockets (v : list Socket) (w : World) : World :=
  {| isConnected := isConnected w;
     isConnecting := isConnecting w;
     connectionQuality := connectionQuality w;
     socketRef := socketRef w;
     reconnectAttempts := reconnectAttempts w;
     connectionStartTime := connectionStartTime w;
     lastPingTime := lastPingTime w;
     pingIntervalRef := pingIntervalRef w;
     userToken := userToken w;
     pendingCleanup := pendingCleanup w;
     unmounted := unmounted w;
     sockets := v;
     timers := timers w;
     promises := promises w;
     presence := presence w;
     console := console w;
     clock := clock w |}.

Definition set_timers (v : list (option Timer)) (w : World) : World :=
  {| isConnected := isConnected w;
     isConnecting := isConnecting w;
     connectionQuality := connectionQuality w;
     socketRef := socketRef w;
     reconnectAttempts := reconnectAttempts w;
     connectionStartTime := connectionStartTime w;
     lastPingTime := lastPingTime w;
     pingIntervalRef := pingIntervalRef w;
     userToken := userToken w;
     pendingCleanup := pendingCleanup w;
     unmounted := unmounted w;
     sockets := sockets w;
     timers := v;
     promises := promises w;
     presence := presence w;
     console := console w;
     clock := clock w |}.

Definition set_promises (v : list Promise) (w : World) : World :=
  {| isConnected := isConnected w;
     isConnecting := isConnecting w;
     connectionQuality := connectionQuality w;
     socketRef := socketRef w;
     reconnectAttempts := reconnectAttempts w;
     connectionStartTime := connectionStartTime w;
     lastPingTime := lastPingTime w;
     pingIntervalRef := pingIntervalRef w;
     userToken := userToken w;
     pendingCleanup := pendingCleanup w;
     unmounted := unmounted w;
     sockets := sockets w;
     timers := timers w;
     promises := v;
     presence := presence w;
     console := console w;
     clock := clock w |}.

Definition set_presence (v : list bool) (w : World) : World :=
  {| isConnected := isConnected w;
     isConnecting := isConnecting w;
     connectionQuality := connectionQuality w;
     socketRef := socketRef w;
     reconnectAttempts := reconnectAttempts w;
     connectionStartTime := connectionStartTime w;
     lastPingTime := lastPingTime w;
     pingIntervalRef := pingIntervalRef w;
     userToken := userToken w;
     pendingCleanup := pendingCleanup w;
     unmounted := unmounted w;
     sockets := sockets w;
     timers := timers w;
     promises := promises w;
     presence := v;
     console := console w;
     clock := clock w |}.

Definition set_console (v : list LogEntry) (w : World) : World :=
  {| isConnected := isConnected w;
     isConnecting := isConnecting w;
     connectionQuality := connectionQuality w;
     socketRef := socketRef w;
     reconnectAttempts := reconnectAttempts w;
     connectionStartTime := connectionStartTime w;
     lastPingTime := lastPingTime w;
     pingIntervalRef := pingIntervalRef w;
     userToken := userToken w;
     pendingCleanup := pendingCleanup w;
     unmounted := unmounted w;
     sockets := sockets w;
     timers := timers w;
     promises := promises w;
     presence := presence w;
     console := v;
     clock := clock w |}.

Definition set_clock (v : Z) (w : World) : World :=
  {| isConnected := isConnected w;
     isConnecting := isConnecting w;
     connectionQuality := connectionQuality w;
     socketRef := socketRef w;
     reconnectAttempts := reconnectAttempts w;
     connectionStartTime := connectionStartTime w;
     lastPingTime := lastPingTime w;
     pingIntervalRef := pingIntervalRef w;
     userToken := userToken w;
     pendingCleanup := pendingCleanup w;
     unmounted := unmounted w;
     sockets := sockets w;
     timers := timers w;
     promises := promises w;
     presence := presence w;
     console := console w;
     clock := v |}.

Definition with_connected (b : bool) (s : Socket) : Socket :=
  {| connected := b; listeners := listeners s; connectCalls := connectCalls s;
     emitted := emitted s; auth := auth s |}.

Definition with_listeners (ls : list (EventName * Listener)) (s : Socket) : Socket :=
  {| connected := connected s; listeners := ls; connectCalls := connectCalls s;
     emitted := emitted s; auth := auth s |}.

Definition with_connectCalls (n : nat) (s : Socket) : Socket :=
  {| connected := connected s; listeners := listeners s; connectCalls := n;
     emitted := emitted s; auth := auth s |}.

Definition with_emitted (l : list Z) (s : Socket) : Socket :=
  {| connected := connected s; listeners := listeners s; connectCalls := connectCalls s;
     emitted := l; auth := auth s |}.

(** ** Environment primitives *)

Definition maxReconnectAttempts : nat := 10.

(** [console.log] / [console.error]. *)
Definition log (e : LogEntry) (w : World) : World :=
  set_console (console w ++ [e]) w.

(** [offlineMessageService.setOnlineStatus]. *)
Definition setOnlineStatus (online : bool) (w : World) : World :=
  set_presence (presence w ++ [online]) w.

Definition updSocket (sid : nat) (f : Socket → Socket) (w : World) : World :=
  set_sockets (alter f sid (sockets w)) w.

(** [io(BASE_URL, {auth: {token}, ...})]: a new, not yet connected socket. *)
Definition io (token : string) (w : World) : nat * World :=
  (length (sockets w),
   set_sockets (sockets w ++ [{| connected := false; listeners := [];
                                 connectCalls := 0; emitted := []; auth := token |}]) w).

(** [socket.on(name, fn)] appends to the listener table. *)
Definition sock_on (sid : nat) (n : EventName) (l : Listener) : World → World :=
  updSocket sid (λ s, with_listeners (listeners s ++ [(n, l)]) s).

(** [socket.off(name, fn)] removes the first registration of [fn] under
    [name], if there is one. *)
Fixpoint removeFirst (x : EventName * Listener) (ls : list (EventName * Listener))
  : list (EventName * Listener) :=
  match ls with
  | [] => []
  | y :: ls' => if decide (x = y) then ls' else y :: removeFirst x ls'
  end.

Definition sock_off (sid : nat) (n : EventName) (l : Listener) : World → World :=
  updSocket sid (λ s, with_listeners (removeFirst (n, l) (listeners s)) s).

(** [socket.connect()] asks the transport to open the connection; the
    outcome arrives later as a 'connect' or 'connect_error' event. *)
Definition sock_connect (sid : nat) : World → World :=
  updSocket sid (λ s, with_connectCalls (S (connectCalls s)) s).

(** [socket.emit('ping', {timestamp})]. *)
Definition sock_emitPing (sid : nat) (timestamp : Z) : World → World :=
  updSocket sid (λ s, with_emitted (emitted s ++ [timestamp]) s).

(** [socketRef.current], when it refers to a socket. *)
Definition currentSocket (w : World) : option (nat * Socket) :=
  match socketRef w with
  | Some sid => match sockets w !! sid with
                | Some s => Some (sid, s)
                | None => None
                end
  | None => None
  end.

(** [socketRef.current?.connected], as a condition. *)
Definition socketConnected (w : World) : bool :=
  match currentSocket w with
  | Some (_, s) => connected s
  | None => false
  end.

(** [setInterval] / [setTimeout]: the new timer's id is returned. Ids
    count from 0 here; as in the runtime, every id is truthy. *)
Definition setInterval (cb : TimerCb) (delay now : Z) (w : World) : nat * World :=
  (length (timers w),
   set_timers (timers w ++ [Some {| callback := cb; due := now + delay;
                                    period := Some delay |}]) w).

Definition setTimeout (cb : TimerCb) (delay now : Z) (w : World) : nat * World :=
  (length (timers w),
   set_timers (timers w ++ [Some {| callback := cb; due := now + delay;
                                    period := None |}]) w).

(** [clearInterval] / [clearTimeout]: no effect on an id that is not armed. *)
Definition clearTimer (t : nat) (w : World) : World :=
  set_timers (<[t := None]> (timers w)) w.

(** [new Promise(...)]: the id of the pending promise is returned. *)
Definition newPromise (w : World) : nat * World :=
  (length (promises w), set_promises (promises w ++ [Pending]) w).

(** [resolve(v)]: settles a pending promise, and does nothing afterwards. *)
Definition settle (p : nat) (v : bool) (ps : list Promise) : list Promise :=
  match ps !! p with
  | Some Pending => <[p := Fulfilled v]> ps
  | _ => ps
  end.

Definition resolve (p : nat) (v : bool) (w : World) : World :=
  set_promises (settle p v (promises w)) w.

(** ** The hook's callbacks *)

(** Lines 71-85. *)
Definition checkConnectionQuality (now : Z) (w : World) : World :=
  if negb (socketConnected w) then setConnectionQuality QDisconnected w
  else
    let pingTime := now - lastPingTime w in
    if pingTime <? 500 then setConnectionQuality QGood w
    else if pingTime <? 2000 then setConnectionQuality QPoor w
    else setConnectionQuality QDisconnected w.

(** Lines 88-93. *)
Definition sendPing (now : Z) (w : World) : World :=
  match currentSocket w with
  | Some (sid, s) =>
      if connected s then
        let w := set_lastPingTime now w in
        sock_emitPing sid (lastPingTime w) w
      else w
  | None => w
  end.

(** Lines 118-122: the callback of the 10 second timeout. *)
Definition ensureTimeout (p : nat) (w : World) : World :=
  let w := log LogTimeout w in
  let w := setIsConnecting false w in
  resolve p false w.

(** Lines 124-130: the one-shot 'connect' listener; [off] is called on
    whatever socket [socketRef.current] is when the listener runs. *)
Definition onConnect (p t : nat) (w : World) : World :=
  let w := clearTimer t w in
  let w := setIsConnecting false w in
  let w := log LogCanSend w in
  let w := resolve p true w in
  match socketRef w with
  | Some sid => sock_off sid NConnect (LOnConnect p t) w
  | None => w
  end.

(** Lines 96-134. The promise executor runs synchronously. *)
Definition ensureConnected (now : Z) (w : World) : nat * World :=
  let '(p, w) := newPromise w in
  match currentSocket w with
  | Some (sid, s) =>
      if connected s then (p, resolve p true (log LogAlreadyConnected w))
      else
        let w := log LogWaiting w in
        let w := setIsConnecting true w in
        let w := if negb (connected s) then sock_connect sid w else w in
        let '(t, w) := setTimeout (CbEnsureTimeout p) 10000 now w in
        (p, sock_on sid NConnect (LOnConnect p t) w)
  | None => (p, resolve p false (log LogNoSocket w))
  end.

(** Lines 137-143. *)
Definition getConnectionStatus (w : World) : bool * bool * Quality :=
  (isConnected w, isConnecting w, connectionQuality w).

(** Lines 183-202. *)
Definition handleConnect (now : Z) (w : World) : World :=
  let connectTime := now - connectionStartTime w in
  let w := log (LogConnect connectTime) w in
  let w := setIsConnected true w in
  let w := setIsConnecting false w in
  let w := setConnectionQuality QGood w in
  let w := set_reconnectAttempts 0%nat w in
  let w := setOnlineStatus true w in
  let w := match pingIntervalRef w with
           | Some t => clearTimer t w
           | None => w
           end in
  let '(t, w) := setInterval CbSendPing 5000 now w in
  let w := set_pingIntervalRef (Some t) w in
  sendPing now w.

(** Lines 204-227. *)
Definition handleDisconnect (reason : string) (w : World) : World :=
  let w := log (LogDisconnect reason) w in
  let w := setIsConnected false w in
  let w := setConnectionQuality QDisconnected w in
  let w := setOnlineStatus false w in
  let w := match pingIntervalRef w with
           | Some t => set_pingIntervalRef None (clearTimer t w)
           | None => w
           end in
  if decide (reason ≠ "io client disconnect") then
    let w := setIsConnecting true w in
    let w := set_reconnectAttempts (S (reconnectAttempts w)) w in
    if decide (maxReconnectAttempts ≤ reconnectAttempts w)%nat then
      let w := log LogMaxAttempts w in
      setIsConnecting false w
    else w
  else w.

(** Lines 229-238. *)
Definition handleConnectError (message : string) (w : World) : World :=
  let w := log (LogConnectError message) w in
  let w := setIsConnected false w in
  let w := setIsConnecting false w in
  let w := setConnectionQuality QDisconnected w in
  let w := set_reconnectAttempts (S (reconnectAttempts w)) w in
  setOnlineStatus false w.

(** Lines 240-246. *)
Definition handleReconnect (attemptNumber : Z) (w : World) : World :=
  let w := log (LogReconnect attemptNumber) w in
  let w := setIsConnecting false w in
  setOnlineStatus true w.

(** Lines 248-251. *)
Definition handleReconnectAttempt (attemptNumber : Z) (w : World) : World :=
  let w := log (LogReconnectAttempt attemptNumber) w in
  setIsConnecting true w.

(** Lines 253-257. Line 254 throws when [data] is [null] or [undefined]
    and when the subtraction cannot use a truthy [data.timestamp], and
    then nothing of the handler runs. (The exception would also end the
    delivery of the event; the hook never registers a second 'pong'
    listener.) *)
Definition handlePong (now : Z) (data : Payload) (w : World) : World :=
  match data with
  | Nullish | ObjThrowing => w
  | Obj timestamp =>
      let sent := if truthy timestamp then toNumber timestamp
                  else Some (lastPingTime w) in
      let pingTime := (λ t, now - t) <$> sent in
      let w := log (LogPong pingTime) w in
      checkConnectionQuality now w
  end.

(** ** Delivery of transport events *)

(** A listener called with the argument of the event it was registered
    for. The hook registers every handler under its own event name only
    ([listeners_named]), so the last case does not arise. *)
Definition runListener (now : Z) (ev : Event) (l : Listener) (w : World) : World :=
  match l, ev with
  | LHandleConnect, EvConnect => handleConnect now w
  | LHandleDisconnect, EvDisconnect reason => handleDisconnect reason w
  | LHandleConnectError, EvConnectError message => handleConnectError message w
  | LHandleReconnect, EvReconnect n => handleReconnect n w
  | LHandleReconnectAttempt, EvReconnectAttempt n => handleReconnectAttempt n w
  | LHandlePong, EvPong data => handlePong now data w
  | LOnConnect p t, _ => onConnect p t w
  | _, _ => w
  end.

Definition listenersFor (n : EventName) (s : Socket) : list Listener :=
  snd <$> filter (λ nl, nl.1 = n) (listeners s).

(** The emitter calls the listeners registered under the event's name, in
    registration order, over a copy of the table taken before the first
    call. *)
Definition emit (now : Z) (sid : nat) (ev : Event) (w : World) : World :=
  match sockets w !! sid with
  | Some s => foldl (λ w l, runListener now ev l w) w (listenersFor (eventName ev) s)
  | None => w
  end.

(** [socket.disconnect()]: a connected socket is closed and reports
    'disconnect' with the reason 'io client disconnect'. *)
Definition sock_disconnect (now : Z) (sid : nat) (w : World) : World :=
  match sockets w !! sid with
  | Some s =>
      if connected s then
        emit now sid (EvDisconnect "io client disconnect")
          (updSocket sid (with_connected false) w)
      else w
  | None => w
  end.

(** The transport delivers an event: 'connect' and 'disconnect' first
    update the socket's [connected] flag. *)
Definition transport (now : Z) (sid : nat) (ev : Event) (w : World) : World :=
  let w := match ev with
           | EvConnect => updSocket sid (with_connected true) w
           | EvDisconnect _ => updSocket sid (with_connected false) w
           | _ => w
           end in
  emit now sid ev w.

(** ** The effect (lines 145-281) *)

(** The six registrations of lines 260-265, in order. *)
Definition sixHandlers : list (EventName * Listener) :=
  [ (NConnect, LHandleConnect); (NDisconnect, LHandleDisconnect);
    (NConnectError, LHandleConnectError); (NReconnect, LHandleReconnect);
    (NReconnectAttempt, LHandleReconnectAttempt); (NPong, LHandlePong) ].

(** Lines 268-280: the cleanup closure for the socket [sid] it captured. *)
Definition effectCleanup (now : Z) (sid : nat) (w : World) : World :=
  let w := log LogCleanup w in
  let w := match pingIntervalRef w with
           | Some t => clearTimer t w
           | None => w
           end in
  let w := sock_off sid NConnect LHandleConnect w in
  let w := sock_off sid NDisconnect LHandleDisconnect w in
  let w := sock_off sid NConnectError LHandleConnectError w in
  let w := sock_off sid NReconnect LHandleReconnect w in
  let w := sock_off sid NReconnectAttempt LHandleReconnectAttempt w in
  let w := sock_off sid NPong LHandlePong w in
  sock_disconnect now sid w.

(** [!userToken] is true for [null] and for the empty string. *)
Definition tokenPresent (tok : option string) : option string :=
  match tok with
  | Some s => if decide (s = "") then None else Some s
  | None => None
  end.

(** Lines 146-266: the effect body; the cleanup it returns is recorded in
    [pendingCleanup]. *)
Definition effect (now : Z) (tok : option string) (w : World) : World :=
  match tokenPresent tok with
  | None =>
      let w := log LogNotLoggedIn w in
      let w := match socketRef w with
               | Some sid => set_socketRef None (sock_disconnect now sid w)
               | None => w
               end in
      let w := setIsConnected false w in
      let w := setIsConnecting false w in
      let w := setConnectionQuality QDisconnected w in
      let w := setOnlineStatus false w in
      set_pendingCleanup None w
  | Some token =>
      let w := log LogInit w in
      let w := setIsConnecting true w in
      let w := set_connectionStartTime now w in
      let '(sid, w) := io token w in
      let w := set_socketRef (Some sid) w in
      let w := sock_on sid NConnect LHandleConnect w in
      let w := sock_on sid NDisconnect LHandleDisconnect w in
      let w := sock_on sid NConnectError LHandleConnectError w in
      let w := sock_on sid NReconnect LHandleReconnect w in
      let w := sock_on sid NReconnectAttempt LHandleReconnectAttempt w in
      let w := sock_on sid NPong LHandlePong w in
      set_pendingCleanup (Some sid) w
  end.

(** React runs the cleanup the previous effect run returned, if any. *)
Definition runCleanup (now : Z) (w : World) : World :=
  match pendingCleanup w with
  | Some sid => set_pendingCleanup None (effectCleanup now sid w)
  | None => w
  end.

(** A render with the given [userToken]: on the first render, and
    whenever the token differs from the previous render's, the pending
    cleanup runs and then the effect. *)
Definition render (now : Z) (tok : option string) (w : World) : World :=
  if unmounted w then w
  else if decide (userToken w = Some tok) then w
  else effect now tok (runCleanup now (set_userToken (Some tok) w)).

Definition unmount (now : Z) (w : World) : World :=
  if unmounted w then w else set_unmounted true (runCleanup now w).

(** ** Timers *)

Definition runTimerCb (now : Z) (cb : TimerCb) (w : World) : World :=
  match cb with
  | CbSendPing => sendPing now w
  | CbEnsureTimeout p => ensureTimeout p w
  end.

(** An armed timer expires: a timeout is disarmed, an interval re-armed,
    and the callback runs. *)
Definition fireTimer (now : Z) (t : nat) (w : World) : World :=
  match timers w !! t with
  | Some (Some tm) =>
      let next := match period tm with
                  | Some d => Some {| callback := callback tm; due := now + d;
                                      period := Some d |}
                  | None => None
                  end in
      runTimerCb now (callback tm) (set_timers (<[t := next]> (timers w)) w)
  | _ => w
  end.

(** ** The event loop *)

Inductive Input :=
  | Render (tok : option string)
  | Unmount
  | Transport (sid : nat) (ev : Event)
  | TimerFire (t : nat)
  | CallEnsureConnected
  | CallSendPing.

Definition step (now : Z) (i : Input) (w : World) : World :=
  set_clock now
    match i with
    | Render tok => render now tok w
    | Unmount => unmount now w
    | Transport sid ev => transport now sid ev w
    | TimerFire t => fireTimer now t w
    | CallEnsureConnected => (ensureConnected now w).2
    | CallSendPing => sendPing now w
    end.

(** What the environment can do in a world. Time does not run backwards;
    a timer expires no earlier than it is due; the component is rendered
    until it is unmounted and its callbacks exist once it has rendered;
    and the transport library (socket.io-client, not part of the
    repository) keeps to its contract: a socket reports 'connect' only
    while it is not connected, 'disconnect' and server events such as
    'pong' only while it is connected, and 'connect_error', 'reconnect'
    and 'reconnect_attempt', which belong to the connection attempts of
    its manager, only while it is not connected. *)
Definition enabled (now : Z) (i : Input) (w : World) : bool :=
  bool_decide (clock w ≤ now) &&
  match i with
  | Render _ => negb (unmounted w)
  | Unmount => negb (unmounted w)
  | Transport sid ev =>
      match sockets w !! sid with
      | Some s =>
          match ev with
          | EvDisconnect _ | EvPong _ => connected s
          | _ => negb (connected s)
          end
      | None => false
      end
  | TimerFire t =>
      match timers w !! t with
      | Some (Some tm) => bool_decide (due tm ≤ now)
      | _ => false
      end
  | CallEnsureConnected | CallSendPing => bool_decide (userToken w ≠ None)
  end.

(** The hook before its first render (lines 60-68). *)
Definition init : World :=
  {| isConnected := false; isConnecting := false; connectionQuality := QDisconnected;
     socketRef := None; reconnectAttempts := 0%nat; connectionStartTime := 0;
     lastPingTime := 0; pingIntervalRef := None;
     userToken := None; pendingCleanup := None; unmounted := false;
     sockets := []; timers := []; promises := [];
     presence := []; console := []; clock := 0 |}.

(** Running a timed sequence of inputs; [None] when an input is not
    enabled where it occurs. *)
Fixpoint run (tr : list (Z * Input)) (w : World) : option World :=
  match tr with
  | [] => Some w
  | (now, i) :: tr' => if enabled now i w then run tr' (step now i w) else None
  end.

Definition reachable (w : World) : Prop := ∃ tr, run tr init = Some w.

(** [connectionState] of the specification, read off the two flags:
    Connecting while [isConnecting] is set, otherwise Connected when
    [isConnected] is set, otherwise Disconnected. Both flags are set
    where [isConnected] is stale: after a render with another token on a
    connected hook, line 161 sets [isConnecting] for the new socket,
    which is not connected, and nothing clears [isConnected]; the
    session the hook then holds is connecting. *)
Definition connectionState (w : World) : ConnState :=
  if isConnecting w then SConnecting
  else if isConnected w then SConnected
  else SDisconnected.

(** The armed timers whose callback is [sendPing]. *)
Definition isHeartbeat (tm : option Timer) : bool :=
  match tm with
  | Some tm => bool_decide (callback tm = CbSendPing)
  | None => false
  end.

Definition heartbeatTimers (w : World) : list nat :=
  (filter (λ it, isHeartbeat it.2 = true) (imap (λ i tm, (i, tm)) (timers w))).*1.

(** ** Invariants of the reachable worlds: definitions *)

Definition isOnConnect (nl : EventName * Listener) : Prop :=
  match nl with
  | (NConnect, LOnConnect _ _) => True
  | _ => False
  end.

(** A socket carries the six handlers of the effect, followed by one-shot
    listeners ([wired]), or one-shot listeners only ([unwired]). *)
Definition unwired (s : Socket) : Prop := Forall isOnConnect (listeners s).

Definition wired (s : Socket) : Prop :=
  ∃ ex, listeners s = sixHandlers ++ ex ∧ Forall isOnConnect ex.

(** Every armed heartbeat timer is the one [pingIntervalRef] holds. *)
Definition HeartbeatOK (ref : option nat) (tms : list (option Timer)) : Prop :=
  ∀ t tm, tms !! t = Some (Some tm) → callback tm = CbSendPing → ref = Some t.

Definition NoHeartbeat (tms : list (option Timer)) : Prop :=
  ∀ t tm, tms !! t = Some (Some tm) → callback tm ≠ CbSendPing.

(** No promise is rejected. *)
Definition PromisesOK (ps : list Promise) : Prop := ∀ p, ps !! p ≠ Some Rejected.

(** Every socket but the one captured by the pending cleanup is unwired;
    that one is wired and is [socketRef.current], and while it is connected
    the hook is [up]: connected and not connecting. *)
Definition SocketsOK (pc sr : option nat) (up : bool) (ss : list Socket) : Prop :=
  (∀ sid s, ss !! sid = Some s → pc ≠ Some sid → unwired s) ∧
  (∀ sid, pc = Some sid →
     sr = Some sid ∧
     ∃ s, ss !! sid = Some s ∧ wired s ∧ (connected s = true → up = true)).

Definition isUp (w : World) : bool := isConnected w && negb (isConnecting w).

(** The invariant of the reachable worlds. *)
Record Inv (w : World) : Prop := {
  inv_quality : isConnected w = false → connectionQuality w = QDisconnected;
  inv_sockets : SocketsOK (pendingCleanup w) (socketRef w) (isUp w) (sockets w);
  inv_heartbeat : HeartbeatOK (pingIntervalRef w) (timers w);
  inv_promises : PromisesOK (promises w)
}.

(** The six [off] calls of the cleanup, and the cleanup's effect on its
    socket. *)
Definition dropSix (s : Socket) : Socket :=
  with_listeners
    (removeFirst (NPong, LHandlePong)
      (removeFirst (NReconnectAttempt, LHandleReconnectAttempt)
        (removeFirst (NReconnect, LHandleReconnect)
          (removeFirst (NConnectError, LHandleConnectError)
            (removeFirst (NDisconnect, LHandleDisconnect)
              (removeFirst (NConnect, LHandleConnect) (listeners s))))))) s.

Definition closeSix (s : Socket) : Socket := with_connected false (dropSix s).

(** The socket the effect creates, once its handlers are registered. *)
Definition freshSocket (token : string) : Socket :=
  {| connected := false; listeners := sixHandlers; connectCalls := 0;
     emitted := []; auth := token |}.

(** Sample runs. *)
Definition trace_dropped : list (Z * Input) :=
  [ (0, Render (Some "A")); (50, Transport 0%nat EvConnect);
    (9000, Transport 0%nat (EvDisconnect "transport close")) ].

Definition world_dropped : World :=
  step 9000 (Transport 0%nat (EvDisconnect "transport close"))
    (step 50 (Transport 0%nat EvConnect) (step 0 (Render (Some "A")) init)).

Definition world_connecting : World := step 0 (Render (Some "A")) init.

Definition world_connected : World :=
  step 50 (Transport 0%nat EvConnect) (step 0 (Render (Some "A")) init).

Definition trace_connected : list (Z * Input) :=
  [ (0, Render (Some "A")); (50, Transport 0%nat EvConnect) ].

(** A world without its console output. *)
Definition eraseConsole (w : World) : World := set_console [] w.

Definition trace_token_changed : list (Z * Input) :=
  trace_connected ++ [ (60, Render (Some "B")) ].

Definition world_token_changed : World := step 60 (Render (Some "B")) world_connected.

Definition trace_stale_connected : list (Z * Input) :=
  trace_token_changed ++ [ (70, CallEnsureConnected); (10070, TimerFire 1%nat) ].

Definition world_stale_connected : World :=
  step 10070 (TimerFire 1%nat) (step 70 CallEnsureConnected world_token_changed).

(** The number of listeners registered on a socket. *)
Definition listenerCount (sid : nat) (w : World) : nat :=
  match sockets w !! sid with
  | Some s => length (listeners s)
  | None => 0%nat
  end.

Definition world_waiting : World := step 1 CallEnsureConnected world_connecting.

Definition trace_timed_out : list (Z * Input) :=
  [ (0, Render (Some "A")); (1, CallEnsureConnected); (10001, TimerFire 0%nat) ].

Definition world_timed_out : World := step 10001 (TimerFire 0%nat) world_waiting.

(** A step keeps [isConnected], or sets it and tells the presence store. *)
Definition presenceStep (w w' : World) : Prop :=
  isConnected w' = isConnected w ∨
  (isConnected w' = true ∧ presence w' = presence w ++ [true]) ∨
  (isConnected w' = false ∧ presence w' = presence w ++ [false]).

(** What a later world keeps of an earlier one: objects are never
    deallocated, a disarmed timer stays disarmed, a settled promise keeps
    its value, and a new cleanup closure captures a new socket. *)
Definition Ext (w w' : World) : Prop :=
  (length (sockets w) ≤ length (sockets w'))%nat ∧
  (length (timers w) ≤ length (timers w'))%nat ∧
  (length (promises w) ≤ length (promises w'))%nat ∧
  (∀ t, timers w !! t = Some None → timers w' !! t = Some None) ∧
  (∀ p v, promises w !! p = Some (Fulfilled v) → promises w' !! p = Some (Fulfilled v)) ∧
  (pendingCleanup w' = pendingCleanup w ∨ pendingCleanup w' = None ∨
   ∃ n, pendingCleanup w' = Some n ∧ (length (sockets w) ≤ n)%nat).


(** Ids held by the hook refer to allocated objects. *)
Definition AllocL (np nt : nat) (ss : list Socket) : Prop :=
  ∀ sid s n p t, ss !! sid = Some s → (n, LOnConnect p t) ∈ listeners s →
    (p < np)%nat ∧ (t < nt)%nat.

Definition AllocT (np : nat) (tms : list (option Timer)) : Prop :=
  ∀ t tm p, tms !! t = Some (Some tm) → callback tm = CbEnsureTimeout p → (p < np)%nat.

Definition AllocR (n : nat) (ref : option nat) : Prop :=
  ∀ i, ref = Some i → (i < n)%nat.

Record Alloc (w : World) : Prop := {
  alloc_listeners : AllocL (length (promises w)) (length (timers w)) (sockets w);
  alloc_timers : AllocT (length (promises w)) (timers w);
  alloc_interval : AllocR (length (timers w)) (pingIntervalRef w);
  alloc_socket : AllocR (length (sockets w)) (socketRef w)
}.

(** A pending [ensureConnected] call: promise [p], timeout [t] due at [d],
    one-shot listener on socket [sid]; nothing else refers to [p] or [t]. *)
Definition WaitT (p t : nat) (d : Z) (tms : list (option Timer)) : Prop :=
  tms !! t = Some (Some {| callback := CbEnsureTimeout p; due := d; period := None |}) ∧
  ∀ t' tm, tms !! t' = Some (Some tm) → callback tm = CbEnsureTimeout p → t' = t.

Definition WaitL (p t sid : nat) (ss : list Socket) : Prop :=
  (∃ s, ss !! sid = Some s ∧ (NConnect, LOnConnect p t) ∈ listeners s) ∧
  ∀ sid' s' n p' t', ss !! sid' = Some s' → (n, LOnConnect p' t') ∈ listeners s' →
    p' = p ∨ t' = t → sid' = sid.

Record Waiting (p t sid : nat) (d : Z) (w : World) : Prop := {
  wait_pending : promises w !! p = Some Pending;
  wait_timer : WaitT p t d (timers w);
  wait_listener : WaitL p t sid (sockets w);
  wait_interval : pingIntervalRef w ≠ Some t
}.

(** Runs in which the socket does not report 'connect' and the timeout
    does not expire. *)
Definition quiet (sid t : nat) (tr : list (Z * Input)) : Prop :=
  Forall (λ ni, ni.2 ≠ Transport sid EvConnect ∧ ni.2 ≠ TimerFire t) tr.

(** The socket of the running effect is connected. *)
Definition LiveUp (w : World) : Prop :=
  ∃ sid s, pendingCleanup w = Some sid ∧ sockets w !! sid = Some s ∧ connected s = true.

(** A heartbeat is armed only while the socket of the running effect is
    connected. *)
Definition Beat (w : World) : Prop := NoHeartbeat (timers w) ∨ LiveUp w.

(** The event each closure is written for. *)
Definition listenerEvent (l : Listener) : EventName :=
  match l with
  | LHandleConnect => NConnect
  | LHandleDisconnect => NDisconnect
  | LHandleConnectError => NConnectError
  | LHandleReconnect => NReconnect
  | LHandleReconnectAttempt => NReconnectAttempt
  | LHandlePong => NPong
  | LOnConnect _ _ => NConnect
  end.

(** What the hook arms: the heartbeat interval of 5 s and the one-shot
    timeout of 10 s; at time [c] neither is due later than its delay. *)
Definition timerShape (c : Z) (tm : Timer) : Prop :=
  match callback tm with
  | CbSendPing => period tm = Some 5000 ∧ due tm ≤ c + 5000
  | CbEnsureTimeout _ => period tm = None ∧ due tm ≤ c + 10000
  end.

Definition Shaped (c : Z) (tms : list (option Timer)) : Prop :=
  ∀ t tm, tms !! t = Some (Some tm) → timerShape c tm.

(** The timer a one-shot listener captured is the timeout of its call. *)
Definition ListenerTimers (tms : list (option Timer)) (ss : list Socket) : Prop :=
  ∀ sid s n p t tm, ss !! sid = Some s → (n, LOnConnect p t) ∈ listeners s →
    tms !! t = Some (Some tm) → callback tm = CbEnsureTimeout p.

(** While the socket of the running effect is connected, the interval
    [pingIntervalRef] holds is armed. *)
Definition Pulse (w : World) : Prop :=
  LiveUp w →
  ∃ t tm, pingIntervalRef w = Some t ∧ timers w !! t = Some (Some tm) ∧
          callback tm = CbSendPing.

(** [pingIntervalRef] never holds the timeout of a call. *)
Definition RefApart (ref : option nat) (ss : list Socket) : Prop :=
  ∀ sid s n p t, ss !! sid = Some s → (n, LOnConnect p t) ∈ listeners s → ref ≠ Some t.

(** The timer [pingIntervalRef] holds, while armed, is a heartbeat. *)
Definition RefBeat (ref : option nat) (tms : list (option Timer)) : Prop :=
  ∀ t tm, ref = Some t → tms !! t = Some (Some tm) → callback tm = CbSendPing.

Record Sched (c : Z) (w : World) : Prop := {
  sched_shape : Shaped c (timers w);
  sched_listener : ListenerTimers (timers w) (sockets w);
  sched_ref : RefApart (pingIntervalRef w) (sockets w);
  sched_beat : RefBeat (pingIntervalRef w) (timers w);
  sched_pulse : Pulse w
}.

(** What only a render or an unmount changes: the token the effect ran
    with, the cleanup it returned, [socketRef], and which sockets exist
    with which handshake token. *)
Definition Stable (w w' : World) : Prop :=
  userToken w' = userToken w ∧ unmounted w' = unmounted w ∧
  pendingCleanup w' = pendingCleanup w ∧ socketRef w' = socketRef w ∧
  connectionStartTime w' = connectionStartTime w ∧
  auth <$> sockets w' = auth <$> sockets w.

(** The session the hook holds for the token of the last render: none
    before the first render, after an unmount and for an empty token;
    otherwise the socket created last, with that token in its handshake. *)
Definition Session (w : World) : Prop :=
  match userToken w with
  | None => pendingCleanup w = None ∧ socketRef w = None ∧ sockets w = []
  | Some tok =>
      if unmounted w then pendingCleanup w = None
      else match tokenPresent tok with
           | Some token =>
               ∃ sid s, pendingCleanup w = Some sid ∧ S sid = length (sockets w) ∧
                        sockets w !! sid = Some s ∧ auth s = token
           | None => pendingCleanup w = None ∧ socketRef w = None
           end
  end.

(** The pings sent through the socket [sid] so far. *)
Definition pingsOf (sid : nat) (w : World) : list Z :=
  match sockets w !! sid with
  | Some s => emitted s
  | None => []
  end.

(** No ping is sent between two worlds. *)
Definition Mute (w w' : World) : Prop :=
  lastPingTime w' = lastPingTime w ∧ ∀ sid, pingsOf sid w' = pingsOf sid w.

(** One ping, stamped [now], is sent between two worlds, through the
    socket [sid], which is connected and is [socketRef.current]. *)
Definition OnePing (now : Z) (sid : nat) (w w' : World) : Prop :=
  socketRef w' = Some sid ∧ lastPingTime w' = now ∧
  (∃ s', sockets w' !! sid = Some s' ∧ connected s' = true) ∧
  pingsOf sid w' = pingsOf sid w ++ [now] ∧
  ∀ j, j ≠ sid → pingsOf j w' = pingsOf j w.

(** The steps that send a ping: a 'connect' event on the socket of the
    running effect, and a call of [sendPing] or an expiry of the heartbeat
    interval while [socketRef.current] is connected. *)
Definition pinging (i : Input) (w : World) : Prop :=
  match i with
  | Transport sid EvConnect => pendingCleanup w = Some sid
  | CallSendPing => socketConnected w = true
  | TimerFire t => socketConnected w = true ∧ t ∈ heartbeatTimers w
  | _ => False
  end.

(** Every ping sent so far was stamped no later than the last one, and
    that one no later than the present. *)
Definition PingsOK (w : World) : Prop :=
  lastPingTime w ≤ clock w ∧ ∀ sid ts, ts ∈ pingsOf sid w → ts ≤ lastPingTime w.

(** No promise is created and no socket becomes connected between two
    worlds. *)
Definition Calm (w w' : World) : Prop :=
  length (promises w') = length (promises w) ∧
  ∀ sid s', sockets w' !! sid = Some s' → connected s' = true →
            ∃ s, sockets w !! sid = Some s ∧ connected s = true.

(** Every pending promise of [ensureConnected] is waited for: its timeout
    is armed and its one-shot listener is registered, on a socket that is
    not connected. *)
Definition Pend (w : World) : Prop :=
  ∀ p, promises w !! p = Some Pending →
       ∃ t sid d s, Waiting p t sid d w ∧ sockets w !! sid = Some s ∧ connected s = false.

(** Between two worlds no timeout is armed: an armed timer was armed
    before, with the same callback, or is a new heartbeat. *)
Definition Tick (w w' : World) : Prop :=
  (length (timers w) ≤ length (timers w'))%nat ∧
  ∀ t tm, timers w' !! t = Some (Some tm) →
          (∃ tm0, timers w !! t = Some (Some tm0) ∧ callback tm0 = callback tm) ∨
          ((length (timers w) ≤ t)%nat ∧ callback tm = CbSendPing).

(** Every armed timeout belongs to a pending promise. *)
Definition TimeoutOK (w : World) : Prop :=
  ∀ t tm p, timers w !! t = Some (Some tm) → callback tm = CbEnsureTimeout p →
            promises w !! p = Some Pending.

(** The number of [connect()] calls made on the socket [sid] so far. *)
Definition callsOf (sid : nat) (w : World) : nat :=
  match sockets w !! sid with
  | Some s => connectCalls s
  | None => 0%nat
  end.

(** [connect()] is not called between two worlds. *)
Definition Idle (w w' : World) : Prop := ∀ sid, callsOf sid w' = callsOf sid w.





(** What a later world keeps of the timers of an earlier one: a timer of
    the earlier world that is armed later was armed then, with the same
    callback. *)
Definition Kept (w w' : World) : Prop :=
  (length (timers w) ≤ length (timers w'))%nat ∧
  ∀ t tm, (t < length (timers w))%nat → timers w' !! t = Some (Some tm) →
          ∃ tm0, timers w !! t = Some (Some tm0) ∧ callback tm0 = callback tm.

(** * The patch script [fix-fabric-runtime.js] *)
(** [fixRCTInstance] (lines 110-177) edits one file of the React Native
    sources in place.  A JavaScript string is the sequence of its UTF-16
    code units, a [list N]; the file system is a finite map from POSIX
    paths to entries, whose files hold text (valid UTF-8, so that reading
    and writing back are inverse); an exception thrown inside the [try]
    block is [None].  The only failure of the file system that is
    modelled is a directory where a file is expected. *)
(** An ASCII literal of the script as a JavaScript string. *)
Definition js (s : string) : list N :=
  (λ a, Ascii.N_of_ascii a) <$> String.list_ascii_of_string s.

(** The line feed of the template literals and of the regular expression. *)
Definition lf : N := 0x0A%N.

(** [pat] occurs at position 0 of [s]. *)
Fixpoint isPrefix (pat s : list N) : bool :=
  match pat, s with
  | [], _ => true
  | p :: pat', c :: s' => bool_decide (p = c) && isPrefix pat' s'
  | _ :: _, [] => false
  end.

(** The first position at which [pat] occurs in [s]. *)
Fixpoint search (pat s : list N) : option nat :=
  if isPrefix pat s then Some 0%nat
  else match s with
       | [] => None
       | _ :: s' => S <$> search pat s'
       end.

(** [s.indexOf(pat)]: the first position, or -1. *)
Definition indexOf (s pat : list N) : Z :=
  match search pat s with
  | Some k => Z.of_nat k
  | None => -1
  end.

(** [s.includes(pat)]. *)
Definition includes (s pat : list N) : bool :=
  match search pat s with
  | Some _ => true
  | None => false
  end.

(** A position clamped to [0, s.length], as [substring] does. *)
Definition clamp (s : list N) (i : Z) : nat :=
  Z.to_nat (Z.min (Z.max i 0) (Z.of_nat (length s))).

(** [s.substring(a, b)]: both positions are clamped, and swapped when
    [a > b]. *)
Definition substring (s : list N) (a b : Z) : list N :=
  let a' := clamp s a in
  let b' := clamp s b in
  take (Nat.max a' b' - Nat.min a' b') (drop (Nat.min a' b') s).

(** [s.substring(a)]. *)
Definition substringFrom (s : list N) (a : Z) : list N :=
  substring s a (Z.of_nat (length s)).

(** The code units [\s] matches: WhiteSpace and LineTerminator. *)
Definition isSpace (c : N) : bool :=
  bool_decide (c ∈ [0x09; 0x0A; 0x0B; 0x0C; 0x0D; 0x20; 0xA0; 0x1680; 0x2028;
                    0x2029; 0x202F; 0x205F; 0x3000; 0xFEFF]%N)
  || (0x2000 <=? c)%N && (c <=? 0x200A)%N.

(** The code units [.] does not match. *)
Definition isLineTerminator (c : N) : bool :=
  bool_decide (c ∈ [0x0A; 0x0D; 0x2028; 0x2029]%N).

(** The length of the longest run of [\s] at the head of [s]. *)
Fixpoint spaceRun (s : list N) : nat :=
  match s with
  | c :: s' => if isSpace c then S (spaceRun s') else 0%nat
  | [] => 0%nat
  end.

(** One past the position of the last line feed of [ws]. *)
Fixpoint lastFeed (ws : list N) : option nat :=
  match ws with
  | [] => None
  | c :: ws' =>
      match lastFeed ws' with
      | Some e => Some (S e)
      | None => if bool_decide (c = lf) then Some 1%nat else None
      end
  end.

(** [\s*\n] at the head of [s]: the greedy [\s*] takes the whole run of
    white space and gives code units back until a line feed follows, so
    the match ends with the last line feed of the run. *)
Definition spacesThenFeed (s : list N) : option nat :=
  lastFeed (take (spaceRun s) s).

(** [.*?>\s*\n] at the head of [s]: the lazy [.*?] grows one code unit
    at a time, never over a line terminator, until a ['>'] is followed
    by [\s*\n]. *)
Fixpoint lazyTail (s : list N) : option nat :=
  match s with
  | [] => None
  | c :: s' =>
      let more := if isLineTerminator c then None else S <$> lazyTail s' in
      if bool_decide (c = 0x3E%N) then
        match spacesThenFeed s' with
        | Some e => Some (S e)
        | None => more
        end
      else more
  end.

(** [pat] stripped from the head of [s]. *)
Definition stripPrefix (pat s : list N) : option (list N) :=
  if isPrefix pat s then Some (drop (length pat) s) else None.

(** The length of the match of [/#import\s+<React.*?>\s*\n/] at position
    0 of [s].  The greedy [\s+] can only keep its whole run: after a
    shorter one a white-space code unit would have to match ['<']. *)
Definition matchAt (s : list N) : option nat :=
  r1 ← stripPrefix (js "#import") s;
  let n := spaceRun r1 in
  if bool_decide (n = 0%nat) then None
  else
    r2 ← stripPrefix (js "<React") (drop n r1);
    m ← lazyTail r2;
    Some (7 + n + 6 + m)%nat.

(** The matches of the global regular expression from left to right:
    after a match the search resumes behind it ([skip] counts the code
    units of the last match still to pass). *)
Fixpoint matchFrom (skip : nat) (s : list N) : list (list N) :=
  match s with
  | [] => []
  | _ :: s' =>
      match skip with
      | S k => matchFrom k s'
      | O =>
          match matchAt s with
          | Some m => take m s :: matchFrom (m - 1) s'
          | None => matchFrom 0 s'
          end
      end
  end.

(** [content.match(importRegex) || []]. *)
Definition matchImports (content : list N) : list (list N) :=
  matchFrom 0 content.

(** The identifier the script looks for. *)
Definition bindingName : list N :=
  js "RCTInstallNativeComponentRegistryBinding".

(** The import directive the script adds. *)
Definition importLine : list N :=
  js "#import <React/RCTNativeComponentRegistryBinding.h>".

(** Lines 125-162: the new [content] and the value of [modified]. *)
Definition editContent (content : list N) : list N * bool :=
  let '(content, modified) :=
    if includes content bindingName && negb (includes content importLine)
    then
      let imports := matchImports content in
      match last imports with
      | Some lastImport =>
          let insertIndex :=
            indexOf content lastImport + Z.of_nat (length lastImport) in
          let newImport := importLine ++ [lf; lf] in
          (substring content 0 insertIndex ++ newImport ++
             substringFrom content insertIndex, true)
      | None => (content, false)
      end
    else (content, false) in
  if negb modified && includes content bindingName then
    let firstImportIndex := indexOf content (js "#import") in
    if bool_decide (firstImportIndex ≠ -1) then
      let beforeFirstImport := substring content 0 firstImportIndex in
      let afterFirstImport := substringFrom content firstImportIndex in
      let newImport := importLine ++ [lf] in
      (beforeFirstImport ++ newImport ++ afterFirstImport, true)
    else (content, modified)
  else (content, modified).

(** What a path names. *)
Inductive Entry := File (content : list N) | Directory.

(** [fs.existsSync(p)]. *)
Definition existsSync (fs : gmap string Entry) (p : string) : bool :=
  bool_decide (is_Some (fs !! p)).

(** [fs.readFileSync(p, 'utf-8')]; it throws on a directory. *)
Definition readFileSync (fs : gmap string Entry) (p : string)
    : option (list N) :=
  match fs !! p with
  | Some (File content) => Some content
  | _ => None
  end.

(** [fs.writeFileSync(p, content, 'utf-8')]; it throws on a directory. *)
Definition writeFileSync (fs : gmap string Entry) (p : string)
    (content : list N) : option (gmap string Entry) :=
  match fs !! p with
  | Some Directory => None
  | _ => Some (<[p := File content]> fs)
  end.

(** [fs.copyFileSync(src, dst)]. *)
Definition copyFileSync (fs : gmap string Entry) (src dst : string)
    : option (gmap string Entry) :=
  content ← readFileSync fs src;
  writeFileSync fs dst content.

(** The four messages of [fixRCTInstance]. *)
Inductive Message := MsgAbsent | MsgFixed | MsgUnchanged | MsgError.

(** What a call leaves behind: the value returned, the files and the
    console. *)
Record Outcome := {
  returned : bool;
  files : gmap string Entry;
  logged : list Message;
}.

(** [path.join(reactNativePath, 'ReactCommon/.../RCTInstance.mm')], for a
    normalized [reactNativePath] without a trailing slash, which is what
    lines 7-9 compute. *)
Definition instancePath (reactNativePath : string) : string :=
  reactNativePath +:+
  "/ReactCommon/react/runtime/platform/ios/ReactCommon/RCTInstance.mm".

(** [instancePath + '.backup']. *)
Definition backupPath (reactNativePath : string) : string :=
  instancePath reactNativePath +:+ ".backup".

(** [fixRCTInstance] (lines 110-177). *)
Definition fixRCTInstance (reactNativePath : string) (fs : gmap string Entry)
    : Outcome :=
  let instancePath := instancePath reactNativePath in
  if negb (existsSync fs instancePath) then
    {| returned := false; files := fs; logged := [MsgAbsent] |}
  else
    let backupPath := backupPath reactNativePath in
    match (if negb (existsSync fs backupPath)
           then copyFileSync fs instancePath backupPath
           else Some fs) with
    | None => {| returned := false; files := fs; logged := [MsgError] |}
    | Some fs1 =>
        match readFileSync fs1 instancePath with
        | None =>
            {| returned := false; files := fs1; logged := [MsgError] |}
        | Some content =>
            let '(content, modified) := editContent content in
            if modified then
              match writeFileSync fs1 instancePath content with
              | Some fs2 =>
                  {| returned := true; files := fs2; logged := [MsgFixed] |}
              | None =>
                  {| returned := false; files := fs1; logged := [MsgError] |}
              end
            else
              {| returned := false; files := fs1; logged := [MsgUnchanged] |}
        end
    end.

(** The files after [n] runs of [fixRCTInstance]. *)
Fixpoint fixTimes (n : nat) (reactNativePath : string)
    (fs : gmap string Entry) : gmap string Entry :=
  match n with
  | O => fs
  | S n' => fixTimes n' reactNativePath (files (fixRCTInstance reactNativePath fs))
  end.

(** What [editContent] does to [content], by cases: nothing, the
    insertion behind the last import, or the insertion in front of the
    first one. *)
Definition Edited (content : list N) (res : list N * bool) : Prop :=
  (res = (content, false) ∧
   (includes content bindingName = false ∨
    includes content (js "#import") = false))
  ∨ ∃ k newImport,
      res = (take k content ++ newImport ++ drop k content, true) ∧
      includes content bindingName = true ∧
      includes content (js "#import") = true ∧
      (k ≤ length content)%nat ∧
      ((newImport = importLine ++ [lf; lf] ∧
        includes content importLine = false ∧
        ∃ lastImport,
          last (matchImports content) = Some lastImport ∧
          (0 < length lastImport ≤ k)%nat ∧
          search lastImport content = Some (k - length lastImport)%nat ∧
          content !! (k - 1)%nat = Some lf)
       ∨ (newImport = importLine ++ [lf] ∧
          (includes content importLine = true ∨ matchImports content = []) ∧
          search (js "#import") content = Some k)).

(** A file with one React import that uses the binding. *)
Definition sampleInstance : list N :=
  js "#import <React/RCTBridge.h>" ++ [lf] ++
  js "RCTInstallNativeComponentRegistryBinding(runtime);" ++ [lf].

(** A tree that holds this file and no backup. *)
Definition sampleFiles : gmap string Entry :=
  {[ instancePath "rn" := File sampleInstance ]}.

(** The strings [#import\s+<React.*?>\s*\n] can match: [#import], white
    space, [<React], code units other than line terminators, ['>'],
    white space and a line feed. *)
Definition ImportShape (x : list N) : Prop :=
  ∃ ws mid ws',
    x = js "#import" ++ ws ++ js "<React" ++ mid ++ [0x3E%N] ++ ws' ++ [lf] ∧
    ws ≠ [] ∧
    Forall (λ c, isSpace c = true) ws ∧
    Forall (λ c, isLineTerminator c = false) mid ∧
    Forall (λ c, isSpace c = true) ws'.

(** * Proofs *)

(** ** Listener tables *)

Lemma filter_onConnect n ex :
  Forall isOnConnect ex →
  filter (λ nl : EventName * Listener, nl.1 = n) ex = if decide (n = NConnect) then ex else [].
Proof.
  induction 1 as [|[m l] ex Hx Hex IH]; [by case_decide|].
  rewrite filter_cons, IH. destruct m, l; try done; simpl.
  repeat case_decide; subst; try done.
Qed.

Lemma listenersFor_unwired n s :
  unwired s → listenersFor n s = if decide (n = NConnect) then (listeners s).*2 else [].
Proof.
  intros H. unfold listenersFor. rewrite (filter_onConnect _ _ H). by case_decide.
Qed.

Lemma listenersFor_wired n s ex :
  listeners s = sixHandlers ++ ex → Forall isOnConnect ex →
  listenersFor n s =
    match n with
    | NConnect => LHandleConnect :: ex.*2
    | NDisconnect => [LHandleDisconnect]
    | NConnectError => [LHandleConnectError]
    | NReconnect => [LHandleReconnect]
    | NReconnectAttempt => [LHandleReconnectAttempt]
    | NPong => [LHandlePong]
    end.
Proof.
  intros E H. unfold listenersFor. rewrite E, filter_app, (filter_onConnect _ _ H).
  destruct n; vm_compute filter at 1; by case_decide.
Qed.

(** ** Invariant pieces *)

(** ** Preservation of the invariant *)

Lemma HeartbeatOK_clear ref tms t :
  HeartbeatOK ref tms → HeartbeatOK ref (<[t := None]> tms).
Proof.
  intros H t' tm [(-> & ? & _)|[_ Ht]]%list_lookup_insert_Some; [done|]. by apply H.
Qed.

Lemma NoHeartbeat_clear ref tms :
  HeartbeatOK ref tms →
  NoHeartbeat (match ref with Some t => <[t := None]> tms | None => tms end).
Proof.
  intros H t' tm Ht' Hcb. destruct ref as [t|].
  - apply list_lookup_insert_Some in Ht' as [(-> & ? & _)|[Hne Ht']]; [done|].
    specialize (H _ _ Ht' Hcb). congruence.
  - by specialize (H _ _ Ht' Hcb).
Qed.

Lemma NoHeartbeat_OK ref tms : NoHeartbeat tms → HeartbeatOK ref tms.
Proof. intros H t tm Ht Hcb. by destruct (H _ _ Ht). Qed.

Lemma HeartbeatOK_arm tms tm :
  NoHeartbeat tms → HeartbeatOK (Some (length tms)) (tms ++ [Some tm]).
Proof.
  intros H t tm' [[_ Ht]|[-> _]]%lookup_snoc_Some Hcb; [|done].
  by destruct (H _ _ Ht).
Qed.

Lemma HeartbeatOK_snoc ref tms tm :
  callback tm ≠ CbSendPing → HeartbeatOK ref tms → HeartbeatOK ref (tms ++ [Some tm]).
Proof.
  intros Hne H t tm' [[_ Ht]|[-> [= <-]]]%lookup_snoc_Some Hcb; [|done]. by eapply H.
Qed.

Lemma HeartbeatOK_rearm ref tms t tm next :
  tms !! t = Some (Some tm) →
  (∀ tm', next = Some tm' → callback tm' = callback tm) →
  HeartbeatOK ref tms → HeartbeatOK ref (<[t := next]> tms).
Proof.
  intros Ht Hnext H t' tm' [(-> & -> & _)|[_ Ht']]%list_lookup_insert_Some Hcb.
  - eapply H; [done|]. by rewrite <-(Hnext tm').
  - by eapply H.
Qed.

Lemma PromisesOK_snoc ps : PromisesOK ps → PromisesOK (ps ++ [Pending]).
Proof. intros H p [[_ Hp]|[_ ?]]%lookup_snoc_Some; [by eapply H|done]. Qed.

Lemma PromisesOK_settle p v ps : PromisesOK ps → PromisesOK (settle p v ps).
Proof.
  intros H. unfold settle. repeat case_match; try done; simpl.
  intros q [(-> & ? & _)|[_ Hq]]%list_lookup_insert_Some; [done|]. by eapply H.
Qed.

Lemma SocketsOK_alter pc sr up ss f sid :
  (∀ s, unwired s → unwired (f s)) → (∀ s, wired s → wired (f s)) →
  (∀ s, connected (f s) = true → connected s = true) →
  SocketsOK pc sr up ss → SocketsOK pc sr up (alter f sid ss).
Proof.
  intros Hu Hw Hc [Hr Hl]. split.
  - intros j s'. rewrite list_lookup_alter. case_decide; subst; [|by eauto].
    destruct (ss !! j) eqn:E; intros [= <-] ?. eauto.
  - intros j Hj. destruct (Hl _ Hj) as (? & s & Hs & ? & ?). split; [done|].
    rewrite list_lookup_alter. case_decide; subst; [|by eauto].
    rewrite Hs. exists (f s). split_and!; [done|by auto|]. intros ?%Hc. auto.
Qed.

Lemma SocketsOK_weaken pc sr (up up' : bool) ss :
  (up = true → up' = true) → SocketsOK pc sr up ss → SocketsOK pc sr up' ss.
Proof.
  intros Hup [Hr Hl]. split; [done|].
  intros j Hj. destruct (Hl _ Hj) as (? & s & Hs & ? & ?). eauto 10.
Qed.

Lemma SocketsOK_down pc sr up up' ss :
  (∀ sid s, pc = Some sid → ss !! sid = Some s → connected s = false) →
  SocketsOK pc sr up ss → SocketsOK pc sr up' ss.
Proof.
  intros Hd [Hr Hl]. split; [done|].
  intros j Hj. destruct (Hl _ Hj) as (? & s & Hs & ? & ?). split; [done|].
  exists s. split_and!; [done..|]. intros Hc. rewrite (Hd _ _ Hj Hs) in Hc. done.
Qed.

Lemma SocketsOK_up pc sr up ss f sid :
  (∀ s, unwired s → unwired (f s)) → (∀ s, wired s → wired (f s)) →
  SocketsOK pc sr up ss → SocketsOK pc sr true (alter f sid ss).
Proof.
  intros Hu Hw [Hr Hl]. split.
  - intros j s'. rewrite list_lookup_alter. case_decide; subst; [|by eauto].
    destruct (ss !! j) eqn:E; intros [= <-] ?. eauto.
  - intros j Hj. destruct (Hl _ Hj) as (? & s & Hs & ? & ?). split; [done|].
    rewrite list_lookup_alter. case_decide; subst; [|by eauto].
    rewrite Hs. exists (f s). split_and!; [done|by auto|done].
Qed.

Lemma SocketsOK_retired pc sr up ss f sid :
  pc ≠ Some sid → (∀ s, unwired s → unwired (f s)) →
  SocketsOK pc sr up ss → SocketsOK pc sr up (alter f sid ss).
Proof.
  intros Hne Hu [Hr Hl]. split.
  - intros j s'. rewrite list_lookup_alter. case_decide; subst; [|by eauto].
    destruct (ss !! j) eqn:E; intros [= <-] ?. eauto.
  - intros j Hj. destruct (Hl _ Hj) as (? & s & Hs & ? & ?). split; [done|].
    rewrite list_lookup_alter_ne by congruence. eauto.
Qed.

Lemma SocketsOK_None sr sr' up up' ss :
  SocketsOK None sr up ss → SocketsOK None sr' up' ss.
Proof. intros [Hr Hl]. split; [done|]. by intros. Qed.

Lemma SocketsOK_teardown sr sr' up up' ss f sid :
  (∀ s, unwired s → unwired (f s)) → (∀ s, wired s → unwired (f s)) →
  SocketsOK (Some sid) sr up ss → SocketsOK None sr' up' (alter f sid ss).
Proof.
  intros Hu Hw [Hr Hl]. split; [|done].
  intros j s'. rewrite list_lookup_alter. case_decide; subst.
  - destruct (Hl j eq_refl) as (_ & s & -> & ? & _). intros [= <-] _. eauto.
  - intros Hj _. eapply Hr; [done|congruence].
Qed.

Lemma alter_snoc {A} (f : A → A) (l : list A) x :
  alter f (length l) (l ++ [x]) = l ++ [f x].
Proof. induction l; simpl; by f_equal. Qed.

Lemma SocketsOK_io sr up up' ss s :
  wired s → connected s = false →
  SocketsOK None sr up ss →
  SocketsOK (Some (length ss)) (Some (length ss)) up' (ss ++ [s]).
Proof.
  intros Hw Hc [Hr Hl]. split.
  - intros j s' [[_ Hj]|[-> _]]%lookup_snoc_Some Hne; [by eauto|done].
  - intros j [= <-]. split; [done|]. exists s.
    rewrite lookup_app_r, Nat.sub_diag by done. split_and!; [done..|]. congruence.
Qed.

(** Removing or adding listeners. *)

Lemma Forall_removeFirst x ls :
  Forall isOnConnect ls → Forall isOnConnect (removeFirst x ls).
Proof.
  induction 1; simpl; [done|]. case_decide; [done|]. by constructor.
Qed.

Lemma removeFirst_app_onConnect p t ex :
  removeFirst (NConnect, LOnConnect p t) (sixHandlers ++ ex) =
  sixHandlers ++ removeFirst (NConnect, LOnConnect p t) ex.
Proof. simpl. repeat (case_decide; [done|]). done. Qed.

Lemma unwired_off n l s : unwired s → unwired (with_listeners (removeFirst (n, l) (listeners s)) s).
Proof. apply Forall_removeFirst. Qed.

Lemma wired_off_onConnect p t s :
  wired s → wired (with_listeners (removeFirst (NConnect, LOnConnect p t) (listeners s)) s).
Proof.
  intros (ex & E & H). exists (removeFirst (NConnect, LOnConnect p t) ex). simpl.
  rewrite E, removeFirst_app_onConnect. split; [done|]. by apply Forall_removeFirst.
Qed.

Lemma unwired_on_onConnect p t s :
  unwired s → unwired (with_listeners (listeners s ++ [(NConnect, LOnConnect p t)]) s).
Proof. intros H. apply Forall_app. split; [done|]. by repeat constructor. Qed.

Lemma wired_on_onConnect p t s :
  wired s → wired (with_listeners (listeners s ++ [(NConnect, LOnConnect p t)]) s).
Proof.
  intros (ex & E & H). exists (ex ++ [(NConnect, LOnConnect p t)]).
  cbn [with_listeners listeners]. rewrite E, <-(assoc_L (++)). split; [done|].
  apply Forall_app. split; [done|]. by repeat constructor.
Qed.

Lemma isUp_true w : isUp w = true → isConnected w = true ∧ isConnecting w = false.
Proof. unfold isUp. intros [-> ->%negb_true_iff]%andb_prop. done. Qed.

Lemma unwired_with_connected b s : unwired s → unwired (with_connected b s).
Proof. done. Qed.
Lemma wired_with_connected b s : wired s → wired (with_connected b s).
Proof. done. Qed.

Lemma unwired_with_connectCalls n s : unwired s → unwired (with_connectCalls n s).
Proof. done. Qed.
Lemma wired_with_connectCalls n s : wired s → wired (with_connectCalls n s).
Proof. done. Qed.
Lemma unwired_with_emitted l s : unwired s → unwired (with_emitted l s).
Proof. done. Qed.
Lemma wired_with_emitted l s : wired s → wired (with_emitted l s).
Proof. done. Qed.

Create HintDb sock discriminated.
#[local] Hint Resolve unwired_with_connected wired_with_connected
  unwired_with_connectCalls wired_with_connectCalls
  unwired_with_emitted wired_with_emitted
  unwired_off wired_off_onConnect unwired_on_onConnect wired_on_onConnect
  SocketsOK_alter SocketsOK_up SocketsOK_retired
  HeartbeatOK_clear HeartbeatOK_arm NoHeartbeat_OK PromisesOK_settle PromisesOK_snoc : sock.

Ltac unfold_sock := unfold sock_on, sock_off, sock_connect, sock_emitPing, updSocket in *.

Lemma Inv_sendPing now w : Inv w → Inv (sendPing now w).
Proof.
  intros [Hq Hs Hh Hp]. unfold sendPing. repeat case_match; try done.
  unfold_sock. split; simpl; try done.
  eauto with sock.
Qed.

Lemma Inv_set_clock now w : Inv w → Inv (set_clock now w).
Proof. by intros []. Qed.

Lemma Inv_onConnect p t w : Inv w → Inv (onConnect p t w).
Proof.
  intros [Hq Hs Hh Hp]. unfold onConnect.
  case_match; unfold_sock; split; unfold isUp; simpl in *.
  all: try done.
  all: try by apply HeartbeatOK_clear.
  all: try by apply PromisesOK_settle.
  - apply SocketsOK_alter; [apply unwired_off|apply wired_off_onConnect|done|].
    eapply SocketsOK_weaken; [|done]. unfold isUp. by intros [-> _]%andb_prop.
  - eapply SocketsOK_weaken; [|done]. unfold isUp. by intros [-> _]%andb_prop.
Qed.

Lemma Inv_handleConnect now sid w :
  Inv w → Inv (handleConnect now (updSocket sid (with_connected true) w)).
Proof.
  intros [Hq Hs Hh Hp]. unfold handleConnect.
  apply Inv_sendPing. unfold setInterval, updSocket.
  pose proof (NoHeartbeat_clear _ _ Hh) as Hn. simpl.
  destruct (pingIntervalRef w); split; unfold isUp; simpl in *; try done.
  all: eauto with sock.
Qed.

Lemma Inv_handleDisconnect reason sid w :
  Inv w → pendingCleanup w = Some sid →
  Inv (handleDisconnect reason (updSocket sid (with_connected false) w)).
Proof.
  intros [Hq Hs Hh Hp] Hpc. unfold handleDisconnect, updSocket.
  pose proof (NoHeartbeat_clear _ _ Hh) as Hn.
  assert (∀ up, SocketsOK (pendingCleanup w) (socketRef w) up
                  (alter (with_connected false) sid (sockets w))) as Hs'.
  { intros up. eapply SocketsOK_down; [|apply SocketsOK_alter; eauto with sock; done].
    intros j s Hj. assert (j = sid) as -> by congruence. rewrite list_lookup_alter_eq.
    destruct (sockets w !! sid); by intros [= <-]. }
  simpl. repeat case_match; split; unfold isUp; simpl in *; try done.
  all: eauto with sock.
Qed.

Lemma Inv_handleConnectError message w :
  Inv w →
  (∀ sid s, pendingCleanup w = Some sid → sockets w !! sid = Some s → connected s = false) →
  Inv (handleConnectError message w).
Proof.
  intros [Hq Hs Hh Hp] Hd. split; unfold isUp; simpl; try done.
  by eapply SocketsOK_down.
Qed.

Lemma Inv_handleReconnect n w : Inv w → Inv (handleReconnect n w).
Proof.
  intros [Hq Hs Hh Hp]. split; unfold isUp; simpl; try done.
  eapply SocketsOK_weaken; [|done]. by intros [-> _]%isUp_true.
Qed.

Lemma Inv_handleReconnectAttempt n w :
  Inv w →
  (∀ sid s, pendingCleanup w = Some sid → sockets w !! sid = Some s → connected s = false) →
  Inv (handleReconnectAttempt n w).
Proof.
  intros [Hq Hs Hh Hp] Hd. split; unfold isUp; simpl; try done.
  by eapply SocketsOK_down.
Qed.

Lemma socketConnected_live w sid :
  Inv w → pendingCleanup w = Some sid → socketConnected w = true → isConnected w = true.
Proof.
  intros [_ [_ Hl] _ _] Hpc. destruct (Hl _ Hpc) as (Hsr & s & Hs & _ & Hc).
  unfold socketConnected, currentSocket. rewrite Hsr, Hs. by intros [-> _]%Hc%isUp_true.
Qed.

Lemma checkConnectionQuality_cases now w :
  ∃ q, checkConnectionQuality now w = setConnectionQuality q w ∧
       (socketConnected w = false → q = QDisconnected).
Proof.
  unfold checkConnectionQuality. destruct (socketConnected w); simpl.
  - repeat case_match; eexists; split; done.
  - by exists QDisconnected.
Qed.

Lemma Inv_handlePong now data sid w :
  Inv w → pendingCleanup w = Some sid → Inv (handlePong now data w).
Proof.
  intros H Hpc. destruct data as [|ts|]; [done| |done]. simpl.
  pose proof (socketConnected_live _ _ H Hpc) as Hc. destruct H as [Hq Hs Hh Hp].
  match goal with |- Inv (checkConnectionQuality _ ?w') =>
    destruct (checkConnectionQuality_cases now w') as (q & -> & Hq') end.
  change (socketConnected w = false → q = QDisconnected) in Hq'.
  split; unfold isUp; simpl; try done.
  intros E. apply Hq'. destruct (socketConnected w); [|done]. by rewrite Hc in E.
Qed.

Lemma Inv_flag_retired b sid w :
  Inv w → pendingCleanup w ≠ Some sid → Inv (updSocket sid (with_connected b) w).
Proof.
  intros [Hq Hs Hh Hp] Hpc. split; unfold isUp, updSocket; simpl; try done.
  eauto with sock.
Qed.

Lemma Inv_ensureTimeout p w : Inv w → Inv (ensureTimeout p w).
Proof.
  intros [Hq Hs Hh Hp]. split; unfold isUp; simpl; try done.
  - eapply SocketsOK_weaken; [|done]. by intros [-> _]%isUp_true.
  - by apply PromisesOK_settle.
Qed.

Lemma Inv_fireTimer now t w : Inv w → Inv (fireTimer now t w).
Proof.
  intros H. unfold fireTimer. destruct (timers w !! t) as [[tm|]|] eqn:Ht; try done.
  assert (Inv (set_timers (<[t := match period tm with
       | Some d => Some {| callback := callback tm; due := now + d; period := Some d |}
       | None => None end]> (timers w)) w)) as H'.
  { destruct H as [Hq Hs Hh Hp]. split; simpl; try done.
    eapply HeartbeatOK_rearm; [done| |done]. intros tm'. by destruct (period tm); intros [= <-]. }
  destruct (callback tm); simpl; [by apply Inv_sendPing|by apply Inv_ensureTimeout].
Qed.

Lemma currentSocket_Some w sid s :
  currentSocket w = Some (sid, s) → socketRef w = Some sid ∧ sockets w !! sid = Some s.
Proof. unfold currentSocket. repeat case_match; naive_solver. Qed.

Lemma live_down w sid s :
  Inv w → socketRef w = Some sid → sockets w !! sid = Some s → connected s = false →
  ∀ j s', pendingCleanup w = Some j → sockets w !! j = Some s' → connected s' = false.
Proof.
  intros [_ [_ Hl] _ _] Hsr Hs Hc j s' Hj Hs'.
  destruct (Hl _ Hj) as (? & _). congruence.
Qed.

Lemma Inv_ensureConnected now w : Inv w → Inv (ensureConnected now w).2.
Proof.
  intros H. unfold ensureConnected, newPromise. simpl.
  change (currentSocket (set_promises (promises w ++ [Pending]) w)) with (currentSocket w).
  destruct (currentSocket w) as [[sid s]|] eqn:Hcur.
  - apply currentSocket_Some in Hcur as [Hsr Hs].
    destruct (connected s) eqn:Hc; simpl.
    + destruct H as [Hq Hs' Hh Hp]. split; unfold isUp; simpl; eauto with sock.
    + pose proof (live_down _ _ _ H Hsr Hs Hc) as Hd.
      destruct H as [Hq Hs' Hh Hp]. unfold_sock.
      split; unfold isUp; simpl; eauto with sock.
      * do 2 (apply SocketsOK_alter; eauto with sock). by eapply SocketsOK_down.
      * by apply HeartbeatOK_snoc.
  - destruct H as [Hq Hs' Hh Hp]. split; unfold isUp; simpl; eauto with sock.
Qed.

Lemma lookup_updSocket sid f w j :
  sockets (updSocket sid f w) !! j =
    if decide (sid = j) then f <$> sockets w !! j else sockets w !! j.
Proof. unfold updSocket; simpl. rewrite list_lookup_alter. by case_decide; subst. Qed.

(** [socket.disconnect()] on a socket without [handleDisconnect]. *)
Lemma emit_unwired now sid ev w s :
  sockets w !! sid = Some s → unwired s → eventName ev ≠ NConnect → emit now sid ev w = w.
Proof.
  intros Hs Hu Hn. unfold emit. rewrite Hs, (listenersFor_unwired _ _ Hu).
  by case_decide.
Qed.

Lemma sock_disconnect_unwired now sid w s :
  sockets w !! sid = Some s → unwired s →
  sock_disconnect now sid w = if connected s then updSocket sid (with_connected false) w else w.
Proof.
  intros Hs Hu. unfold sock_disconnect. rewrite Hs. destruct (connected s); [|done].
  eapply emit_unwired; [|by apply (unwired_with_connected false), Hu|done].
  rewrite lookup_updSocket. case_decide; [|done]. by rewrite Hs.
Qed.

Lemma sock_disconnect_None now sid w :
  sockets w !! sid = None → sock_disconnect now sid w = w.
Proof. intros Hs. unfold sock_disconnect. by rewrite Hs. Qed.

Lemma dropSix_wired s ex :
  listeners s = sixHandlers ++ ex → listeners (dropSix s) = ex.
Proof. intros E. unfold dropSix. rewrite E. simpl. by repeat case_decide. Qed.

Lemma dropSix_unwired s : unwired s → unwired (dropSix s).
Proof. intros H. unfold dropSix, unwired. simpl. by do 6 apply Forall_removeFirst. Qed.

Lemma sockets_six_off sid w :
  sockets
    (sock_off sid NPong LHandlePong
      (sock_off sid NReconnectAttempt LHandleReconnectAttempt
        (sock_off sid NReconnect LHandleReconnect
          (sock_off sid NConnectError LHandleConnectError
            (sock_off sid NDisconnect LHandleDisconnect
              (sock_off sid NConnect LHandleConnect w)))))) =
  alter dropSix sid (sockets w).
Proof.
  unfold_sock. simpl. rewrite !list_alter_alter_eq. by apply list_alter_ext.
Qed.

Lemma with_connected_false_id s : connected s = false → with_connected false s = s.
Proof. destruct s; simpl; by intros ->. Qed.

Lemma effectCleanup_live now sid w s ex :
  sockets w !! sid = Some s → listeners s = sixHandlers ++ ex → Forall isOnConnect ex →
  effectCleanup now sid w =
    set_sockets (alter closeSix sid (sockets w))
      (match pingIntervalRef w with
       | Some t => clearTimer t (log LogCleanup w)
       | None => log LogCleanup w
       end).
Proof.
  intros Hs E Hex. unfold effectCleanup.
  set (w1 := match pingIntervalRef (log LogCleanup w) with
             | Some t => clearTimer t (log LogCleanup w)
             | None => log LogCleanup w end).
  assert (sockets w1 = sockets w) as Hw1 by (subst w1; simpl; by case_match).
  set (w6 := sock_off sid NPong LHandlePong _).
  assert (sockets w6 = alter dropSix sid (sockets w)) as Hw6.
  { subst w6. by rewrite sockets_six_off, Hw1. }
  assert (w6 = set_sockets (alter dropSix sid (sockets w)) w1) as Ew6.
  { rewrite <-Hw6. subst w6. by unfold_sock. }
  assert (sockets w6 !! sid = Some (dropSix s)) as Hs6.
  { by rewrite Hw6, list_lookup_alter_eq, Hs. }
  rewrite (sock_disconnect_unwired _ _ _ _ Hs6).
  2:{ unfold unwired. by rewrite (dropSix_wired _ _ E). }
  change (pingIntervalRef w) with (pingIntervalRef (log LogCleanup w)). fold w1.
  unfold closeSix. destruct (connected (dropSix s)) eqn:Hc.
  - rewrite Ew6. unfold updSocket. simpl. by rewrite list_alter_alter_eq.
  - rewrite Ew6. f_equal. apply list_alter_ext; [|done..].
    intros s' Hs'. assert (s' = s) as -> by congruence.
    by rewrite with_connected_false_id.
Qed.

Lemma closeSix_wired s : wired s → unwired (closeSix s).
Proof.
  intros (ex & E & H). unfold unwired.
  change (listeners (closeSix s)) with (listeners (dropSix s)).
  by rewrite (dropSix_wired _ _ E).
Qed.

Lemma closeSix_unwired s : unwired s → unwired (closeSix s).
Proof. intros H. by apply dropSix_unwired. Qed.

Lemma Inv_live_socket w sid :
  Inv w → pendingCleanup w = Some sid →
  ∃ s ex, sockets w !! sid = Some s ∧ listeners s = sixHandlers ++ ex ∧ Forall isOnConnect ex ∧
          socketRef w = Some sid.
Proof.
  intros [_ [_ Hl] _ _] Hpc. destruct (Hl _ Hpc) as (? & s & ? & (ex & ? & ?) & _). eauto 10.
Qed.

Lemma Inv_retired_socket w sid s :
  Inv w → pendingCleanup w ≠ Some sid → sockets w !! sid = Some s → unwired s.
Proof. intros [_ [Hr _] _ _] ??. eauto. Qed.

Lemma runCleanup_pendingCleanup now w : pendingCleanup (runCleanup now w) = None.
Proof. unfold runCleanup. by case_match. Qed.

Lemma Inv_runCleanup now w : Inv w → Inv (runCleanup now w).
Proof.
  intros H. unfold runCleanup. destruct (pendingCleanup w) as [sid|] eqn:Hpc; [|done].
  destruct (Inv_live_socket _ _ H Hpc) as (s & ex & Hs & E & Hex & _).
  rewrite (effectCleanup_live _ _ _ _ _ Hs E Hex).
  destruct H as [Hq Hso Hh Hp]. rewrite Hpc in Hso.
  pose proof (NoHeartbeat_clear _ _ Hh) as Hn.
  destruct (pingIntervalRef w) eqn:Href; split; unfold isUp; simpl; try done.
  all: try (eapply SocketsOK_teardown; [apply closeSix_unwired|apply closeSix_wired|done]).
  all: rewrite Href; by apply NoHeartbeat_OK.
Qed.

Lemma sockets_six_on w s0 :
  let sid := length (sockets w) in
  sockets
    (sock_on sid NPong LHandlePong
      (sock_on sid NReconnectAttempt LHandleReconnectAttempt
        (sock_on sid NReconnect LHandleReconnect
          (sock_on sid NConnectError LHandleConnectError
            (sock_on sid NDisconnect LHandleDisconnect
              (sock_on sid NConnect LHandleConnect
                 (set_sockets (sockets w ++ [s0]) w))))))) =
  sockets w ++ [with_listeners (listeners s0 ++ sixHandlers) s0].
Proof.
  unfold_sock. simpl. rewrite !list_alter_alter_eq, alter_snoc. simpl.
  do 2 f_equal. by rewrite <-!(assoc_L (++)).
Qed.

Lemma effect_present now tok token w :
  tokenPresent tok = Some token →
  effect now tok w =
    set_pendingCleanup (Some (length (sockets w)))
      (set_sockets (sockets w ++ [freshSocket token])
        (set_socketRef (Some (length (sockets w)))
          (set_connectionStartTime now (setIsConnecting true (log LogInit w))))).
Proof.
  intros Htok. unfold effect. rewrite Htok. unfold io. unfold_sock. simpl.
  rewrite !list_alter_alter_eq, alter_snoc. done.
Qed.

Lemma alter_noop {A} (f : A → A) i (l : list A) :
  (∀ x, l !! i = Some x → f x = x) → alter f i l = l.
Proof.
  intros H. rewrite <-(list_alter_id id l i) at 2 by done. by apply list_alter_ext.
Qed.

Lemma effect_absent now tok w :
  tokenPresent tok = None →
  (∀ sid s, socketRef w = Some sid → sockets w !! sid = Some s → unwired s) →
  effect now tok w =
    set_pendingCleanup None
      (setOnlineStatus false
        (setConnectionQuality QDisconnected
          (setIsConnecting false
            (setIsConnected false
              (set_socketRef None
                (set_sockets (match socketRef w with
                              | Some sid => alter (with_connected false) sid (sockets w)
                              | None => sockets w
                              end) (log LogNotLoggedIn w))))))).
Proof.
  intros Htok Hu. unfold effect. rewrite Htok. cbv zeta.
  change (socketRef (log LogNotLoggedIn w)) with (socketRef w).
  destruct (socketRef w) as [sid|] eqn:Hsr.
  2:{ clear Hu. destruct w; simpl in Hsr; subst. reflexivity. }
  destruct (sockets w !! sid) as [s|] eqn:Hs.
  - rewrite (sock_disconnect_unwired _ _ _ s) by eauto.
    destruct (connected s) eqn:Hc; [reflexivity|].
    rewrite alter_noop; [|intros s' ?; apply with_connected_false_id; congruence].
    clear. by destruct w.
  - rewrite sock_disconnect_None by done. rewrite alter_noop by congruence.
    clear. by destruct w.
Qed.

Lemma Inv_effect now tok w : Inv w → pendingCleanup w = None → Inv (effect now tok w).
Proof.
  intros H Hpc. destruct (tokenPresent tok) as [token|] eqn:Htok.
  - rewrite (effect_present _ _ _ _ Htok).
    destruct H as [Hq Hso Hh Hp]. rewrite Hpc in Hso.
    split; unfold isUp; simpl; try done.
    eapply SocketsOK_io; [by exists []|done|done].
  - rewrite effect_absent; [|done|].
    2:{ intros sid s _ Hs. eapply Inv_retired_socket; [done| |done]. congruence. }
    destruct H as [Hq Hso Hh Hp]. rewrite Hpc in Hso.
    split; unfold isUp; simpl; try done.
    destruct (socketRef w); [|by eapply SocketsOK_None].
    apply SocketsOK_retired; [done|eauto with sock|]. by eapply SocketsOK_None.
Qed.

Lemma Inv_render now tok w : Inv w → Inv (render now tok w).
Proof.
  intros H. unfold render. repeat case_match; try done.
  apply Inv_effect; [|apply runCleanup_pendingCleanup].
  apply Inv_runCleanup. by destruct H.
Qed.

Lemma Inv_unmount now w : Inv w → Inv (unmount now w).
Proof.
  intros H. unfold unmount. case_match; [done|].
  apply (Inv_runCleanup now) in H. by destruct H.
Qed.

(** Delivery on the socket of the running effect and on a retired one. *)

Lemma transport_live now sid ev w s ex :
  sockets w !! sid = Some s → listeners s = sixHandlers ++ ex → Forall isOnConnect ex →
  transport now sid ev w =
    match ev with
    | EvConnect =>
        foldl (λ w l, runListener now EvConnect l w)
          (handleConnect now (updSocket sid (with_connected true) w)) ex.*2
    | EvDisconnect reason =>
        handleDisconnect reason (updSocket sid (with_connected false) w)
    | EvConnectError message => handleConnectError message w
    | EvReconnect n => handleReconnect n w
    | EvReconnectAttempt n => handleReconnectAttempt n w
    | EvPong data => handlePong now data w
    end.
Proof.
  intros Hs E Hex. unfold transport, emit.
  destruct ev; rewrite ?lookup_updSocket, ?decide_True, Hs by done; simpl.
  all: erewrite listenersFor_wired by done; done.
Qed.

Lemma transport_retired now sid ev w s :
  sockets w !! sid = Some s → unwired s →
  transport now sid ev w =
    match ev with
    | EvConnect =>
        foldl (λ w l, runListener now EvConnect l w)
          (updSocket sid (with_connected true) w) (listeners s).*2
    | EvDisconnect reason => updSocket sid (with_connected false) w
    | _ => w
    end.
Proof.
  intros Hs Hu. unfold transport, emit.
  destruct ev; rewrite ?lookup_updSocket, ?decide_True, Hs by done; simpl.
  all: rewrite listenersFor_unwired by done; done.
Qed.

Lemma foldl_onConnect (P : World → Prop) now ev ex w :
  (∀ p t w, P w → P (onConnect p t w)) →
  Forall isOnConnect ex → P w → P (foldl (λ w l, runListener now ev l w) w ex.*2).
Proof.
  intros HP Hex. revert w. induction Hex as [|[n l] ex Hx Hex IH]; intros w Hw; [done|].
  simpl. apply IH. destruct n, l; try done. destruct ev; by apply HP.
Qed.

Lemma Inv_transport now sid ev w :
  Inv w → enabled now (Transport sid ev) w = true → Inv (transport now sid ev w).
Proof.
  intros H [_ Hen]%andb_prop. simpl in Hen.
  destruct (sockets w !! sid) as [s|] eqn:Hs; [|done].
  destruct (decide (pendingCleanup w = Some sid)) as [Hpc|Hpc].
  - destruct (Inv_live_socket _ _ H Hpc) as (s' & ex & Hs' & E & Hex & Hsr).
    assert (s' = s) as -> by congruence.
    rewrite (transport_live _ _ _ _ _ _ Hs E Hex).
    assert (connected s = false →
            ∀ j s', pendingCleanup w = Some j → sockets w !! j = Some s' → connected s' = false)
      as Hd by (intros; eapply live_down; eauto).
    destruct ev; try apply negb_true_iff in Hen.
    + apply (foldl_onConnect Inv); [apply Inv_onConnect|done|]. exact (Inv_handleConnect _ _ _ H).
    + by apply Inv_handleDisconnect.
    + apply Inv_handleConnectError; eauto.
    + by apply Inv_handleReconnect.
    + apply Inv_handleReconnectAttempt; eauto.
    + by eapply Inv_handlePong.
  - pose proof (Inv_retired_socket _ _ _ H Hpc Hs) as Hu.
    rewrite (transport_retired _ _ _ _ _ Hs Hu).
    destruct ev; try done.
    + apply (foldl_onConnect Inv); [apply Inv_onConnect|done|]. by apply Inv_flag_retired.
    + by apply Inv_flag_retired.
Qed.

Lemma Inv_step now i w : Inv w → enabled now i w = true → Inv (step now i w).
Proof.
  intros H Hen. unfold step. apply Inv_set_clock. destruct i.
  - by apply Inv_render.
  - by apply Inv_unmount.
  - by apply Inv_transport.
  - by apply Inv_fireTimer.
  - by apply Inv_ensureConnected.
  - by apply Inv_sendPing.
Qed.

Lemma Inv_init : Inv init.
Proof. split; try done. Qed.

Lemma Inv_run tr w w' : Inv w → run tr w = Some w' → Inv w'.
Proof.
  revert w. induction tr as [|[now i] tr IH]; intros w H; simpl.
  - by intros [= <-].
  - destruct (enabled now i w) eqn:Hen; [|done]. apply IH. by apply Inv_step.
Qed.

Lemma reachable_Inv w : reachable w → Inv w.
Proof. intros [tr H]. eapply Inv_run; [apply Inv_init|done]. Qed.

(** ** Connection state, quality and presence *)

(** A step on the socket of the running effect runs its handler. *)
Lemma step_live now sid ev w s ex :
  sockets w !! sid = Some s → listeners s = sixHandlers ++ ex → Forall isOnConnect ex →
  step now (Transport sid ev) w =
    set_clock now
      match ev with
      | EvConnect =>
          foldl (λ w l, runListener now EvConnect l w)
            (handleConnect now (updSocket sid (with_connected true) w)) ex.*2
      | EvDisconnect reason =>
          handleDisconnect reason (updSocket sid (with_connected false) w)
      | EvConnectError message => handleConnectError message w
      | EvReconnect n => handleReconnect n w
      | EvReconnectAttempt n => handleReconnectAttempt n w
      | EvPong data => handlePong now data w
      end.
Proof. intros. unfold step. by erewrite transport_live. Qed.

Lemma enabled_Transport now sid ev w :
  enabled now (Transport sid ev) w = true →
  ∃ s, sockets w !! sid = Some s ∧
       connected s = match ev with EvDisconnect _ | EvPong _ => true | _ => false end.
Proof.
  intros [_ H]%andb_prop. simpl in H. destruct (sockets w !! sid) as [s|]; [|done].
  exists s. split; [done|]. destruct ev; by rewrite ?negb_true_iff in H.
Qed.

Lemma sendPing_isConnected now w : isConnected (sendPing now w) = isConnected w.
Proof. unfold sendPing. by repeat case_match. Qed.
Lemma sendPing_presence now w : presence (sendPing now w) = presence w.
Proof. unfold sendPing. by repeat case_match. Qed.

Lemma handleConnect_isConnected now w : isConnected (handleConnect now w) = true.
Proof.
  unfold handleConnect, setInterval. cbv beta iota zeta.
  rewrite sendPing_isConnected. by destruct (pingIntervalRef w) eqn:E; simpl; rewrite E.
Qed.

Lemma sendPing_isConnecting now w : isConnecting (sendPing now w) = isConnecting w.
Proof. unfold sendPing. by repeat case_match. Qed.

Lemma handleConnect_isConnecting now w : isConnecting (handleConnect now w) = false.
Proof.
  unfold handleConnect, setInterval. cbv beta iota zeta.
  rewrite sendPing_isConnecting. by destruct (pingIntervalRef w) eqn:E; simpl; rewrite E.
Qed.

(** What holds of the quality along every run: it is 'disconnected'
    whenever [isConnected] is false. *)
Lemma quality_disconnected_while_not_isConnected tr w :
  run tr init = Some w → isConnected w = false → connectionQuality w = QDisconnected.
Proof. intros Hrun. by apply (Inv_run _ _ _ Inv_init) in Hrun as [Hq _ _ _]. Qed.

(** C1. That the quality is 'disconnected' whenever the state is not
    Connected fails after a change of token: a render with another token
    on the connected hook tears the session down and starts a new one,
    which is Connecting on a socket that is not connected, and the quality
    is still 'good'; the render that clears the token resets it. Along
    every run the quality is 'disconnected' whenever [isConnected] is
    false, so the property is broken only where [isConnected] has
    survived the session it belonged to; and the handlers of 'connect',
    'disconnect' and 'connect_error' establish it from any state. *)
Theorem quality_stale_after_token_change :
  run trace_token_changed init = Some world_token_changed ∧
  getConnectionStatus world_connected = (true, false, QGood) ∧
  connectionState world_token_changed = SConnecting ∧
  socketConnected world_token_changed = false ∧
  connectionQuality world_token_changed = QGood ∧
  connectionQuality (step 60 (Render None) world_connected) = QDisconnected ∧
  (∀ tr w,
     run tr init = Some w →
     connectionState w ≠ SConnected → connectionQuality w ≠ QDisconnected →
     isConnected w = true ∧ isConnecting w = true) ∧
  (∀ now reason message w w',
     w' = handleConnect now w ∨ w' = handleDisconnect reason w ∨
     w' = handleConnectError message w →
     connectionState w' ≠ SConnected → connectionQuality w' = QDisconnected).
Proof.
  do 6 (split; [by vm_compute|]). split.
  - intros tr w Hrun Hst Hq.
    pose proof (quality_disconnected_while_not_isConnected tr w Hrun) as H.
    unfold connectionState in Hst.
    destruct (isConnected w), (isConnecting w); try done; destruct Hq; by apply H.
  - intros now reason message w w' [-> | [-> | ->]] Hst.
    + destruct Hst. unfold connectionState.
      by rewrite handleConnect_isConnecting, handleConnect_isConnected.
    + unfold handleDisconnect. simpl. by repeat case_match.
    + done.
Qed.

Lemma foldl_onConnect_frame {A} (π : World → A) now ev ex w :
  (∀ p t w, π (onConnect p t w) = π w) →
  Forall isOnConnect ex → π (foldl (λ w l, runListener now ev l w) w ex.*2) = π w.
Proof.
  intros Hπ Hex. apply (foldl_onConnect (λ w', π w' = π w)); [|done..].
  intros p t w' <-. apply Hπ.
Qed.

Ltac frame := intros; unfold onConnect; repeat case_match; reflexivity.

Lemma onConnect_isConnected p t w : isConnected (onConnect p t w) = isConnected w.
Proof. frame. Qed.
Lemma onConnect_connectionQuality p t w : connectionQuality (onConnect p t w) = connectionQuality w.
Proof. frame. Qed.
Lemma onConnect_reconnectAttempts p t w : reconnectAttempts (onConnect p t w) = reconnectAttempts w.
Proof. frame. Qed.
Lemma onConnect_presence p t w : presence (onConnect p t w) = presence w.
Proof. frame. Qed.
Lemma onConnect_pendingCleanup p t w : pendingCleanup (onConnect p t w) = pendingCleanup w.
Proof. frame. Qed.

Lemma run_live tr w sid :
  run tr init = Some w → pendingCleanup w = Some sid →
  ∃ s ex, sockets w !! sid = Some s ∧ listeners s = sixHandlers ++ ex ∧
          Forall isOnConnect ex ∧ socketRef w = Some sid ∧
          (connected s = true → isConnected w = true ∧ isConnecting w = false).
Proof.
  intros Hrun Hpc. apply (Inv_run _ _ _ Inv_init) in Hrun as [_ [_ Hl] _ _].
  destruct (Hl _ Hpc) as (? & s & ? & (ex & ? & ?) & Hup).
  exists s, ex. split_and!; try done. by intros ?%Hup%isUp_true.
Qed.

(** C4, as amended. A connect_error event delivered to the hook increments
    the reconnect attempt count and sets [isConnected] and [isConnecting]
    to false, so that the connection state becomes Disconnected (it does
    not remain Connecting); the quality becomes 'disconnected' and the
    presence store is told offline. The error is only logged: whatever it
    is, the resulting state is the same. *)
Theorem connect_error_drops_to_disconnected tr w now sid message :
  run tr init = Some w → pendingCleanup w = Some sid →
  enabled now (Transport sid (EvConnectError message)) w = true →
  let w' := step now (Transport sid (EvConnectError message)) w in
  reconnectAttempts w' = S (reconnectAttempts w) ∧
  connectionState w' = SDisconnected ∧
  connectionQuality w' = QDisconnected ∧
  presence w' = presence w ++ [false] ∧
  ∀ message', set_console [] (step now (Transport sid (EvConnectError message')) w)
              = set_console [] w'.
Proof.
  intros Hrun Hpc Hen w'. subst w'.
  destruct (run_live _ _ _ Hrun Hpc) as (s & ex & Hs & E & Hex & _).
  split_and!; [rewrite (step_live _ _ _ _ _ _ Hs E Hex); reflexivity..|].
  intros message'. by rewrite !(step_live _ _ _ _ _ _ Hs E Hex).
Qed.

(** A connect_error two seconds after the first render. *)
Lemma connect_error_drops_to_disconnected_witness :
  connectionState world_connecting = SConnecting ∧
  connectionState (step 2000 (Transport 0%nat (EvConnectError "xhr poll error")) world_connecting)
    = SDisconnected.
Proof.
  split; [by vm_compute|].
  apply (connect_error_drops_to_disconnected [(0, Render (Some "A"))] world_connecting
           2000 0%nat "xhr poll error"); by vm_compute.
Defined.

(** C4 as stated fails: after the first render the state is Connecting, and
    a connect_error then leaves it Disconnected. *)
Lemma connect_error_remains_connecting_fails :
  ¬ (∀ tr w now sid message,
       run tr init = Some w → connectionState w = SConnecting →
       enabled now (Transport sid (EvConnectError message)) w = true →
       connectionState (step now (Transport sid (EvConnectError message)) w) = SConnecting).
Proof.
  intros H.
  specialize (H [(0, Render (Some "A"))] world_connecting 2000 0%nat "xhr poll error").
  by vm_compute in H; specialize (H eq_refl eq_refl eq_refl).
Qed.

(** C5. [handleDisconnect] with a reason other than 'io client
    disconnect' increments the reconnect attempt count and leaves the
    state Connecting while the new count is below 10, and stops tracking
    the connection as connecting ([isConnecting] false) once it has
    reached 10; with the reason 'io client disconnect' it does not touch
    the count or [isConnecting], and along every run the state after such
    an event is Disconnected; [handleConnect], and so every 'connect'
    event on the hook's socket, resets the count to 0. *)
Theorem disconnect_tracks_reconnection :
  (∀ reason w,
     let w' := handleDisconnect reason w in
     (reason ≠ "io client disconnect" →
        reconnectAttempts w' = S (reconnectAttempts w) ∧
        ((reconnectAttempts w' < 10)%nat → connectionState w' = SConnecting) ∧
        ((10 ≤ reconnectAttempts w')%nat →
           isConnecting w' = false ∧ connectionState w' = SDisconnected)) ∧
     (reason = "io client disconnect" →
        isConnected w' = false ∧ isConnecting w' = isConnecting w ∧
        reconnectAttempts w' = reconnectAttempts w)) ∧
  (∀ now w, reconnectAttempts (handleConnect now w) = 0%nat) ∧
  (∀ tr w now sid,
     run tr init = Some w → pendingCleanup w = Some sid →
     (∀ reason,
        enabled now (Transport sid (EvDisconnect reason)) w = true →
        let w' := step now (Transport sid (EvDisconnect reason)) w in
        (reason ≠ "io client disconnect" →
           reconnectAttempts w' = S (reconnectAttempts w) ∧
           ((reconnectAttempts w' < 10)%nat → connectionState w' = SConnecting) ∧
           ((10 ≤ reconnectAttempts w')%nat → isConnecting w' = false)) ∧
        (reason = "io client disconnect" →
           connectionState w' = SDisconnected ∧ isConnecting w' = false ∧
           reconnectAttempts w' = reconnectAttempts w)) ∧
     (enabled now (Transport sid EvConnect) w = true →
        reconnectAttempts (step now (Transport sid EvConnect) w) = 0%nat)).
Proof.
  assert (∀ reason w,
     let w' := handleDisconnect reason w in
     (reason ≠ "io client disconnect" →
        reconnectAttempts w' = S (reconnectAttempts w) ∧
        ((reconnectAttempts w' < 10)%nat → connectionState w' = SConnecting) ∧
        ((10 ≤ reconnectAttempts w')%nat →
           isConnecting w' = false ∧ connectionState w' = SDisconnected)) ∧
     (reason = "io client disconnect" →
        isConnected w' = false ∧ isConnecting w' = isConnecting w ∧
        reconnectAttempts w' = reconnectAttempts w)) as Hhandler.
  { intros reason w w'. subst w'.
    unfold handleDisconnect, connectionState, maxReconnectAttempts. simpl.
    split; intros Hr.
    - rewrite decide_True by done. simpl.
      destruct (pingIntervalRef w); simpl; case_decide; simpl; split_and!; try done; lia.
    - rewrite decide_False by (by intros []).
      by destruct (pingIntervalRef w). }
  assert (∀ now w, reconnectAttempts (handleConnect now w) = 0%nat) as Hconnect.
  { intros now w. unfold handleConnect, sendPing. simpl. by repeat case_match. }
  split_and!; [done..|].
  intros tr w now sid Hrun Hpc.
  destruct (run_live _ _ _ Hrun Hpc) as (s & ex & Hs & E & Hex & _ & Hup).
  split.
  - intros reason Hen w'. subst w'.
    rewrite (step_live _ _ _ _ _ _ Hs E Hex).
    apply enabled_Transport in Hen as (s' & Hs' & Hc).
    assert (s' = s) as -> by congruence. destruct (Hup Hc) as [_ Hing].
    destruct (Hhandler reason (updSocket sid (with_connected false) w)) as [Hnon Hloc].
    split; intros Hr.
    + destruct (Hnon Hr) as (H1 & H2 & H3). split_and!; [done..|]. by intros []%H3.
    + destruct (Hloc Hr) as (H1 & H2 & H3).
      change (isConnecting (updSocket sid (with_connected false) w)) with (isConnecting w) in H2.
      unfold connectionState. simpl.
      split_and!; [|by rewrite H2|done].
      by rewrite H1, H2, Hing.
  - intros Hen. rewrite (step_live _ _ _ _ _ _ Hs E Hex). simpl.
    rewrite (foldl_onConnect_frame reconnectAttempts); [|apply onConnect_reconnectAttempts|done].
    apply Hconnect.
Qed.

(** A connected hook receiving a local and a non-local disconnect. *)
Lemma disconnect_tracks_reconnection_witness :
  connectionState
    (step 9000 (Transport 0%nat (EvDisconnect "io client disconnect")) world_connected)
  = SDisconnected ∧
  connectionState
    (step 9000 (Transport 0%nat (EvDisconnect "transport close")) world_connected)
  = SConnecting.
Proof.
  destruct disconnect_tracks_reconnection as (_ & _ & H).
  destruct (H trace_connected world_connected 9000 0%nat) as [Hd _]; [by vm_compute..|].
  split.
  - destruct (Hd "io client disconnect") as [_ Hloc]; [by vm_compute|].
    by destruct Hloc.
  - destruct (Hd "transport close") as [Hnon _]; [by vm_compute|].
    destruct Hnon as (Hn & Hlt & _); [done|].
    apply Hlt. rewrite Hn. vm_compute. lia.
Defined.

(** C7. A 'pong' carrying a payload, delivered on the hook's connected
    socket, sets the quality from [elapsed = now - lastPingTime]: below
    500 ms 'good', from 500 ms and below 2000 ms 'poor', from 2000 ms on
    'disconnected'; the sockets and the connection flags are left alone,
    so the transport is not disconnected. *)
Theorem pong_classifies_latency tr w now sid ts :
  run tr init = Some w → pendingCleanup w = Some sid →
  enabled now (Transport sid (EvPong (Obj ts))) w = true →
  let w' := step now (Transport sid (EvPong (Obj ts))) w in
  let elapsed := now - lastPingTime w in
  (elapsed < 500 → connectionQuality w' = QGood) ∧
  (500 ≤ elapsed < 2000 → connectionQuality w' = QPoor) ∧
  (2000 ≤ elapsed → connectionQuality w' = QDisconnected) ∧
  sockets w' = sockets w ∧ isConnected w' = isConnected w ∧
  isConnecting w' = isConnecting w.
Proof.
  intros Hrun Hpc Hen w' elapsed. subst w' elapsed.
  destruct (run_live _ _ _ Hrun Hpc) as (s & ex & Hs & E & Hex & Hsr & _).
  rewrite (step_live _ _ _ _ _ _ Hs E Hex).
  apply enabled_Transport in Hen as (s' & Hs' & Hc). assert (s' = s) as -> by congruence.
  unfold handlePong, checkConnectionQuality, socketConnected, currentSocket. simpl.
  rewrite Hsr, Hs, Hc. simpl.
  destruct (now - lastPingTime w <? 500) eqn:H1; [|destruct (now - lastPingTime w <? 2000) eqn:H2];
    simpl; split_and!; try done; lia.
Qed.

(** A pong 700 ms after the ping sent on connecting gives 'poor'. *)
Lemma pong_classifies_latency_witness :
  connectionQuality
    (step 750 (Transport 0%nat (EvPong (Obj (jsNumber 50)))) world_connected) = QPoor.
Proof.
  apply (pong_classifies_latency trace_connected world_connected 750 0%nat (jsNumber 50));
    by vm_compute.
Defined.

Lemma eraseConsole_pong_listener now a b l w1 w2 :
  eraseConsole w1 = eraseConsole w2 →
  eraseConsole (runListener now (EvPong (Obj a)) l w1) =
  eraseConsole (runListener now (EvPong (Obj b)) l w2).
Proof.
  intros H. destruct w1, w2. unfold eraseConsole in H. simpl in H.
  injection H as -> -> -> -> -> -> -> -> -> -> -> -> -> -> -> ->.
  destruct l; try reflexivity.
  - unfold runListener, handlePong, checkConnectionQuality, socketConnected, currentSocket.
    simpl. repeat case_match; reflexivity.
  - unfold runListener, onConnect. simpl. repeat case_match; reflexivity.
Qed.

Lemma eraseConsole_pong_foldl now a b ls w1 w2 :
  eraseConsole w1 = eraseConsole w2 →
  eraseConsole (foldl (λ w l, runListener now (EvPong (Obj a)) l w) w1 ls) =
  eraseConsole (foldl (λ w l, runListener now (EvPong (Obj b)) l w) w2 ls).
Proof.
  revert w1 w2. induction ls as [|l ls IH]; intros w1 w2 H; [done|].
  simpl. apply IH. by apply eraseConsole_pong_listener.
Qed.

(** Two 'pong' events on whose payload line 254 does not throw, delivered
    at the same instant in the same world, leave the same quality; the
    worlds they leave differ in the console output only. *)
Lemma pong_usable_payloads_agree now sid a b w :
  let w1 := step now (Transport sid (EvPong (Obj a))) w in
  let w2 := step now (Transport sid (EvPong (Obj b))) w in
  connectionQuality w1 = connectionQuality w2 ∧ eraseConsole w1 = eraseConsole w2.
Proof.
  intros w1 w2.
  assert (eraseConsole w1 = eraseConsole w2) as H.
  { subst w1 w2. unfold step, transport, emit.
    assert (∀ x y, eraseConsole x = eraseConsole y →
                   eraseConsole (set_clock now x) = eraseConsole (set_clock now y)) as Hclock.
    { intros x y Hxy. destruct x, y. unfold eraseConsole in *. simpl in *.
      injection Hxy; intros; subst; reflexivity. }
    apply Hclock. destruct (sockets w !! sid); [|done].
    by apply eraseConsole_pong_foldl. }
  split; [|done].
  change (connectionQuality (eraseConsole w1) = connectionQuality (eraseConsole w2)).
  by rewrite H.
Qed.

(** C10. That the quality after a 'pong' does not depend on the payload
    fails where line 254 throws. 700 ms after the ping, a pong whose
    payload carries the timestamp 50, or no timestamp at all, sets the
    quality to 'poor'; a pong without payload ([data.timestamp] of
    [undefined]), and one whose timestamp the subtraction cannot use (a
    BigInt, say), throw before [checkConnectionQuality] is called and
    leave the quality 'good'. Among the payloads on which the line does
    not throw the quality is the same. *)
Theorem pong_throwing_payload_keeps_quality :
  run trace_connected init = Some world_connected ∧
  connectionQuality world_connected = QGood ∧
  lastPingTime world_connected = 50 ∧
  connectionQuality
    (step 750 (Transport 0%nat (EvPong (Obj (jsNumber 50)))) world_connected) = QPoor ∧
  connectionQuality
    (step 750 (Transport 0%nat (EvPong (Obj jsUndefined))) world_connected) = QPoor ∧
  connectionQuality
    (step 750 (Transport 0%nat (EvPong Nullish)) world_connected) = QGood ∧
  connectionQuality
    (step 750 (Transport 0%nat (EvPong ObjThrowing)) world_connected) = QGood ∧
  (∀ now sid a b w,
     connectionQuality (step now (Transport sid (EvPong (Obj a))) w) =
     connectionQuality (step now (Transport sid (EvPong (Obj b))) w)).
Proof.
  do 7 (split; [by vm_compute|]).
  intros now sid a b w. apply pong_usable_payloads_agree.
Qed.

(** C2. That the heartbeat interval is armed if and only if the state is
    Connected fails after a change of token.
    The 'connect' event arms one interval, and a 'disconnect' after it
    leaves none; but a render with another token on the connected hook
    disarms it and closes the socket while [isConnected] stays true, and
    once an [ensureConnected] call on the new socket has timed out
    [isConnecting] is false again: the state is Connected without a
    heartbeat and without a connected socket. *)
Theorem heartbeat_missing_after_token_change :
  run trace_token_changed init = Some world_token_changed ∧
  heartbeatTimers world_connected = [0%nat] ∧
  heartbeatTimers world_dropped = [] ∧
  isConnected world_token_changed = true ∧
  heartbeatTimers world_token_changed = [] ∧
  socketConnected world_token_changed = false ∧
  run trace_stale_connected init = Some world_stale_connected ∧
  getConnectionStatus world_stale_connected = (true, false, QGood) ∧
  connectionState world_stale_connected = SConnected ∧
  heartbeatTimers world_stale_connected = [] ∧
  socketConnected world_stale_connected = false.
Proof. by vm_compute. Qed.

(** C3. The one-shot listener of [ensureConnected] is not removed on the
    timeout path: a call on a socket that is not connected raises the
    listener count from 6 to 7; when the timeout expires the promise is
    fulfilled with false and the count is still 7, the 'connect' listeners
    being [handleConnect] and the leaked [onConnect]; when 'connect'
    arrives first, the promise is fulfilled with true and the count is
    back to 6. *)
Theorem ensureConnected_timeout_keeps_listener :
  run trace_timed_out init = Some world_timed_out ∧
  socketConnected world_connecting = false ∧
  listenerCount 0 world_connecting = 6%nat ∧
  listenerCount 0 world_waiting = 7%nat ∧
  promises world_timed_out !! 0%nat = Some (Fulfilled false) ∧
  listenerCount 0 world_timed_out = 7%nat ∧
  listenersFor NConnect <$> sockets world_timed_out !! 0%nat
    = Some [LHandleConnect; LOnConnect 0 0] ∧
  listenerCount 0 (step 100 (Transport 0%nat EvConnect) world_waiting) = 6%nat ∧
  promises (step 100 (Transport 0%nat EvConnect) world_waiting) !! 0%nat
    = Some (Fulfilled true).
Proof. by vm_compute. Qed.

(** Frames of the cleanup and of the listeners, for presence tracking. *)
Lemma runCleanup_frame now w :
  Inv w →
  isConnected (runCleanup now w) = isConnected w ∧
  isConnecting (runCleanup now w) = isConnecting w ∧
  connectionQuality (runCleanup now w) = connectionQuality w ∧
  presence (runCleanup now w) = presence w ∧
  promises (runCleanup now w) = promises w ∧
  socketRef (runCleanup now w) = socketRef w ∧
  userToken (runCleanup now w) = userToken w.
Proof.
  intros H. unfold runCleanup. destruct (pendingCleanup w) as [sid|] eqn:Hpc; [|done].
  destruct (Inv_live_socket _ _ H Hpc) as (s & ex & Hs & E & Hex & _).
  rewrite (effectCleanup_live _ _ _ _ _ Hs E Hex).
  by destruct (pingIntervalRef w).
Qed.

Lemma effect_eq now tok w :
  Inv w → pendingCleanup w = None →
  effect now tok w =
    match tokenPresent tok with
    | Some token =>
        set_pendingCleanup (Some (length (sockets w)))
          (set_sockets (sockets w ++ [freshSocket token])
            (set_socketRef (Some (length (sockets w)))
              (set_connectionStartTime now (setIsConnecting true (log LogInit w)))))
    | None =>
        set_pendingCleanup None
          (setOnlineStatus false
            (setConnectionQuality QDisconnected
              (setIsConnecting false
                (setIsConnected false
                  (set_socketRef None
                    (set_sockets (match socketRef w with
                                  | Some sid => alter (with_connected false) sid (sockets w)
                                  | None => sockets w
                                  end) (log LogNotLoggedIn w)))))))
    end.
Proof.
  intros H Hpc. destruct (tokenPresent tok) eqn:Htok.
  - by apply effect_present.
  - apply effect_absent; [done|].
    intros sid s _ Hs. eapply Inv_retired_socket; [done| |done]. congruence.
Qed.

Lemma fireTimer_isConnected now t w : isConnected (fireTimer now t w) = isConnected w.
Proof.
  unfold fireTimer. repeat case_match; try done.
  all: unfold runTimerCb; case_match; by rewrite ?sendPing_isConnected.
Qed.

Lemma ensureConnected_isConnected now w : isConnected (ensureConnected now w).2 = isConnected w.
Proof. unfold ensureConnected. simpl. by repeat case_match. Qed.

Lemma handlePong_isConnected now d w : isConnected (handlePong now d w) = isConnected w.
Proof.
  destruct d; [done| |done]. simpl.
  match goal with |- isConnected (checkConnectionQuality _ ?w') = _ =>
    destruct (checkConnectionQuality_cases now w') as (q & -> & _) end. done.
Qed.

Lemma handleConnect_presence now w : presence (handleConnect now w) = presence w ++ [true].
Proof.
  unfold handleConnect, setInterval. cbv beta iota zeta.
  rewrite sendPing_presence. by destruct (pingIntervalRef w) eqn:E; simpl; rewrite E.
Qed.

Lemma presenceStep_step now i w :
  Inv w → enabled now i w = true → presenceStep w (step now i w).
Proof.
  intros H Hen. unfold presenceStep, step.
  change (isConnected (set_clock now ?x)) with (isConnected x).
  change (presence (set_clock now ?x)) with (presence x).
  destruct i as [tok| |sid ev|t| |].
  - unfold render. repeat case_match; auto.
    assert (Inv (set_userToken (Some tok) w)) as HI by (by destruct H).
    destruct (runCleanup_frame now _ HI) as (E1 & _ & _ & E2 & _).
    rewrite effect_eq; [|by apply Inv_runCleanup|by apply runCleanup_pendingCleanup].
    destruct (tokenPresent tok); simpl; [by left|].
    right; right. by rewrite E2.
  - unfold unmount. case_match; auto.
    destruct (runCleanup_frame now _ H) as (E1 & _ & _ & E2 & _). by left.
  - apply enabled_Transport in Hen as (s & Hs & Hc).
    destruct (decide (pendingCleanup w = Some sid)) as [Hpc|Hpc].
    + destruct (Inv_live_socket _ _ H Hpc) as (s' & ex & Hs' & E & Hex & Hsr).
      rewrite (transport_live _ _ _ _ _ _ Hs' E Hex). destruct ev.
      * right; left.
        rewrite (foldl_onConnect_frame isConnected), (foldl_onConnect_frame presence);
          [|apply onConnect_presence|done|apply onConnect_isConnected|done].
        by rewrite handleConnect_isConnected, handleConnect_presence.
      * right; right. unfold handleDisconnect. simpl. by repeat case_match.
      * by right; right.
      * by left.
      * by left.
      * left. apply handlePong_isConnected.
    + pose proof (Inv_retired_socket _ _ _ H Hpc Hs) as Hu.
      rewrite (transport_retired _ _ _ _ _ Hs Hu). left. destruct ev; try done.
      by rewrite (foldl_onConnect_frame isConnected); [|apply onConnect_isConnected|done].
  - left. apply fireTimer_isConnected.
  - left. apply ensureConnected_isConnected.
  - left. apply sendPing_isConnected.
Qed.

(** What holds of the presence store along every run: a step that sets
    [isConnected] tells it online and a step that clears [isConnected]
    tells it offline, once and within that step. *)
Lemma presence_follows_isConnected tr w now i :
  run tr init = Some w → enabled now i w = true →
  let w' := step now i w in
  (isConnected w = false → isConnected w' = true → presence w' = presence w ++ [true]) ∧
  (isConnected w = true → isConnected w' = false → presence w' = presence w ++ [false]).
Proof.
  intros Hrun Hen w'. pose proof (Inv_run _ _ _ Inv_init Hrun) as H.
  pose proof (presenceStep_step _ _ _ H Hen) as Hp. fold w' in Hp.
  split; intros H1 H2; destruct Hp as [Hp|[[Hp Hp']|[Hp Hp']]]; congruence.
Qed.

(** The events of the running session that change the state: 'connect'
    takes it into Connected and tells the presence store online;
    'disconnect', whatever the reason, and 'connect_error' take it out of
    Connected and tell the store offline. *)
Lemma presence_on_session_events tr w now sid :
  run tr init = Some w → pendingCleanup w = Some sid →
  (enabled now (Transport sid EvConnect) w = true →
     connectionState (step now (Transport sid EvConnect) w) = SConnected ∧
     presence (step now (Transport sid EvConnect) w) = presence w ++ [true]) ∧
  (∀ reason,
     enabled now (Transport sid (EvDisconnect reason)) w = true →
     connectionState (step now (Transport sid (EvDisconnect reason)) w) ≠ SConnected ∧
     presence (step now (Transport sid (EvDisconnect reason)) w) = presence w ++ [false]) ∧
  (∀ message,
     enabled now (Transport sid (EvConnectError message)) w = true →
     connectionState (step now (Transport sid (EvConnectError message)) w) = SDisconnected ∧
     presence (step now (Transport sid (EvConnectError message)) w) = presence w ++ [false]).
Proof.
  intros Hrun Hpc.
  destruct (run_live _ _ _ Hrun Hpc) as (s & ex & Hs & E & Hex & _).
  split_and!.
  - intros _. rewrite (step_live _ _ _ _ _ _ Hs E Hex).
    change (presence (set_clock now ?x)) with (presence x).
    change (connectionState (set_clock now ?x))
      with (if isConnecting x then SConnecting
            else if isConnected x then SConnected else SDisconnected).
    rewrite (foldl_onConnect_frame isConnected), (foldl_onConnect_frame presence);
      [|apply onConnect_presence|done|apply onConnect_isConnected|done].
    rewrite handleConnect_isConnected, handleConnect_presence.
    split; [|done].
    assert (isConnecting
              (foldl (λ w l, runListener now EvConnect l w)
                 (handleConnect now (updSocket sid (with_connected true) w)) ex.*2)
            = false) as ->; [|done].
    apply (foldl_onConnect (λ x, isConnecting x = false)); [|done|].
    + intros p t x _. unfold onConnect. by repeat case_match.
    + apply handleConnect_isConnecting.
  - intros reason _. rewrite (step_live _ _ _ _ _ _ Hs E Hex).
    unfold connectionState, handleDisconnect. simpl. by repeat case_match.
  - intros message _. by rewrite (step_live _ _ _ _ _ _ Hs E Hex).
Qed.

(** A render that clears the token leaves the state Disconnected and
    tells the presence store offline exactly once. *)
Lemma presence_on_token_cleared tr w now tok :
  run tr init = Some w → enabled now (Render tok) w = true →
  tokenPresent tok = None → userToken w ≠ Some tok →
  connectionState (step now (Render tok) w) = SDisconnected ∧
  presence (step now (Render tok) w) = presence w ++ [false].
Proof.
  intros Hrun Hen Htok Hne. pose proof (Inv_run _ _ _ Inv_init Hrun) as H.
  unfold step, render.
  assert (unmounted w = false) as -> by (by apply andb_prop in Hen as [_ ?%negb_true_iff]).
  rewrite decide_False by done.
  assert (Inv (set_userToken (Some tok) w)) as H0 by (by destruct H).
  destruct (runCleanup_frame now _ H0) as (_ & _ & _ & E2 & _).
  rewrite effect_eq, Htok; [|by apply Inv_runCleanup|by apply runCleanup_pendingCleanup].
  split; [done|]. simpl. by rewrite E2.
Qed.

(** C8. That every transition out of Connected tells the presence store
    offline fails when the session is torn down by a render with another
    token or by an unmount: the cleanup removes [handleDisconnect] before
    it closes the socket, so the connected session ends -- the new one is
    Connecting, or the hook is gone -- and the store has only heard
    online. The render that clears the token does tell the store offline,
    exactly once, as do a 'disconnect' and a 'connect_error' of the
    running session, and its 'connect' tells it online; and every step
    that flips [isConnected] tells the store, once and within the step. *)
Theorem presence_not_told_of_teardown :
  run trace_token_changed init = Some world_token_changed ∧
  connectionState world_connected = SConnected ∧
  presence world_connected = [true] ∧
  connectionState world_token_changed = SConnecting ∧
  connected <$> sockets world_token_changed !! 0%nat = Some false ∧
  presence world_token_changed = [true] ∧
  connected <$> sockets (step 60 Unmount world_connected) !! 0%nat = Some false ∧
  presence (step 60 Unmount world_connected) = [true] ∧
  presence (step 60 (Render None) world_connected) = [true; false] ∧
  presence world_dropped = [true; false] ∧
  (∀ tr w now sid,
     run tr init = Some w → pendingCleanup w = Some sid →
     (enabled now (Transport sid EvConnect) w = true →
        connectionState (step now (Transport sid EvConnect) w) = SConnected ∧
        presence (step now (Transport sid EvConnect) w) = presence w ++ [true]) ∧
     (∀ reason,
        enabled now (Transport sid (EvDisconnect reason)) w = true →
        connectionState (step now (Transport sid (EvDisconnect reason)) w) ≠ SConnected ∧
        presence (step now (Transport sid (EvDisconnect reason)) w)
          = presence w ++ [false]) ∧
     (∀ message,
        enabled now (Transport sid (EvConnectError message)) w = true →
        connectionState (step now (Transport sid (EvConnectError message)) w)
          = SDisconnected ∧
        presence (step now (Transport sid (EvConnectError message)) w)
          = presence w ++ [false])) ∧
  (∀ tr w now tok,
     run tr init = Some w → enabled now (Render tok) w = true →
     tokenPresent tok = None → userToken w ≠ Some tok →
     connectionState (step now (Render tok) w) = SDisconnected ∧
     presence (step now (Render tok) w) = presence w ++ [false]) ∧
  (∀ tr w now i,
     run tr init = Some w → enabled now i w = true →
     (isConnected w = false → isConnected (step now i w) = true →
        presence (step now i w) = presence w ++ [true]) ∧
     (isConnected w = true → isConnected (step now i w) = false →
        presence (step now i w) = presence w ++ [false])).
Proof.
  do 10 (split; [by vm_compute|]).
  split; [exact presence_on_session_events|].
  split; [exact presence_on_token_cleared|].
  exact presence_follows_isConnected.
Qed.

(** ** What later worlds keep *)

Global Instance Ext_refl : Reflexive Ext.
Proof. intros w. unfold Ext. split_and!; auto. Qed.

Global Instance Ext_trans : Transitive Ext.
Proof.
  intros w1 w2 w3 (A1 & A2 & A3 & A4 & A5 & A6) (B1 & B2 & B3 & B4 & B5 & B6).
  unfold Ext. split_and!; [lia..|auto|auto|].
  destruct B6 as [->|[->|(n & -> & ?)]]; [done|auto|].
  right; right. exists n. split; [done|lia].
Qed.

Lemma Ext_same w w' :
  length (sockets w') = length (sockets w) → timers w' = timers w →
  promises w' = promises w → pendingCleanup w' = pendingCleanup w → Ext w w'.
Proof. intros E1 E2 E3 E4. unfold Ext. rewrite E1, E2, E3, E4. split_and!; auto. Qed.

Lemma Ext_updSocket sid f w : Ext w (updSocket sid f w).
Proof. apply Ext_same; try done. apply length_alter. Qed.

Lemma Ext_clearTimer t w : Ext w (clearTimer t w).
Proof.
  unfold Ext, clearTimer. simpl. rewrite length_insert. split_and!; auto.
  intros t' Ht'. rewrite list_lookup_insert. case_decide; [done|done].
Qed.

Lemma Ext_set_timers_snoc l tm w : l = timers w → Ext w (set_timers (l ++ [tm]) w).
Proof.
  intros ->. unfold Ext. simpl. rewrite length_app. split_and!; auto; [lia|].
  intros t Ht. by apply lookup_app_l_Some.
Qed.

Lemma Ext_rearm t tm next w :
  timers w !! t = Some (Some tm) → Ext w (set_timers (<[t := next]> (timers w)) w).
Proof.
  intros Ht. unfold Ext. simpl. rewrite length_insert. split_and!; auto.
  intros t' Ht'. rewrite list_lookup_insert_ne; [done|]. congruence.
Qed.

Lemma Ext_resolve p v w : Ext w (resolve p v w).
Proof.
  unfold Ext, resolve, settle. simpl.
  destruct (promises w !! p) as [[]|] eqn:Hp; split_and!; auto.
  - by rewrite length_insert.
  - intros q v' Hq. rewrite list_lookup_insert_ne; [done|]. congruence.
Qed.

Lemma Ext_newPromise l w : l = promises w → Ext w (set_promises (l ++ [Pending]) w).
Proof.
  intros ->. unfold Ext. simpl. rewrite length_app. split_and!; auto; [lia|].
  intros p v Hp. by apply lookup_app_l_Some.
Qed.

Lemma Ext_set_sockets_snoc l s w : l = sockets w → Ext w (set_sockets (l ++ [s]) w).
Proof. intros ->. unfold Ext. simpl. rewrite length_app. split_and!; auto. lia. Qed.

Lemma Ext_pendingCleanup_None w : Ext w (set_pendingCleanup None w).
Proof. unfold Ext. simpl. split_and!; auto. Qed.

Lemma Ext_pendingCleanup_fresh n w w' :
  Ext w w' → (length (sockets w) ≤ n)%nat → Ext w (set_pendingCleanup (Some n) w').
Proof.
  intros (A1 & A2 & A3 & A4 & A5 & A6) Hn. unfold Ext. simpl. split_and!; eauto 10.
Qed.

Create HintDb ext discriminated.
#[local] Hint Resolve Ext_updSocket Ext_clearTimer Ext_resolve Ext_pendingCleanup_None : ext.
#[local] Hint Extern 2 (Ext _ (set_timers (_ ++ _) _)) =>
  (apply Ext_set_timers_snoc; reflexivity) : ext.
#[local] Hint Extern 2 (Ext _ (set_promises (_ ++ _) _)) =>
  (apply Ext_newPromise; reflexivity) : ext.
#[local] Hint Extern 2 (Ext _ (set_sockets (_ ++ _) _)) =>
  (apply Ext_set_sockets_snoc; reflexivity) : ext.
#[local] Hint Extern 5 (Ext _ _) => (apply Ext_same; reflexivity) : ext.

Ltac ext_step :=
  match goal with
  | |- Ext ?w ?w => reflexivity
  | |- Ext ?w (?f ?x) => transitivity x;
      [|solve [unfold sock_on, sock_off, sock_connect, sock_emitPing; auto with ext]]
  end.

Ltac ext := repeat ext_step.

Lemma Ext_sendPing now w : Ext w (sendPing now w).
Proof. unfold sendPing. repeat case_match; try reflexivity. ext. Qed.

Lemma Ext_onConnect p t w : Ext w (onConnect p t w).
Proof. unfold onConnect. case_match; ext. Qed.

Lemma Ext_ensureTimeout p w : Ext w (ensureTimeout p w).
Proof. unfold ensureTimeout. ext. Qed.

Lemma Ext_handleConnect now w : Ext w (handleConnect now w).
Proof.
  unfold handleConnect, setInterval. cbv beta iota zeta.
  etrans; [|apply Ext_sendPing]. 
  ext. destruct (pingIntervalRef _); ext.
Qed.

Lemma Ext_handleDisconnect reason w : Ext w (handleDisconnect reason w).
Proof.
  unfold handleDisconnect. cbv zeta.
  set (w1 := match pingIntervalRef _ with Some t => _ | None => _ end).
  assert (Ext w w1) as H1 by (subst w1; destruct (pingIntervalRef _); ext).
  repeat case_match; ext; done.
Qed.

Lemma Ext_handleConnectError message w : Ext w (handleConnectError message w).
Proof. unfold handleConnectError. ext. Qed.

Lemma Ext_handleReconnect n w : Ext w (handleReconnect n w).
Proof. unfold handleReconnect. ext. Qed.

Lemma Ext_handleReconnectAttempt n w : Ext w (handleReconnectAttempt n w).
Proof. unfold handleReconnectAttempt. ext. Qed.

Lemma Ext_handlePong now data w : Ext w (handlePong now data w).
Proof.
  destruct data; [reflexivity| |reflexivity]. simpl.
  match goal with |- Ext _ (checkConnectionQuality _ ?w') =>
    destruct (checkConnectionQuality_cases now w') as (q & -> & _) end.
  ext.
Qed.

Lemma Ext_runListener now ev l w : Ext w (runListener now ev l w).
Proof.
  destruct l, ev; simpl; try reflexivity;
    auto using Ext_handleConnect, Ext_handleDisconnect, Ext_handleConnectError,
      Ext_handleReconnect, Ext_handleReconnectAttempt, Ext_handlePong, Ext_onConnect.
Qed.

Lemma Ext_emit now sid ev w : Ext w (emit now sid ev w).
Proof.
  unfold emit. destruct (sockets w !! sid) as [s|]; [|reflexivity].
  generalize (listenersFor (eventName ev) s). intros ls. revert w.
  induction ls as [|l ls IH]; intros w; simpl; [reflexivity|].
  etrans; [apply (Ext_runListener now ev l)|apply IH].
Qed.

Lemma Ext_transport now sid ev w : Ext w (transport now sid ev w).
Proof.
  unfold transport. etrans; [|apply Ext_emit]. destruct ev; try reflexivity; ext.
Qed.

Lemma Ext_sock_disconnect now sid w : Ext w (sock_disconnect now sid w).
Proof.
  unfold sock_disconnect. repeat case_match; try reflexivity.
  etrans; [|apply Ext_emit]. ext.
Qed.

Lemma Ext_effectCleanup now sid w : Ext w (effectCleanup now sid w).
Proof.
  unfold effectCleanup. cbv zeta. etrans; [|apply Ext_sock_disconnect].
  ext. destruct (pingIntervalRef _); ext.
Qed.

Lemma Ext_runCleanup now w : Ext w (runCleanup now w).
Proof.
  unfold runCleanup. case_match; [|reflexivity].
  etrans; [apply (Ext_effectCleanup now)|apply Ext_pendingCleanup_None].
Qed.

Lemma Ext_effect now tok w : Ext w (effect now tok w).
Proof.
  unfold effect. destruct (tokenPresent tok) as [token|].
  - unfold io. cbv beta iota zeta.
    apply Ext_pendingCleanup_fresh; [|simpl; lia]. ext.
  - cbv zeta. ext. case_match; [|ext]. ext.
    etrans; [|apply Ext_sock_disconnect]. ext.
Qed.

Lemma Ext_render now tok w : Ext w (render now tok w).
Proof.
  unfold render. repeat case_match; try reflexivity.
  etrans; [|apply Ext_effect]. etrans; [|apply Ext_runCleanup]. ext.
Qed.

Lemma Ext_unmount now w : Ext w (unmount now w).
Proof.
  unfold unmount. case_match; [reflexivity|].
  etrans; [apply (Ext_runCleanup now)|]. ext.
Qed.

Lemma Ext_fireTimer now t w : Ext w (fireTimer now t w).
Proof.
  unfold fireTimer. destruct (timers w !! t) as [[tm|]|] eqn:Ht; try reflexivity.
  match goal with |- Ext _ (runTimerCb _ _ ?w') => transitivity w' end;
    [by eapply Ext_rearm|].
  destruct (callback tm); simpl; [apply Ext_sendPing|apply Ext_ensureTimeout].
Qed.

Lemma Ext_ensureConnected now w : Ext w (ensureConnected now w).2.
Proof.
  unfold ensureConnected, newPromise, setTimeout. cbv beta iota zeta.
  repeat case_match; simpl; ext.
Qed.

Lemma Ext_step now i w : Ext w (step now i w).
Proof.
  unfold step.
  match goal with |- Ext _ (set_clock _ ?w') => transitivity w'; [|by apply Ext_same] end.
  destruct i.
  - apply Ext_render.
  - apply Ext_unmount.
  - apply Ext_transport.
  - apply Ext_fireTimer.
  - apply Ext_ensureConnected.
  - apply Ext_sendPing.
Qed.

Lemma Ext_run tr w w' : run tr w = Some w' → Ext w w'.
Proof.
  revert w. induction tr as [|[now i] tr IH]; intros w; simpl.
  - by intros [= <-].
  - case_match; [|done]. intros Hrun. etrans; [apply (Ext_step now i)|by apply IH].
Qed.

(** Heartbeat timers. *)
Lemma elem_of_heartbeatTimers t w :
  t ∈ heartbeatTimers w ↔ ∃ tm, timers w !! t = Some (Some tm) ∧ callback tm = CbSendPing.
Proof.
  unfold heartbeatTimers. rewrite list_elem_of_fmap. split.
  - intros ([t' x] & -> & [Hhb Hin]%list_elem_of_filter). simpl in *.
    apply elem_of_lookup_imap in Hin as (i & y & [= -> ->] & Hi).
    destruct y as [tm|]; [|done]. exists tm. split; [done|].
    simpl in Hhb. by apply bool_decide_eq_true in Hhb.
  - intros (tm & Ht & Hcb). exists (t, Some tm). split; [done|].
    apply list_elem_of_filter. split.
    + simpl. by apply bool_decide_eq_true.
    + apply elem_of_lookup_imap. eauto.
Qed.

Lemma heartbeatTimers_nil w : NoHeartbeat (timers w) → heartbeatTimers w = [].
Proof.
  intros H. apply elem_of_nil_inv. intros t (tm & Ht & Hcb)%elem_of_heartbeatTimers.
  by destruct (H _ _ Ht).
Qed.

Lemma unwired_no_handler s nl : unwired s → nl ∈ sixHandlers → nl ∉ listeners s.
Proof.
  intros Hu Hsix Hin. unfold unwired in Hu. rewrite Forall_forall in Hu.
  specialize (Hu _ Hin). unfold sixHandlers in Hsix.
  repeat (apply elem_of_cons in Hsix as [->|Hsix]; [done|]). by apply elem_of_nil in Hsix.
Qed.

(** The world the pending cleanup leaves. *)
Lemma runCleanup_live now w sid :
  Inv w → pendingCleanup w = Some sid →
  ∃ s, sockets w !! sid = Some s ∧ wired s ∧
    runCleanup now w =
      set_pendingCleanup None
        (set_sockets (alter closeSix sid (sockets w))
          (match pingIntervalRef w with
           | Some t => clearTimer t (log LogCleanup w)
           | None => log LogCleanup w
           end)).
Proof.
  intros H Hpc. destruct (Inv_live_socket _ _ H Hpc) as (s & ex & Hs & E & Hex & _).
  exists s. split_and!; [done|by exists ex|].
  unfold runCleanup. rewrite Hpc. by rewrite (effectCleanup_live _ _ _ _ _ Hs E Hex).
Qed.

Lemma runCleanup_released now w sid :
  Inv w → pendingCleanup w = Some sid →
  let w' := runCleanup now w in
  NoHeartbeat (timers w') ∧
  (∀ t, t ∈ heartbeatTimers w → timers w' !! t = Some None) ∧
  socketRef w' = Some sid ∧
  length (sockets w') = length (sockets w) ∧
  ∃ s', sockets w' !! sid = Some s' ∧ connected s' = false ∧ unwired s'.
Proof.
  intros H Hpc w'. subst w'.
  destruct (runCleanup_live now _ _ H Hpc) as (s & Hs & Hw & ->).
  destruct (Inv_live_socket _ _ H Hpc) as (_ & _ & _ & _ & _ & Hsr).
  pose proof (inv_heartbeat _ H) as Hh. pose proof (NoHeartbeat_clear _ _ Hh) as Hn.
  split_and!.
  - by destruct (pingIntervalRef w).
  - intros t (tm & Ht & Hcb)%elem_of_heartbeatTimers.
    rewrite (Hh _ _ Ht Hcb). simpl. apply list_lookup_insert_eq. by eapply lookup_lt_Some.
  - by destruct (pingIntervalRef w).
  - simpl. apply length_alter.
  - exists (closeSix s). simpl. rewrite list_lookup_alter_eq, Hs.
    split_and!; [done..|]. by apply closeSix_wired.
Qed.


(** ** Allocated ids *)

Lemma AllocL_mono np nt np' nt' ss :
  (np ≤ np')%nat → (nt ≤ nt')%nat → AllocL np nt ss → AllocL np' nt' ss.
Proof. intros ?? H sid s n p t Hs Hin. destruct (H _ _ _ _ _ Hs Hin). lia. Qed.

Lemma AllocT_mono np np' tms : (np ≤ np')%nat → AllocT np tms → AllocT np' tms.
Proof. intros ? H t tm p Ht Hcb. specialize (H _ _ _ Ht Hcb). lia. Qed.

Lemma AllocR_mono n n' ref : (n ≤ n')%nat → AllocR n ref → AllocR n' ref.
Proof. intros ? H i Hi. specialize (H _ Hi). lia. Qed.

Lemma AllocL_alter np nt ss f sid :
  (∀ s nl, nl ∈ listeners (f s) → nl ∈ listeners s) →
  AllocL np nt ss → AllocL np nt (alter f sid ss).
Proof.
  intros Hf H j s' n p t. rewrite list_lookup_alter. case_decide; subst; [|by eauto].
  destruct (ss !! j) eqn:E; intros [= <-] Hin. eauto.
Qed.

Lemma AllocL_on np nt ss sid p t :
  (p < np)%nat → (t < nt)%nat → AllocL np nt ss →
  AllocL np nt (alter (λ s, with_listeners (listeners s ++ [(NConnect, LOnConnect p t)]) s) sid ss).
Proof.
  intros Hp Ht H j s' n p' t'. rewrite list_lookup_alter. case_decide; subst; [|by eauto].
  destruct (ss !! j) eqn:E; intros [= <-]. simpl.
  intros [Hin|[= _ -> ->]%list_elem_of_singleton]%elem_of_app; eauto.
Qed.

Lemma AllocL_snoc np nt ss s :
  (∀ n p t, (n, LOnConnect p t) ∉ listeners s) → AllocL np nt ss → AllocL np nt (ss ++ [s]).
Proof.
  intros Hs H j s' n p t [[_ Hj]|[_ <-]]%lookup_snoc_Some Hin; [by eauto|].
  by destruct (Hs n p t).
Qed.

Lemma elem_of_removeFirst x y ls : x ∈ removeFirst y ls → x ∈ ls.
Proof.
  induction ls as [|z ls IH]; simpl; [done|]. case_decide.
  - intros. by right.
  - intros [->|?]%elem_of_cons; [by left|]. right. auto.
Qed.

Lemma AllocT_insert_None np tms t : AllocT np tms → AllocT np (<[t := None]> tms).
Proof.
  intros H t' tm p [(-> & ? & _)|[_ Ht]]%list_lookup_insert_Some; [done|]. by eapply H.
Qed.

Lemma AllocT_snoc np tms tm :
  (∀ p, callback tm = CbEnsureTimeout p → (p < np)%nat) → AllocT np tms →
  AllocT np (tms ++ [Some tm]).
Proof.
  intros Htm H t tm' p [[_ Ht]|[_ [= <-]]]%lookup_snoc_Some Hcb; [by eapply H|by apply Htm].
Qed.

Lemma AllocT_rearm np tms t tm next :
  tms !! t = Some (Some tm) →
  (∀ tm', next = Some tm' → callback tm' = callback tm) →
  AllocT np tms → AllocT np (<[t := next]> tms).
Proof.
  intros Ht Hnext H t' tm' p [(-> & -> & _)|[_ Ht']]%list_lookup_insert_Some Hcb.
  - eapply H; [done|]. by rewrite <-(Hnext tm').
  - by eapply H.
Qed.

Lemma length_settle p v ps : length (settle p v ps) = length ps.
Proof. unfold settle. repeat case_match; try done. apply length_insert. Qed.

Lemma Alloc_same w w' :
  length (promises w') = length (promises w) → timers w' = timers w →
  pingIntervalRef w' = pingIntervalRef w → socketRef w' = socketRef w →
  length (sockets w') = length (sockets w) →
  (∀ sid s', sockets w' !! sid = Some s' →
     ∃ s, sockets w !! sid = Some s ∧ ∀ nl, nl ∈ listeners s' → nl ∈ listeners s) →
  Alloc w → Alloc w'.
Proof.
  intros E1 E2 E3 E4 E5 Hs [H1 H2 H3 H4]. split; rewrite ?E1, ?E2, ?E3, ?E4, ?E5; try done.
  intros sid s' n p t Hs' Hin. destruct (Hs _ _ Hs') as (s & Hss & Hsub). eauto.
Qed.

(** Setting a field the predicate does not read. *)
Ltac frame_of H :=
  revert H;
  match goal with |- ?P ?x → _ => generalize x end;
  let X := fresh "X" in intros X [? ? ? ?]; by split.

Lemma Alloc_updSocket sid f w :
  (∀ s nl, nl ∈ listeners (f s) → nl ∈ listeners s) → Alloc w → Alloc (updSocket sid f w).
Proof.
  intros Hf [H1 H2 H3 H4]. split; simpl; rewrite ?length_alter; try done.
  by apply AllocL_alter.
Qed.

Lemma Alloc_clearTimer t w : Alloc w → Alloc (clearTimer t w).
Proof.
  intros [H1 H2 H3 H4]. split; simpl; rewrite ?length_insert; try done.
  by apply AllocT_insert_None.
Qed.

Lemma Alloc_resolve p v w : Alloc w → Alloc (resolve p v w).
Proof. intros [H1 H2 H3 H4]. split; simpl; rewrite ?length_settle; done. Qed.

Lemma Alloc_sendPing now w : Alloc w → Alloc (sendPing now w).
Proof.
  intros H. unfold sendPing. repeat case_match; try done.
  apply Alloc_updSocket; [done|]. by destruct H.
Qed.

Lemma Alloc_onConnect p t w : Alloc w → Alloc (onConnect p t w).
Proof.
  intros H. unfold onConnect.
  assert (Alloc (resolve p true (log LogCanSend (setIsConnecting false (clearTimer t w)))))
    as H'.
  { apply Alloc_resolve. apply (Alloc_clearTimer t) in H. by destruct H. }
  case_match; [|done]. apply Alloc_updSocket; [|done].
  intros s nl. simpl. apply elem_of_removeFirst.
Qed.

Lemma Alloc_ensureTimeout p w : Alloc w → Alloc (ensureTimeout p w).
Proof. intros H. apply Alloc_resolve. by destruct H. Qed.

Lemma Alloc_handleConnect now w : Alloc w → Alloc (handleConnect now w).
Proof.
  intros H. unfold handleConnect, setInterval. cbv beta iota zeta. apply Alloc_sendPing.
  assert (Alloc (match pingIntervalRef w with Some t => clearTimer t w | None => w end))
    as [H1 H2 H3 H4].
  { destruct (pingIntervalRef w); [by apply Alloc_clearTimer|done]. }
  simpl. destruct (pingIntervalRef w) eqn:E.
  all: split; simpl in *; rewrite ?length_app; simpl.
  all: try (eapply AllocL_mono; [| |done]; lia).
  all: try (apply AllocT_snoc; [done|done]).
  all: try (intros i [= <-]; lia).
  all: done.
Qed.

Lemma Alloc_handleDisconnect reason w : Alloc w → Alloc (handleDisconnect reason w).
Proof.
  intros H. unfold handleDisconnect. cbv zeta. simpl.
  assert (Alloc (match pingIntervalRef w with
                 | Some t => set_pingIntervalRef None (clearTimer t w)
                 | None => w end)) as [H1 H2 H3 H4].
  { destruct (pingIntervalRef w); [|done].
    apply (Alloc_clearTimer n) in H. by destruct H. }
  destruct (pingIntervalRef w); repeat case_match; split; done.
Qed.

Lemma Alloc_handlePong now data w : Alloc w → Alloc (handlePong now data w).
Proof.
  intros H. destruct data; [done| |done]. simpl.
  match goal with |- Alloc (checkConnectionQuality _ ?w') =>
    destruct (checkConnectionQuality_cases now w') as (q & -> & _) end.
  by destruct H.
Qed.

Lemma Alloc_runListener now ev l w : Alloc w → Alloc (runListener now ev l w).
Proof.
  intros H. destruct l, ev; simpl; try done;
    auto using Alloc_handleConnect, Alloc_handleDisconnect, Alloc_handlePong, Alloc_onConnect.
  all: by destruct H.
Qed.

Lemma Alloc_emit now sid ev w : Alloc w → Alloc (emit now sid ev w).
Proof.
  unfold emit. destruct (sockets w !! sid) as [s|]; [|done].
  generalize (listenersFor (eventName ev) s). intros ls. revert w.
  induction ls as [|l ls IH]; intros w H; simpl; [done|].
  apply IH. by apply Alloc_runListener.
Qed.

Lemma Alloc_transport now sid ev w : Alloc w → Alloc (transport now sid ev w).
Proof.
  intros H. unfold transport. apply Alloc_emit.
  destruct ev; try done; by apply Alloc_updSocket.
Qed.

Lemma Alloc_sock_disconnect now sid w : Alloc w → Alloc (sock_disconnect now sid w).
Proof.
  intros H. unfold sock_disconnect. repeat case_match; try done.
  apply Alloc_emit. by apply Alloc_updSocket.
Qed.

Lemma Alloc_sock_off sid n l w : Alloc w → Alloc (sock_off sid n l w).
Proof. apply Alloc_updSocket. intros s nl. simpl. apply elem_of_removeFirst. Qed.

Lemma Alloc_effectCleanup now sid w : Alloc w → Alloc (effectCleanup now sid w).
Proof.
  intros H. unfold effectCleanup. cbv zeta. apply Alloc_sock_disconnect.
  do 6 apply Alloc_sock_off.
  change (pingIntervalRef (log LogCleanup w)) with (pingIntervalRef w).
  destruct (pingIntervalRef w); [apply Alloc_clearTimer|]; by destruct H.
Qed.

Lemma Alloc_runCleanup now w : Alloc w → Alloc (runCleanup now w).
Proof.
  intros H. unfold runCleanup. case_match; [|done].
  apply (Alloc_effectCleanup now n) in H. frame_of H.
Qed.

Lemma Alloc_effect now tok w : Alloc w → Alloc (effect now tok w).
Proof.
  intros H. unfold effect. destruct (tokenPresent tok) as [token|].
  - unfold io. cbv beta iota zeta. unfold_sock. destruct H as [H1 H2 H3 H4].
    split; simpl; rewrite ?length_alter, ?length_app; simpl; try done.
    + rewrite !list_alter_alter_eq, alter_snoc.
      apply AllocL_snoc; [|done]. intros n p t. simpl.
      intros Hin. repeat (apply elem_of_cons in Hin as [[=]|Hin]). by apply elem_of_nil in Hin.
    + intros i [= <-]. lia.
  - cbv zeta. simpl.
    assert (Alloc (match socketRef w with
                   | Some sid => set_socketRef None (sock_disconnect now sid (log LogNotLoggedIn w))
                   | None => log LogNotLoggedIn w end)) as [H1 H2 H3 H4].
    { destruct (socketRef w) as [sid|]; [|by destruct H].
      assert (Alloc (log LogNotLoggedIn w)) as H' by (by destruct H).
      apply (Alloc_sock_disconnect now sid) in H'. frame_of H'. }
    by destruct (socketRef w).
Qed.

Lemma Alloc_render now tok w : Alloc w → Alloc (render now tok w).
Proof.
  intros H. unfold render. repeat case_match; try done.
  apply Alloc_effect, Alloc_runCleanup. by destruct H.
Qed.

Lemma Alloc_unmount now w : Alloc w → Alloc (unmount now w).
Proof.
  intros H. unfold unmount. case_match; [done|].
  apply (Alloc_runCleanup now) in H. frame_of H.
Qed.

Lemma Alloc_fireTimer now t w : Alloc w → Alloc (fireTimer now t w).
Proof.
  intros H. unfold fireTimer. destruct (timers w !! t) as [[tm|]|] eqn:Ht; try done.
  match goal with |- Alloc (runTimerCb _ _ ?w') => assert (Alloc w') as H' end.
  { destruct H as [H1 H2 H3 H4]. split; simpl; rewrite ?length_insert; try done.
    eapply AllocT_rearm; [done| |done]. intros tm'. by destruct (period tm); intros [= <-]. }
  destruct (callback tm); simpl; [by apply Alloc_sendPing|by apply Alloc_ensureTimeout].
Qed.

Lemma Alloc_ensureConnected now w : Alloc w → Alloc (ensureConnected now w).2.
Proof.
  intros H. unfold ensureConnected, newPromise, setTimeout. cbv beta iota zeta.
  assert (Alloc (set_promises (promises w ++ [Pending]) w)) as H0.
  { destruct H as [H1 H2 H3 H4]. split; simpl; rewrite ?length_app; simpl; try done.
    - eapply AllocL_mono; [| |done]; lia.
    - eapply AllocT_mono; [|done]; lia. }
  change (currentSocket (set_promises (promises w ++ [Pending]) w)) with (currentSocket w).
  destruct (currentSocket w) as [[sid s]|] eqn:Hcur.
  - destruct (connected s); simpl.
    + apply Alloc_resolve. by destruct H0.
    + destruct H0 as [H1 H2 H3 H4]. unfold_sock.
      split; simpl in *; rewrite ?length_alter, ?length_app in *; simpl in *.
      * apply AllocL_on; [lia..|]. apply AllocL_alter; [done|].
        eapply AllocL_mono; [| |done]; lia.
      * apply AllocT_snoc; [|done]. simpl. intros p [= <-]. lia.
      * eapply AllocR_mono; [|done]. lia.
      * done.
  - apply Alloc_resolve. by destruct H0.
Qed.

Lemma Alloc_step now i w : Alloc w → Alloc (step now i w).
Proof.
  intros H. unfold step.
  match goal with |- Alloc (set_clock _ ?w') => assert (Alloc w') as H'; [|by destruct H'] end.
  destruct i.
  - by apply Alloc_render.
  - by apply Alloc_unmount.
  - by apply Alloc_transport.
  - by apply Alloc_fireTimer.
  - by apply Alloc_ensureConnected.
  - by apply Alloc_sendPing.
Qed.

Lemma Alloc_init : Alloc init.
Proof. by split. Qed.

Lemma Alloc_run tr w w' : Alloc w → run tr w = Some w' → Alloc w'.
Proof.
  revert w. induction tr as [|[now i] tr IH]; intros w H; simpl.
  - by intros [= <-].
  - case_match; [|done]. apply IH. by apply Alloc_step.
Qed.

(** ** Pending calls of [ensureConnected] *)

Lemma WaitT_clear p t d tms t' :
  t' ≠ t → WaitT p t d tms → WaitT p t d (<[t' := None]> tms).
Proof.
  intros Hne [H1 H2]. split.
  - by rewrite list_lookup_insert_ne.
  - intros t'' tm [(-> & ? & _)|[_ Ht]]%list_lookup_insert_Some; [done|]. by apply H2.
Qed.

Lemma WaitT_snoc p t d tms tm :
  callback tm ≠ CbEnsureTimeout p → WaitT p t d tms → WaitT p t d (tms ++ [Some tm]).
Proof.
  intros Hne [H1 H2]. split.
  - by apply lookup_app_l_Some.
  - intros t' tm' [[_ Ht]|[_ [= <-]]]%lookup_snoc_Some; [by apply H2|done].
Qed.

Lemma WaitT_rearm p t d tms t' tm next :
  t' ≠ t → tms !! t' = Some (Some tm) →
  (∀ tm', next = Some tm' → callback tm' = callback tm) →
  WaitT p t d tms → WaitT p t d (<[t' := next]> tms).
Proof.
  intros Hne Ht' Hnext [H1 H2]. split.
  - by rewrite list_lookup_insert_ne.
  - intros t'' tm' [(-> & -> & _)|[_ Ht]]%list_lookup_insert_Some Hcb; [|by eapply H2].
    eapply H2; [done|]. by rewrite <-(Hnext tm').
Qed.

Lemma WaitL_alter p t sid ss f sid' :
  (∀ s nl, nl ∈ listeners (f s) → nl ∈ listeners s) →
  (∀ s, (NConnect, LOnConnect p t) ∈ listeners s → (NConnect, LOnConnect p t) ∈ listeners (f s)) →
  WaitL p t sid ss → WaitL p t sid (alter f sid' ss).
Proof.
  intros Hsub Hkeep [(s & Hs & Hin) H2]. split.
  - rewrite list_lookup_alter. case_decide; subst; [|by eauto].
    rewrite Hs. exists (f s). split; [done|]. by apply Hkeep.
  - intros j s' n p' t'. rewrite list_lookup_alter. case_decide; subst; [|by eauto].
    destruct (ss !! j) eqn:E; intros [= <-] Hin'. eauto.
Qed.

Lemma WaitL_on p t sid ss sid' p' t' :
  p' ≠ p → t' ≠ t → WaitL p t sid ss →
  WaitL p t sid
    (alter (λ s, with_listeners (listeners s ++ [(NConnect, LOnConnect p' t')]) s) sid' ss).
Proof.
  intros Hp Ht [(s & Hs & Hin) H2]. split.
  - rewrite list_lookup_alter. case_decide; subst; [|by eauto].
    rewrite Hs. eexists. split; [done|]. simpl. apply elem_of_app. by left.
  - intros j s' n p'' t''. rewrite list_lookup_alter. case_decide; subst; [|by eauto].
    destruct (ss !! j) eqn:E; intros [= <-]. simpl.
    intros [Hin'|[= _ -> ->]%list_elem_of_singleton]%elem_of_app; [by eauto|].
    by intros [|].
Qed.

Lemma WaitL_snoc p t sid ss s :
  (∀ n p' t', (n, LOnConnect p' t') ∉ listeners s) → WaitL p t sid ss →
  WaitL p t sid (ss ++ [s]).
Proof.
  intros Hs [(s0 & Hs0 & Hin) H2]. split.
  - exists s0. split; [by apply lookup_app_l_Some|done].
  - intros j s' n p' t' [[_ Hj]|[_ <-]]%lookup_snoc_Some Hin'; [by eauto|].
    by destruct (Hs n p' t').
Qed.

Lemma elem_of_removeFirst_ne x y ls : x ≠ y → x ∈ ls → x ∈ removeFirst y ls.
Proof.
  intros Hne. induction ls as [|z ls IH]; simpl; [done|].
  intros [->|Hin]%elem_of_cons.
  - rewrite decide_False by done. by left.
  - case_decide; [done|]. right. auto.
Qed.

Lemma WaitL_off p t sid ss sid' nl :
  nl ≠ (NConnect, LOnConnect p t) → WaitL p t sid ss →
  WaitL p t sid (alter (λ s, with_listeners (removeFirst nl (listeners s)) s) sid' ss).
Proof.
  intros Hne. apply WaitL_alter.
  - intros s x. simpl. apply elem_of_removeFirst.
  - intros s. simpl. by apply elem_of_removeFirst_ne.
Qed.

Lemma lookup_settle_ne p p' v ps : p' ≠ p → settle p' v ps !! p = ps !! p.
Proof.
  intros Hne. unfold settle. repeat case_match; try done. by rewrite list_lookup_insert_ne.
Qed.

Lemma lookup_settle_pending p v ps :
  ps !! p = Some Pending → settle p v ps !! p = Some (Fulfilled v).
Proof.
  intros Hp. unfold settle. rewrite Hp. apply list_lookup_insert_eq. by eapply lookup_lt_Some.
Qed.

Lemma lookup_settle_fulfilled p p' v v' ps :
  ps !! p = Some (Fulfilled v) → settle p' v' ps !! p = Some (Fulfilled v).
Proof.
  intros Hp. unfold settle. destruct (ps !! p') as [[]|] eqn:Hp'; try done.
  rewrite list_lookup_insert_ne; [done|]. congruence.
Qed.

Section Waiting.
Context (p t sid : nat) (d : Z).

Lemma Waiting_same w w' :
  promises w' = promises w → timers w' = timers w →
  pingIntervalRef w' = pingIntervalRef w → sockets w' = sockets w →
  Waiting p t sid d w → Waiting p t sid d w'.
Proof. intros E1 E2 E3 E4 [H1 H2 H3 H4]. split; by rewrite ?E1, ?E2, ?E3, ?E4. Qed.

Lemma Waiting_updSocket sid' f w :
  (∀ s nl, nl ∈ listeners (f s) → nl ∈ listeners s) →
  (∀ s, (NConnect, LOnConnect p t) ∈ listeners s →
        (NConnect, LOnConnect p t) ∈ listeners (f s)) →
  Waiting p t sid d w → Waiting p t sid d (updSocket sid' f w).
Proof. intros Hsub Hkeep [H1 H2 H3 H4]. split; simpl; try done. by apply WaitL_alter. Qed.

Lemma Waiting_flag sid' b w :
  Waiting p t sid d w → Waiting p t sid d (updSocket sid' (with_connected b) w).
Proof. apply Waiting_updSocket; by simpl; auto. Qed.

Lemma Waiting_clearTimer t' w :
  t' ≠ t → Waiting p t sid d w → Waiting p t sid d (clearTimer t' w).
Proof. intros Hne [H1 H2 H3 H4]. split; simpl; try done. by apply WaitT_clear. Qed.

Lemma Waiting_resolve p' v w :
  p' ≠ p → Waiting p t sid d w → Waiting p t sid d (resolve p' v w).
Proof. intros Hne [H1 H2 H3 H4]. split; simpl; try done. by rewrite lookup_settle_ne. Qed.

Lemma Waiting_sendPing now w : Waiting p t sid d w → Waiting p t sid d (sendPing now w).
Proof.
  intros H. unfold sendPing, sock_emitPing. repeat case_match; try done.
  apply Waiting_updSocket; [by simpl; auto..|]. by apply (Waiting_same w).
Qed.

Lemma Waiting_onConnect p' t' w :
  p' ≠ p → t' ≠ t → Waiting p t sid d w → Waiting p t sid d (onConnect p' t' w).
Proof.
  intros Hp Ht H. unfold onConnect.
  assert (Waiting p t sid d
            (resolve p' true (log LogCanSend (setIsConnecting false (clearTimer t' w)))))
    as H'.
  { apply Waiting_resolve; [done|]. apply (Waiting_clearTimer t') in H; [|done].
    by apply (Waiting_same (clearTimer t' w)). }
  case_match; [|done]. destruct H' as [H1 H2 H3 H4]. split; simpl; try done.
  apply WaitL_off; [|done]. congruence.
Qed.

Lemma Waiting_ensureTimeout p' w :
  p' ≠ p → Waiting p t sid d w → Waiting p t sid d (ensureTimeout p' w).
Proof.
  intros Hp H. unfold ensureTimeout. apply Waiting_resolve; [done|].
  by apply (Waiting_same w).
Qed.

Lemma Waiting_handleConnect now w :
  Waiting p t sid d w → Waiting p t sid d (handleConnect now w).
Proof.
  intros H. unfold handleConnect, setInterval. cbv beta iota zeta. apply Waiting_sendPing.
  assert (Waiting p t sid d
            (match pingIntervalRef w with Some t' => clearTimer t' w | None => w end))
    as [H1 [H2 H2'] H3 H4].
  { destruct (pingIntervalRef w) eqn:E; [|done]. apply Waiting_clearTimer; [|done].
    destruct H as [_ _ _ H4]. congruence. }
  assert (t < length (timers (match pingIntervalRef w with
                              | Some t' => clearTimer t' w | None => w end)))%nat as Hlt
    by (by eapply lookup_lt_Some).
  simpl. destruct (pingIntervalRef w) eqn:E; split; simpl in *; try done.
  all: try (by apply WaitT_snoc).
  all: intros [= E']; lia.
Qed.

Lemma Waiting_handleDisconnect reason w :
  Waiting p t sid d w → Waiting p t sid d (handleDisconnect reason w).
Proof.
  intros H. unfold handleDisconnect. cbv zeta. simpl.
  assert (Waiting p t sid d
            (match pingIntervalRef w with
             | Some t' => set_pingIntervalRef None (clearTimer t' w)
             | None => w end)) as [H1 H2 H3 H4].
  { destruct (pingIntervalRef w) eqn:E; [|done].
    assert (n ≠ t) as Hne by (destruct H as [_ _ _ H4]; congruence).
    apply (Waiting_clearTimer n) in H; [|done]. destruct H. by split. }
  destruct (pingIntervalRef w); repeat case_match; split; done.
Qed.

Lemma Waiting_handlePong now data w :
  Waiting p t sid d w → Waiting p t sid d (handlePong now data w).
Proof.
  intros H. destruct data; [done| |done]. simpl.
  match goal with |- Waiting _ _ _ _ (checkConnectionQuality _ ?w') =>
    destruct (checkConnectionQuality_cases now w') as (q & -> & _) end.
  by apply (Waiting_same w).
Qed.

Lemma Waiting_fireTimer now t' w :
  t' ≠ t → Waiting p t sid d w → Waiting p t sid d (fireTimer now t' w).
Proof.
  intros Hne H. unfold fireTimer. destruct (timers w !! t') as [[tm|]|] eqn:Ht; try done.
  match goal with |- Waiting _ _ _ _ (runTimerCb _ _ ?w') =>
    assert (Waiting p t sid d w') as H' end.
  { destruct H as [H1 H2 H3 H4]. split; simpl; try done.
    eapply WaitT_rearm; [done..| |done]. intros tm'. by destruct (period tm); intros [= <-]. }
  destruct (callback tm) as [|p'] eqn:Hcb; simpl; [by apply Waiting_sendPing|].
  apply Waiting_ensureTimeout; [|done].
  intros ->. destruct H as [_ [_ H2] _ _]. by apply Hne, (H2 _ tm).
Qed.

Lemma Waiting_ensureConnected now w :
  Waiting p t sid d w → Waiting p t sid d (ensureConnected now w).2.
Proof.
  intros H. unfold ensureConnected, newPromise, setTimeout. cbv beta iota zeta.
  assert (p < length (promises w))%nat as Hp by (destruct H; by eapply lookup_lt_Some).
  assert (t < length (timers w))%nat as Ht by (destruct H as [_ [? _] _ _]; by eapply lookup_lt_Some).
  assert (Waiting p t sid d (set_promises (promises w ++ [Pending]) w)) as H0.
  { destruct H as [H1 H2 H3 H4]. split; simpl; try done. by apply lookup_app_l_Some. }
  change (currentSocket (set_promises (promises w ++ [Pending]) w)) with (currentSocket w).
  destruct (currentSocket w) as [[sid' s]|] eqn:Hcur.
  - destruct (connected s); simpl.
    + apply Waiting_resolve; [lia|].
      by apply (Waiting_same (set_promises (promises w ++ [Pending]) w)).
    + destruct H0 as [H1 H2 H3 H4]. unfold_sock. split; simpl in *; try done.
      * apply WaitT_snoc; [|done]. simpl. intros [= E]. lia.
      * apply WaitL_on; [lia..|]. apply WaitL_alter; [by simpl; auto..|done].
  - apply Waiting_resolve; [lia|].
    by apply (Waiting_same (set_promises (promises w ++ [Pending]) w)).
Qed.
End Waiting.

Lemma foldl_onConnect_where (P : World → Prop) (Q : nat → nat → Prop) now ev ex w :
  (∀ p t w, Q p t → P w → P (onConnect p t w)) →
  Forall (λ nl, ∃ p t, nl = (NConnect, LOnConnect p t) ∧ Q p t) ex →
  P w → P (foldl (λ w l, runListener now ev l w) w ex.*2).
Proof.
  intros HP Hex. revert w.
  induction Hex as [|nl ex (p & t & -> & HQ) Hex IH]; intros w Hw; [done|].
  simpl. apply IH. destruct ev; by apply HP.
Qed.

Lemma closeSix_sub s nl : nl ∈ listeners (closeSix s) → nl ∈ listeners s.
Proof. unfold closeSix, dropSix. simpl. by intros ?%elem_of_removeFirst%elem_of_removeFirst
  %elem_of_removeFirst%elem_of_removeFirst%elem_of_removeFirst%elem_of_removeFirst. Qed.

Lemma closeSix_keeps s p t :
  (NConnect, LOnConnect p t) ∈ listeners s → (NConnect, LOnConnect p t) ∈ listeners (closeSix s).
Proof.
  intros H. unfold closeSix, dropSix. simpl.
  by do 6 (apply elem_of_removeFirst_ne; [done|]).
Qed.

Lemma onConnect_listed ex p t :
  Forall isOnConnect ex →
  (∀ n p' t', (n, LOnConnect p' t') ∈ ex → p' ≠ p ∧ t' ≠ t) →
  Forall (λ nl, ∃ p' t', nl = (NConnect, LOnConnect p' t') ∧ p' ≠ p ∧ t' ≠ t) ex.
Proof.
  intros Hex Hne. apply Forall_forall. intros [n l] Hin.
  rewrite Forall_forall in Hex. specialize (Hex _ Hin).
  destruct n, l; try done. eauto 10.
Qed.

Section WaitingStep.
Context (p t sid : nat) (d : Z).

Lemma Waiting_runCleanup now w :
  Inv w → Waiting p t sid d w → Waiting p t sid d (runCleanup now w).
Proof.
  intros H Hw. destruct (pendingCleanup w) as [sid'|] eqn:Hpc.
  2:{ unfold runCleanup. by rewrite Hpc. }
  destruct (runCleanup_live now _ _ H Hpc) as (s & Hs & _ & ->).
  assert (Waiting p t sid d
            (match pingIntervalRef w with
             | Some t' => clearTimer t' (log LogCleanup w)
             | None => log LogCleanup w end)) as [H1 H2 H3 H4].
  { apply (Waiting_same _ _ _ _ w (log LogCleanup w)) in Hw; try done.
    change (pingIntervalRef w) with (pingIntervalRef (log LogCleanup w)).
    destruct (pingIntervalRef (log LogCleanup w)) eqn:E; [|done].
    apply Waiting_clearTimer; [|done]. destruct Hw as [_ _ _ H4]. congruence. }
  split; simpl; try done.
  apply WaitL_alter; [apply closeSix_sub|intros; by apply closeSix_keeps|].
  by destruct (pingIntervalRef w).
Qed.

Lemma Waiting_effect now tok w :
  Inv w → pendingCleanup w = None →
  Waiting p t sid d w → Waiting p t sid d (effect now tok w).
Proof.
  intros H Hpc [H1 H2 H3 H4]. rewrite (effect_eq _ _ _ H Hpc).
  destruct (tokenPresent tok) as [token|]; split; simpl; try done.
  - apply WaitL_snoc; [|done]. intros n p' t' Hin. simpl in Hin.
    repeat (apply elem_of_cons in Hin as [[=]|Hin]). by apply elem_of_nil in Hin.
  - destruct (socketRef w); [|done]. apply WaitL_alter; by simpl; auto.
Qed.

Lemma Waiting_render now tok w :
  Inv w → Waiting p t sid d w → Waiting p t sid d (render now tok w).
Proof.
  intros H Hw. unfold render. repeat case_match; try done.
  assert (Inv (set_userToken (Some tok) w)) as HI by (by destruct H).
  apply Waiting_effect; [by apply Inv_runCleanup|apply runCleanup_pendingCleanup|].
  apply Waiting_runCleanup; [done|]. by apply (Waiting_same _ _ _ _ w).
Qed.

Lemma Waiting_unmount now w :
  Inv w → Waiting p t sid d w → Waiting p t sid d (unmount now w).
Proof.
  intros H Hw. unfold unmount. case_match; [done|].
  apply (Waiting_runCleanup now) in Hw; [|done].
  revert Hw. generalize (runCleanup now w). intros X [H1 H2 H3 H4]. by split.
Qed.

Lemma Waiting_others w sid' s' :
  Waiting p t sid d w → sockets w !! sid' = Some s' → sid' ≠ sid →
  ∀ n p' t', (n, LOnConnect p' t') ∈ listeners s' → p' ≠ p ∧ t' ≠ t.
Proof.
  intros [_ _ [_ H3] _] Hs Hne n p' t' Hin.
  split; intros ->; apply Hne; eapply H3; eauto.
Qed.

Lemma Waiting_transport now sid' ev w :
  Inv w → Waiting p t sid d w → enabled now (Transport sid' ev) w = true →
  (sid' = sid → ev ≠ EvConnect) →
  Waiting p t sid d (transport now sid' ev w).
Proof.
  intros H Hw Hen Hne. apply enabled_Transport in Hen as (s & Hs & _).
  assert (∀ b, Waiting p t sid d (updSocket sid' (with_connected b) w)) as Hflag
    by (intros; by apply Waiting_flag).
  destruct (decide (pendingCleanup w = Some sid')) as [Hpc|Hpc].
  - destruct (Inv_live_socket _ _ H Hpc) as (s' & ex & Hs' & E & Hex & _).
    assert (s' = s) as -> by congruence.
    rewrite (transport_live _ _ _ _ _ _ Hs E Hex). destruct ev.
    + assert (sid' ≠ sid) as Hsid by (intros ->; by apply Hne).
      apply (foldl_onConnect_where _ (λ p' t', p' ≠ p ∧ t' ≠ t)).
      * intros p' t' w' [??]. by apply Waiting_onConnect.
      * apply onConnect_listed; [done|]. intros n p' t' Hin.
        eapply (Waiting_others w sid' s); eauto. rewrite E. apply elem_of_app. by right.
      * by apply Waiting_handleConnect.
    + by apply Waiting_handleDisconnect.
    + by apply (Waiting_same _ _ _ _ w).
    + by apply (Waiting_same _ _ _ _ w).
    + by apply (Waiting_same _ _ _ _ w).
    + by apply Waiting_handlePong.
  - pose proof (Inv_retired_socket _ _ _ H Hpc Hs) as Hu.
    rewrite (transport_retired _ _ _ _ _ Hs Hu). destruct ev; try done.
    assert (sid' ≠ sid) as Hsid by (intros ->; by apply Hne).
    apply (foldl_onConnect_where _ (λ p' t', p' ≠ p ∧ t' ≠ t)).
    + intros p' t' w' [??]. by apply Waiting_onConnect.
    + apply onConnect_listed; [done|]. intros n p' t' Hin.
      eapply (Waiting_others w sid' s); eauto.
    + done.
Qed.

Lemma Waiting_step now i w :
  Inv w → Waiting p t sid d w → enabled now i w = true →
  i ≠ Transport sid EvConnect → i ≠ TimerFire t →
  Waiting p t sid d (step now i w).
Proof.
  intros H Hw Hen Hc Ht. unfold step.
  match goal with |- Waiting _ _ _ _ (set_clock _ ?w') =>
    assert (Waiting p t sid d w') as Hw';
      [|revert Hw'; generalize w'; intros X [? ? ? ?]; by split] end.
  destruct i as [tok| |sid' ev|t'| |].
  - by apply Waiting_render.
  - by apply Waiting_unmount.
  - apply Waiting_transport; try done. intros -> ->. done.
  - apply Waiting_fireTimer; [|done]. congruence.
  - by apply Waiting_ensureConnected.
  - by apply Waiting_sendPing.
Qed.
End WaitingStep.

Lemma onConnect_promises p t w : promises (onConnect p t w) = settle p true (promises w).
Proof. unfold onConnect. by case_match. Qed.

Lemma sendPing_promises now w : promises (sendPing now w) = promises w.
Proof. unfold sendPing. by repeat case_match. Qed.

Lemma handleConnect_promises now w : promises (handleConnect now w) = promises w.
Proof.
  unfold handleConnect, setInterval. cbv beta iota zeta. rewrite sendPing_promises.
  by destruct (pingIntervalRef w) eqn:E; simpl; rewrite E.
Qed.

Lemma foldl_onConnect_resolves p t now ev ls w :
  Forall isOnConnect ls →
  promises w !! p = Some (Fulfilled true) ∨
    (promises w !! p = Some Pending ∧ (NConnect, LOnConnect p t) ∈ ls) →
  promises (foldl (λ w l, runListener now ev l w) w ls.*2) !! p = Some (Fulfilled true).
Proof.
  intros Hls. revert w. induction Hls as [|[n l] ls Hx Hls IH]; intros w Hw.
  - destruct Hw as [?|[_ ?%elem_of_nil]]; done.
  - simpl. apply IH. destruct n, l as [| | | | | |p' t']; try done.
    assert (runListener now ev (LOnConnect p' t') w = onConnect p' t' w) as ->
      by (by destruct ev).
    rewrite onConnect_promises.
    destruct Hw as [Hw|[Hw Hin]]; [left; by apply lookup_settle_fulfilled|].
    destruct (decide (p' = p)) as [->|Hne].
    + left. by apply lookup_settle_pending.
    + right. rewrite lookup_settle_ne by done. split; [done|].
      apply elem_of_cons in Hin as [[= ? ?]|Hin]; [congruence|done].
Qed.

Lemma connect_resolves p t sid d now w :
  Inv w → Waiting p t sid d w →
  promises (step now (Transport sid EvConnect) w) !! p = Some (Fulfilled true).
Proof.
  intros H [H1 _ [(s & Hs & Hin) _] _]. unfold step.
  change (promises (set_clock now ?x)) with (promises x).
  destruct (decide (pendingCleanup w = Some sid)) as [Hpc|Hpc].
  - destruct (Inv_live_socket _ _ H Hpc) as (s' & ex & Hs' & E & Hex & _).
    assert (s' = s) as -> by congruence.
    rewrite (transport_live _ _ _ _ _ _ Hs E Hex).
    apply (foldl_onConnect_resolves p t); [done|]. right.
    rewrite handleConnect_promises. split; [done|].
    rewrite E in Hin. apply elem_of_app in Hin as [Hin|Hin]; [|done].
    unfold sixHandlers in Hin.
    repeat (apply elem_of_cons in Hin as [[=]|Hin]). by apply elem_of_nil in Hin.
  - pose proof (Inv_retired_socket _ _ _ H Hpc Hs) as Hu.
    rewrite (transport_retired _ _ _ _ _ Hs Hu).
    apply (foldl_onConnect_resolves p t); [done|]. by right.
Qed.

Lemma timeout_resolves p t sid d now w :
  Waiting p t sid d w →
  promises (step now (TimerFire t) w) !! p = Some (Fulfilled false).
Proof.
  intros [H1 [H2 _] _ _]. unfold step, fireTimer. rewrite H2. simpl.
  by apply lookup_settle_pending.
Qed.

Lemma timeout_not_before p t sid d now w :
  Waiting p t sid d w → enabled now (TimerFire t) w = true → d ≤ now.
Proof.
  intros [_ [H2 _] _ _] [_ Hen]%andb_prop. simpl in Hen. rewrite H2 in Hen.
  by apply bool_decide_eq_true in Hen.
Qed.

Lemma ensureConnected_waits now w sid s :
  Alloc w → currentSocket w = Some (sid, s) → connected s = false →
  Waiting (length (promises w)) (length (timers w)) sid (now + 10000)
    (ensureConnected now w).2.
Proof.
  intros [F1 F2 F3 F4] Hcur Hc. pose proof (currentSocket_Some _ _ _ Hcur) as [Hsr Hs].
  unfold ensureConnected, newPromise, setTimeout. cbv beta iota zeta.
  change (currentSocket (set_promises (promises w ++ [Pending]) w)) with (currentSocket w).
  rewrite Hcur, Hc. unfold_sock. split; simpl.
  - by rewrite lookup_app_r, Nat.sub_diag.
  - split.
    + by rewrite lookup_app_r, Nat.sub_diag.
    + intros t' tm [[Hlt Ht']|[-> _]]%lookup_snoc_Some Hcb; [|done].
      specialize (F2 _ _ _ Ht' Hcb). lia.
  - split.
    + eexists. rewrite list_lookup_alter_eq, list_lookup_alter_eq, Hs. simpl.
      split; [done|]. apply elem_of_app. right. by left.
    + intros j s' n p' t'. rewrite !list_lookup_alter.
      case_decide; subst; [done|]. intros Hs' Hin Heq.
      destruct (F1 _ _ _ _ _ Hs' Hin). lia.
  - intros E. specialize (F3 _ E). lia.
Qed.

Lemma Waiting_run p t sid d tr w w' :
  Inv w → Waiting p t sid d w → run tr w = Some w' → quiet sid t tr →
  Inv w' ∧ Waiting p t sid d w'.
Proof.
  revert w. induction tr as [|[now i] tr IH]; intros w H Hw; simpl.
  - by intros [= <-].
  - destruct (enabled now i w) eqn:Hen; [|done].
    intros Hrun [[Hc Ht] Hq]%Forall_cons. simpl in *.
    apply (IH (step now i w)); [by apply Inv_step|by apply Waiting_step|done..].
Qed.

Lemma ensureConnected_allocates now w :
  (ensureConnected now w).1 = length (promises w) ∧
  length (promises (ensureConnected now w).2) = S (length (promises w)).
Proof.
  unfold ensureConnected, newPromise, setTimeout. cbv beta iota zeta.
  change (currentSocket (set_promises (promises w ++ [Pending]) w)) with (currentSocket w).
  destruct (currentSocket w) as [[sid s]|]; [destruct (connected s)|]; simpl;
    rewrite ?length_settle, ?length_app; simpl; split; try done; lia.
Qed.

Lemma currentSocket_cases w :
  Alloc w →
  socketConnected w = true ∨ socketRef w = None ∨
  ∃ sid s, currentSocket w = Some (sid, s) ∧ connected s = false.
Proof.
  intros [_ _ _ F4]. unfold socketConnected, currentSocket.
  destruct (socketRef w) as [sid|]; [|by auto].
  destruct (lookup_lt_is_Some_2 (sockets w) sid) as [s Hs]; [by apply F4|].
  rewrite Hs. destruct (connected s) eqn:Hc; [by left|]. right; right. by exists sid, s.
Qed.

(** C6. Along every run, a call of [ensureConnected] returns a new
    promise, in one of three situations. On a connected socket the
    promise is fulfilled with true within the call, and no listener or
    timer is installed. Without a socket it is fulfilled with false within
    the call. On a socket that is not connected, [connect()] is called on
    it and the promise is pending; it stays pending whatever happens until
    the socket reports 'connect' or the timeout expires; 'connect' fulfils
    it with true; the timeout, which cannot expire before 10 seconds have
    passed, fulfils it with false. The promise is never rejected and,
    once fulfilled, keeps its value. *)
Theorem ensureConnected_settles tr w now :
  run tr init = Some w → enabled now CallEnsureConnected w = true →
  let p := length (promises w) in
  let t := length (timers w) in
  let w1 := step now CallEnsureConnected w in
  ((ensureConnected now w).1 = p ∧ promises w !! p = None) ∧
  (socketConnected w = true ∨ socketRef w = None ∨
   ∃ sid s, currentSocket w = Some (sid, s) ∧ connected s = false) ∧
  (socketConnected w = true →
     promises w1 !! p = Some (Fulfilled true) ∧
     sockets w1 = sockets w ∧ timers w1 = timers w) ∧
  (socketRef w = None →
     promises w1 !! p = Some (Fulfilled false) ∧
     sockets w1 = sockets w ∧ timers w1 = timers w) ∧
  (∀ sid s, currentSocket w = Some (sid, s) → connected s = false →
     (∃ s1, sockets w1 !! sid = Some s1 ∧ connectCalls s1 = S (connectCalls s)) ∧
     ∀ tr' w2, run tr' w1 = Some w2 → quiet sid t tr' →
       promises w2 !! p = Some Pending ∧
       (∀ now', promises (step now' (Transport sid EvConnect) w2) !! p
                = Some (Fulfilled true)) ∧
       (∀ now', enabled now' (TimerFire t) w2 = true →
                now + 10000 ≤ now' ∧
                promises (step now' (TimerFire t) w2) !! p = Some (Fulfilled false))) ∧
  (∀ tr' w2, run tr' w1 = Some w2 →
     (∃ st, promises w2 !! p = Some st ∧ st ≠ Rejected) ∧
     ∀ v tr'' w3, promises w2 !! p = Some (Fulfilled v) → run tr'' w2 = Some w3 →
                  promises w3 !! p = Some (Fulfilled v)).
Proof.
  intros Hrun Hen p t w1.
  pose proof (Inv_run _ _ _ Inv_init Hrun) as H.
  pose proof (Alloc_run _ _ _ Alloc_init Hrun) as HA.
  pose proof (Inv_step _ _ _ H Hen) as H1. fold w1 in H1.
  destruct (ensureConnected_allocates now w) as [Hid Hlen].
  assert (promises w1 = promises (ensureConnected now w).2) as Hp1 by done.
  assert (sockets w1 = sockets (ensureConnected now w).2) as Hs1 by done.
  assert (timers w1 = timers (ensureConnected now w).2) as Ht1 by done.
  split_and!.
  - done.
  - by apply lookup_ge_None_2.
  - by apply currentSocket_cases.
  - intros Hc. rewrite Hp1, Hs1, Ht1.
    unfold ensureConnected, newPromise, socketConnected in *. cbv beta iota zeta.
    change (currentSocket (set_promises (promises w ++ [Pending]) w)) with (currentSocket w).
    destruct (currentSocket w) as [[sid s]|]; [|done]. rewrite Hc. simpl.
    split_and!; [|done..]. apply lookup_settle_pending.
    by rewrite lookup_app_r, Nat.sub_diag.
  - intros Hc. rewrite Hp1, Hs1, Ht1.
    unfold ensureConnected, newPromise, currentSocket. cbv beta iota zeta. simpl.
    rewrite Hc. simpl.
    split_and!; [|done..]. apply lookup_settle_pending.
    by rewrite lookup_app_r, Nat.sub_diag.
  - intros sid s Hcur Hc.
    pose proof (ensureConnected_waits now _ _ _ HA Hcur Hc) as Hw.
    apply (Waiting_same _ _ _ _ _ w1) in Hw; [|done..]. fold p t in Hw.
    split.
    + rewrite Hs1. pose proof (currentSocket_Some _ _ _ Hcur) as [_ Hs].
      unfold ensureConnected, newPromise, setTimeout. cbv beta iota zeta.
      change (currentSocket (set_promises (promises w ++ [Pending]) w))
        with (currentSocket w).
      rewrite Hcur, Hc. unfold_sock. simpl.
      eexists. rewrite !list_lookup_alter_eq, Hs. simpl. done.
    + intros tr' w2 Hrun' Hq.
      destruct (Waiting_run _ _ _ _ _ _ _ H1 Hw Hrun' Hq) as [H2 Hw2].
      split_and!.
      * by destruct Hw2.
      * intros now'. by eapply connect_resolves.
      * intros now' Hen'. split; [by eapply timeout_not_before|by eapply timeout_resolves].
  - intros tr' w2 Hrun'.
    pose proof (Ext_run _ _ _ Hrun') as (_ & _ & E3 & _ & _).
    pose proof (Inv_run _ _ _ H1 Hrun') as [_ _ _ HP].
    split.
    + destruct (lookup_lt_is_Some_2 (promises w2) p) as [st Hst];
        [rewrite Hp1, Hlen in E3; lia|].
      exists st. split; [done|]. intros ->. by apply (HP p).
    + intros v tr'' w3 Hv Hrun''.
      pose proof (Ext_run _ _ _ Hrun'') as (_ & _ & _ & _ & E5 & _). by apply E5.
Qed.

(** A call one millisecond after the first render, and 'connect' 99 ms
    later. *)
Lemma ensureConnected_settles_witness :
  promises (step 100 (Transport 0%nat EvConnect)
              (step 1 CallEnsureConnected world_connecting)) !! 0%nat
  = Some (Fulfilled true).
Proof.
  pose proof (ensureConnected_settles [(0, Render (Some "A"))] world_connecting 1) as H.
  destruct H as (_ & _ & _ & _ & H & _); [by vm_compute..|].
  destruct (H 0%nat (freshSocket "A")) as [_ H']; [by vm_compute..|].
  destruct (H' [] (step 1 CallEnsureConnected world_connecting)) as (_ & Hc & _);
    [done|by constructor|].
  apply (Hc 100).
Defined.

(** ** Heartbeat and listener discipline *)

Lemma NoHeartbeat_insert_None tms t : NoHeartbeat tms → NoHeartbeat (<[t := None]> tms).
Proof.
  intros H t' tm [(-> & ? & _)|[_ Ht]]%list_lookup_insert_Some; [done|]. by eapply H.
Qed.

Lemma NoHeartbeat_snoc tms tm :
  callback tm ≠ CbSendPing → NoHeartbeat tms → NoHeartbeat (tms ++ [Some tm]).
Proof.
  intros Hne H t tm' [[_ Ht]|[_ [= <-]]]%lookup_snoc_Some; [by eapply H|done].
Qed.

Lemma NoHeartbeat_rearm tms t tm next :
  tms !! t = Some (Some tm) →
  (∀ tm', next = Some tm' → callback tm' = callback tm) →
  NoHeartbeat tms → NoHeartbeat (<[t := next]> tms).
Proof.
  intros Ht Hnext H t' tm' [(-> & -> & _)|[_ Ht']]%list_lookup_insert_Some.
  - rewrite (Hnext tm') by done. by eapply H.
  - by eapply H.
Qed.

Lemma LiveUp_same w w' :
  pendingCleanup w' = pendingCleanup w →
  (∀ j s, sockets w !! j = Some s → ∃ s', sockets w' !! j = Some s' ∧ connected s' = connected s) →
  LiveUp w → LiveUp w'.
Proof.
  intros E Hs (sid & s & Hpc & Hsid & Hc). destruct (Hs _ _ Hsid) as (s' & Hs' & Hc').
  exists sid, s'. split_and!; congruence.
Qed.

Lemma LiveUp_updSocket sid f w :
  (∀ s, connected (f s) = connected s) → LiveUp w → LiveUp (updSocket sid f w).
Proof.
  intros Hf. apply LiveUp_same; [done|]. intros j s Hs. simpl.
  rewrite list_lookup_alter. case_decide; subst; [|by eauto].
  rewrite Hs. by exists (f s).
Qed.

Lemma Beat_same w w' :
  pendingCleanup w' = pendingCleanup w → sockets w' = sockets w → timers w' = timers w →
  Beat w → Beat w'.
Proof.
  intros E1 E2 E3 [H|H]; [left; by rewrite E3|right].
  apply (LiveUp_same w); [done| |done]. rewrite E2. eauto.
Qed.

Lemma Beat_sendPing now w : Beat w → Beat (sendPing now w).
Proof.
  intros H. unfold sendPing, sock_emitPing. repeat case_match; try done.
  destruct H as [H|H]; [by left|right]. by apply LiveUp_updSocket.
Qed.

Lemma Beat_onConnect p t w : Beat w → Beat (onConnect p t w).
Proof.
  intros H. unfold onConnect.
  assert (Beat (resolve p true (log LogCanSend (setIsConnecting false (clearTimer t w)))))
    as [H'|H'].
  { destruct H as [H|H]; [left; by apply NoHeartbeat_insert_None|by right]. }
  - case_match; by left.
  - case_match; right; [|done]. by apply LiveUp_updSocket.
Qed.

Lemma Beat_ensureTimeout p w : Beat w → Beat (ensureTimeout p w).
Proof. by apply (Beat_same w). Qed.

Lemma Beat_fireTimer now t w : Beat w → Beat (fireTimer now t w).
Proof.
  intros H. unfold fireTimer. destruct (timers w !! t) as [[tm|]|] eqn:Ht; try done.
  match goal with |- Beat (runTimerCb _ _ ?w') => assert (Beat w') as H' end.
  { destruct H as [H|H]; [left|by right]. simpl.
    eapply NoHeartbeat_rearm; [done| |done]. intros tm'. by destruct (period tm); intros [= <-]. }
  destruct (callback tm); simpl; [by apply Beat_sendPing|by apply Beat_ensureTimeout].
Qed.

Lemma Beat_ensureConnected now w : Beat w → Beat (ensureConnected now w).2.
Proof.
  intros H. unfold ensureConnected, newPromise, setTimeout. cbv beta iota zeta.
  change (currentSocket (set_promises (promises w ++ [Pending]) w)) with (currentSocket w).
  destruct (currentSocket w) as [[sid s]|]; [destruct (connected s)|]; simpl.
  1,3: by apply (Beat_same w).
  destruct H as [H|H]; [left; simpl; by apply NoHeartbeat_snoc|right].
  unfold_sock. apply (LiveUp_same w); [done| |done]. intros j s' Hs'. simpl.
  rewrite !list_lookup_alter. repeat case_decide; subst; rewrite ?Hs'; simpl; eauto.
Qed.

Lemma Beat_runCleanup now w : Inv w → Beat w → NoHeartbeat (timers (runCleanup now w)).
Proof.
  intros H Hb. destruct (pendingCleanup w) as [sid|] eqn:Hpc.
  - by destruct (runCleanup_released now _ _ H Hpc) as [? _].
  - unfold runCleanup. rewrite Hpc. destruct Hb as [?|(sid & s & ? & _)]; [done|congruence].
Qed.

Lemma timers_effect now tok w :
  Inv w → pendingCleanup w = None → timers (effect now tok w) = timers w.
Proof. intros H Hpc. rewrite (effect_eq _ _ _ H Hpc). by destruct (tokenPresent tok). Qed.

Lemma Beat_step now i w : Inv w → Beat w → enabled now i w = true → Beat (step now i w).
Proof.
  intros H Hb Hen. unfold step.
  match goal with |- Beat (set_clock _ ?w') =>
    assert (Beat w') as Hb'; [|revert Hb'; generalize w'; intros X Hb'; by eapply Beat_same] end.
  destruct i as [tok| |sid ev|t| |].
  - unfold render. repeat case_match; try done.
    assert (Inv (set_userToken (Some tok) w)) as HI by (by destruct H).
    left. rewrite timers_effect;
      [|by apply Inv_runCleanup|by apply runCleanup_pendingCleanup].
    apply Beat_runCleanup; [done|]. by apply (Beat_same w).
  - unfold unmount. case_match; [done|]. left. by apply Beat_runCleanup.
  - apply enabled_Transport in Hen as (s & Hs & Hc).
    destruct (decide (pendingCleanup w = Some sid)) as [Hpc|Hpc].
    + destruct (Inv_live_socket _ _ H Hpc) as (s' & ex & Hs' & E & Hex & _).
      assert (s' = s) as -> by congruence.
      rewrite (transport_live _ _ _ _ _ _ Hs E Hex). destruct ev.
      * apply (foldl_onConnect Beat); [apply Beat_onConnect|done|].
        right. unfold handleConnect, setInterval. cbv beta iota zeta.
        assert (LiveUp (updSocket sid (with_connected true) w)) as HL.
        { exists sid, (with_connected true s). simpl.
          rewrite list_lookup_alter_eq, Hs. done. }
        unfold sendPing, sock_emitPing.
        repeat case_match; try (apply LiveUp_updSocket; [done|]);
          (apply (LiveUp_same (updSocket sid (with_connected true) w));
             [done|simpl; eauto|exact HL]).
      * left. unfold handleDisconnect. cbv zeta. simpl.
        pose proof (NoHeartbeat_clear _ _ (inv_heartbeat _ H)) as Hn.
        destruct (pingIntervalRef w); by repeat case_match.
      * by apply (Beat_same w).
      * by apply (Beat_same w).
      * by apply (Beat_same w).
      * destruct data; [done| |done]. simpl.
        match goal with |- Beat (checkConnectionQuality _ ?w') =>
          destruct (checkConnectionQuality_cases now w') as (q & -> & _) end.
        by apply (Beat_same w).
    + pose proof (Inv_retired_socket _ _ _ H Hpc Hs) as Hu.
      rewrite (transport_retired _ _ _ _ _ Hs Hu).
      assert (∀ b, Beat (updSocket sid (with_connected b) w)) as Hflag.
      { intros b. destruct Hb as [Hb|(sid' & s' & Hpc' & Hs' & Hc')]; [by left|right].
        exists sid', s'. simpl. rewrite list_lookup_alter_ne by congruence. done. }
      destruct ev; try done.
      apply (foldl_onConnect Beat); [apply Beat_onConnect|done|done].
  - by apply Beat_fireTimer.
  - by apply Beat_ensureConnected.
  - by apply Beat_sendPing.
Qed.

Lemma Beat_run tr w w' : Inv w → Beat w → run tr w = Some w' → Beat w'.
Proof.
  revert w. induction tr as [|[now i] tr IH]; intros w H Hb; simpl.
  - by intros [= <-].
  - destruct (enabled now i w) eqn:Hen; [|done].
    apply IH; [by apply Inv_step|by apply Beat_step].
Qed.

(** The half of the heartbeat invariant that holds: an armed heartbeat is
    the one [pingIntervalRef] holds, and the hook is then Connected on a
    connected socket. *)
Lemma heartbeat_only_while_connected tr w t :
  run tr init = Some w → t ∈ heartbeatTimers w →
  connectionState w = SConnected ∧ isConnecting w = false ∧
  socketConnected w = true ∧ pingIntervalRef w = Some t.
Proof.
  intros Hrun (tm & Ht & Hcb)%elem_of_heartbeatTimers.
  pose proof (Inv_run _ _ _ Inv_init Hrun) as H.
  assert (Beat init) as Hb0 by (by left).
  pose proof (Beat_run _ _ _ Inv_init Hb0 Hrun) as [Hb|(sid & s & Hpc & Hs & Hc)].
  { by destruct (Hb _ _ Ht). }
  destruct (inv_sockets _ H) as [_ Hl].
  destruct (Hl _ Hpc) as (Hsr & s' & Hs' & _ & Hup).
  assert (s' = s) as -> by congruence.
  destruct (isUp_true _ (Hup Hc)) as [Hic Hing].
  split_and!.
  - unfold connectionState. by rewrite Hing, Hic.
  - done.
  - unfold socketConnected, currentSocket. by rewrite Hsr, Hs.
  - by apply (inv_heartbeat _ H _ tm).
Qed.

(** The timeout of [ensureConnected] leaves every listener table as it is. *)
Lemma timeout_keeps_listeners p t sid d now w :
  Waiting p t sid d w → sockets (step now (TimerFire t) w) = sockets w.
Proof. intros [_ [H2 _] _ _]. unfold step, fireTimer. by rewrite H2. Qed.

(** Along every run each closure is registered under its own event only,
    and at most one listener, [handlePong], is registered for 'pong'. *)
Lemma listeners_named tr w sid s :
  run tr init = Some w → sockets w !! sid = Some s →
  Forall (λ nl, nl.1 = listenerEvent nl.2) (listeners s) ∧
  (listenersFor NPong s = [LHandlePong] ∨ listenersFor NPong s = []).
Proof.
  intros Hrun Hs. pose proof (Inv_run _ _ _ Inv_init Hrun) as H.
  assert (∀ ex, Forall isOnConnect ex →
                Forall (λ nl : EventName * Listener, nl.1 = listenerEvent nl.2) ex) as Hex.
  { intros ex Hx. eapply Forall_impl; [exact Hx|]. intros [n l]. by destruct n, l. }
  destruct (decide (pendingCleanup w = Some sid)) as [Hpc|Hpc].
  - destruct (Inv_live_socket _ _ H Hpc) as (s' & ex & Hs' & E & Hx & _).
    assert (s' = s) as -> by congruence. split.
    + rewrite E. apply Forall_app. split; [by repeat constructor|by apply Hex].
    + left. by rewrite (listenersFor_wired _ _ _ E Hx).
  - pose proof (Inv_retired_socket _ _ _ H Hpc Hs) as Hu. split.
    + by apply Hex.
    + right. by rewrite (listenersFor_unwired _ _ Hu).
Qed.

Lemma onConnect_pingIntervalRef p t w : pingIntervalRef (onConnect p t w) = pingIntervalRef w.
Proof. unfold onConnect. by case_match. Qed.

Lemma sendPing_timers now w : timers (sendPing now w) = timers w.
Proof. unfold sendPing. by repeat case_match. Qed.

Lemma sendPing_pingIntervalRef now w : pingIntervalRef (sendPing now w) = pingIntervalRef w.
Proof. unfold sendPing. by repeat case_match. Qed.

Lemma handleConnect_arms now w :
  pingIntervalRef (handleConnect now w) = Some (length (timers w)) ∧
  timers (handleConnect now w) !! length (timers w)
    = Some (Some {| callback := CbSendPing; due := now + 5000; period := Some 5000 |}).
Proof.
  unfold handleConnect, setInterval. cbv beta iota zeta.
  rewrite sendPing_timers, sendPing_pingIntervalRef. simpl.
  destruct (pingIntervalRef w) eqn:E; simpl; rewrite ?length_insert.
  - split; [done|].
    rewrite lookup_app_r; rewrite length_insert; [|done]. by rewrite Nat.sub_diag.
  - split; [done|]. by rewrite lookup_app_r, Nat.sub_diag.
Qed.

(** Entering Connected arms the heartbeat, and it is then the only one:
    the interval [handleConnect] creates, after clearing the one it held. *)
Lemma connect_arms_heartbeat tr w now sid :
  run tr init = Some w → pendingCleanup w = Some sid →
  enabled now (Transport sid EvConnect) w = true →
  ∀ t, t ∈ heartbeatTimers (step now (Transport sid EvConnect) w) ↔ t = length (timers w).
Proof.
  intros Hrun Hpc Hen t.
  pose proof (Inv_run _ _ _ Inv_init Hrun) as H.
  pose proof (Alloc_run _ _ _ Alloc_init Hrun) as [F1 _ _ _].
  pose proof (Inv_step _ _ _ H Hen) as H'.
  destruct (Inv_live_socket _ _ H Hpc) as (s & ex & Hs & E & Hex & _).
  set (w0 := handleConnect now (updSocket sid (with_connected true) w)).
  destruct (handleConnect_arms now (updSocket sid (with_connected true) w)) as [Href Harm].
  fold w0 in Href, Harm.
  change (timers (updSocket sid (with_connected true) w)) with (timers w) in Href, Harm.
  assert (pingIntervalRef (step now (Transport sid EvConnect) w) = Some (length (timers w)) ∧
          timers (step now (Transport sid EvConnect) w) !! length (timers w)
            = Some (Some {| callback := CbSendPing; due := now + 5000;
                            period := Some 5000 |})) as [Href' Harm'].
  { unfold step. rewrite (transport_live _ _ _ _ _ _ Hs E Hex). fold w0.
    change (pingIntervalRef (set_clock now ?x)) with (pingIntervalRef x).
    change (timers (set_clock now ?x)) with (timers x).
    apply (foldl_onConnect_where
             (λ x, pingIntervalRef x = Some (length (timers w)) ∧
                   timers x !! length (timers w)
                     = Some (Some {| callback := CbSendPing; due := now + 5000;
                                     period := Some 5000 |}))
             (λ _ t', (t' < length (timers w))%nat)).
    - intros p' t' x Hlt [Hr Ht]. rewrite onConnect_pingIntervalRef. split; [done|].
      unfold onConnect. case_match; simpl; rewrite list_lookup_insert_ne; (done || lia).
    - apply Forall_forall. intros [n l] Hin.
      assert (isOnConnect (n, l)) as Hoc by (by eapply Forall_forall in Hex).
      destruct n, l as [| | | | | |p' t']; try done. exists p', t'. split; [done|].
      eapply (F1 sid s NConnect p' t'); [done|]. rewrite E. apply elem_of_app. by right.
    - done. }
  rewrite elem_of_heartbeatTimers. split.
  - intros (tm & Ht & Hcb). pose proof (inv_heartbeat _ H' _ _ Ht Hcb). congruence.
  - intros ->. eauto.
Qed.

(** ** Timers and the heartbeat *)

Lemma timerShape_mono c c' tm : c ≤ c' → timerShape c tm → timerShape c' tm.
Proof. unfold timerShape. destruct (callback tm); intros ? [? ?]; split; (done || lia). Qed.

Lemma Shaped_mono c c' tms : c ≤ c' → Shaped c tms → Shaped c' tms.
Proof. intros Hc H t tm Ht. eapply timerShape_mono; [done|]. by eapply H. Qed.

Lemma Shaped_clear c tms t : Shaped c tms → Shaped c (<[t := None]> tms).
Proof.
  intros H t' tm [(-> & ? & _)|[_ Ht]]%list_lookup_insert_Some; [done|]. by eapply H.
Qed.

Lemma Shaped_snoc c tms tm : timerShape c tm → Shaped c tms → Shaped c (tms ++ [Some tm]).
Proof.
  intros Hs H t tm' [[_ Ht]|[_ [= <-]]]%lookup_snoc_Some; [by eapply H|done].
Qed.

Lemma Shaped_rearm c tms t tm :
  tms !! t = Some (Some tm) → Shaped c tms →
  Shaped c (<[t := match period tm with
                   | Some d => Some {| callback := callback tm; due := c + d; period := Some d |}
                   | None => None
                   end]> tms).
Proof.
  intros Ht H t' tm' [(-> & E & _)|[_ Ht']]%list_lookup_insert_Some; [|by eapply H].
  pose proof (H _ _ Ht) as Hs. unfold timerShape in *.
  destruct (period tm) as [d|] eqn:Hp; [|done]. injection E as <-. simpl.
  destruct (callback tm); destruct Hs as [Hs ?]; [|done].
  injection Hs as ->. split; [done|lia].
Qed.

Lemma ListenerTimers_sub tms tms' ss ss' :
  (∀ t tm, tms' !! t = Some (Some tm) → ∃ tm', tms !! t = Some (Some tm') ∧ callback tm' = callback tm) →
  (∀ sid s', ss' !! sid = Some s' →
     ∃ s, ss !! sid = Some s ∧ ∀ nl, nl ∈ listeners s' → nl ∈ listeners s) →
  ListenerTimers tms ss → ListenerTimers tms' ss'.
Proof.
  intros Ht Hs H sid s' n p t tm Hsid Hin Htm.
  destruct (Hs _ _ Hsid) as (s & Hs0 & Hsub). destruct (Ht _ _ Htm) as (tm' & Htm' & <-).
  eapply H; [exact Hs0|by apply Hsub|done].
Qed.

Lemma ListenerTimers_snoc_timer np tms ss tm :
  AllocL np (length tms) ss → ListenerTimers tms ss → ListenerTimers (tms ++ [Some tm]) ss.
Proof.
  intros Ha H sid s n p t tm' Hs Hin [[_ Ht]|[-> _]]%lookup_snoc_Some.
  - by eapply H.
  - destruct (Ha _ _ _ _ _ Hs Hin). lia.
Qed.

Lemma ListenerTimers_on tms ss sid p t tm :
  tms !! t = Some (Some tm) → callback tm = CbEnsureTimeout p →
  ListenerTimers tms ss →
  ListenerTimers tms
    (alter (λ s, with_listeners (listeners s ++ [(NConnect, LOnConnect p t)]) s) sid ss).
Proof.
  intros Ht Hcb H sid' s' n p' t' tm' Hs' Hin Htm'.
  rewrite list_lookup_alter in Hs'. case_decide; subst; [|by eapply H].
  destruct (ss !! sid') as [s|] eqn:Hs; [|done]. injection Hs' as <-. simpl in Hin.
  apply elem_of_app in Hin as [Hin|Hin]; [by eapply H|].
  apply list_elem_of_singleton in Hin. injection Hin as -> -> ->. congruence.
Qed.

Lemma ListenerTimers_snoc_socket tms ss s :
  (∀ n p t, (n, LOnConnect p t) ∉ listeners s) →
  ListenerTimers tms ss → ListenerTimers tms (ss ++ [s]).
Proof.
  intros Hs H sid s' n p t tm [[_ Hl]|[_ <-]]%lookup_snoc_Some Hin; [by eapply H|].
  by destruct (Hs n p t).
Qed.

Lemma RefApart_sub ref ss ss' :
  (∀ sid s', ss' !! sid = Some s' →
     ∃ s, ss !! sid = Some s ∧ ∀ nl, nl ∈ listeners s' → nl ∈ listeners s) →
  RefApart ref ss → RefApart ref ss'.
Proof.
  intros Hs H sid s' n p t Hsid Hin. destruct (Hs _ _ Hsid) as (s & Hs0 & Hsub).
  eapply H; [exact Hs0|by apply Hsub].
Qed.

Lemma RefApart_fresh np nt ss t :
  AllocL np nt ss → (nt ≤ t)%nat → RefApart (Some t) ss.
Proof. intros Ha Hle sid s n p t' Hs Hin [= ->]. destruct (Ha _ _ _ _ _ Hs Hin). lia. Qed.

Lemma RefBeat_sub ref tms tms' :
  (∀ t tm, tms' !! t = Some (Some tm) →
     ∃ tm', tms !! t = Some (Some tm') ∧ callback tm' = callback tm) →
  RefBeat ref tms → RefBeat ref tms'.
Proof.
  intros Ht H t tm Href Htm. destruct (Ht _ _ Htm) as (tm' & Htm' & <-). by eapply H.
Qed.

Lemma Sched_mono c c' w : c ≤ c' → Sched c w → Sched c' w.
Proof. intros Hc [? ? ? ? ?]. split; [by eapply Shaped_mono|done|done|done|done]. Qed.

(** Operations that arm no timer and register no listener. *)
Lemma Sched_frame c w w' :
  Shaped c (timers w') →
  (∀ t tm, timers w' !! t = Some (Some tm) →
     ∃ tm', timers w !! t = Some (Some tm') ∧ callback tm' = callback tm) →
  (∀ sid s', sockets w' !! sid = Some s' →
     ∃ s, sockets w !! sid = Some s ∧ ∀ nl, nl ∈ listeners s' → nl ∈ listeners s) →
  (LiveUp w' → LiveUp w) →
  pingIntervalRef w' = pingIntervalRef w →
  (∀ t tm, pingIntervalRef w = Some t → timers w !! t = Some (Some tm) →
     callback tm = CbSendPing →
     ∃ tm', timers w' !! t = Some (Some tm') ∧ callback tm' = CbSendPing) →
  Sched c w → Sched c w'.
Proof.
  intros Hsh Ht Hs Hl Hr Hk [_ H2 H3 H5 H4]. split; [done| | | |].
  - by eapply ListenerTimers_sub.
  - rewrite Hr. by eapply RefApart_sub.
  - rewrite Hr. by eapply RefBeat_sub.
  - intros (t & tm & Href & Htm & Hcb)%Hl%H4.
    destruct (Hk _ _ Href Htm Hcb) as (tm' & ? & ?). exists t, tm'. by rewrite Hr.
Qed.

(** Operations after which the socket of the running effect, if any, is
    not connected, and that leave [pingIntervalRef] or reset it. *)
Lemma Sched_down c w w' :
  Shaped c (timers w') →
  (∀ t tm, timers w' !! t = Some (Some tm) →
     ∃ tm', timers w !! t = Some (Some tm') ∧ callback tm' = callback tm) →
  (∀ sid s', sockets w' !! sid = Some s' →
     ∃ s, sockets w !! sid = Some s ∧ ∀ nl, nl ∈ listeners s' → nl ∈ listeners s) →
  ¬ LiveUp w' →
  pingIntervalRef w' = pingIntervalRef w ∨ pingIntervalRef w' = None →
  Sched c w → Sched c w'.
Proof.
  intros Hsh Ht Hs Hl Hr [_ H2 H3 H5 _]. split; [done| | | |by intros ?%Hl].
  - by eapply ListenerTimers_sub.
  - destruct Hr as [->| ->]; [by eapply RefApart_sub|]. by intros ? ? ? ? ? ? ?.
  - destruct Hr as [->| ->]; [by eapply RefBeat_sub|]. by intros ? ? ?.
Qed.

Lemma Sched_same c w w' :
  timers w' = timers w → sockets w' = sockets w →
  pendingCleanup w' = pendingCleanup w → pingIntervalRef w' = pingIntervalRef w →
  Sched c w → Sched c w'.
Proof.
  intros E1 E2 E3 E4 H. apply (Sched_frame c w); [| | | |done| |done].
  - rewrite E1. by destruct H.
  - rewrite E1. eauto.
  - rewrite E2. eauto.
  - apply LiveUp_same; [done|]. rewrite E2. eauto.
  - rewrite E1. eauto.
Qed.

Lemma Sched_updSocket c sid f w :
  (∀ s nl, nl ∈ listeners (f s) → nl ∈ listeners s) →
  (∀ s, connected (f s) = connected s) →
  Sched c w → Sched c (updSocket sid f w).
Proof.
  intros Hf Hc H. apply (Sched_frame c w); [| | | |done| |done].
  - by destruct H.
  - eauto.
  - intros j s'. simpl. rewrite list_lookup_alter. case_decide; subst; [|by eauto].
    destruct (sockets w !! j) as [s|]; [|done]. intros [= <-]. eauto.
  - apply LiveUp_same; [done|]. intros j s'. simpl.
    rewrite list_lookup_alter. case_decide; subst; [|by eauto].
    destruct (sockets w !! j) as [s|]; [|done]. intros [= <-]. eauto.
  - eauto.
Qed.

Lemma Sched_sendPing c now w : Sched c w → Sched c (sendPing now w).
Proof.
  intros H. unfold sendPing, sock_emitPing. repeat case_match; try done.
  apply Sched_updSocket; [done|done|]. by apply (Sched_same c w).
Qed.

Lemma Sched_clearTimer c t w :
  pingIntervalRef w ≠ Some t → Sched c w → Sched c (clearTimer t w).
Proof.
  intros Hne H. apply (Sched_frame c w); [| | | |done| |done].
  - apply Shaped_clear. by destruct H.
  - intros t' tm. simpl. intros [(-> & ? & _)|[_ Ht]]%list_lookup_insert_Some; [done|eauto].
  - eauto.
  - apply LiveUp_same; [done|eauto].
  - intros t' tm Href Ht Hcb. exists tm. split; [|done]. simpl.
    rewrite list_lookup_insert_ne; [done|congruence].
Qed.

Lemma Sched_onConnect c p t w :
  pingIntervalRef w ≠ Some t → Sched c w → Sched c (onConnect p t w).
Proof.
  intros Hne H. unfold onConnect.
  assert (Sched c (resolve p true (log LogCanSend (setIsConnecting false (clearTimer t w)))))
    as H'.
  { apply (Sched_same c (clearTimer t w)); try done. by apply Sched_clearTimer. }
  case_match; [|done]. unfold sock_off.
  apply Sched_updSocket; [intros s nl; apply elem_of_removeFirst|done|done].
Qed.

Lemma Sched_ensureTimeout c p w : Sched c w → Sched c (ensureTimeout p w).
Proof. by apply (Sched_same c w). Qed.

Lemma Sched_fireTimer now t w : Sched now w → Sched now (fireTimer now t w).
Proof.
  intros H. unfold fireTimer. destruct (timers w !! t) as [[tm|]|] eqn:Ht; try done.
  match goal with |- Sched _ (runTimerCb _ _ ?w') => assert (Sched now w') as H' end.
  { apply (Sched_frame now w); [| | | |done| |done].
    - simpl. apply Shaped_rearm; [done|by destruct H].
    - intros t' tm'. simpl. intros [(-> & E & _)|[_ Ht']]%list_lookup_insert_Some; [|eauto].
      exists tm. split; [done|]. destruct (period tm); [|done]. by injection E as <-.
    - eauto.
    - apply LiveUp_same; [done|eauto].
    - intros t' tm' Href Ht' Hcb. simpl. destruct (decide (t' = t)) as [->|Hne].
      + rewrite Ht in Ht'. injection Ht' as <-.
        pose proof (sched_shape _ _ H _ _ Ht) as Hs. unfold timerShape in Hs.
        rewrite Hcb in Hs. destruct Hs as [-> _]. eexists. split.
        * apply list_lookup_insert_eq. by eapply lookup_lt_Some.
        * done.
      + exists tm'. by rewrite list_lookup_insert_ne. }
  destruct (callback tm); simpl; [by apply Sched_sendPing|by apply Sched_ensureTimeout].
Qed.

Lemma ListenerTimers_clear tms ss t :
  ListenerTimers tms ss → ListenerTimers (<[t := None]> tms) ss.
Proof.
  apply ListenerTimers_sub; [|eauto].
  intros t' tm [(-> & ? & _)|[_ Ht]]%list_lookup_insert_Some; [done|eauto].
Qed.

Lemma Sched_handleConnect now w :
  AllocL (length (promises w)) (length (timers w)) (sockets w) →
  Shaped now (timers w) → ListenerTimers (timers w) (sockets w) →
  Sched now (handleConnect now w).
Proof.
  intros Ha Hsh Hl. unfold handleConnect, setInterval. cbv beta iota zeta.
  apply Sched_sendPing.
  assert (timerShape now {| callback := CbSendPing; due := now + 5000; period := Some 5000 |})
    as Hhb by (unfold timerShape; simpl; split; [done|lia]).
  split; simpl; destruct (pingIntervalRef w) eqn:E; simpl.
  - apply Shaped_snoc; [done|by apply Shaped_clear].
  - by apply Shaped_snoc.
  - eapply ListenerTimers_snoc_timer; [|by apply ListenerTimers_clear].
    rewrite length_insert. exact Ha.
  - eapply ListenerTimers_snoc_timer; [exact Ha|done].
  - eapply RefApart_fresh; [exact Ha|]. by rewrite length_insert.
  - eapply RefApart_fresh; [exact Ha|done].
  - intros t tm [= <-]. rewrite lookup_app_r by done. rewrite Nat.sub_diag.
    by intros [= <-].
  - intros t tm [= <-]. rewrite lookup_app_r by done. rewrite Nat.sub_diag.
    by intros [= <-].
  - intros _. simpl. eexists _, _. split; [done|]. split; [|shelve].
    rewrite lookup_app_r by done. rewrite Nat.sub_diag. reflexivity.
    Unshelve. done.
  - intros _. simpl. eexists _, _. split; [done|]. split; [|shelve].
    rewrite lookup_app_r by done. rewrite Nat.sub_diag. reflexivity.
    Unshelve. done.
Qed.

Lemma LiveUp_flag_false sid w :
  pendingCleanup w = Some sid → ¬ LiveUp (updSocket sid (with_connected false) w).
Proof.
  intros Hpc (j & s & Hj & Hs & Hc). simpl in *. assert (j = sid) as -> by congruence.
  rewrite list_lookup_alter_eq in Hs. destruct (sockets w !! sid); [|done].
  by injection Hs as <-.
Qed.

Lemma lookup_flag sid b w j s' :
  sockets (updSocket sid (with_connected b) w) !! j = Some s' →
  ∃ s, sockets w !! j = Some s ∧ listeners s' = listeners s.
Proof.
  simpl. rewrite list_lookup_alter. case_decide; subst; [|by eauto].
  destruct (sockets w !! j) as [s|]; [|done]. intros [= <-]. eauto.
Qed.

Lemma handleDisconnect_frame reason w :
  timers (handleDisconnect reason w) =
    match pingIntervalRef w with
    | Some t => <[t := None]> (timers w)
    | None => timers w
    end ∧
  sockets (handleDisconnect reason w) = sockets w ∧
  pendingCleanup (handleDisconnect reason w) = pendingCleanup w ∧
  pingIntervalRef (handleDisconnect reason w) = None ∧
  promises (handleDisconnect reason w) = promises w ∧
  lastPingTime (handleDisconnect reason w) = lastPingTime w.
Proof.
  unfold handleDisconnect. cbv zeta. simpl.
  destruct (pingIntervalRef w) eqn:E; by repeat case_match.
Qed.

Lemma Sched_handleDisconnect c reason w :
  ¬ LiveUp w → Sched c w → Sched c (handleDisconnect reason w).
Proof.
  intros Hn H. destruct (handleDisconnect_frame reason w) as (E1 & E2 & E3 & E4 & _).
  apply (Sched_down c w); rewrite ?E1, ?E2, ?E4; [| |eauto| |by right|done].
  - destruct (pingIntervalRef w); [apply Shaped_clear|]; by destruct H.
  - destruct (pingIntervalRef w); [|by eauto].
    intros t tm [(-> & ? & _)|[_ Ht]]%list_lookup_insert_Some; [done|eauto].
  - intros HL. apply Hn. revert HL. apply LiveUp_same; [done|]. rewrite E2. eauto.
Qed.

Lemma Sched_ensureConnected now w :
  Alloc w → Sched now w → Sched now (ensureConnected now w).2.
Proof.
  intros [Ha _ Hi _] H. unfold ensureConnected, newPromise, setTimeout. cbv beta iota zeta.
  change (currentSocket (set_promises (promises w ++ [Pending]) w)) with (currentSocket w).
  destruct (currentSocket w) as [[sid s]|] eqn:Hcur; [destruct (connected s) eqn:Hc|]; simpl.
  1,3: by apply (Sched_same now w).
  destruct H as [H1 H2 H3 H5 H4].
  assert (∀ j s', alter (λ s0, with_connectCalls (S (connectCalls s0)) s0) sid (sockets w) !! j
                    = Some s' →
            ∃ s0, sockets w !! j = Some s0 ∧ listeners s' = listeners s0 ∧
                  connected s' = connected s0) as Hcc.
  { intros j s'. rewrite list_lookup_alter. case_decide; subst; [|by eauto].
    destruct (sockets w !! j) as [s0|]; [|done]. intros [= <-]. eauto. }
  split; simpl.
  - apply Shaped_snoc; [|done]. unfold timerShape. simpl. split; [done|lia].
  - eapply ListenerTimers_on; [by rewrite lookup_app_r, Nat.sub_diag|done|].
    eapply ListenerTimers_sub; [| |eapply ListenerTimers_snoc_timer; [exact Ha|exact H2]].
    + eauto.
    + intros j s' (s0 & ? & E & _)%Hcc. exists s0. by rewrite E.
  - intros j s' n p t. rewrite list_lookup_alter. case_decide; subst.
    + destruct (alter _ _ _ !! j) as [s1|] eqn:Hs1; [|done]. intros [= <-]. simpl.
      destruct (Hcc _ _ Hs1) as (s0 & Hs0 & E & _). rewrite E.
      intros [Hin|Hin%list_elem_of_singleton]%elem_of_app; [by eapply H3|].
      injection Hin as -> -> ->. intros Href. apply Hi in Href. lia.
    + intros (s0 & Hs0 & E & _)%Hcc. rewrite E. by eapply H3.
  - intros t tm Href [[_ Ht]|[-> _]]%lookup_snoc_Some; [by eapply H5|].
    apply Hi in Href. lia.
  - intros (j & s' & Hpc & Hs' & Hc'). simpl in Hpc, Hs'.
    destruct H4 as (t & tm & Href & Ht & Hcb).
    { exists j. rewrite list_lookup_alter in Hs'. case_decide; subst.
      - destruct (alter _ _ _ !! j) as [s1|] eqn:Hs1; [|done]. injection Hs' as <-.
        destruct (Hcc _ _ Hs1) as (s0 & Hs0 & _ & E). exists s0. simpl in Hc'.
        split_and!; [done|done|congruence].
      - destruct (Hcc _ _ Hs') as (s0 & Hs0 & _ & E). exists s0.
        split_and!; [done|done|congruence]. }
    exists t, tm. split_and!; [done| |done]. by apply lookup_app_l_Some.
Qed.

Lemma LiveUp_None w : pendingCleanup w = None → ¬ LiveUp w.
Proof. intros E (sid & s & ? & _). congruence. Qed.

Lemma Sched_runCleanup c now w : Inv w → Sched c w → Sched c (runCleanup now w).
Proof.
  intros HI H. destruct (pendingCleanup w) as [sid|] eqn:Hpc.
  - destruct (runCleanup_live now _ _ HI Hpc) as (s & Hs & Hw & ->).
    apply (Sched_down c w); [| | |by apply LiveUp_None| |done].
    + simpl. destruct (pingIntervalRef w); simpl; [apply Shaped_clear|]; by destruct H.
    + simpl. destruct (pingIntervalRef w); simpl; [|by eauto].
      intros t tm [(-> & ? & _)|[_ Ht]]%list_lookup_insert_Some; [done|eauto].
    + intros j s'. simpl. rewrite list_lookup_alter. case_decide; subst; [|by eauto].
      destruct (sockets w !! j) as [s0|]; [|done]. intros [= <-].
      exists s0. split; [done|]. apply closeSix_sub.
    + left. simpl. by destruct (pingIntervalRef w) eqn:E.
  - unfold runCleanup. by rewrite Hpc.
Qed.

Lemma freshSocket_listeners token n p t : (n, LOnConnect p t) ∉ listeners (freshSocket token).
Proof. simpl. unfold sixHandlers. rewrite !elem_of_cons, elem_of_nil. by intros [?|[?|[?|[?|[?|[?|?]]]]]]. Qed.

Lemma Sched_effect c now tok w :
  Inv w → pendingCleanup w = None → Sched c w → Sched c (effect now tok w).
Proof.
  intros HI Hpc H. rewrite (effect_eq _ _ _ HI Hpc). destruct (tokenPresent tok) as [token|].
  - destruct H as [H1 H2 H3 H5 H4]. split; simpl.
    + done.
    + apply ListenerTimers_snoc_socket; [apply freshSocket_listeners|done].
    + intros j s' n p t [[_ Hl]|[_ <-]]%lookup_snoc_Some Hin; [by eapply H3|].
      by destruct (freshSocket_listeners token n p t).
    + done.
    + intros (j & s' & Hj & Hs' & Hc). simpl in Hj, Hs'. injection Hj as <-.
      rewrite lookup_app_r, Nat.sub_diag in Hs' by done. by injection Hs' as <-.
  - apply (Sched_down c w); [by destruct H|by eauto| |by apply LiveUp_None|by left|done].
    intros j s'. simpl. destruct (socketRef w) as [sid|]; [|by eauto].
    rewrite list_lookup_alter. case_decide; subst; [|by eauto].
    destruct (sockets w !! j) as [s0|]; [|done]. intros [= <-]. eauto.
Qed.

Lemma Sched_render c now tok w : Inv w → Sched c w → Sched c (render now tok w).
Proof.
  intros HI H. unfold render. repeat case_match; try done.
  assert (Inv (set_userToken (Some tok) w)) as HI' by (by destruct HI).
  apply Sched_effect; [by apply Inv_runCleanup|by apply runCleanup_pendingCleanup|].
  apply Sched_runCleanup; [done|]. by apply (Sched_same c w).
Qed.

Lemma Sched_unmount c now w : Inv w → Sched c w → Sched c (unmount now w).
Proof.
  intros HI H. unfold unmount. case_match; [done|].
  apply (Sched_same c (runCleanup now w)); try done. by apply Sched_runCleanup.
Qed.

Lemma wired_onConnect_listeners s ex :
  listeners s = sixHandlers ++ ex → Forall isOnConnect ex →
  ∀ nl, nl ∈ ex → ∃ p t, nl = (NConnect, LOnConnect p t) ∧ nl ∈ listeners s.
Proof.
  intros E Hex [n l] Hin. assert (isOnConnect (n, l)) as Hoc by (by eapply Forall_forall in Hex).
  destruct n, l as [| | | | | |p t]; try done. exists p, t. split; [done|].
  rewrite E. apply elem_of_app. by right.
Qed.

Lemma Sched_transport now sid ev w :
  Inv w → Alloc w → Sched now w → enabled now (Transport sid ev) w = true →
  Sched now (transport now sid ev w).
Proof.
  intros HI HA H Hen. apply enabled_Transport in Hen as (s & Hs & Hc).
  destruct (decide (pendingCleanup w = Some sid)) as [Hpc|Hpc].
  - destruct (Inv_live_socket _ _ HI Hpc) as (s' & ex & Hs' & E & Hex & _).
    assert (s' = s) as -> by congruence.
    rewrite (transport_live _ _ _ _ _ _ Hs E Hex). destruct ev.
    + set (w0 := updSocket sid (with_connected true) w).
      assert (Sched now (handleConnect now w0)) as H0.
      { destruct H as [H1 H2 _ _ _]. destruct HA as [Ha _ _ _].
        apply Sched_handleConnect; simpl.
        - eapply AllocL_alter; [|exact Ha]. done.
        - done.
        - eapply ListenerTimers_sub; [| |exact H2]; [eauto|].
          intros j s' (s0 & ? & E')%lookup_flag. exists s0. by rewrite E'. }
      destruct (handleConnect_arms now w0) as [Href _].
      change (timers w0) with (timers w) in Href.
      eapply proj1.
      apply (foldl_onConnect_where
               (λ x, Sched now x ∧ pingIntervalRef x = Some (length (timers w)))
               (λ _ t, (t < length (timers w))%nat)).
      * intros p t x Hlt [Hx Hr]. rewrite onConnect_pingIntervalRef. split; [|done].
        apply Sched_onConnect; [|done]. rewrite Hr. intros [= E']. lia.
      * apply Forall_forall. intros nl Hin.
        destruct (wired_onConnect_listeners _ _ E Hex _ Hin) as (p & t & -> & Hin').
        exists p, t. split; [done|]. by eapply (alloc_listeners _ HA sid s NConnect p t).
      * done.
    + apply Sched_handleDisconnect; [by apply LiveUp_flag_false|].
      apply (Sched_down now w); [by destruct H|by eauto| |by apply LiveUp_flag_false|by left|done].
      intros j s' (s0 & ? & E')%lookup_flag. exists s0. by rewrite E'.
    + by apply (Sched_same now w).
    + by apply (Sched_same now w).
    + by apply (Sched_same now w).
    + destruct data; [done| |done]. simpl.
      match goal with |- Sched _ (checkConnectionQuality _ ?w') =>
        destruct (checkConnectionQuality_cases now w') as (q & -> & _) end.
      by apply (Sched_same now w).
  - pose proof (Inv_retired_socket _ _ _ HI Hpc Hs) as Hu.
    rewrite (transport_retired _ _ _ _ _ Hs Hu).
    assert (∀ b, Sched now (updSocket sid (with_connected b) w)) as Hflag.
    { intros b. apply (Sched_frame now w); [by destruct H|by eauto| | |done|by eauto|done].
      - intros j s' (s0 & ? & E')%lookup_flag. exists s0. by rewrite E'.
      - intros (j & s' & Hj & Hs' & Hc'). simpl in Hj, Hs'.
        rewrite list_lookup_alter_ne in Hs' by congruence. by exists j, s'. }
    destruct ev; try done.
    eapply proj1.
    apply (foldl_onConnect_where
             (λ x, Sched now x ∧ pingIntervalRef x = pingIntervalRef w)
             (λ _ t, pingIntervalRef w ≠ Some t)).
    + intros p t x Hne [Hx Hr]. rewrite onConnect_pingIntervalRef. split; [|done].
      apply Sched_onConnect; [|done]. by rewrite Hr.
    + apply Forall_forall. intros [n l] Hin.
      assert (isOnConnect (n, l)) as Hoc by (by eapply Forall_forall in Hu).
      destruct n, l as [| | | | | |p t]; try done. exists p, t. split; [done|].
      by eapply (sched_ref _ _ H).
    + done.
Qed.

Lemma Sched_step now i w :
  Inv w → Alloc w → Sched (clock w) w → enabled now i w = true →
  Sched (clock (step now i w)) (step now i w).
Proof.
  intros HI HA H Hen.
  assert (clock w ≤ now) as Hclk.
  { unfold enabled in Hen. apply andb_prop in Hen as [Hc _]. by apply bool_decide_eq_true in Hc. }
  apply (Sched_mono _ now) in H; [|done].
  unfold step. change (clock (set_clock now ?x)) with now.
  match goal with |- Sched _ (set_clock _ ?w') =>
    assert (Sched now w') as H'; [|revert H'; generalize w'; intros X H'; by apply (Sched_same now X)] end.
  destruct i as [tok| |sid ev|t| |].
  - by apply Sched_render.
  - by apply Sched_unmount.
  - by apply Sched_transport.
  - by apply Sched_fireTimer.
  - by apply Sched_ensureConnected.
  - by apply Sched_sendPing.
Qed.

Lemma Sched_init : Sched (clock init) init.
Proof.
  split; simpl.
  - by intros t tm.
  - by intros sid s n p t tm.
  - by intros sid s n p t.
  - by intros t tm.
  - by intros (sid & s & ? & _).
Qed.

Lemma Sched_run tr w :
  run tr init = Some w → Sched (clock w) w.
Proof.
  assert (∀ tr w0 w, Inv w0 → Alloc w0 → Sched (clock w0) w0 → run tr w0 = Some w →
                     Sched (clock w) w) as Hgen.
  { clear. induction tr as [|[now i] tr IH]; intros w0 w HI HA H; simpl.
    - by intros [= <-].
    - destruct (enabled now i w0) eqn:Hen; [|done].
      apply IH; [by apply Inv_step|by apply Alloc_step|by apply Sched_step]. }
  apply Hgen; [apply Inv_init|apply Alloc_init|apply Sched_init].
Qed.

(** ** The session and its token *)

Global Instance Stable_refl : Reflexive Stable.
Proof. intros w. unfold Stable. split_and!; auto. Qed.

Global Instance Stable_trans : Transitive Stable.
Proof.
  intros w1 w2 w3 (A1 & A2 & A3 & A4 & A5 & A6) (B1 & B2 & B3 & B4 & B5 & B6).
  unfold Stable. split_and!; congruence.
Qed.

Lemma Stable_same w w' :
  userToken w' = userToken w → unmounted w' = unmounted w →
  pendingCleanup w' = pendingCleanup w → socketRef w' = socketRef w →
  connectionStartTime w' = connectionStartTime w → sockets w' = sockets w → Stable w w'.
Proof. intros E1 E2 E3 E4 E5 E6. unfold Stable. by rewrite E1, E2, E3, E4, E5, E6. Qed.

Lemma fmap_alter_frame {A B} (g : A → B) (f : A → A) i (l : list A) :
  (∀ x, g (f x) = g x) → g <$> alter f i l = g <$> l.
Proof.
  intros Hf. apply list_eq. intros j. rewrite !list_lookup_fmap, list_lookup_alter.
  case_decide; subst; [|done]. destruct (l !! j); simpl; by rewrite ?Hf.
Qed.

Lemma Stable_updSocket sid f w : (∀ s, auth (f s) = auth s) → Stable w (updSocket sid f w).
Proof.
  intros Hf. unfold Stable. simpl. split_and!; try done. by apply fmap_alter_frame.
Qed.

Create HintDb stable discriminated.
#[local] Hint Extern 2 (Stable _ (updSocket _ _ _)) =>
  (apply Stable_updSocket; reflexivity) : stable.
#[local] Hint Extern 5 (Stable _ _) => (apply Stable_same; reflexivity) : stable.

Ltac stable_step :=
  match goal with
  | |- Stable ?w ?w => reflexivity
  | |- Stable ?w (?f ?x) => transitivity x;
      [|solve [unfold sock_on, sock_off, sock_connect, sock_emitPing, clearTimer, resolve;
               auto with stable]]
  end.

Ltac stable := repeat stable_step.

Lemma Stable_sendPing now w : Stable w (sendPing now w).
Proof. unfold sendPing. repeat case_match; try reflexivity. stable. Qed.

Lemma Stable_onConnect p t w : Stable w (onConnect p t w).
Proof. unfold onConnect. case_match; stable. Qed.

Lemma Stable_ensureTimeout p w : Stable w (ensureTimeout p w).
Proof. unfold ensureTimeout. stable. Qed.

Lemma Stable_handleConnect now w : Stable w (handleConnect now w).
Proof.
  unfold handleConnect, setInterval. cbv beta iota zeta.
  etrans; [|apply Stable_sendPing].
  stable. destruct (pingIntervalRef _); stable.
Qed.

Lemma Stable_handleDisconnect reason w : Stable w (handleDisconnect reason w).
Proof.
  unfold handleDisconnect. cbv zeta.
  set (w1 := match pingIntervalRef _ with Some t => _ | None => _ end).
  assert (Stable w w1) as H1 by (subst w1; destruct (pingIntervalRef _); stable).
  repeat case_match; stable; done.
Qed.

Lemma Stable_handleConnectError message w : Stable w (handleConnectError message w).
Proof. unfold handleConnectError. stable. Qed.

Lemma Stable_handleReconnect n w : Stable w (handleReconnect n w).
Proof. unfold handleReconnect. stable. Qed.

Lemma Stable_handleReconnectAttempt n w : Stable w (handleReconnectAttempt n w).
Proof. unfold handleReconnectAttempt. stable. Qed.

Lemma Stable_handlePong now data w : Stable w (handlePong now data w).
Proof.
  destruct data; [reflexivity| |reflexivity]. simpl.
  match goal with |- Stable _ (checkConnectionQuality _ ?w') =>
    destruct (checkConnectionQuality_cases now w') as (q & -> & _) end.
  stable.
Qed.

Lemma Stable_runListener now ev l w : Stable w (runListener now ev l w).
Proof.
  destruct l, ev; simpl; try reflexivity;
    auto using Stable_handleConnect, Stable_handleDisconnect, Stable_handleConnectError,
      Stable_handleReconnect, Stable_handleReconnectAttempt, Stable_handlePong,
      Stable_onConnect.
Qed.

Lemma Stable_emit now sid ev w : Stable w (emit now sid ev w).
Proof.
  unfold emit. destruct (sockets w !! sid) as [s|]; [|reflexivity].
  generalize (listenersFor (eventName ev) s). intros ls. revert w.
  induction ls as [|l ls IH]; intros w; simpl; [reflexivity|].
  etrans; [apply (Stable_runListener now ev l)|apply IH].
Qed.

Lemma Stable_transport now sid ev w : Stable w (transport now sid ev w).
Proof.
  unfold transport. etrans; [|apply Stable_emit]. destruct ev; try reflexivity; stable.
Qed.

Lemma Stable_sock_disconnect now sid w : Stable w (sock_disconnect now sid w).
Proof.
  unfold sock_disconnect. repeat case_match; try reflexivity.
  etrans; [|apply Stable_emit]. stable.
Qed.

Lemma Stable_effectCleanup now sid w : Stable w (effectCleanup now sid w).
Proof.
  unfold effectCleanup. cbv zeta. etrans; [|apply Stable_sock_disconnect].
  stable. destruct (pingIntervalRef _); stable.
Qed.

Lemma Stable_fireTimer now t w : Stable w (fireTimer now t w).
Proof.
  unfold fireTimer. destruct (timers w !! t) as [[tm|]|]; try reflexivity.
  destruct (callback tm); simpl.
  - etrans; [|apply Stable_sendPing]. stable.
  - etrans; [|apply Stable_ensureTimeout]. stable.
Qed.

Lemma Stable_ensureConnected now w : Stable w (ensureConnected now w).2.
Proof.
  unfold ensureConnected, newPromise, setTimeout. cbv beta iota zeta.
  change (currentSocket (set_promises (promises w ++ [Pending]) w)) with (currentSocket w).
  destruct (currentSocket w) as [[sid s]|]; [destruct (connected s)|]; simpl; stable.
Qed.

Lemma Stable_lookup w w' sid s :
  Stable w w' → sockets w !! sid = Some s →
  ∃ s', sockets w' !! sid = Some s' ∧ auth s' = auth s.
Proof.
  intros (_ & _ & _ & _ & _ & E) Hs.
  assert ((auth <$> sockets w') !! sid = Some (auth s)) as Hl.
  { rewrite E, list_lookup_fmap, Hs. done. }
  rewrite list_lookup_fmap in Hl. destruct (sockets w' !! sid) as [s'|]; [|done].
  injection Hl as Hl. eauto.
Qed.

Lemma Stable_length w w' : Stable w w' → length (sockets w') = length (sockets w).
Proof.
  intros (_ & _ & _ & _ & _ & E).
  by rewrite <-(length_fmap auth (sockets w')), E, length_fmap.
Qed.

Lemma Session_stable w w' : Stable w w' → Session w → Session w'.
Proof.
  intros HS. pose proof HS as (E1 & E2 & E3 & E4 & _ & E6). unfold Session.
  rewrite E1, E2, E3, E4. destruct (userToken w) as [tok|].
  - destruct (unmounted w); [done|]. destruct (tokenPresent tok) as [token|]; [|done].
    intros (sid & s & Hpc & Hlen & Hs & Ha).
    destruct (Stable_lookup _ _ _ _ HS Hs) as (s' & Hs' & Ha').
    exists sid, s'. rewrite (Stable_length _ _ HS). split_and!; congruence.
  - intros (? & ? & Hnil). split_and!; [done|done|].
    apply (f_equal length) in E6. rewrite !length_fmap, Hnil in E6.
    by destruct (sockets w').
Qed.

Lemma runCleanup_stable now w :
  userToken (runCleanup now w) = userToken w ∧ unmounted (runCleanup now w) = unmounted w ∧
  socketRef (runCleanup now w) = socketRef w ∧
  connectionStartTime (runCleanup now w) = connectionStartTime w ∧
  auth <$> sockets (runCleanup now w) = auth <$> sockets w.
Proof.
  unfold runCleanup. destruct (pendingCleanup w) as [sid|]; [|done].
  generalize (Stable_effectCleanup now sid w). generalize (effectCleanup now sid w).
  by intros X (? & ? & ? & ? & ? & ?).
Qed.

Lemma Session_render now tok w : Inv w → Session w → Session (render now tok w).
Proof.
  intros HI H. unfold render. destruct (unmounted w) eqn:Hu; [done|].
  case_decide as Htok; [done|].
  set (w1 := runCleanup now (set_userToken (Some tok) w)).
  assert (Inv (set_userToken (Some tok) w)) as HI0 by (by destruct HI).
  assert (Inv w1) as HI1 by (by apply Inv_runCleanup).
  assert (pendingCleanup w1 = None) as Hpc1 by apply runCleanup_pendingCleanup.
  destruct (runCleanup_stable now (set_userToken (Some tok) w)) as (E1 & E2 & E3 & _ & E5).
  fold w1 in E1, E2, E3, E5. simpl in E1, E2, E3, E5.
  rewrite (effect_eq _ _ _ HI1 Hpc1). unfold Session.
  destruct (tokenPresent tok) as [token|] eqn:Ht; simpl; rewrite E1, E2, Hu, Ht.
  - exists (length (sockets w1)), (freshSocket token). split_and!; try done.
    + rewrite length_app. simpl. lia.
    + by rewrite lookup_app_r, Nat.sub_diag.
  - done.
Qed.

Lemma Session_unmount now w : Session w → Session (unmount now w).
Proof.
  intros H. unfold unmount. destruct (unmounted w) eqn:Hu; [done|].
  destruct (runCleanup_stable now w) as (E1 & _). unfold Session. simpl. rewrite E1.
  destruct (userToken w) as [tok|] eqn:Htok.
  - apply runCleanup_pendingCleanup.
  - unfold Session in H. rewrite Htok in H. destruct H as (Hpc & ? & ?).
    unfold runCleanup. by rewrite Hpc.
Qed.

Lemma Stable_step now i w :
  (∀ tok, i ≠ Render tok) → i ≠ Unmount → Stable w (step now i w).
Proof.
  intros Hr Hu. unfold step.
  match goal with |- Stable _ (set_clock _ ?w') =>
    assert (Stable w w') as H'; [|etrans; [exact H'|]; by apply Stable_same] end.
  destruct i as [tok| |sid ev|t| |].
  - by destruct (Hr tok).
  - done.
  - apply Stable_transport.
  - apply Stable_fireTimer.
  - apply Stable_ensureConnected.
  - apply Stable_sendPing.
Qed.

Lemma Session_step now i w : Inv w → Session w → Session (step now i w).
Proof.
  intros HI H. destruct i as [tok| |sid ev|t| |].
  2: { unfold step. apply (Session_stable (unmount now w)); [by apply Stable_same|].
       by apply Session_unmount. }
  1: { unfold step. apply (Session_stable (render now tok w)); [by apply Stable_same|].
       by apply Session_render. }
  all: by apply (Session_stable w); [apply Stable_step|].
Qed.

Lemma Session_run tr w : run tr init = Some w → Session w.
Proof.
  assert (∀ tr w0 w, Inv w0 → Session w0 → run tr w0 = Some w → Session w) as Hgen.
  { clear. induction tr as [|[now i] tr IH]; intros w0 w HI H; simpl.
    - by intros [= <-].
    - destruct (enabled now i w0) eqn:Hen; [|done].
      apply IH; [by apply Inv_step|by apply Session_step]. }
  apply Hgen; [apply Inv_init|done].
Qed.

(** ** Properties of the running session *)

Lemma NoDup_heartbeatTimers w : NoDup (heartbeatTimers w).
Proof.
  unfold heartbeatTimers.
  eapply sublist_NoDup; [|apply fmap_sublist, sublist_filter].
  rewrite fmap_imap.
  rewrite (imap_ext _ (λ i _, id i)) by done.
  rewrite imap_seq_0, list_fmap_id. apply NoDup_seq.
Qed.

Lemma heartbeatTimers_single w t :
  t ∈ heartbeatTimers w → (∀ t', t' ∈ heartbeatTimers w → t' = t) → heartbeatTimers w = [t].
Proof.
  intros Hin Hall. pose proof (NoDup_heartbeatTimers w) as Hnd.
  destruct (heartbeatTimers w) as [|a l]; [by apply elem_of_nil in Hin|].
  assert (a = t) as -> by (apply Hall; left).
  destruct l as [|b l]; [done|].
  assert (b = t) as -> by (apply Hall; right; left).
  apply NoDup_cons in Hnd as [Hnd _]. destruct Hnd. left.
Qed.

Lemma live_socket w :
  Inv w → Session w → unmounted w = false → socketConnected w = true → LiveUp w.
Proof.
  intros HI HS Hu Hc. unfold socketConnected in Hc.
  destruct (currentSocket w) as [[sid s]|] eqn:Hcur; [|done].
  apply currentSocket_Some in Hcur as [Hsr Hs].
  unfold Session in HS. rewrite Hu in HS.
  destruct (userToken w) as [tok|]; [|destruct HS as (_ & ? & _); congruence].
  destruct (tokenPresent tok); [|destruct HS; congruence].
  destruct HS as (sid' & s' & Hpc & _ & Hs' & _).
  destruct (inv_sockets _ HI) as [_ Hl]. destruct (Hl _ Hpc) as (Hsr' & _).
  assert (sid' = sid) as -> by congruence. exists sid, s. split_and!; congruence.
Qed.

Lemma LiveUp_mounted w : Inv w → Session w → LiveUp w → unmounted w = false ∧ socketConnected w = true.
Proof.
  intros HI HS (sid & s & Hpc & Hs & Hc). split.
  - unfold Session in HS. destruct (userToken w); [|destruct HS; congruence].
    destruct (unmounted w); [congruence|done].
  - destruct (inv_sockets _ HI) as [_ Hl]. destruct (Hl _ Hpc) as (Hsr & _).
    unfold socketConnected, currentSocket. by rewrite Hsr, Hs.
Qed.

(** X1. Along every run a heartbeat interval is armed exactly while the
    component is mounted and the socket in [socketRef] is connected; it
    is then the only one, it is the interval [pingIntervalRef] holds, it
    calls [sendPing] every 5000 ms and is due within 5000 ms. *)
Theorem heartbeat_while_socket_connected tr w :
  run tr init = Some w →
  (heartbeatTimers w ≠ [] ↔ unmounted w = false ∧ socketConnected w = true) ∧
  ∀ t, t ∈ heartbeatTimers w →
    heartbeatTimers w = [t] ∧ pingIntervalRef w = Some t ∧
    ∃ d, timers w !! t
           = Some (Some {| callback := CbSendPing; due := d; period := Some 5000 |}) ∧
         d ≤ clock w + 5000.
Proof.
  intros Hrun.
  pose proof (Inv_run _ _ _ Inv_init Hrun) as HI.
  pose proof (Session_run _ _ Hrun) as HS.
  pose proof (Sched_run _ _ Hrun) as [Hsh _ _ _ Hp].
  assert (Beat init) as Hb0 by (by left).
  pose proof (Beat_run _ _ _ Inv_init Hb0 Hrun) as Hb.
  split; [split|].
  - intros Hne. apply LiveUp_mounted; [done|done|].
    destruct Hb as [Hb|Hb]; [|done]. by apply heartbeatTimers_nil in Hb.
  - intros [Hu Hc]. destruct (Hp (live_socket _ HI HS Hu Hc)) as (t & tm & _ & Ht & Hcb).
    assert (t ∈ heartbeatTimers w) as Hin by (apply elem_of_heartbeatTimers; eauto).
    intros E. rewrite E in Hin. by apply elem_of_nil in Hin.
  - intros t Hin. pose proof Hin as (tm & Ht & Hcb)%elem_of_heartbeatTimers.
    pose proof (inv_heartbeat _ HI _ _ Ht Hcb) as Href. split_and!.
    + apply heartbeatTimers_single; [done|].
      intros t' (tm' & Ht' & Hcb')%elem_of_heartbeatTimers.
      pose proof (inv_heartbeat _ HI _ _ Ht' Hcb'). congruence.
    + done.
    + pose proof (Hsh _ _ Ht) as Hs. unfold timerShape in Hs. rewrite Hcb in Hs.
      destruct Hs as [Hper Hdue]. exists (due tm). split; [|done].
      rewrite Ht. destruct tm as [cb d per]. simpl in *. by subst.
Qed.

(** The heartbeat of a connected session, and none after the drop. *)
Lemma heartbeat_while_socket_connected_witness :
  (heartbeatTimers world_connected ≠ [] ↔
     unmounted world_connected = false ∧ socketConnected world_connected = true) ∧
  (heartbeatTimers world_dropped ≠ [] ↔
     unmounted world_dropped = false ∧ socketConnected world_dropped = true).
Proof.
  split.
  - refine (proj1 (heartbeat_while_socket_connected trace_connected world_connected _)).
    by vm_compute.
  - refine (proj1 (heartbeat_while_socket_connected trace_dropped world_dropped _)).
    by vm_compute.
Defined.

(** X2. While the component is mounted the hook holds exactly one session,
    for the token of the last render: for a non-empty token [socketRef] is
    the socket created last, its handshake carries that token, it has the
    six handlers of the effect, and no socket created earlier has any of
    them; for a missing or empty token [socketRef] is null and no socket
    has any of them. After an unmount no socket has any of them. *)
Theorem session_matches_token tr w :
  run tr init = Some w →
  (∀ tok token,
     unmounted w = false → userToken w = Some tok → tokenPresent tok = Some token →
     ∃ sid s, socketRef w = Some sid ∧ S sid = length (sockets w) ∧
              sockets w !! sid = Some s ∧ auth s = token ∧
              (∀ nl, nl ∈ sixHandlers → nl ∈ listeners s) ∧
              ∀ sid' s', sockets w !! sid' = Some s' → sid' ≠ sid →
                         ∀ nl, nl ∈ sixHandlers → nl ∉ listeners s') ∧
  (∀ tok,
     unmounted w = false → userToken w = Some tok → tokenPresent tok = None →
     socketRef w = None ∧
     ∀ sid' s', sockets w !! sid' = Some s' → ∀ nl, nl ∈ sixHandlers → nl ∉ listeners s') ∧
  (unmounted w = true →
     ∀ sid' s', sockets w !! sid' = Some s' → ∀ nl, nl ∈ sixHandlers → nl ∉ listeners s') ∧
  (userToken w = None → sockets w = []).
Proof.
  intros Hrun.
  pose proof (Inv_run _ _ _ Inv_init Hrun) as HI.
  pose proof (Session_run _ _ Hrun) as HS. unfold Session in HS.
  assert (pendingCleanup w = None →
          ∀ sid' s', sockets w !! sid' = Some s' → ∀ nl, nl ∈ sixHandlers → nl ∉ listeners s')
    as Hnone.
  { intros Hpc sid' s' Hs' nl Hnl. apply unwired_no_handler; [|done].
    eapply Inv_retired_socket; [done| |done]. congruence. }
  split_and!.
  - intros tok token Hu Htok Hpres. rewrite Htok, Hu, Hpres in HS.
    destruct HS as (sid & s & Hpc & Hlen & Hs & Ha).
    destruct (Inv_live_socket _ _ HI Hpc) as (s0 & ex & Hs0 & E & _ & Hsr).
    assert (s0 = s) as -> by congruence.
    exists sid, s. split_and!; try done.
    + intros nl Hnl. rewrite E. apply elem_of_app. by left.
    + intros sid' s' Hs' Hne nl Hnl. apply unwired_no_handler; [|done].
      eapply Inv_retired_socket; [done| |done]. congruence.
  - intros tok Hu Htok Hpres. rewrite Htok, Hu, Hpres in HS. destruct HS as [Hpc Hsr].
    split; [done|by apply Hnone].
  - intros Hu. apply Hnone. destruct (userToken w); [|by destruct HS].
    by rewrite Hu in HS.
  - intros Htok. rewrite Htok in HS. by destruct HS as (_ & _ & ?).
Qed.

(** The session of token A, and the one that replaces it for token B. *)
Lemma session_matches_token_witness :
  (∃ sid s, socketRef world_connected = Some sid ∧
            S sid = length (sockets world_connected) ∧
            sockets world_connected !! sid = Some s ∧ auth s = "A" ∧
            (∀ nl, nl ∈ sixHandlers → nl ∈ listeners s) ∧
            ∀ sid' s', sockets world_connected !! sid' = Some s' → sid' ≠ sid →
                       ∀ nl, nl ∈ sixHandlers → nl ∉ listeners s') ∧
  (∃ sid s, socketRef world_token_changed = Some sid ∧
            S sid = length (sockets world_token_changed) ∧
            sockets world_token_changed !! sid = Some s ∧ auth s = "B" ∧
            (∀ nl, nl ∈ sixHandlers → nl ∈ listeners s) ∧
            ∀ sid' s', sockets world_token_changed !! sid' = Some s' → sid' ≠ sid →
                       ∀ nl, nl ∈ sixHandlers → nl ∉ listeners s').
Proof.
  split.
  - refine (proj1 (session_matches_token trace_connected world_connected _)
              (Some "A") "A" _ _ _); by vm_compute.
  - refine (proj1 (session_matches_token trace_token_changed world_token_changed _)
              (Some "B") "B" _ _ _); by vm_compute.
Defined.

(** ** The 'connect' event *)

Lemma sendPing_sockets now w :
  sockets (sendPing now w) =
    match currentSocket w with
    | Some (sid, s) =>
        if connected s then alter (λ s, with_emitted (emitted s ++ [now]) s) sid (sockets w)
        else sockets w
    | None => sockets w
    end.
Proof. unfold sendPing. by repeat case_match. Qed.

Lemma sendPing_lastPingTime now w :
  lastPingTime (sendPing now w) = if socketConnected w then now else lastPingTime w.
Proof. unfold sendPing, socketConnected. by repeat case_match. Qed.

Lemma handleConnect_frame now w :
  sockets (handleConnect now w) = sockets (sendPing now w) ∧
  lastPingTime (handleConnect now w) = lastPingTime (sendPing now w) ∧
  isConnecting (handleConnect now w) = false ∧
  connectionQuality (handleConnect now w) = QGood ∧
  reconnectAttempts (handleConnect now w) = 0%nat ∧
  socketRef (handleConnect now w) = socketRef w.
Proof.
  unfold handleConnect, setInterval. cbv beta iota zeta.
  rewrite sendPing_sockets, sendPing_lastPingTime.
  rewrite sendPing_sockets, sendPing_lastPingTime.
  unfold sendPing, socketConnected, currentSocket.
  destruct (pingIntervalRef w) eqn:E; simpl; rewrite ?E; simpl;
    split_and!; try done; by repeat case_match.
Qed.

Lemma onConnect_sockets p t w :
  sockets (onConnect p t w) =
    match socketRef w with
    | Some sid =>
        alter (λ s, with_listeners (removeFirst (NConnect, LOnConnect p t) (listeners s)) s)
          sid (sockets w)
    | None => sockets w
    end.
Proof. unfold onConnect. simpl. destruct (socketRef w); reflexivity. Qed.

Lemma onConnect_socketRef p t w : socketRef (onConnect p t w) = socketRef w.
Proof. unfold onConnect. simpl. destruct (socketRef w) eqn:E; simpl; by rewrite ?E. Qed.

Lemma onConnect_timers p t w : timers (onConnect p t w) = <[t := None]> (timers w).
Proof. unfold onConnect. simpl. destruct (socketRef w); reflexivity. Qed.

Lemma onConnect_isConnecting p t w : isConnecting (onConnect p t w) = false.
Proof. unfold onConnect. simpl. destruct (socketRef w); reflexivity. Qed.

Lemma onConnect_lastPingTime p t w : lastPingTime (onConnect p t w) = lastPingTime w.
Proof. unfold onConnect. simpl. destruct (socketRef w); reflexivity. Qed.

(** The one-shot listeners of a 'connect' event remove themselves: the
    six handlers are what is left. *)
Lemma foldl_onConnect_listeners now ex x sid s :
  socketRef x = Some sid → sockets x !! sid = Some s →
  listeners s = sixHandlers ++ ex → Forall isOnConnect ex →
  sockets (foldl (λ w l, runListener now EvConnect l w) x ex.*2) !! sid
    = Some (with_listeners sixHandlers s).
Proof.
  revert x s. induction ex as [|[n l] ex IH]; intros x s Hsr Hs E Hex; simpl.
  - rewrite Hs. f_equal. rewrite app_nil_r in E. destruct s. simpl in *. by subst.
  - apply Forall_cons in Hex as [Hnl Hex].
    destruct n, l as [| | | | | |p t]; try done. simpl.
    rewrite (IH _ (with_listeners (sixHandlers ++ ex) s)); [done| | |done|done].
    + by rewrite onConnect_socketRef.
    + rewrite onConnect_sockets, Hsr, list_lookup_alter_eq, Hs. simpl. f_equal.
      rewrite E, removeFirst_app_onConnect. simpl. by rewrite decide_True.
Qed.

Lemma onConnect_fulfilled p p' t' w v :
  promises w !! p = Some (Fulfilled v) → promises (onConnect p' t' w) !! p = Some (Fulfilled v).
Proof. intros H. rewrite onConnect_promises. by apply lookup_settle_fulfilled. Qed.

(** Every one-shot listener of a 'connect' event clears its timeout and
    settles its promise. *)
Lemma foldl_onConnect_done now ev ex x p t :
  Forall isOnConnect ex → (NConnect, LOnConnect p t) ∈ ex →
  (t < length (timers x))%nat →
  (∃ st, promises x !! p = Some st ∧ st ≠ Rejected) →
  timers (foldl (λ w l, runListener now ev l w) x ex.*2) !! t = Some None ∧
  ∃ v, promises (foldl (λ w l, runListener now ev l w) x ex.*2) !! p = Some (Fulfilled v).
Proof.
  revert x. induction ex as [|[n l] ex IH]; intros x Hex Hin Ht Hp; simpl.
  - by apply elem_of_nil in Hin.
  - apply Forall_cons in Hex as [Hnl Hex].
    destruct n, l as [| | | | | |p' t']; try done. simpl.
    apply elem_of_cons in Hin as [[= <- <-]|Hin].
    + apply (foldl_onConnect
               (λ x, timers x !! t = Some None ∧ ∃ v, promises x !! p = Some (Fulfilled v)));
        [|done|].
      * intros p' t' x' [H1 (v & H2)]. split.
        -- rewrite onConnect_timers. rewrite list_lookup_insert. case_decide; [done|done].
        -- exists v. by apply onConnect_fulfilled.
      * split.
        -- rewrite onConnect_timers. by apply list_lookup_insert_eq.
        -- rewrite onConnect_promises. destruct Hp as (st & Hst & Hne).
           destruct st as [|v|]; [|exists v; by apply lookup_settle_fulfilled|done].
           exists true. by apply lookup_settle_pending.
    + apply IH; [done|done| |].
      * by rewrite onConnect_timers, length_insert.
      * rewrite onConnect_promises. destruct Hp as (st & Hst & Hne).
        destruct (decide (p' = p)) as [->|Hpp].
        -- destruct st as [|v|]; [|exists (Fulfilled v); split; [|done];
                                    by apply lookup_settle_fulfilled|done].
           exists (Fulfilled true). split; [|done]. by apply lookup_settle_pending.
        -- exists st. split; [|done]. by rewrite lookup_settle_ne.
Qed.

(** X3. A 'connect' event on the socket of the running effect makes the
    hook Connected with quality 'good' and no attempts counted, reports
    online to the presence store, sends one ping stamped with the current
    time, arms a fresh heartbeat as the only one, and leaves exactly the
    six handlers on the socket: every one-shot listener of
    [ensureConnected] has removed itself, its timeout is cleared and its
    promise is settled. *)
Theorem connect_establishes_session tr w now sid s :
  run tr init = Some w → pendingCleanup w = Some sid → sockets w !! sid = Some s →
  enabled now (Transport sid EvConnect) w = true →
  let w' := step now (Transport sid EvConnect) w in
  getConnectionStatus w' = (true, false, QGood) ∧
  reconnectAttempts w' = 0%nat ∧
  presence w' = presence w ++ [true] ∧
  lastPingTime w' = now ∧
  heartbeatTimers w' = [length (timers w)] ∧
  sockets w' !! sid
    = Some {| connected := true; listeners := sixHandlers; connectCalls := connectCalls s;
              emitted := emitted s ++ [now]; auth := auth s |} ∧
  ∀ p t, (NConnect, LOnConnect p t) ∈ listeners s →
         timers w' !! t = Some None ∧ ∃ v, promises w' !! p = Some (Fulfilled v).
Proof.
  intros Hrun Hpc Hs Hen w'.
  pose proof (Inv_run _ _ _ Inv_init Hrun) as HI.
  pose proof (Alloc_run _ _ _ Alloc_init Hrun) as HA.
  destruct (Inv_live_socket _ _ HI Hpc) as (s0 & ex & Hs0 & E & Hex & Hsr).
  assert (s0 = s) as -> by congruence.
  set (w0 := updSocket sid (with_connected true) w).
  assert (w' = set_clock now (foldl (λ w l, runListener now EvConnect l w)
                                (handleConnect now w0) ex.*2)) as Hw'.
  { unfold w'. by rewrite (step_live _ _ _ _ _ _ Hs E Hex). }
  assert (currentSocket w0 = Some (sid, with_connected true s)) as Hcur.
  { unfold currentSocket, w0. simpl. by rewrite Hsr, list_lookup_alter_eq, Hs. }
  destruct (handleConnect_frame now w0) as (F1 & F2 & F3 & F4 & F5 & F6).
  rewrite sendPing_sockets, Hcur in F1. simpl in F1.
  rewrite sendPing_lastPingTime in F2. unfold socketConnected in F2. rewrite Hcur in F2.
  simpl in F2.
  assert (sockets (handleConnect now w0) !! sid
            = Some (with_emitted (emitted s ++ [now]) (with_connected true s))) as Hs1.
  { rewrite F1, !list_lookup_alter_eq, Hs. done. }
  split_and!.
  - rewrite Hw'. unfold getConnectionStatus.
    change (isConnected (set_clock now ?x)) with (isConnected x).
    change (isConnecting (set_clock now ?x)) with (isConnecting x).
    change (connectionQuality (set_clock now ?x)) with (connectionQuality x).
    rewrite (foldl_onConnect_frame isConnected) by (done || apply onConnect_isConnected).
    rewrite (foldl_onConnect_frame connectionQuality)
      by (done || apply onConnect_connectionQuality).
    rewrite handleConnect_isConnected, F4.
    assert (isConnecting (foldl (λ w l, runListener now EvConnect l w)
                            (handleConnect now w0) ex.*2) = false) as ->; [|done].
    apply (foldl_onConnect (λ x, isConnecting x = false)); [|done|done].
    intros p t x _. apply onConnect_isConnecting.
  - rewrite Hw'. change (reconnectAttempts (set_clock now ?x)) with (reconnectAttempts x).
    rewrite (foldl_onConnect_frame reconnectAttempts)
      by (done || apply onConnect_reconnectAttempts). done.
  - rewrite Hw'. change (presence (set_clock now ?x)) with (presence x).
    rewrite (foldl_onConnect_frame presence) by (done || apply onConnect_presence).
    by rewrite handleConnect_presence.
  - rewrite Hw'. change (lastPingTime (set_clock now ?x)) with (lastPingTime x).
    rewrite (foldl_onConnect_frame lastPingTime) by (done || apply onConnect_lastPingTime).
    done.
  - apply heartbeatTimers_single.
    + by apply (connect_arms_heartbeat tr w now sid).
    + intros t' Ht'. by apply (connect_arms_heartbeat tr w now sid) in Ht'.
  - rewrite Hw'. change (sockets (set_clock now ?x)) with (sockets x).
    by rewrite (foldl_onConnect_listeners now ex _ sid _ (eq_trans F6 Hsr) Hs1 E Hex).
  - intros p t Hin. rewrite Hw'.
    change (timers (set_clock now ?x)) with (timers x).
    change (promises (set_clock now ?x)) with (promises x).
    rewrite E in Hin. apply elem_of_app in Hin as [Hin|Hin].
    { exfalso. unfold sixHandlers in Hin. rewrite !elem_of_cons, elem_of_nil in Hin.
      by destruct Hin as [?|[?|[?|[?|[?|[?|?]]]]]]. }
    assert ((NConnect, LOnConnect p t) ∈ listeners s) as Hin'.
    { rewrite E. apply elem_of_app. by right. }
    destruct (alloc_listeners _ HA _ _ _ _ _ Hs Hin') as [Hp Ht].
    apply foldl_onConnect_done; [done|done| |].
    + destruct (handleConnect_arms now w0) as [_ Harm].
      apply lookup_lt_Some in Harm. change (timers w0) with (timers w) in Harm. lia.
    + rewrite handleConnect_promises. change (promises w0) with (promises w).
      destruct (lookup_lt_is_Some_2 _ _ Hp) as [st Hst]. exists st. split; [done|].
      intros ->. by apply (inv_promises _ HI p).
Qed.

(** The scenario: token A, then 'connect' at t = 50 ms. *)
Lemma connect_establishes_session_witness :
  let w' := step 50 (Transport 0%nat EvConnect) world_connecting in
  getConnectionStatus w' = (true, false, QGood) ∧
  reconnectAttempts w' = 0%nat ∧
  presence w' = presence world_connecting ++ [true] ∧
  lastPingTime w' = 50 ∧
  heartbeatTimers w' = [length (timers world_connecting)] ∧
  sockets w' !! 0%nat
    = Some {| connected := true; listeners := sixHandlers;
              connectCalls := connectCalls (freshSocket "A");
              emitted := emitted (freshSocket "A") ++ [50]; auth := auth (freshSocket "A") |} ∧
  ∀ p t, (NConnect, LOnConnect p t) ∈ listeners (freshSocket "A") →
         timers w' !! t = Some None ∧ ∃ v, promises w' !! p = Some (Fulfilled v).
Proof.
  refine (connect_establishes_session [(0, Render (Some "A"))] world_connecting 50 0%nat
            (freshSocket "A") _ _ _ _); by vm_compute.
Defined.

(** ** Pings *)

Global Instance Mute_refl : Reflexive Mute.
Proof. by intros w. Qed.

Global Instance Mute_trans : Transitive Mute.
Proof. intros w1 w2 w3 [A1 A2] [B1 B2]. split; [congruence|]. intros sid. by rewrite B2. Qed.

Lemma Mute_same w w' :
  lastPingTime w' = lastPingTime w → sockets w' = sockets w → Mute w w'.
Proof. intros E1 E2. split; [done|]. intros sid. unfold pingsOf. by rewrite E2. Qed.

Lemma pingsOf_alter sid f w j :
  (∀ s, emitted (f s) = emitted s) →
  pingsOf j (updSocket sid f w) = pingsOf j w.
Proof.
  intros Hf. unfold pingsOf. simpl. rewrite list_lookup_alter.
  case_decide; subst; [|done]. destruct (sockets w !! j); simpl; by rewrite ?Hf.
Qed.

Lemma Mute_updSocket sid f w : (∀ s, emitted (f s) = emitted s) → Mute w (updSocket sid f w).
Proof. intros Hf. split; [done|]. intros j. by apply pingsOf_alter. Qed.

Lemma Mute_snoc l s w :
  l = sockets w → emitted s = [] → Mute w (set_sockets (l ++ [s]) w).
Proof.
  intros -> Hs. split; [done|]. intros j. unfold pingsOf. simpl.
  destruct (decide (j < length (sockets w))%nat).
  - by rewrite lookup_app_l.
  - rewrite lookup_app_r by lia. rewrite (lookup_ge_None_2 (sockets w)) by lia.
    by destruct (j - length (sockets w))%nat as [|[|?]].
Qed.

Create HintDb mute discriminated.
#[local] Hint Extern 2 (Mute _ (updSocket _ _ _)) =>
  (apply Mute_updSocket; reflexivity) : mute.
#[local] Hint Extern 2 (Mute _ (set_sockets (_ ++ _) _)) =>
  (apply Mute_snoc; reflexivity) : mute.
#[local] Hint Extern 5 (Mute _ _) => (apply Mute_same; reflexivity) : mute.

Ltac mute_step :=
  match goal with
  | |- Mute ?w ?w => reflexivity
  | |- Mute ?w (?f ?x) => transitivity x;
      [|solve [unfold sock_on, sock_off, sock_connect, clearTimer, resolve;
               auto with mute]]
  end.

Ltac mute := repeat mute_step.

Lemma Mute_onConnect p t w : Mute w (onConnect p t w).
Proof. unfold onConnect. case_match; mute. Qed.

Lemma Mute_ensureTimeout p w : Mute w (ensureTimeout p w).
Proof. unfold ensureTimeout. mute. Qed.

Lemma Mute_handleDisconnect reason w : Mute w (handleDisconnect reason w).
Proof.
  destruct (handleDisconnect_frame reason w) as (_ & E2 & _ & _ & _ & E6).
  by apply Mute_same.
Qed.

Lemma Mute_handlePong now data w : Mute w (handlePong now data w).
Proof.
  destruct data; [reflexivity| |reflexivity]. simpl.
  match goal with |- Mute _ (checkConnectionQuality _ ?w') =>
    destruct (checkConnectionQuality_cases now w') as (q & -> & _) end.
  mute.
Qed.

Lemma Mute_foldl_onConnect now ev ex w :
  Forall isOnConnect ex → Mute w (foldl (λ w l, runListener now ev l w) w ex.*2).
Proof.
  intros Hex. apply (foldl_onConnect (Mute w)); [|done|reflexivity].
  intros p t x Hx. etrans; [exact Hx|apply Mute_onConnect].
Qed.

Lemma Mute_runCleanup now w : Inv w → Mute w (runCleanup now w).
Proof.
  intros HI. destruct (pendingCleanup w) as [sid|] eqn:Hpc.
  - destruct (runCleanup_live now _ _ HI Hpc) as (s & Hs & Hw & ->).
    destruct (pingIntervalRef w); mute.
    all: split; [done|]; intros j; unfold pingsOf; simpl; rewrite list_lookup_alter;
      case_decide; subst; [|done]; by destruct (sockets w !! j).
  - unfold runCleanup. rewrite Hpc. reflexivity.
Qed.

Lemma Mute_effect now tok w : Inv w → pendingCleanup w = None → Mute w (effect now tok w).
Proof.
  intros HI Hpc. rewrite (effect_eq _ _ _ HI Hpc). destruct (tokenPresent tok); mute.
  split; [done|]. intros j. unfold pingsOf. simpl. destruct (socketRef w); [|done].
  rewrite list_lookup_alter. case_decide; subst; [|done]. by destruct (sockets w !! j).
Qed.

Lemma Mute_render now tok w : Inv w → Mute w (render now tok w).
Proof.
  intros HI. unfold render. repeat case_match; try reflexivity.
  assert (Inv (set_userToken (Some tok) w)) as HI' by (by destruct HI).
  etrans; [|apply Mute_effect; [by apply Inv_runCleanup|by apply runCleanup_pendingCleanup]].
  etrans; [|by apply Mute_runCleanup]. mute.
Qed.

Lemma Mute_unmount now w : Inv w → Mute w (unmount now w).
Proof.
  intros HI. unfold unmount. case_match; [reflexivity|].
  etrans; [by apply (Mute_runCleanup now)|]. by apply Mute_same.
Qed.

Lemma Mute_ensureConnected now w : Mute w (ensureConnected now w).2.
Proof.
  unfold ensureConnected, newPromise, setTimeout. cbv beta iota zeta.
  change (currentSocket (set_promises (promises w ++ [Pending]) w)) with (currentSocket w).
  destruct (currentSocket w) as [[sid s]|]; [destruct (connected s)|]; simpl; mute.
Qed.

(** [sendPing] sends one ping through a connected socket, and does nothing
    otherwise. *)
Lemma sendPing_cases now w :
  (socketConnected w = false ∧ sendPing now w = w) ∨
  (socketConnected w = true ∧ ∃ sid, socketRef w = Some sid ∧ OnePing now sid w (sendPing now w)).
Proof.
  unfold socketConnected, sendPing.
  destruct (currentSocket w) as [[sid s]|] eqn:Hcur; [|by left].
  destruct (connected s) eqn:Hc; [right|by left]. split; [done|].
  apply currentSocket_Some in Hcur as [Hsr Hs]. exists sid. split; [done|].
  split_and!; [done|done| | |].
  - exists (with_emitted (emitted s ++ [now]) s). simpl.
    rewrite list_lookup_alter_eq, Hs. done.
  - unfold pingsOf. simpl. by rewrite list_lookup_alter_eq, Hs.
  - intros j Hne. unfold pingsOf. simpl. by rewrite list_lookup_alter_ne.
Qed.

Lemma OnePing_same_l now sid w1 w2 w3 :
  sockets w2 = sockets w1 → OnePing now sid w2 w3 → OnePing now sid w1 w3.
Proof. unfold OnePing, pingsOf. by intros ->. Qed.

Lemma OnePing_same_r now sid w1 w2 w3 :
  sockets w3 = sockets w2 → socketRef w3 = socketRef w2 → lastPingTime w3 = lastPingTime w2 →
  OnePing now sid w1 w2 → OnePing now sid w1 w3.
Proof. unfold OnePing, pingsOf. by intros -> -> ->. Qed.

Lemma OnePing_foldl_onConnect now ev sid ex w x :
  Forall isOnConnect ex → OnePing now sid w x →
  OnePing now sid w (foldl (λ w l, runListener now ev l w) x ex.*2).
Proof.
  intros Hex. apply (foldl_onConnect (OnePing now sid w)); [|done].
  intros p t y (H1 & H2 & (s' & Hs' & Hc) & H4 & H5).
  destruct (Mute_onConnect p t y) as [M1 M2]. split_and!.
  - by rewrite onConnect_socketRef.
  - congruence.
  - rewrite onConnect_sockets. destruct (socketRef y) as [j|]; [|by eauto].
    rewrite list_lookup_alter. case_decide; subst; rewrite ?Hs'; simpl; eauto.
  - by rewrite M2.
  - intros j Hj. rewrite M2. by apply H5.
Qed.

Lemma ping_step now i w :
  Inv w → enabled now i w = true →
  (pinging i w ∧ ∃ sid, OnePing now sid w (step now i w)) ∨
  (¬ pinging i w ∧ Mute w (step now i w)).
Proof.
  intros HI Hen. unfold step.
  assert (∀ x, Mute w x → Mute w (set_clock now x)) as Hm.
  { intros x Hx. etrans; [exact Hx|]. by apply Mute_same. }
  assert (∀ sid x, OnePing now sid w x → OnePing now sid w (set_clock now x)) as Ho.
  { intros sid x. by apply OnePing_same_r. }
  destruct i as [tok| |sid ev|t| |].
  - right. split; [by intros []|]. by apply Hm, Mute_render.
  - right. split; [by intros []|]. by apply Hm, Mute_unmount.
  - apply enabled_Transport in Hen as (s & Hs & Hc).
    destruct (decide (pendingCleanup w = Some sid)) as [Hpc|Hpc].
    + destruct (Inv_live_socket _ _ HI Hpc) as (s' & ex & Hs' & E & Hex & Hsr).
      assert (s' = s) as -> by congruence.
      rewrite (transport_live _ _ _ _ _ _ Hs E Hex). destruct ev.
      * left. split; [done|]. exists sid. apply Ho.
        apply OnePing_foldl_onConnect; [done|].
        set (w0 := updSocket sid (with_connected true) w).
        assert (currentSocket w0 = Some (sid, with_connected true s)) as Hcur.
        { unfold currentSocket, w0. simpl. by rewrite Hsr, list_lookup_alter_eq, Hs. }
        destruct (handleConnect_frame now w0) as (F1 & F2 & _ & _ & _ & F6).
        rewrite sendPing_sockets, Hcur in F1. simpl in F1.
        rewrite sendPing_lastPingTime in F2. unfold socketConnected in F2.
        rewrite Hcur in F2. simpl in F2.
        split_and!; [by rewrite F6|done| | |].
        -- eexists. rewrite F1, !list_lookup_alter_eq, Hs. done.
        -- unfold pingsOf. by rewrite F1, !list_lookup_alter_eq, Hs.
        -- intros j Hj. unfold pingsOf. by rewrite F1, !list_lookup_alter_ne.
      * right. split; [by intros []|].
        apply Hm. etrans; [|apply Mute_handleDisconnect]. by apply Mute_updSocket.
      * right. split; [by intros []|]. by apply Hm, Mute_same.
      * right. split; [by intros []|]. by apply Hm, Mute_same.
      * right. split; [by intros []|]. by apply Hm, Mute_same.
      * right. split; [by intros []|]. apply Hm, Mute_handlePong.
    + pose proof (Inv_retired_socket _ _ _ HI Hpc Hs) as Hu.
      rewrite (transport_retired _ _ _ _ _ Hs Hu). right.
      split; [destruct ev; simpl; try done; by intros []|]. apply Hm.
      destruct ev; try reflexivity.
      * etrans; [|by apply Mute_foldl_onConnect]. by apply Mute_updSocket.
      * by apply Mute_updSocket.
  - unfold enabled in Hen. apply andb_prop in Hen as [_ Hen]. unfold fireTimer.
    destruct (timers w !! t) as [[tm|]|] eqn:Ht; try done.
    destruct (callback tm) eqn:Hcb; simpl.
    + match goal with |- context [sendPing now ?x] =>
        destruct (sendPing_cases now x) as [[Hc ->]|(Hc & sid & Hsr & Hp)] end.
      * right. split; [|by apply Hm, Mute_same].
        intros [Hc' _]. unfold socketConnected, currentSocket in Hc, Hc'. simpl in Hc.
        congruence.
      * left. split.
        -- split; [done|]. apply elem_of_heartbeatTimers. eauto.
        -- exists sid. by apply Ho, (OnePing_same_l _ _ _ _ _ eq_refl Hp).
    + right. split.
      * intros [_ (tm' & Ht' & Hcb')%elem_of_heartbeatTimers]. congruence.
      * apply Hm. etrans; [|apply Mute_ensureTimeout]. by apply Mute_same.
  - right. split; [by intros []|]. apply Hm, Mute_ensureConnected.
  - destruct (sendPing_cases now w) as [[Hc ->]|(Hc & sid & Hsr & Hp)].
    + right. split; [|by apply Hm]. simpl. congruence.
    + left. split; [done|]. exists sid. by apply Ho.
Qed.

Lemma enabled_clock now i w : enabled now i w = true → clock w ≤ now.
Proof.
  unfold enabled. intros [Hc _]%andb_prop. by apply bool_decide_eq_true in Hc.
Qed.

Lemma PingsOK_step now i w :
  Inv w → PingsOK w → enabled now i w = true → PingsOK (step now i w).
Proof.
  intros HI [H1 H2] Hen. pose proof (enabled_clock _ _ _ Hen) as Hclk.
  assert (clock (step now i w) = now) as Hc by done.
  destruct (ping_step _ _ _ HI Hen) as [[_ (sid & _ & E1 & _ & E2 & E3)]|[_ [E1 E2]]].
  - split; [rewrite Hc, E1; lia|]. rewrite E1. intros j ts.
    destruct (decide (j = sid)) as [->|Hne].
    + rewrite E2. intros [Hin|Hin%list_elem_of_singleton]%elem_of_app; [|lia].
      apply H2 in Hin. lia.
    + rewrite E3 by done. intros Hin%H2. lia.
  - split; [rewrite Hc, E1; lia|]. rewrite E1. intros j ts. rewrite E2. apply H2.
Qed.

Lemma PingsOK_run tr w : run tr init = Some w → PingsOK w.
Proof.
  assert (∀ tr w0 w, Inv w0 → PingsOK w0 → run tr w0 = Some w → PingsOK w) as Hgen.
  { clear. induction tr as [|[now i] tr IH]; intros w0 w HI H; simpl.
    - by intros [= <-].
    - destruct (enabled now i w0) eqn:Hen; [|done].
      apply IH; [by apply Inv_step|by apply PingsOK_step]. }
  apply Hgen; [apply Inv_init|]. split; [done|]. intros sid ts. unfold pingsOf. simpl.
  by intros ?%elem_of_nil.
Qed.

(** X4. A step sends a ping exactly when it is a 'connect' event on the
    socket of the running effect, or a call of [sendPing] or an expiry of
    the heartbeat interval while [socketRef.current] is connected. It then
    sends exactly one, through the socket in [socketRef], which is
    connected, stamped with the current time, which becomes
    [lastPingTime]; any other step sends none and leaves [lastPingTime]
    as it is. So no ping is stamped later than [lastPingTime], and
    [lastPingTime] is never ahead of the clock. *)
Theorem ping_discipline tr w now i :
  run tr init = Some w → enabled now i w = true →
  let w' := step now i w in
  (pinging i w → ∃ sid, OnePing now sid w w') ∧
  (¬ pinging i w → Mute w w') ∧
  lastPingTime w ≤ clock w ∧
  ∀ sid ts, ts ∈ pingsOf sid w → ts ≤ lastPingTime w.
Proof.
  intros Hrun Hen w'.
  pose proof (Inv_run _ _ _ Inv_init Hrun) as HI.
  destruct (PingsOK_run _ _ Hrun) as [H1 H2].
  destruct (ping_step _ _ _ HI Hen) as [[Hp Ho]|[Hp Hm]]; split_and!; done.
Qed.

(** A call of [sendPing] at t = 100 ms on the connected session. *)
Lemma ping_discipline_witness :
  ∃ sid, OnePing 100 sid world_connected (step 100 CallSendPing world_connected).
Proof.
  refine (proj1 (ping_discipline trace_connected world_connected 100 CallSendPing _ _) _);
    by vm_compute.
Defined.

(** ** What changes the state *)

Lemma runCleanup_cells now w :
  Inv w →
  reconnectAttempts (runCleanup now w) = reconnectAttempts w ∧
  lastPingTime (runCleanup now w) = lastPingTime w ∧
  pingIntervalRef (runCleanup now w) = pingIntervalRef w ∧
  timers (runCleanup now w) =
    match pendingCleanup w, pingIntervalRef w with
    | Some _, Some t => <[t := None]> (timers w)
    | _, _ => timers w
    end.
Proof.
  intros H. unfold runCleanup. destruct (pendingCleanup w) as [sid|] eqn:Hpc.
  - destruct (Inv_live_socket _ _ H Hpc) as (s & ex & Hs & E & Hex & _).
    rewrite (effectCleanup_live _ _ _ _ _ Hs E Hex).
    by destruct (pingIntervalRef w) eqn:E'.
  - by destruct (pingIntervalRef w).
Qed.

Lemma onConnect_cells now ev ex w :
  Forall isOnConnect ex →
  let w' := foldl (λ w l, runListener now ev l w) w ex.*2 in
  isConnected w' = isConnected w ∧ connectionQuality w' = connectionQuality w ∧
  reconnectAttempts w' = reconnectAttempts w ∧ presence w' = presence w ∧
  lastPingTime w' = lastPingTime w ∧ pingIntervalRef w' = pingIntervalRef w.
Proof.
  intros Hex w'. unfold w'. split_and!.
  - by apply (foldl_onConnect_frame isConnected); [apply onConnect_isConnected|].
  - by apply (foldl_onConnect_frame connectionQuality); [apply onConnect_connectionQuality|].
  - by apply (foldl_onConnect_frame reconnectAttempts); [apply onConnect_reconnectAttempts|].
  - by apply (foldl_onConnect_frame presence); [apply onConnect_presence|].
  - by apply (foldl_onConnect_frame lastPingTime); [apply onConnect_lastPingTime|].
  - by apply (foldl_onConnect_frame pingIntervalRef); [apply onConnect_pingIntervalRef|].
Qed.

Lemma foldl_onConnect_heartbeats now ev ex w :
  Forall isOnConnect ex →
  (∀ n p t, (n, LOnConnect p t) ∈ ex → ∀ tm, timers w !! t = Some (Some tm) →
            callback tm ≠ CbSendPing) →
  ∀ t, t ∈ heartbeatTimers (foldl (λ w l, runListener now ev l w) w ex.*2) ↔
       t ∈ heartbeatTimers w.
Proof.
  revert w. induction ex as [|[n l] ex IH]; intros w Hex Hnb t; simpl; [done|].
  apply Forall_cons in Hex as [Hnl Hex].
  destruct n, l as [| | | | | |p' t']; try done. simpl.
  rewrite IH; [|done|].
  - rewrite !elem_of_heartbeatTimers, onConnect_timers. split.
    + intros (tm & [(-> & ? & _)|[_ Ht]]%list_lookup_insert_Some & Hcb); [done|eauto].
    + intros (tm & Ht & Hcb). exists tm. split; [|done].
      rewrite list_lookup_insert_ne; [done|]. intros ->.
      by eapply (Hnb NConnect p' t); [left|..].
  - intros n p t0 Hin tm. rewrite onConnect_timers.
    intros [(-> & ? & _)|[_ Ht]]%list_lookup_insert_Some; [done|].
    eapply Hnb; [right; exact Hin|done].
Qed.

Lemma released_cells now sid ev w :
  Inv w → ListenerTimers (timers w) (sockets w) → pendingCleanup w ≠ Some sid →
  enabled now (Transport sid ev) w = true →
  let w' := step now (Transport sid ev) w in
  isConnected w' = isConnected w ∧ connectionQuality w' = connectionQuality w ∧
  reconnectAttempts w' = reconnectAttempts w ∧ presence w' = presence w ∧
  lastPingTime w' = lastPingTime w ∧ pingIntervalRef w' = pingIntervalRef w ∧
  (∀ t, t ∈ heartbeatTimers w' ↔ t ∈ heartbeatTimers w) ∧
  Mute w w' ∧
  (ev ≠ EvConnect →
     isConnecting w' = isConnecting w ∧ timers w' = timers w ∧ promises w' = promises w ∧
     ∀ j, j ≠ sid → sockets w' !! j = sockets w !! j).
Proof.
  intros HI Hlt Hpc Hen. cbv zeta.
  pose proof Hen as (s & Hs & Hc)%enabled_Transport.
  pose proof (Inv_retired_socket _ _ _ HI Hpc Hs) as Hu.
  assert (Mute w (step now (Transport sid ev) w)) as Hm.
  { destruct (ping_step _ _ _ HI Hen) as [[Hp _]|[_ Hm]]; [|done].
    simpl in Hp. by destruct ev. }
  unfold step in *. rewrite (transport_retired _ _ _ _ _ Hs Hu) in *.
  destruct ev; simpl;
    try (split_and!; try done; intros _; split_and!; try done; intros j Hj; simpl;
         by rewrite ?list_lookup_alter_ne).
  destruct (onConnect_cells now EvConnect (listeners s)
              (updSocket sid (with_connected true) w) Hu) as (E1 & E2 & E3 & E4 & E5 & E6).
  split_and!; try done.
  intros t.
  refine (foldl_onConnect_heartbeats now EvConnect (listeners s)
            (updSocket sid (with_connected true) w) Hu _ t).
  intros n p t0 Hin tm Ht Hcb. simpl in Ht.
  by rewrite (Hlt _ _ _ _ _ _ Hs Hin Ht) in Hcb.
Qed.

(** X5. Events of a socket that is not the one of the running effect --
    one a cleanup has released -- never reach the hook's handlers: they
    leave [isConnected], the quality, the attempt count, the presence
    store, [lastPingTime] and the heartbeat as they are and send no ping.
    Any event other than 'connect' also leaves [isConnecting], the
    timers, the promises and every other socket as they are: only on
    'connect' can a one-shot listener of [ensureConnected] left on such
    a socket still run. *)
Theorem released_socket_is_inert tr w now sid ev :
  run tr init = Some w → pendingCleanup w ≠ Some sid →
  enabled now (Transport sid ev) w = true →
  let w' := step now (Transport sid ev) w in
  isConnected w' = isConnected w ∧ connectionQuality w' = connectionQuality w ∧
  reconnectAttempts w' = reconnectAttempts w ∧ presence w' = presence w ∧
  lastPingTime w' = lastPingTime w ∧ pingIntervalRef w' = pingIntervalRef w ∧
  (∀ t, t ∈ heartbeatTimers w' ↔ t ∈ heartbeatTimers w) ∧
  Mute w w' ∧
  (ev ≠ EvConnect →
     isConnecting w' = isConnecting w ∧ timers w' = timers w ∧ promises w' = promises w ∧
     ∀ j, j ≠ sid → sockets w' !! j = sockets w !! j).
Proof.
  intros Hrun Hpc Hen.
  pose proof (Inv_run _ _ _ Inv_init Hrun) as HI.
  pose proof (Sched_run _ _ Hrun) as [_ Hlt _ _ _].
  by apply released_cells.
Qed.

(** A 'connect_error' of the released socket 0 after a token change. *)
Lemma released_socket_is_inert_witness :
  let w' := step 70 (Transport 0%nat (EvConnectError "timeout")) world_token_changed in
  isConnected w' = isConnected world_token_changed ∧
  connectionQuality w' = connectionQuality world_token_changed ∧
  reconnectAttempts w' = reconnectAttempts world_token_changed ∧
  presence w' = presence world_token_changed ∧
  lastPingTime w' = lastPingTime world_token_changed ∧
  pingIntervalRef w' = pingIntervalRef world_token_changed ∧
  (∀ t, t ∈ heartbeatTimers w' ↔ t ∈ heartbeatTimers world_token_changed) ∧
  Mute world_token_changed w' ∧
  (EvConnectError "timeout" ≠ EvConnect →
     isConnecting w' = isConnecting world_token_changed ∧
     timers w' = timers world_token_changed ∧ promises w' = promises world_token_changed ∧
     ∀ j, j ≠ 0%nat → sockets w' !! j = sockets world_token_changed !! j).
Proof.
  refine (released_socket_is_inert trace_token_changed world_token_changed 70 0%nat
            (EvConnectError "timeout") _ _ _); by vm_compute.
Defined.

(** X6. An unmount, and a render with another non-empty token, tear the
    session down without telling anyone: [isConnected], the quality and
    the attempt count stay as they were and the presence store is not
    called, because the cleanup removes the handlers before it closes the
    socket. The promises of [ensureConnected] and their armed timeouts
    survive. After the render [isConnecting] is true, the start time is
    the time of the render and the socket in [socketRef] is not
    connected, whatever [isConnected] says. *)
Theorem teardown_is_silent tr w now i :
  run tr init = Some w → enabled now i w = true →
  i = Unmount ∨
    (∃ tok token, i = Render tok ∧ userToken w ≠ Some tok ∧ tokenPresent tok = Some token) →
  let w' := step now i w in
  isConnected w' = isConnected w ∧ connectionQuality w' = connectionQuality w ∧
  reconnectAttempts w' = reconnectAttempts w ∧ presence w' = presence w ∧
  promises w' = promises w ∧
  (∀ t tm, timers w !! t = Some (Some tm) → callback tm ≠ CbSendPing →
           timers w' !! t = Some (Some tm)) ∧
  (i = Unmount → isConnecting w' = isConnecting w) ∧
  (i ≠ Unmount →
     isConnecting w' = true ∧ socketConnected w' = false ∧ connectionStartTime w' = now).
Proof.
  intros Hrun Hen Hi. cbv zeta.
  pose proof (Inv_run _ _ _ Inv_init Hrun) as HI.
  pose proof (Sched_run _ _ Hrun) as [_ _ _ Hbeat _].
  assert (unmounted w = false) as Hu.
  { destruct Hi as [->|(tok & token & -> & _)];
      by apply andb_prop in Hen as [_ ?%negb_true_iff]. }
  assert (∀ x, timers x = match pendingCleanup w, pingIntervalRef w with
                          | Some _, Some t => <[t := None]> (timers w)
                          | _, _ => timers w
                          end →
          ∀ t tm, timers w !! t = Some (Some tm) → callback tm ≠ CbSendPing →
                  timers x !! t = Some (Some tm)) as Htm.
  { intros x -> t tm Ht Hcb. destruct (pendingCleanup w); [|done].
    destruct (pingIntervalRef w) as [t0|] eqn:Href; [|done].
    rewrite list_lookup_insert_ne; [done|]. intros ->.
    by rewrite (Hbeat _ _ eq_refl Ht) in Hcb. }
  destruct Hi as [->|(tok & token & -> & Hne & Htok)]; unfold step.
  - unfold unmount. rewrite Hu.
    destruct (runCleanup_frame now _ HI) as (E1 & E2 & E3 & E4 & E5 & _).
    destruct (runCleanup_cells now _ HI) as (E6 & _ & _ & E7).
    split_and!; try done. by apply Htm.
  - unfold render. rewrite Hu, decide_False by done.
    assert (Inv (set_userToken (Some tok) w)) as HI0 by (by destruct HI).
    destruct (runCleanup_frame now _ HI0) as (E1 & E2 & E3 & E4 & E5 & _).
    destruct (runCleanup_cells now _ HI0) as (E6 & _ & _ & E7).
    rewrite effect_eq, Htok; [|by apply Inv_runCleanup|by apply runCleanup_pendingCleanup].
    split_and!; try done.
    + by apply Htm.
    + intros _. split_and!; try done.
      unfold socketConnected, currentSocket. simpl.
      by rewrite lookup_app_r, Nat.sub_diag.
Qed.

(** The token changes from A to B while the hook is Connected. *)
Lemma teardown_is_silent_witness :
  let w' := step 60 (Render (Some "B")) world_connected in
  isConnected w' = isConnected world_connected ∧
  connectionQuality w' = connectionQuality world_connected ∧
  reconnectAttempts w' = reconnectAttempts world_connected ∧
  presence w' = presence world_connected ∧
  promises w' = promises world_connected ∧
  (∀ t tm, timers world_connected !! t = Some (Some tm) → callback tm ≠ CbSendPing →
           timers w' !! t = Some (Some tm)) ∧
  (Render (Some "B") = Unmount → isConnecting w' = isConnecting world_connected) ∧
  (Render (Some "B") ≠ Unmount →
     isConnecting w' = true ∧ socketConnected w' = false ∧ connectionStartTime w' = 60).
Proof.
  refine (teardown_is_silent trace_connected world_connected 60 (Render (Some "B")) _ _ _).
  - by vm_compute.
  - by vm_compute.
  - right. exists (Some "B"), "B". by vm_compute.
Defined.

(** X7. Only a 'connect' event on the socket of the running effect sets
    [isConnected], and only a 'disconnect' or 'connect_error' event on
    that socket, or a render without a token, clears it: no timer, no
    call of [ensureConnected] or [sendPing], no 'pong', 'reconnect' or
    'reconnect_attempt' event, no event of a released socket, no unmount
    and no render with a token changes [isConnected]. *)
Theorem connected_flag_changes tr w now i :
  run tr init = Some w → enabled now i w = true →
  let w' := step now i w in
  (isConnected w = false → isConnected w' = true →
     ∃ sid, i = Transport sid EvConnect ∧ pendingCleanup w = Some sid) ∧
  (isConnected w = true → isConnected w' = false →
     (∃ sid, pendingCleanup w = Some sid ∧
             ((∃ reason, i = Transport sid (EvDisconnect reason)) ∨
              (∃ message, i = Transport sid (EvConnectError message)))) ∨
     (∃ tok, i = Render tok ∧ userToken w ≠ Some tok ∧ tokenPresent tok = None)).
Proof.
  intros Hrun Hen. cbv zeta.
  pose proof (Inv_run _ _ _ Inv_init Hrun) as HI.
  assert (isConnected (step now i w) = isConnected w →
          (isConnected w = false → isConnected (step now i w) = true →
             ∃ sid, i = Transport sid EvConnect ∧ pendingCleanup w = Some sid) ∧
          (isConnected w = true → isConnected (step now i w) = false →
             (∃ sid, pendingCleanup w = Some sid ∧
                     ((∃ reason, i = Transport sid (EvDisconnect reason)) ∨
                      (∃ message, i = Transport sid (EvConnectError message)))) ∨
             (∃ tok, i = Render tok ∧ userToken w ≠ Some tok ∧ tokenPresent tok = None)))
    as Hsame by (intros ->; split; congruence).
  destruct i as [tok| |sid ev|t| |].
  - unfold step, render in *. destruct (unmounted w); [by apply Hsame|].
    case_decide as Htok; [by apply Hsame|].
    assert (Inv (set_userToken (Some tok) w)) as HI0 by (by destruct HI).
    destruct (runCleanup_frame now _ HI0) as (E1 & _).
    pose proof (effect_eq now tok _ (Inv_runCleanup now _ HI0)
                  (runCleanup_pendingCleanup now _)) as Heq.
    rewrite Heq in *. clear Heq.
    destruct (tokenPresent tok) eqn:Hpres; [by apply Hsame|].
    split; [done|]. intros _ _. right. by exists tok.
  - apply Hsame. unfold step, unmount. case_match; [done|].
    by destruct (runCleanup_frame now _ HI) as (E1 & _).
  - pose proof Hen as (s & Hs & Hc)%enabled_Transport.
    destruct (decide (pendingCleanup w = Some sid)) as [Hpc|Hpc].
    + destruct ev.
      * split; [by eauto|]. intros _. unfold step.
        destruct (Inv_live_socket _ _ HI Hpc) as (s' & ex & Hs' & E & Hex & _).
        rewrite (transport_live _ _ _ _ _ _ Hs' E Hex).
        change (isConnected (set_clock now ?x)) with (isConnected x).
        rewrite (foldl_onConnect_frame isConnected); [|apply onConnect_isConnected|done].
        by rewrite handleConnect_isConnected.
      * split; [|by intros _ _; left; eauto].
        intros _. unfold step.
        destruct (Inv_live_socket _ _ HI Hpc) as (s' & ex & Hs' & E & Hex & _).
        rewrite (transport_live _ _ _ _ _ _ Hs' E Hex).
        change (isConnected (set_clock now ?x)) with (isConnected x).
        unfold handleDisconnect. cbv zeta. simpl. by repeat case_match.
      * split; [|by intros _ _; left; eauto].
        intros _. unfold step.
        destruct (Inv_live_socket _ _ HI Hpc) as (s' & ex & Hs' & E & Hex & _).
        by rewrite (transport_live _ _ _ _ _ _ Hs' E Hex).
      * apply Hsame. unfold step.
        destruct (Inv_live_socket _ _ HI Hpc) as (s' & ex & Hs' & E & Hex & _).
        by rewrite (transport_live _ _ _ _ _ _ Hs' E Hex).
      * apply Hsame. unfold step.
        destruct (Inv_live_socket _ _ HI Hpc) as (s' & ex & Hs' & E & Hex & _).
        by rewrite (transport_live _ _ _ _ _ _ Hs' E Hex).
      * apply Hsame. unfold step.
        destruct (Inv_live_socket _ _ HI Hpc) as (s' & ex & Hs' & E & Hex & _).
        rewrite (transport_live _ _ _ _ _ _ Hs' E Hex). apply handlePong_isConnected.
    + apply Hsame. pose proof (Sched_run _ _ Hrun) as [_ Hlt _ _ _].
      by destruct (released_cells _ _ _ _ HI Hlt Hpc Hen) as (E1 & _).
  - apply Hsame. apply fireTimer_isConnected.
  - apply Hsame. apply ensureConnected_isConnected.
  - apply Hsame. apply sendPing_isConnected.
Qed.

(** The 'connect' event of the first session. *)
Lemma connected_flag_changes_witness :
  ∃ sid, Transport 0%nat EvConnect = Transport sid EvConnect ∧
         pendingCleanup world_connecting = Some sid.
Proof.
  refine (proj1 (connected_flag_changes [(0, Render (Some "A"))] world_connecting 50
                   (Transport 0%nat EvConnect) _ _) _ _); by vm_compute.
Defined.

(** X8. On the socket of the running effect a 'reconnect' event clears
    [isConnecting] and reports online to the presence store, and a
    'reconnect_attempt' event sets [isConnecting]; neither touches
    [isConnected], the quality or the attempt count. So after 'reconnect'
    a hook whose [isConnected] is false is Disconnected although the
    presence store was told online, and after 'reconnect_attempt' it is
    Connecting. *)
Theorem reconnect_events_only_toggle_connecting tr w now sid n :
  run tr init = Some w → pendingCleanup w = Some sid →
  (enabled now (Transport sid (EvReconnect n)) w = true →
   let w' := step now (Transport sid (EvReconnect n)) w in
   isConnecting w' = false ∧ presence w' = presence w ++ [true] ∧
   isConnected w' = isConnected w ∧ connectionQuality w' = connectionQuality w ∧
   reconnectAttempts w' = reconnectAttempts w ∧
   (isConnected w = false → connectionState w' = SDisconnected)) ∧
  (enabled now (Transport sid (EvReconnectAttempt n)) w = true →
   let w' := step now (Transport sid (EvReconnectAttempt n)) w in
   isConnecting w' = true ∧ presence w' = presence w ∧
   isConnected w' = isConnected w ∧ connectionQuality w' = connectionQuality w ∧
   reconnectAttempts w' = reconnectAttempts w ∧
   (isConnected w = false → connectionState w' = SConnecting)).
Proof.
  intros Hrun Hpc.
  pose proof (Inv_run _ _ _ Inv_init Hrun) as HI.
  destruct (Inv_live_socket _ _ HI Hpc) as (s & ex & Hs & E & Hex & _).
  split; intros Hen; cbv zeta; unfold step;
    rewrite (transport_live _ _ _ _ _ _ Hs E Hex); simpl;
    (split_and!; try done); intros Hc; unfold connectionState; simpl; by rewrite Hc.
Qed.

(** A 'reconnect' event after the connection dropped. *)
Lemma reconnect_events_only_toggle_connecting_witness :
  let w' := step 9500 (Transport 0%nat (EvReconnect 1)) world_dropped in
  isConnecting w' = false ∧ presence w' = presence world_dropped ++ [true] ∧
  isConnected w' = isConnected world_dropped ∧
  connectionQuality w' = connectionQuality world_dropped ∧
  reconnectAttempts w' = reconnectAttempts world_dropped ∧
  (isConnected world_dropped = false → connectionState w' = SDisconnected).
Proof.
  refine (proj1 (reconnect_events_only_toggle_connecting trace_dropped world_dropped 9500
                   0%nat 1 _ _) _); by vm_compute.
Defined.

(** ** The answers of [ensureConnected] *)

Global Instance Calm_refl : Reflexive Calm.
Proof. intros w. split; eauto. Qed.

Global Instance Calm_trans : Transitive Calm.
Proof.
  intros w1 w2 w3 [A1 A2] [B1 B2]. split; [congruence|].
  intros sid s3 Hs3 Hc3. destruct (B2 _ _ Hs3 Hc3) as (s2 & Hs2 & Hc2). eauto.
Qed.

Lemma Calm_same w w' :
  length (promises w') = length (promises w) → sockets w' = sockets w → Calm w w'.
Proof. intros E1 E2. split; [done|]. rewrite E2. eauto. Qed.

Lemma Calm_updSocket sid f w :
  (∀ s, connected (f s) = true → connected s = true) → Calm w (updSocket sid f w).
Proof.
  intros Hf. split; [done|]. intros j s'. simpl. rewrite list_lookup_alter.
  case_decide; subst; [|by eauto].
  destruct (sockets w !! j) as [s|]; [|done]. intros [= <-] Hc. eauto.
Qed.

Lemma Calm_snoc l s w :
  l = sockets w → connected s = false → Calm w (set_sockets (l ++ [s]) w).
Proof.
  intros -> Hs. split; [done|]. intros j s'. simpl.
  intros [[_ Hl]|[_ <-]]%lookup_snoc_Some Hc; [by eauto|congruence].
Qed.

Lemma Calm_resolve p v w : Calm w (resolve p v w).
Proof. split; [apply length_settle|]. eauto. Qed.

Lemma Calm_setters w :
  (∀ v, Calm w (setIsConnected v w)) ∧ (∀ v, Calm w (setIsConnecting v w)) ∧
  (∀ v, Calm w (setConnectionQuality v w)) ∧ (∀ v, Calm w (set_socketRef v w)) ∧
  (∀ v, Calm w (set_reconnectAttempts v w)) ∧ (∀ v, Calm w (set_connectionStartTime v w)) ∧
  (∀ v, Calm w (set_lastPingTime v w)) ∧ (∀ v, Calm w (set_pingIntervalRef v w)) ∧
  (∀ v, Calm w (set_userToken v w)) ∧ (∀ v, Calm w (set_pendingCleanup v w)) ∧
  (∀ v, Calm w (set_unmounted v w)) ∧ (∀ v, Calm w (set_timers v w)) ∧
  (∀ v, Calm w (set_presence v w)) ∧ (∀ v, Calm w (set_console v w)) ∧
  (∀ v, Calm w (set_clock v w)).
Proof. split_and!; intros v; by apply Calm_same. Qed.

Lemma Calm_setIsConnected v w : Calm w (setIsConnected v w).
Proof. apply Calm_setters. Qed.
Lemma Calm_setIsConnecting v w : Calm w (setIsConnecting v w).
Proof. apply Calm_setters. Qed.
Lemma Calm_setConnectionQuality v w : Calm w (setConnectionQuality v w).
Proof. apply Calm_setters. Qed.
Lemma Calm_set_socketRef v w : Calm w (set_socketRef v w).
Proof. apply Calm_setters. Qed.
Lemma Calm_set_reconnectAttempts v w : Calm w (set_reconnectAttempts v w).
Proof. apply Calm_setters. Qed.
Lemma Calm_set_connectionStartTime v w : Calm w (set_connectionStartTime v w).
Proof. apply Calm_setters. Qed.
Lemma Calm_set_lastPingTime v w : Calm w (set_lastPingTime v w).
Proof. apply Calm_setters. Qed.
Lemma Calm_set_pingIntervalRef v w : Calm w (set_pingIntervalRef v w).
Proof. apply Calm_setters. Qed.
Lemma Calm_set_userToken v w : Calm w (set_userToken v w).
Proof. apply Calm_setters. Qed.
Lemma Calm_set_pendingCleanup v w : Calm w (set_pendingCleanup v w).
Proof. apply Calm_setters. Qed.
Lemma Calm_set_unmounted v w : Calm w (set_unmounted v w).
Proof. apply Calm_setters. Qed.
Lemma Calm_set_timers v w : Calm w (set_timers v w).
Proof. apply Calm_setters. Qed.
Lemma Calm_set_presence v w : Calm w (set_presence v w).
Proof. apply Calm_setters. Qed.
Lemma Calm_set_console v w : Calm w (set_console v w).
Proof. apply Calm_setters. Qed.
Lemma Calm_set_clock v w : Calm w (set_clock v w).
Proof. apply Calm_setters. Qed.

Create HintDb calm discriminated.
#[local] Hint Resolve Calm_resolve Calm_setIsConnected Calm_setIsConnecting
  Calm_setConnectionQuality Calm_set_socketRef Calm_set_reconnectAttempts
  Calm_set_connectionStartTime Calm_set_lastPingTime Calm_set_pingIntervalRef
  Calm_set_userToken Calm_set_pendingCleanup Calm_set_unmounted Calm_set_timers
  Calm_set_presence Calm_set_console Calm_set_clock : calm.
#[local] Hint Extern 2 (Calm _ (updSocket _ _ _)) =>
  (apply Calm_updSocket; intros ?; simpl; done) : calm.
#[local] Hint Extern 2 (Calm _ (set_sockets (_ ++ _) _)) =>
  (apply Calm_snoc; reflexivity) : calm.

Ltac calm_step :=
  match goal with
  | |- Calm ?w ?w => reflexivity
  | |- Calm ?w (?f ?x) => transitivity x;
      [|solve [unfold sock_on, sock_off, sock_connect, sock_emitPing, clearTimer,
                 log, setOnlineStatus;
               auto with calm]]
  end.

Ltac calm := repeat calm_step.

Lemma Calm_sendPing now w : Calm w (sendPing now w).
Proof. unfold sendPing. repeat case_match; try reflexivity. calm. Qed.

Lemma Calm_onConnect p t w : Calm w (onConnect p t w).
Proof. unfold onConnect. case_match; calm. Qed.

Lemma Calm_ensureTimeout p w : Calm w (ensureTimeout p w).
Proof. unfold ensureTimeout. calm. Qed.

Lemma Calm_handleConnect now w : Calm w (handleConnect now w).
Proof.
  unfold handleConnect, setInterval. cbv beta iota zeta.
  etrans; [|apply Calm_sendPing].
  calm. destruct (pingIntervalRef _); calm.
Qed.

Lemma Calm_handleDisconnect reason w : Calm w (handleDisconnect reason w).
Proof.
  destruct (handleDisconnect_frame reason w) as (_ & E2 & _ & _ & E5 & _).
  apply Calm_same; [by rewrite E5|done].
Qed.

Lemma Calm_handleConnectError message w : Calm w (handleConnectError message w).
Proof. unfold handleConnectError. calm. Qed.

Lemma Calm_handleReconnect n w : Calm w (handleReconnect n w).
Proof. unfold handleReconnect. calm. Qed.

Lemma Calm_handleReconnectAttempt n w : Calm w (handleReconnectAttempt n w).
Proof. unfold handleReconnectAttempt. calm. Qed.

Lemma Calm_handlePong now data w : Calm w (handlePong now data w).
Proof.
  destruct data; [reflexivity| |reflexivity]. simpl.
  match goal with |- Calm _ (checkConnectionQuality _ ?w') =>
    destruct (checkConnectionQuality_cases now w') as (q & -> & _) end.
  calm.
Qed.

Lemma Calm_runListener now ev l w : Calm w (runListener now ev l w).
Proof.
  destruct l, ev; simpl; try reflexivity;
    auto using Calm_handleConnect, Calm_handleDisconnect, Calm_handleConnectError,
      Calm_handleReconnect, Calm_handleReconnectAttempt, Calm_handlePong, Calm_onConnect.
Qed.

Lemma Calm_emit now sid ev w : Calm w (emit now sid ev w).
Proof.
  unfold emit. destruct (sockets w !! sid) as [s|]; [|reflexivity].
  generalize (listenersFor (eventName ev) s). intros ls. revert w.
  induction ls as [|l ls IH]; intros w; simpl; [reflexivity|].
  etrans; [apply (Calm_runListener now ev l)|apply IH].
Qed.

Lemma Calm_sock_disconnect now sid w : Calm w (sock_disconnect now sid w).
Proof.
  unfold sock_disconnect. repeat case_match; try reflexivity.
  etrans; [|apply Calm_emit]. calm.
Qed.

Lemma Calm_effectCleanup now sid w : Calm w (effectCleanup now sid w).
Proof.
  unfold effectCleanup. cbv zeta. etrans; [|apply Calm_sock_disconnect].
  calm. destruct (pingIntervalRef _); calm.
Qed.

Lemma Calm_runCleanup now w : Calm w (runCleanup now w).
Proof.
  unfold runCleanup. case_match; [|reflexivity].
  etrans; [apply (Calm_effectCleanup now n)|apply Calm_set_pendingCleanup].
Qed.

Lemma Calm_effect now tok w : Calm w (effect now tok w).
Proof.
  unfold effect. destruct (tokenPresent tok) as [token|].
  - unfold io. cbv beta iota zeta. calm.
  - cbv zeta. calm. case_match; [|calm]. calm.
    etrans; [|apply Calm_sock_disconnect]. calm.
Qed.

Lemma Calm_render now tok w : Calm w (render now tok w).
Proof.
  unfold render. repeat case_match; try reflexivity.
  etrans; [|apply Calm_effect]. etrans; [|apply Calm_runCleanup]. calm.
Qed.

Lemma Calm_unmount now w : Calm w (unmount now w).
Proof.
  unfold unmount. case_match; [reflexivity|].
  etrans; [apply (Calm_runCleanup now)|apply Calm_set_unmounted].
Qed.

Lemma Calm_fireTimer now t w : Calm w (fireTimer now t w).
Proof.
  unfold fireTimer. destruct (timers w !! t) as [[tm|]|]; try reflexivity.
  destruct (callback tm); simpl.
  - etrans; [|apply Calm_sendPing]. calm.
  - etrans; [|apply Calm_ensureTimeout]. calm.
Qed.

Lemma Calm_transport now sid ev w : ev ≠ EvConnect → Calm w (transport now sid ev w).
Proof.
  intros Hev. unfold transport. etrans; [|apply Calm_emit].
  destruct ev; try reflexivity; [done|calm].
Qed.

Lemma Calm_step now i w :
  i ≠ CallEnsureConnected → (∀ sid, i ≠ Transport sid EvConnect) → Calm w (step now i w).
Proof.
  intros H1 H2. unfold step.
  match goal with |- Calm _ (set_clock _ ?w') =>
    assert (Calm w w') as H'; [|etrans; [exact H'|apply Calm_set_clock]] end.
  destruct i as [tok| |sid ev|t| |]; try done.
  - apply Calm_render.
  - apply Calm_unmount.
  - apply Calm_transport. intros ->. by destruct (H2 sid).
  - apply Calm_fireTimer.
  - apply Calm_sendPing.
Qed.

Lemma pending_before now i w p :
  Inv w → (p < length (promises w))%nat →
  promises (step now i w) !! p = Some Pending → promises w !! p = Some Pending.
Proof.
  intros HI Hlt Hp'. destruct (lookup_lt_is_Some_2 _ _ Hlt) as [st Hst].
  destruct st as [|v|]; [done| |by destruct (inv_promises _ HI p)].
  destruct (Ext_step now i w) as (_ & _ & _ & _ & Hf & _).
  apply Hf in Hst. congruence.
Qed.

Lemma Pend_keep now i w p t sid d s :
  Inv w → enabled now i w = true →
  Waiting p t sid d w → sockets w !! sid = Some s → connected s = false →
  promises (step now i w) !! p = Some Pending →
  (∀ s', sockets (step now i w) !! sid = Some s' → connected s' = false) →
  ∃ t sid d s, Waiting p t sid d (step now i w) ∧
               sockets (step now i w) !! sid = Some s ∧ connected s = false.
Proof.
  intros HI Hen HW Hs Hc Hp' Hc'.
  assert (i ≠ Transport sid EvConnect) as Hn1.
  { intros ->. rewrite (connect_resolves _ _ _ _ now _ HI HW) in Hp'. done. }
  assert (i ≠ TimerFire t) as Hn2.
  { intros ->. rewrite (timeout_resolves _ _ _ _ now _ HW) in Hp'. done. }
  destruct (Ext_step now i w) as (Hlen & _).
  destruct (lookup_lt_is_Some_2 (sockets (step now i w)) sid) as [s' Hs'].
  { apply lookup_lt_Some in Hs. lia. }
  exists t, sid, d, s'. split_and!; [by apply Waiting_step|done|by apply Hc'].
Qed.

Lemma ensureConnected_connected now w sid s' :
  sockets (ensureConnected now w).2 !! sid = Some s' →
  ∃ s, sockets w !! sid = Some s ∧ connected s' = connected s.
Proof.
  unfold ensureConnected, newPromise, setTimeout. cbv beta iota zeta.
  change (currentSocket (set_promises (promises w ++ [Pending]) w)) with (currentSocket w).
  destruct (currentSocket w) as [[j s]|]; [destruct (connected s)|]; simpl; eauto.
  rewrite !list_lookup_alter. repeat case_decide; subst; try by eauto.
  all: destruct (sockets w !! sid) as [s0|]; [|done]; intros [= <-]; eauto.
Qed.

Lemma ensureConnected_pending now w :
  Alloc w →
  promises (ensureConnected now w).2 !! length (promises w) = Some Pending →
  ∃ sid s, currentSocket w = Some (sid, s) ∧ connected s = false.
Proof.
  intros HA. unfold ensureConnected, newPromise, setTimeout. cbv beta iota zeta.
  change (currentSocket (set_promises (promises w ++ [Pending]) w)) with (currentSocket w).
  assert ((promises w ++ [Pending]) !! length (promises w) = Some Pending) as Hl.
  { by rewrite lookup_app_r, Nat.sub_diag. }
  destruct (currentSocket w) as [[j s]|]; [destruct (connected s) eqn:Hc|]; simpl.
  - by rewrite (lookup_settle_pending _ _ _ Hl).
  - eauto.
  - by rewrite (lookup_settle_pending _ _ _ Hl).
Qed.

Lemma Pend_step now i w :
  Inv w → Alloc w → Pend w → enabled now i w = true → Pend (step now i w).
Proof.
  intros HI HA HP Hen p Hp'.
  assert (∀ x, Calm w x → step now i w = set_clock now x →
               ∃ t sid d s, Waiting p t sid d (step now i w) ∧
                            sockets (step now i w) !! sid = Some s ∧ connected s = false)
    as Hcalm.
  { intros x [C1 C2] Hx.
    assert (p < length (promises w))%nat as Hlt.
    { apply lookup_lt_Some in Hp'. rewrite Hx in Hp'. simpl in Hp'. lia. }
    destruct (HP p (pending_before _ _ _ _ HI Hlt Hp')) as (t & sid & d & s & HW & Hs & Hc).
    eapply Pend_keep; try done.
    intros s' Hs'. rewrite Hx in Hs'. simpl in Hs'.
    destruct (connected s') eqn:Hc'; [|done].
    destruct (C2 _ _ Hs' Hc') as (s0 & Hs0 & Hc0). congruence. }
  destruct i as [tok| |sid0 ev|t0| |].
  - by apply (Hcalm (render now tok w)); [apply Calm_render|].
  - by apply (Hcalm (unmount now w)); [apply Calm_unmount|].
  - assert (ev = EvConnect ∨ ev ≠ EvConnect) as [->|Hev] by (destruct ev; auto).
    2: { by apply (Hcalm (transport now sid0 ev w)); [apply Calm_transport|]. }
    set (w0 := updSocket sid0 (with_connected true) w).
    destruct (Calm_emit now sid0 EvConnect w0) as [C1 C2].
    assert (p < length (promises w))%nat as Hlt.
    { apply lookup_lt_Some in Hp'. unfold step, transport in Hp'. simpl in Hp'.
      fold w0 in Hp'. rewrite C1 in Hp'. done. }
    destruct (HP p (pending_before _ _ _ _ HI Hlt Hp')) as (t & sid & d & s & HW & Hs & Hc).
    eapply Pend_keep; try done.
    intros s' Hs'. unfold step, transport in Hs'. simpl in Hs'. fold w0 in Hs'.
    destruct (connected s') eqn:Hc'; [|done].
    destruct (C2 _ _ Hs' Hc') as (s0 & Hs0 & Hc0). unfold w0 in Hs0. simpl in Hs0.
    destruct (decide (sid0 = sid)) as [->|Hne].
    + rewrite (connect_resolves _ _ _ _ now _ HI HW) in Hp'. done.
    + rewrite list_lookup_alter_ne in Hs0 by done. congruence.
  - by apply (Hcalm (fireTimer now t0 w)); [apply Calm_fireTimer|].
  - destruct (ensureConnected_allocates now w) as [_ Hlen].
    assert (p < S (length (promises w)))%nat as Hlt.
    { apply lookup_lt_Some in Hp'. unfold step in Hp'. simpl in Hp'. lia. }
    destruct (decide (p = length (promises w))) as [->|Hne].
    + destruct (ensureConnected_pending now w HA Hp') as (sid & s & Hcur & Hc).
      pose proof (ensureConnected_waits now _ _ _ HA Hcur Hc) as HW.
      apply currentSocket_Some in Hcur as [_ Hs].
      destruct (Ext_ensureConnected now w) as (Hl & _).
      destruct (lookup_lt_is_Some_2 (sockets (ensureConnected now w).2) sid) as [s' Hs'].
      { apply lookup_lt_Some in Hs. lia. }
      destruct (ensureConnected_connected _ _ _ _ Hs') as (s0 & Hs0 & E).
      exists (length (timers w)), sid, (now + 10000), s'. split_and!.
      * unfold step. revert HW. generalize (ensureConnected now w).2. intros x HW.
        by apply (Waiting_same _ _ _ _ x).
      * done.
      * congruence.
    + assert (p < length (promises w))%nat as Hlt' by lia.
      destruct (HP p (pending_before _ _ _ _ HI Hlt' Hp')) as (t & sid & d & s & HW & Hs & Hc).
      eapply Pend_keep; try done.
      intros s' Hs'. unfold step in Hs'. simpl in Hs'.
      destruct (ensureConnected_connected _ _ _ _ Hs') as (s0 & Hs0 & E). congruence.
  - by apply (Hcalm (sendPing now w)); [apply Calm_sendPing|].
Qed.

Lemma Pend_run tr w : run tr init = Some w → Pend w.
Proof.
  assert (∀ tr w0 w, Inv w0 → Alloc w0 → Pend w0 → run tr w0 = Some w → Pend w) as Hgen.
  { clear. induction tr as [|[now i] tr IH]; intros w0 w HI HA H; simpl.
    - by intros [= <-].
    - destruct (enabled now i w0) eqn:Hen; [|done].
      apply IH; [by apply Inv_step|by apply Alloc_step|by apply Pend_step]. }
  apply Hgen; [apply Inv_init|apply Alloc_init|]. by intros p.
Qed.

Lemma promises_length_step now i w :
  i ≠ CallEnsureConnected → length (promises (step now i w)) = length (promises w).
Proof.
  intros Hne. destruct i as [tok| |sid ev|t| |]; try done.
  3: { unfold step, transport. simpl.
       destruct ev; by rewrite (proj1 (Calm_emit _ _ _ _)). }
  all: by apply Calm_step.
Qed.

Lemma ensureConnected_immediate now w v :
  Alloc w →
  promises (ensureConnected now w).2 !! length (promises w) = Some (Fulfilled v) →
  if v then socketConnected w = true else socketRef w = None.
Proof.
  intros HA. unfold ensureConnected, newPromise, setTimeout, socketConnected.
  cbv beta iota zeta.
  change (currentSocket (set_promises (promises w ++ [Pending]) w)) with (currentSocket w).
  assert ((promises w ++ [Pending]) !! length (promises w) = Some Pending) as Hl.
  { by rewrite lookup_app_r, Nat.sub_diag. }
  destruct (currentSocket w) as [[j s]|] eqn:Hcur; [destruct (connected s) eqn:Hc|]; simpl.
  - rewrite (lookup_settle_pending _ _ _ Hl). by intros [= <-].
  - by rewrite Hl.
  - rewrite (lookup_settle_pending _ _ _ Hl). intros [= <-].
    unfold currentSocket in Hcur. destruct (socketRef w) as [j|] eqn:Hsr; [|done].
    pose proof (alloc_socket _ HA j Hsr) as Hj.
    destruct (lookup_lt_is_Some_2 _ _ Hj) as [s Hs]. by rewrite Hs in Hcur.
Qed.

(** X9. Every promise of [ensureConnected] that is still pending is
    waited for, whatever has happened since the call -- timeouts of other
    calls, token changes, an unmount: its 10 s timeout is armed and due
    within 10 s, and its one-shot listener is registered on a socket that
    is not connected. *)
Theorem pending_call_is_waited_for tr w p :
  run tr init = Some w → promises w !! p = Some Pending →
  ∃ t d sid s,
    timers w !! t
      = Some (Some {| callback := CbEnsureTimeout p; due := d; period := None |}) ∧
    d ≤ clock w + 10000 ∧
    sockets w !! sid = Some s ∧ connected s = false ∧
    (NConnect, LOnConnect p t) ∈ listeners s.
Proof.
  intros Hrun Hp.
  destruct (Pend_run _ _ Hrun p Hp) as (t & sid & d & s & [_ [Ht _] [(s0 & Hs0 & Hin) _] _] & Hs & Hc).
  pose proof (Sched_run _ _ Hrun) as [Hsh _ _ _ _].
  pose proof (Hsh _ _ Ht) as [_ Hd]. simpl in Hd.
  assert (s0 = s) as -> by congruence.
  exists t, d, sid, s. by split_and!.
Qed.

(** A call made while the first session is still connecting. *)
Lemma pending_call_is_waited_for_witness :
  ∃ t d sid s,
    timers world_waiting !! t
      = Some (Some {| callback := CbEnsureTimeout 0; due := d; period := None |}) ∧
    d ≤ clock world_waiting + 10000 ∧
    sockets world_waiting !! sid = Some s ∧ connected s = false ∧
    (NConnect, LOnConnect 0 t) ∈ listeners s.
Proof.
  refine (pending_call_is_waited_for [(0, Render (Some "A")); (1, CallEnsureConnected)]
            world_waiting 0%nat _ _); by vm_compute.
Defined.

(** X10. A promise of [ensureConnected] is settled in two ways only: at
    the call itself, with [true] when [socketRef.current] is connected and
    with [false] when there is no socket; or, for a call that had to wait,
    with [true] by a 'connect' event of the socket the call registered
    its listener on, and with [false] by the expiry of the call's own
    timeout, no earlier than it is due. *)
Theorem ensureConnected_answers tr w now i p v :
  run tr init = Some w → enabled now i w = true →
  promises w !! p ≠ Some (Fulfilled v) →
  promises (step now i w) !! p = Some (Fulfilled v) →
  (i = CallEnsureConnected ∧ p = length (promises w) ∧
   if v then socketConnected w = true else socketRef w = None) ∨
  (promises w !! p = Some Pending ∧
   ∃ t d sid s,
     timers w !! t
       = Some (Some {| callback := CbEnsureTimeout p; due := d; period := None |}) ∧
     sockets w !! sid = Some s ∧ (NConnect, LOnConnect p t) ∈ listeners s ∧
     ((v = true ∧ i = Transport sid EvConnect) ∨
      (v = false ∧ i = TimerFire t ∧ d ≤ now))).
Proof.
  intros Hrun Hen Hp Hp'.
  pose proof (Inv_run _ _ _ Inv_init Hrun) as HI.
  pose proof (Alloc_run _ _ _ Alloc_init Hrun) as HA.
  destruct (decide (p < length (promises w))%nat) as [Hlt|Hge].
  - right. destruct (lookup_lt_is_Some_2 _ _ Hlt) as [st Hst].
    destruct (Ext_step now i w) as (_ & _ & _ & _ & Hf & _).
    destruct st as [|v'|]; [| |by destruct (inv_promises _ HI p)].
    2: { pose proof (Hf _ _ Hst). congruence. }
    split; [done|].
    destruct (Pend_run _ _ Hrun p Hst) as (t & sid & d & s & HW & Hs & Hc).
    pose proof HW as [_ [Ht _] [(s0 & Hs0 & Hin) _] _].
    assert (s0 = s) as -> by congruence.
    exists t, d, sid, s. split_and!; try done.
    assert (i = Transport sid EvConnect ∨ i = TimerFire t ∨
            (i ≠ Transport sid EvConnect ∧ i ≠ TimerFire t)) as [->|[->|[Hn1 Hn2]]].
    { destruct i as [tok| |sid0 ev|t0| |]; try by (right; right).
      - destruct (decide (sid0 = sid)) as [->|?]; [|right; right; split; congruence].
        destruct ev; try by (right; right). by left.
      - destruct (decide (t0 = t)) as [->|?]; [by right; left|].
        right; right; split; congruence. }
    + left. rewrite (connect_resolves _ _ _ _ now _ HI HW) in Hp'.
      split; [congruence|done].
    + right. rewrite (timeout_resolves _ _ _ _ now _ HW) in Hp'.
      split_and!; [congruence|done|by eapply timeout_not_before].
    + pose proof (Waiting_step _ _ _ _ _ _ _ HI HW Hen Hn1 Hn2) as [Hpend _ _ _]. congruence.
  - left. assert (i = CallEnsureConnected ∨ i ≠ CallEnsureConnected) as [->|Hne].
    { destruct i; auto. }
    + destruct (ensureConnected_allocates now w) as [_ Hlen].
      assert (p = length (promises w)) as ->.
      { apply lookup_lt_Some in Hp'. unfold step in Hp'. simpl in Hp'. lia. }
      split_and!; [done|done|]. by apply (ensureConnected_immediate now).
    + apply lookup_lt_Some in Hp'. rewrite promises_length_step in Hp' by done. lia.
Qed.

(** The timeout of the call made while the first session is connecting. *)
Lemma ensureConnected_answers_witness :
  (TimerFire 0%nat = CallEnsureConnected ∧ 0%nat = length (promises world_waiting) ∧
   socketRef world_waiting = None) ∨
  (promises world_waiting !! 0%nat = Some Pending ∧
   ∃ t d sid s,
     timers world_waiting !! t
       = Some (Some {| callback := CbEnsureTimeout 0; due := d; period := None |}) ∧
     sockets world_waiting !! sid = Some s ∧ (NConnect, LOnConnect 0 t) ∈ listeners s ∧
     ((false = true ∧ TimerFire 0%nat = Transport sid EvConnect) ∨
      (false = false ∧ TimerFire 0%nat = TimerFire t ∧ d ≤ 10001))).
Proof.
  refine (ensureConnected_answers [(0, Render (Some "A")); (1, CallEnsureConnected)]
            world_waiting 10001 (TimerFire 0%nat) 0%nat false _ _ _ _); by vm_compute.
Defined.

(** ** Timers and promises *)

Global Instance Tick_refl : Reflexive Tick.
Proof. intros w. split; [done|]. eauto. Qed.

Global Instance Tick_trans : Transitive Tick.
Proof.
  intros w1 w2 w3 [A1 A2] [B1 B2]. split; [lia|].
  intros t tm [(tm2 & Ht2 & E2)|[Hlen Hcb]]%B2.
  - destruct (A2 _ _ Ht2) as [(tm1 & Ht1 & E1)|[Hlen Hcb]].
    + left. exists tm1. split; [done|congruence].
    + right. split; [done|congruence].
  - right. split; [lia|done].
Qed.

Lemma Tick_same w w' : timers w' = timers w → Tick w w'.
Proof. intros E. split; rewrite E; [done|]. eauto. Qed.

Lemma Tick_clearTimer t w : Tick w (clearTimer t w).
Proof.
  split; simpl; [by rewrite length_insert|].
  intros t' tm [(-> & ? & _)|[_ Ht]]%list_lookup_insert_Some; [done|eauto].
Qed.

Lemma Tick_heartbeat l d now w :
  l = timers w →
  Tick w (set_timers (l ++ [Some {| callback := CbSendPing; due := now; period := d |}]) w).
Proof.
  intros ->. split; simpl; [rewrite length_app; lia|].
  intros t tm [[_ Ht]|[-> [= <-]]]%lookup_snoc_Some; [by eauto|]. right. done.
Qed.

Lemma Tick_setters w :
  (∀ v, Tick w (setIsConnected v w)) ∧ (∀ v, Tick w (setIsConnecting v w)) ∧
  (∀ v, Tick w (setConnectionQuality v w)) ∧ (∀ v, Tick w (set_socketRef v w)) ∧
  (∀ v, Tick w (set_reconnectAttempts v w)) ∧ (∀ v, Tick w (set_connectionStartTime v w)) ∧
  (∀ v, Tick w (set_lastPingTime v w)) ∧ (∀ v, Tick w (set_pingIntervalRef v w)) ∧
  (∀ v, Tick w (set_userToken v w)) ∧ (∀ v, Tick w (set_pendingCleanup v w)) ∧
  (∀ v, Tick w (set_unmounted v w)) ∧ (∀ v, Tick w (set_sockets v w)) ∧
  (∀ v, Tick w (set_promises v w)) ∧
  (∀ v, Tick w (set_presence v w)) ∧ (∀ v, Tick w (set_console v w)) ∧
  (∀ v, Tick w (set_clock v w)).
Proof. split_and!; intros v; by apply Tick_same. Qed.

Lemma Tick_setIsConnected v w : Tick w (setIsConnected v w).
Proof. apply Tick_setters. Qed.
Lemma Tick_setIsConnecting v w : Tick w (setIsConnecting v w).
Proof. apply Tick_setters. Qed.
Lemma Tick_setConnectionQuality v w : Tick w (setConnectionQuality v w).
Proof. apply Tick_setters. Qed.
Lemma Tick_set_socketRef v w : Tick w (set_socketRef v w).
Proof. apply Tick_setters. Qed.
Lemma Tick_set_reconnectAttempts v w : Tick w (set_reconnectAttempts v w).
Proof. apply Tick_setters. Qed.
Lemma Tick_set_connectionStartTime v w : Tick w (set_connectionStartTime v w).
Proof. apply Tick_setters. Qed.
Lemma Tick_set_lastPingTime v w : Tick w (set_lastPingTime v w).
Proof. apply Tick_setters. Qed.
Lemma Tick_set_pingIntervalRef v w : Tick w (set_pingIntervalRef v w).
Proof. apply Tick_setters. Qed.
Lemma Tick_set_userToken v w : Tick w (set_userToken v w).
Proof. apply Tick_setters. Qed.
Lemma Tick_set_pendingCleanup v w : Tick w (set_pendingCleanup v w).
Proof. apply Tick_setters. Qed.
Lemma Tick_set_unmounted v w : Tick w (set_unmounted v w).
Proof. apply Tick_setters. Qed.
Lemma Tick_set_sockets v w : Tick w (set_sockets v w).
Proof. apply Tick_setters. Qed.
Lemma Tick_set_promises v w : Tick w (set_promises v w).
Proof. apply Tick_setters. Qed.
Lemma Tick_set_presence v w : Tick w (set_presence v w).
Proof. apply Tick_setters. Qed.
Lemma Tick_set_console v w : Tick w (set_console v w).
Proof. apply Tick_setters. Qed.
Lemma Tick_set_clock v w : Tick w (set_clock v w).
Proof. apply Tick_setters. Qed.

Create HintDb tick discriminated.
#[local] Hint Resolve Tick_clearTimer Tick_setIsConnected Tick_setIsConnecting
  Tick_setConnectionQuality Tick_set_socketRef Tick_set_reconnectAttempts
  Tick_set_connectionStartTime Tick_set_lastPingTime Tick_set_pingIntervalRef
  Tick_set_userToken Tick_set_pendingCleanup Tick_set_unmounted Tick_set_sockets
  Tick_set_promises Tick_set_presence Tick_set_console Tick_set_clock : tick.
#[local] Hint Extern 2 (Tick _ (set_timers (_ ++ _) _)) =>
  (apply Tick_heartbeat; reflexivity) : tick.

Ltac tick_step :=
  match goal with
  | |- Tick ?w ?w => reflexivity
  | |- Tick ?w (?f ?x) => transitivity x;
      [|solve [unfold sock_on, sock_off, sock_connect, sock_emitPing, updSocket,
                 log, setOnlineStatus, resolve;
               auto with tick]]
  end.

Ltac tick := repeat tick_step.

Lemma Tick_sendPing now w : Tick w (sendPing now w).
Proof. unfold sendPing. repeat case_match; try reflexivity. tick. Qed.

Lemma Tick_onConnect p t w : Tick w (onConnect p t w).
Proof. unfold onConnect. case_match; tick. Qed.

Lemma Tick_ensureTimeout p w : Tick w (ensureTimeout p w).
Proof. unfold ensureTimeout. tick. Qed.

Lemma Tick_handleConnect now w : Tick w (handleConnect now w).
Proof.
  unfold handleConnect, setInterval. cbv beta iota zeta.
  etrans; [|apply Tick_sendPing].
  tick. destruct (pingIntervalRef _); tick.
Qed.

Lemma Tick_handleDisconnect reason w : Tick w (handleDisconnect reason w).
Proof.
  destruct (handleDisconnect_frame reason w) as (E1 & _).
  destruct (pingIntervalRef w) as [t|].
  - etrans; [apply (Tick_clearTimer t)|]. by apply Tick_same.
  - by apply Tick_same.
Qed.

Lemma Tick_handleConnectError message w : Tick w (handleConnectError message w).
Proof. unfold handleConnectError. tick. Qed.

Lemma Tick_handleReconnect n w : Tick w (handleReconnect n w).
Proof. unfold handleReconnect. tick. Qed.

Lemma Tick_handleReconnectAttempt n w : Tick w (handleReconnectAttempt n w).
Proof. unfold handleReconnectAttempt. tick. Qed.

Lemma Tick_handlePong now data w : Tick w (handlePong now data w).
Proof.
  destruct data; [reflexivity| |reflexivity]. simpl.
  match goal with |- Tick _ (checkConnectionQuality _ ?w') =>
    destruct (checkConnectionQuality_cases now w') as (q & -> & _) end.
  tick.
Qed.

Lemma Tick_runListener now ev l w : Tick w (runListener now ev l w).
Proof.
  destruct l, ev; simpl; try reflexivity;
    auto using Tick_handleConnect, Tick_handleDisconnect, Tick_handleConnectError,
      Tick_handleReconnect, Tick_handleReconnectAttempt, Tick_handlePong, Tick_onConnect.
Qed.

Lemma Tick_emit now sid ev w : Tick w (emit now sid ev w).
Proof.
  unfold emit. destruct (sockets w !! sid) as [s|]; [|reflexivity].
  generalize (listenersFor (eventName ev) s). intros ls. revert w.
  induction ls as [|l ls IH]; intros w; simpl; [reflexivity|].
  etrans; [apply (Tick_runListener now ev l)|apply IH].
Qed.

Lemma Tick_transport now sid ev w : Tick w (transport now sid ev w).
Proof.
  unfold transport. etrans; [|apply Tick_emit]. destruct ev; try reflexivity; tick.
Qed.

Lemma Tick_sock_disconnect now sid w : Tick w (sock_disconnect now sid w).
Proof.
  unfold sock_disconnect. repeat case_match; try reflexivity.
  etrans; [|apply Tick_emit]. tick.
Qed.

Lemma Tick_effectCleanup now sid w : Tick w (effectCleanup now sid w).
Proof.
  unfold effectCleanup. cbv zeta. etrans; [|apply Tick_sock_disconnect].
  tick. destruct (pingIntervalRef _); tick.
Qed.

Lemma Tick_runCleanup now w : Tick w (runCleanup now w).
Proof.
  unfold runCleanup. case_match; [|reflexivity].
  etrans; [apply (Tick_effectCleanup now n)|apply Tick_set_pendingCleanup].
Qed.

Lemma Tick_effect now tok w : Tick w (effect now tok w).
Proof.
  unfold effect. destruct (tokenPresent tok) as [token|].
  - unfold io. cbv beta iota zeta. tick.
  - cbv zeta. tick. case_match; [|tick]. tick.
    etrans; [|apply Tick_sock_disconnect]. tick.
Qed.

Lemma Tick_render now tok w : Tick w (render now tok w).
Proof.
  unfold render. repeat case_match; try reflexivity.
  etrans; [|apply Tick_effect]. etrans; [|apply Tick_runCleanup]. tick.
Qed.

Lemma Tick_unmount now w : Tick w (unmount now w).
Proof.
  unfold unmount. case_match; [reflexivity|].
  etrans; [apply (Tick_runCleanup now)|apply Tick_set_unmounted].
Qed.

Lemma Tick_fireTimer now t w : Tick w (fireTimer now t w).
Proof.
  unfold fireTimer. destruct (timers w !! t) as [[tm|]|] eqn:Ht; try reflexivity.
  assert (Tick w (set_timers
                    (<[t := match period tm with
                            | Some d => Some {| callback := callback tm; due := now + d;
                                                period := Some d |}
                            | None => None
                            end]> (timers w)) w)) as H.
  { split; simpl; [by rewrite length_insert|].
    intros t' tm' [(-> & E & _)|[_ Ht']]%list_lookup_insert_Some; [|by eauto].
    left. exists tm. split; [done|]. destruct (period tm); [|done]. by injection E as <-. }
  destruct (callback tm); simpl.
  - etrans; [exact H|apply Tick_sendPing].
  - etrans; [exact H|apply Tick_ensureTimeout].
Qed.

Lemma Tick_step now i w : i ≠ CallEnsureConnected → Tick w (step now i w).
Proof.
  intros H1. unfold step.
  match goal with |- Tick _ (set_clock _ ?w') =>
    assert (Tick w w') as H'; [|etrans; [exact H'|apply Tick_set_clock]] end.
  destruct i as [tok| |sid ev|t| |]; try done.
  - apply Tick_render.
  - apply Tick_unmount.
  - apply Tick_transport.
  - apply Tick_fireTimer.
  - apply Tick_sendPing.
Qed.

Lemma settled_only now i w p t sid d :
  Inv w → Waiting p t sid d w → enabled now i w = true →
  promises (step now i w) !! p ≠ Some Pending →
  i = Transport sid EvConnect ∨ i = TimerFire t.
Proof.
  intros HI HW Hen Hp'.
  assert (i = Transport sid EvConnect ∨ i = TimerFire t ∨
          (i ≠ Transport sid EvConnect ∧ i ≠ TimerFire t)) as [->|[->|[Hn1 Hn2]]];
    [|by left|by right|].
  { destruct i as [tok| |sid0 ev|t0| |]; try by (right; right).
    - destruct (decide (sid0 = sid)) as [->|?]; [|right; right; split; congruence].
      destruct ev; try by (right; right). by left.
    - destruct (decide (t0 = t)) as [->|?]; [by right; left|].
      right; right; split; congruence. }
  by pose proof (Waiting_step _ _ _ _ _ _ _ HI HW Hen Hn1 Hn2) as [Hpend _ _ _].
Qed.

Lemma connect_clears_timeout now w p t sid d :
  Inv w → Waiting p t sid d w → enabled now (Transport sid EvConnect) w = true →
  timers (step now (Transport sid EvConnect) w) !! t = Some None.
Proof.
  intros HI [Hp [Ht _] [(s & Hs & Hin) _] _] Hen.
  pose proof (lookup_lt_Some _ _ _ Ht) as Hlt. unfold step.
  change (timers (set_clock now ?x)) with (timers x).
  assert (∃ st, promises w !! p = Some st ∧ st ≠ Rejected) as Hst by (by exists Pending).
  destruct (decide (pendingCleanup w = Some sid)) as [Hpc|Hpc].
  - destruct (Inv_live_socket _ _ HI Hpc) as (s' & ex & Hs' & E & Hex & _).
    assert (s' = s) as -> by congruence.
    rewrite (transport_live _ _ _ _ _ _ Hs E Hex).
    eapply proj1, (foldl_onConnect_done _ _ _ _ p t); [done| | |].
    + rewrite E in Hin. apply elem_of_app in Hin as [Hin|Hin]; [|done].
      exfalso. unfold sixHandlers in Hin. rewrite !elem_of_cons, elem_of_nil in Hin.
      by destruct Hin as [?|[?|[?|[?|[?|[?|?]]]]]].
    + destruct (handleConnect_arms now (updSocket sid (with_connected true) w)) as [_ Harm].
      apply lookup_lt_Some in Harm. simpl in Harm. lia.
    + by rewrite handleConnect_promises.
  - pose proof (Inv_retired_socket _ _ _ HI Hpc Hs) as Hu.
    rewrite (transport_retired _ _ _ _ _ Hs Hu).
    by eapply proj1, (foldl_onConnect_done _ _ _ _ p t).
Qed.

Lemma timeout_clears now w p t sid d :
  Waiting p t sid d w → timers (step now (TimerFire t) w) !! t = Some None.
Proof.
  intros [_ [Ht _] _ _]. unfold step, fireTimer. rewrite Ht. simpl.
  apply list_lookup_insert_eq. by eapply lookup_lt_Some.
Qed.

Lemma ensureConnected_timers now w t tm :
  timers (ensureConnected now w).2 !! t = Some (Some tm) →
  timers w !! t = Some (Some tm) ∨
  (t = length (timers w) ∧ callback tm = CbEnsureTimeout (length (promises w)) ∧
   promises (ensureConnected now w).2 !! length (promises w) = Some Pending).
Proof.
  unfold ensureConnected, newPromise, setTimeout. cbv beta iota zeta.
  change (currentSocket (set_promises (promises w ++ [Pending]) w)) with (currentSocket w).
  destruct (currentSocket w) as [[j s]|]; [destruct (connected s)|]; simpl; auto.
  intros [[_ Ht]|[-> [= <-]]]%lookup_snoc_Some; [by left|]. right.
  split_and!; [done|done|]. by rewrite lookup_app_r, Nat.sub_diag.
Qed.

Lemma ensureConnected_old_promise now w p :
  (p < length (promises w))%nat →
  promises (ensureConnected now w).2 !! p = promises w !! p.
Proof.
  intros Hlt. unfold ensureConnected, newPromise, setTimeout. cbv beta iota zeta.
  change (currentSocket (set_promises (promises w ++ [Pending]) w)) with (currentSocket w).
  destruct (currentSocket w) as [[j s]|]; [destruct (connected s)|]; simpl;
    rewrite ?lookup_settle_ne by lia; by rewrite lookup_app_l.
Qed.

Lemma TimeoutOK_step now i w :
  Inv w → Pend w → TimeoutOK w → enabled now i w = true → TimeoutOK (step now i w).
Proof.
  intros HI HP HT Hen t tm p Ht' Hcb.
  assert (∀ tm0, timers w !! t = Some (Some tm0) → callback tm0 = CbEnsureTimeout p →
                 i ≠ CallEnsureConnected →
                 promises (step now i w) !! p = Some Pending) as Hold.
  { intros tm0 Ht0 Hcb0 Hne. pose proof (HT _ _ _ Ht0 Hcb0) as Hp.
    destruct (decide (promises (step now i w) !! p = Some Pending)) as [|Hn]; [done|].
    destruct (HP p Hp) as (t1 & sid & d & s & HW & _).
    assert (t = t1) as <-.
    { destruct HW as [_ [_ Hu] _ _]. by eapply Hu. }
    destruct (settled_only _ _ _ _ _ _ _ HI HW Hen Hn) as [->| ->].
    - rewrite (connect_clears_timeout _ _ _ _ _ _ HI HW Hen) in Ht'. done.
    - rewrite (timeout_clears _ _ _ _ _ _ HW) in Ht'. done. }
  assert (i = CallEnsureConnected ∨ i ≠ CallEnsureConnected) as [->|Hne].
  { destruct i; auto. }
  - unfold step in Ht' |- *. simpl in Ht' |- *.
    destruct (ensureConnected_timers _ _ _ _ Ht') as [Ht|(-> & Hcb' & Hp)].
    + pose proof (HT _ _ _ Ht Hcb) as Hp.
      rewrite ensureConnected_old_promise; [done|]. by eapply lookup_lt_Some.
    + rewrite Hcb in Hcb'. by injection Hcb' as ->.
  - destruct (Tick_step now i w Hne) as [_ Hk].
    destruct (Hk _ _ Ht') as [(tm0 & Ht0 & E)|[_ Hcb']]; [|congruence].
    eapply Hold; [done|congruence|done].
Qed.

Lemma TimeoutOK_run tr w : run tr init = Some w → TimeoutOK w.
Proof.
  assert (∀ tr w0 w, Inv w0 → Alloc w0 → Pend w0 → TimeoutOK w0 → run tr w0 = Some w →
                     TimeoutOK w) as Hgen.
  { clear. induction tr as [|[now i] tr IH]; intros w0 w HI HA HP H; simpl.
    - by intros [= <-].
    - destruct (enabled now i w0) eqn:Hen; [|done].
      apply IH; [by apply Inv_step|by apply Alloc_step|by apply Pend_step|
                 by apply TimeoutOK_step]. }
  apply Hgen; [apply Inv_init|apply Alloc_init|by intros p|by intros t tm p].
Qed.

(** X11. The hook leaves no timer behind: along every run an armed timer
    is either the heartbeat interval of 5 s that [pingIntervalRef] holds,
    while [socketRef.current] is connected, or the one-shot timeout of a
    promise of [ensureConnected] that is still pending, and no promise
    has two. *)
Theorem timers_are_accounted_for tr w t tm :
  run tr init = Some w → timers w !! t = Some (Some tm) →
  (callback tm = CbSendPing ∧ period tm = Some 5000 ∧
   pingIntervalRef w = Some t ∧ socketConnected w = true) ∨
  (∃ p, callback tm = CbEnsureTimeout p ∧ period tm = None ∧
        promises w !! p = Some Pending ∧
        ∀ t' tm', timers w !! t' = Some (Some tm') → callback tm' = CbEnsureTimeout p →
                  t' = t).
Proof.
  intros Hrun Ht.
  pose proof (Sched_run _ _ Hrun) as [Hsh _ _ _ _].
  pose proof (Hsh _ _ Ht) as Hs. unfold timerShape in Hs.
  destruct (callback tm) as [|p] eqn:Hcb; destruct Hs as [Hper _].
  - left. split_and!; [done|done| |].
    all: by eapply (heartbeat_only_while_connected tr w t);
           [|apply elem_of_heartbeatTimers; eauto].
  - right. exists p. pose proof (TimeoutOK_run _ _ Hrun _ _ _ Ht Hcb) as Hp.
    split_and!; [done|done|done|].
    destruct (Pend_run _ _ Hrun p Hp) as (t1 & sid & d & s & [_ [_ Hu] _ _] & _).
    intros t' tm' Ht1 Hcb1. rewrite (Hu _ _ Ht1 Hcb1). symmetry. by eapply Hu.
Qed.

(** The heartbeat of the connected session. *)
Lemma timers_are_accounted_for_witness :
  (callback {| callback := CbSendPing; due := 5050; period := Some 5000 |} = CbSendPing ∧
   period {| callback := CbSendPing; due := 5050; period := Some 5000 |} = Some 5000 ∧
   pingIntervalRef world_connected = Some 0%nat ∧ socketConnected world_connected = true) ∨
  (∃ p, callback {| callback := CbSendPing; due := 5050; period := Some 5000 |}
          = CbEnsureTimeout p ∧
        period {| callback := CbSendPing; due := 5050; period := Some 5000 |} = None ∧
        promises world_connected !! p = Some Pending ∧
        ∀ t' tm', timers world_connected !! t' = Some (Some tm') →
                  callback tm' = CbEnsureTimeout p → t' = 0%nat).
Proof.
  refine (timers_are_accounted_for trace_connected world_connected 0%nat
            {| callback := CbSendPing; due := 5050; period := Some 5000 |} _ _);
    by vm_compute.
Defined.

(** ** Teardown *)


Global Instance Kept_refl : Reflexive Kept.
Proof. intros w. split; [done|]. eauto. Qed.

Global Instance Kept_trans : Transitive Kept.
Proof.
  intros w1 w2 w3 [A1 A2] [B1 B2]. split; [lia|].
  intros t tm Hlt Ht.
  destruct (B2 t tm) as (tm2 & Ht2 & E2); [lia|done|].
  destruct (A2 t tm2 Hlt Ht2) as (tm1 & Ht1 & E1).
  exists tm1. split; [done|congruence].
Qed.







(** ** Calls of [connect()] *)

Global Instance Idle_refl : Reflexive Idle.
Proof. by intros w sid. Qed.

Global Instance Idle_trans : Transitive Idle.
Proof. intros w1 w2 w3 A B sid. by rewrite B. Qed.

Lemma Idle_same w w' : sockets w' = sockets w → Idle w w'.
Proof. intros E sid. unfold callsOf. by rewrite E. Qed.

Lemma callsOf_alter sid f w j :
  (∀ s, connectCalls (f s) = connectCalls s) →
  callsOf j (updSocket sid f w) = callsOf j w.
Proof.
  intros Hf. unfold callsOf. simpl. rewrite list_lookup_alter.
  case_decide; subst; [|done]. destruct (sockets w !! j); simpl; by rewrite ?Hf.
Qed.

Lemma Idle_updSocket sid f w :
  (∀ s, connectCalls (f s) = connectCalls s) → Idle w (updSocket sid f w).
Proof. intros Hf j. by apply callsOf_alter. Qed.

Lemma Idle_snoc l s w :
  l = sockets w → connectCalls s = 0%nat → Idle w (set_sockets (l ++ [s]) w).
Proof.
  intros -> Hs j. unfold callsOf. simpl.
  destruct (decide (j < length (sockets w))%nat).
  - by rewrite lookup_app_l.
  - rewrite lookup_app_r by lia. rewrite (lookup_ge_None_2 (sockets w)) by lia.
    by destruct (j - length (sockets w))%nat as [|[|?]].
Qed.

Lemma Idle_setters w :
  (∀ v, Idle w (setIsConnected v w)) ∧ (∀ v, Idle w (setIsConnecting v w)) ∧
  (∀ v, Idle w (setConnectionQuality v w)) ∧ (∀ v, Idle w (set_socketRef v w)) ∧
  (∀ v, Idle w (set_reconnectAttempts v w)) ∧ (∀ v, Idle w (set_connectionStartTime v w)) ∧
  (∀ v, Idle w (set_lastPingTime v w)) ∧ (∀ v, Idle w (set_pingIntervalRef v w)) ∧
  (∀ v, Idle w (set_userToken v w)) ∧ (∀ v, Idle w (set_pendingCleanup v w)) ∧
  (∀ v, Idle w (set_unmounted v w)) ∧ (∀ v, Idle w (set_timers v w)) ∧
  (∀ v, Idle w (set_promises v w)) ∧
  (∀ v, Idle w (set_presence v w)) ∧ (∀ v, Idle w (set_console v w)) ∧
  (∀ v, Idle w (set_clock v w)).
Proof. split_and!; intros v; by apply Idle_same. Qed.

Lemma Idle_setIsConnected v w : Idle w (setIsConnected v w).
Proof. apply Idle_setters. Qed.
Lemma Idle_setIsConnecting v w : Idle w (setIsConnecting v w).
Proof. apply Idle_setters. Qed.
Lemma Idle_setConnectionQuality v w : Idle w (setConnectionQuality v w).
Proof. apply Idle_setters. Qed.
Lemma Idle_set_socketRef v w : Idle w (set_socketRef v w).
Proof. apply Idle_setters. Qed.
Lemma Idle_set_reconnectAttempts v w : Idle w (set_reconnectAttempts v w).
Proof. apply Idle_setters. Qed.
Lemma Idle_set_connectionStartTime v w : Idle w (set_connectionStartTime v w).
Proof. apply Idle_setters. Qed.
Lemma Idle_set_lastPingTime v w : Idle w (set_lastPingTime v w).
Proof. apply Idle_setters. Qed.
Lemma Idle_set_pingIntervalRef v w : Idle w (set_pingIntervalRef v w).
Proof. apply Idle_setters. Qed.
Lemma Idle_set_userToken v w : Idle w (set_userToken v w).
Proof. apply Idle_setters. Qed.
Lemma Idle_set_pendingCleanup v w : Idle w (set_pendingCleanup v w).
Proof. apply Idle_setters. Qed.
Lemma Idle_set_unmounted v w : Idle w (set_unmounted v w).
Proof. apply Idle_setters. Qed.
Lemma Idle_set_timers v w : Idle w (set_timers v w).
Proof. apply Idle_setters. Qed.
Lemma Idle_set_promises v w : Idle w (set_promises v w).
Proof. apply Idle_setters. Qed.
Lemma Idle_set_presence v w : Idle w (set_presence v w).
Proof. apply Idle_setters. Qed.
Lemma Idle_set_console v w : Idle w (set_console v w).
Proof. apply Idle_setters. Qed.
Lemma Idle_set_clock v w : Idle w (set_clock v w).
Proof. apply Idle_setters. Qed.

Create HintDb idle discriminated.
#[local] Hint Resolve Idle_setIsConnected Idle_setIsConnecting
  Idle_setConnectionQuality Idle_set_socketRef Idle_set_reconnectAttempts
  Idle_set_connectionStartTime Idle_set_lastPingTime Idle_set_pingIntervalRef
  Idle_set_userToken Idle_set_pendingCleanup Idle_set_unmounted Idle_set_timers
  Idle_set_promises Idle_set_presence Idle_set_console Idle_set_clock : idle.
#[local] Hint Extern 2 (Idle _ (updSocket _ _ _)) =>
  (apply Idle_updSocket; reflexivity) : idle.
#[local] Hint Extern 2 (Idle _ (set_sockets (_ ++ _) _)) =>
  (apply Idle_snoc; reflexivity) : idle.

Ltac idle_step :=
  match goal with
  | |- Idle ?w ?w => reflexivity
  | |- Idle ?w (?f ?x) => transitivity x;
      [|solve [unfold sock_on, sock_off, sock_emitPing, clearTimer,
                 log, setOnlineStatus, resolve;
               auto with idle]]
  end.

Ltac idle := repeat idle_step.

Lemma Idle_sendPing now w : Idle w (sendPing now w).
Proof. unfold sendPing. repeat case_match; try reflexivity. idle. Qed.

Lemma Idle_onConnect p t w : Idle w (onConnect p t w).
Proof. unfold onConnect. case_match; idle. Qed.

Lemma Idle_ensureTimeout p w : Idle w (ensureTimeout p w).
Proof. unfold ensureTimeout. idle. Qed.

Lemma Idle_handleConnect now w : Idle w (handleConnect now w).
Proof.
  unfold handleConnect, setInterval. cbv beta iota zeta.
  etrans; [|apply Idle_sendPing].
  idle. destruct (pingIntervalRef _); idle.
Qed.

Lemma Idle_handleDisconnect reason w : Idle w (handleDisconnect reason w).
Proof.
  destruct (handleDisconnect_frame reason w) as (_ & E2 & _). by apply Idle_same.
Qed.

Lemma Idle_handleConnectError message w : Idle w (handleConnectError message w).
Proof. unfold handleConnectError. idle. Qed.

Lemma Idle_handleReconnect n w : Idle w (handleReconnect n w).
Proof. unfold handleReconnect. idle. Qed.

Lemma Idle_handleReconnectAttempt n w : Idle w (handleReconnectAttempt n w).
Proof. unfold handleReconnectAttempt. idle. Qed.

Lemma Idle_handlePong now data w : Idle w (handlePong now data w).
Proof.
  destruct data; [reflexivity| |reflexivity]. simpl.
  match goal with |- Idle _ (checkConnectionQuality _ ?w') =>
    destruct (checkConnectionQuality_cases now w') as (q & -> & _) end.
  idle.
Qed.

Lemma Idle_runListener now ev l w : Idle w (runListener now ev l w).
Proof.
  destruct l, ev; simpl; try reflexivity;
    auto using Idle_handleConnect, Idle_handleDisconnect, Idle_handleConnectError,
      Idle_handleReconnect, Idle_handleReconnectAttempt, Idle_handlePong, Idle_onConnect.
Qed.

Lemma Idle_emit now sid ev w : Idle w (emit now sid ev w).
Proof.
  unfold emit. destruct (sockets w !! sid) as [s|]; [|reflexivity].
  generalize (listenersFor (eventName ev) s). intros ls. revert w.
  induction ls as [|l ls IH]; intros w; simpl; [reflexivity|].
  etrans; [apply (Idle_runListener now ev l)|apply IH].
Qed.

Lemma Idle_transport now sid ev w : Idle w (transport now sid ev w).
Proof.
  unfold transport. etrans; [|apply Idle_emit]. destruct ev; try reflexivity; idle.
Qed.

Lemma Idle_sock_disconnect now sid w : Idle w (sock_disconnect now sid w).
Proof.
  unfold sock_disconnect. repeat case_match; try reflexivity.
  etrans; [|apply Idle_emit]. idle.
Qed.

Lemma Idle_effectCleanup now sid w : Idle w (effectCleanup now sid w).
Proof.
  unfold effectCleanup. cbv zeta. etrans; [|apply Idle_sock_disconnect].
  idle. destruct (pingIntervalRef _); idle.
Qed.

Lemma Idle_runCleanup now w : Idle w (runCleanup now w).
Proof.
  unfold runCleanup. case_match; [|reflexivity].
  etrans; [apply (Idle_effectCleanup now n)|apply Idle_set_pendingCleanup].
Qed.

Lemma Idle_effect now tok w : Idle w (effect now tok w).
Proof.
  unfold effect. destruct (tokenPresent tok) as [token|].
  - unfold io. cbv beta iota zeta. idle.
  - cbv zeta. idle. case_match; [|idle]. idle.
    etrans; [|apply Idle_sock_disconnect]. idle.
Qed.

Lemma Idle_render now tok w : Idle w (render now tok w).
Proof.
  unfold render. repeat case_match; try reflexivity.
  etrans; [|apply Idle_effect]. etrans; [|apply Idle_runCleanup]. idle.
Qed.

Lemma Idle_unmount now w : Idle w (unmount now w).
Proof.
  unfold unmount. case_match; [reflexivity|].
  etrans; [apply (Idle_runCleanup now)|apply Idle_set_unmounted].
Qed.

Lemma Idle_fireTimer now t w : Idle w (fireTimer now t w).
Proof.
  unfold fireTimer. destruct (timers w !! t) as [[tm|]|]; try reflexivity.
  destruct (callback tm); simpl.
  - etrans; [|apply Idle_sendPing]. idle.
  - etrans; [|apply Idle_ensureTimeout]. idle.
Qed.

(** X12. The hook calls [connect()] in one place only: a call of
    [ensureConnected] that finds [socketRef.current] not connected calls
    it once, on that socket. Nothing else does -- no handler, no timer, no
    render, no cleanup -- so a socket that is connected, or that is no
    longer [socketRef.current], is never asked to connect. This holds in
    every state, reachable or not. *)
Theorem connect_is_called_only_while_waiting now i w :
  let w' := step now i w in
  (∀ sid s, i = CallEnsureConnected → currentSocket w = Some (sid, s) →
            connected s = false →
            callsOf sid w' = S (callsOf sid w) ∧ ∀ j, j ≠ sid → callsOf j w' = callsOf j w) ∧
  (i ≠ CallEnsureConnected ∨ socketConnected w = true ∨ currentSocket w = None →
   ∀ sid, callsOf sid w' = callsOf sid w).
Proof.
  cbv zeta. split.
  - intros sid s -> Hcur Hc. unfold step, ensureConnected, newPromise, setTimeout.
    cbv beta iota zeta.
    change (currentSocket (set_promises (promises w ++ [Pending]) w)) with (currentSocket w).
    rewrite Hcur, Hc. apply currentSocket_Some in Hcur as [_ Hs].
    unfold callsOf. simpl. split.
    + by rewrite !list_lookup_alter_eq, Hs.
    + intros j Hj. by rewrite !list_lookup_alter_ne.
  - intros Hi. unfold step.
    match goal with |- ∀ sid, callsOf sid (set_clock _ ?w') = _ =>
      assert (Idle w w') as H'; [|intros sid; by rewrite <-(H' sid)] end.
    destruct i as [tok| |sid ev|t| |].
    + apply Idle_render.
    + apply Idle_unmount.
    + apply Idle_transport.
    + apply Idle_fireTimer.
    + destruct Hi as [?|Hi]; [done|].
      unfold ensureConnected, newPromise, setTimeout, socketConnected in *.
      cbv beta iota zeta.
      change (currentSocket (set_promises (promises w ++ [Pending]) w))
        with (currentSocket w).
      destruct (currentSocket w) as [[j s]|]; [destruct (connected s)|]; simpl.
      * by apply Idle_same.
      * by destruct Hi.
      * by apply Idle_same.
    + apply Idle_sendPing.
Qed.

(** ** Strings *)

Lemma isPrefix_spec pat s : isPrefix pat s = true ↔ ∃ r, s = pat ++ r.
Proof.
  revert s. induction pat as [|p pat IH]; intros s; simpl.
  - split; [by exists s|done].
  - destruct s as [|c s]; simpl.
    + split; [done|by intros [? ?]].
    + rewrite andb_true_iff, bool_decide_eq_true, IH. split.
      * intros [-> [r ->]]. by exists r.
      * intros [r [= -> ->]]. split; [done|by exists r].
Qed.

Lemma search_sound pat s k :
  search pat s = Some k → ∃ r, drop k s = pat ++ r ∧ (k ≤ length s)%nat.
Proof.
  revert k. induction s as [|c s IH]; intros k; simpl.
  - destruct (isPrefix pat []) eqn:E; [|done]. intros [= <-].
    apply isPrefix_spec in E as [r ->]. exists r. split; [done|simpl; lia].
  - destruct (isPrefix pat (c :: s)) eqn:E.
    + intros [= <-]. apply isPrefix_spec in E as [r ->].
      exists r. split; [done|lia].
    + destruct (search pat s) as [k'|] eqn:E'; [|done]. simpl.
      intros [= <-]. destruct (IH _ eq_refl) as (r & Hr & Hk).
      exists r. split; [done|simpl; lia].
Qed.

Lemma search_first pat s k i :
  search pat s = Some k → (i < k)%nat → isPrefix pat (drop i s) = false.
Proof.
  revert k i. induction s as [|c s IH]; intros k i; simpl.
  - destruct (isPrefix pat []); [|done]. intros [= <-]. lia.
  - destruct (isPrefix pat (c :: s)) eqn:E; [intros [= <-]; lia|].
    destruct (search pat s) as [k'|] eqn:E'; [|done]. simpl.
    intros [= <-] Hi. destruct i as [|i]; [done|]. simpl.
    apply (IH k'); [done|lia].
Qed.

Lemma search_complete pat s i :
  isPrefix pat (drop i s) = true →
  ∃ k, search pat s = Some k ∧ (k ≤ i)%nat.
Proof.
  revert i. induction s as [|c s IH]; intros i; simpl.
  - rewrite drop_nil. intros ->. exists 0%nat. split; [done|lia].
  - destruct (isPrefix pat (c :: s)) eqn:E.
    + intros _. exists 0%nat. split; [done|lia].
    + destruct i as [|i]; simpl; [congruence|].
      intros (k & -> & Hk)%IH. exists (S k). split; [done|lia].
Qed.

Lemma includes_spec s pat :
  includes s pat = true ↔ ∃ a b, s = a ++ pat ++ b.
Proof.
  unfold includes. split.
  - destruct (search pat s) as [k|] eqn:E; [|done]. intros _.
    destruct (search_sound _ _ _ E) as (r & Hr & _).
    exists (take k s), r. by rewrite <- Hr, take_drop.
  - intros (a & b & ->).
    destruct (search_complete pat (a ++ pat ++ b) (length a)) as (k & -> & _);
      [|done].
    rewrite drop_app_length. apply isPrefix_spec. by exists b.
Qed.

Lemma includes_search s pat :
  includes s pat = true ↔ ∃ k, search pat s = Some k.
Proof.
  unfold includes. destruct (search pat s); split; try done.
  - by eexists.
  - by intros [? ?].
Qed.

Lemma includes_false s pat : includes s pat = false ↔ search pat s = None.
Proof. unfold includes. by destruct (search pat s). Qed.

Lemma indexOf_search s pat k :
  search pat s = Some k → indexOf s pat = Z.of_nat k.
Proof. unfold indexOf. by intros ->. Qed.

Lemma substring_take s (k : nat) :
  (k ≤ length s)%nat → substring s 0 (Z.of_nat k) = take k s.
Proof.
  intros Hk. unfold substring, clamp.
  replace (Z.to_nat (Z.min (Z.max 0 0) (Z.of_nat (length s)))) with 0%nat by lia.
  replace (Z.to_nat (Z.min (Z.max (Z.of_nat k) 0) (Z.of_nat (length s))))
    with k by lia.
  by rewrite Nat.max_0_l, Nat.min_0_l, Nat.sub_0_r.
Qed.

Lemma substringFrom_drop s (k : nat) :
  (k ≤ length s)%nat → substringFrom s (Z.of_nat k) = drop k s.
Proof.
  intros Hk. unfold substringFrom, substring, clamp.
  replace (Z.to_nat (Z.min (Z.max (Z.of_nat k) 0) (Z.of_nat (length s))))
    with k by lia.
  replace (Z.to_nat (Z.min (Z.max (Z.of_nat (length s)) 0)
                       (Z.of_nat (length s)))) with (length s) by lia.
  rewrite Nat.min_l, Nat.max_r by done.
  apply take_ge. rewrite length_drop. lia.
Qed.

(** Text inserted at [k] keeps an occurrence of [x] unless position [k]
    lies inside it. *)
Lemma includes_insert s x k ins :
  includes s x = true →
  (∀ c d, (0 < k)%nat → s !! (k - 1)%nat = Some c → s !! k = Some d →
          ¬ (c ∈ x ∧ d ∈ x)) →
  includes (take k s ++ ins ++ drop k s) x = true.
Proof.
  intros (a & b & ->)%includes_spec Hcut. apply includes_spec.
  destruct (decide (k ≤ length a)%nat) as [Hle|Hgt].
  { exists (take k a ++ ins ++ drop k a), b.
    rewrite take_app_le, drop_app_le by done. by rewrite <- !(assoc_L (++)). }
  destruct (decide (length a + length x ≤ k)%nat) as [Hge|Hlt].
  { exists a, (take (k - length a - length x) b ++ ins ++
               drop (k - length a - length x) b).
    rewrite take_app_ge, drop_app_ge by lia.
    rewrite take_app_ge, drop_app_ge by lia.
    by rewrite <- !(assoc_L (++)). }
  exfalso.
  assert (is_Some (x !! (k - 1 - length a)%nat)) as [c Hc]
    by (apply lookup_lt_is_Some_2; lia).
  assert (is_Some (x !! (k - length a)%nat)) as [d Hd]
    by (apply lookup_lt_is_Some_2; lia).
  apply (Hcut c d); [lia|..].
  - rewrite lookup_app_r by lia. by rewrite lookup_app_l by (lia).
  - rewrite lookup_app_r by lia. rewrite lookup_app_l by lia. done.
  - split; by eapply list_elem_of_lookup_2.
Qed.

Lemma includes_middle a x b : includes (a ++ x ++ b) x = true.
Proof. apply includes_spec. by exists a, b. Qed.

Lemma includes_trans s x y :
  includes s x = true → includes x y = true → includes s y = true.
Proof.
  intros (a & b & ->)%includes_spec (c & d & ->)%includes_spec.
  apply includes_spec. exists (a ++ c), (d ++ b).
  by rewrite <- !(assoc_L (++)).
Qed.

(** ** The regular expression *)

Lemma lastFeed_spec ws e :
  lastFeed ws = Some e → ∃ e', e = S e' ∧ ws !! e' = Some lf.
Proof.
  revert e. induction ws as [|c ws IH]; intros e; simpl; [done|].
  destruct (lastFeed ws) as [e0|].
  - intros [= <-]. destruct (IH _ eq_refl) as (e' & -> & He').
    by exists (S e').
  - case_bool_decide as Hc; [|done]. intros [= <-]. exists 0%nat.
    by rewrite Hc.
Qed.

Lemma spacesThenFeed_spec s e :
  spacesThenFeed s = Some e → ∃ e', e = S e' ∧ s !! e' = Some lf.
Proof.
  unfold spacesThenFeed. intros (e' & -> & He')%lastFeed_spec.
  exists e'. split; [done|]. by apply lookup_take_Some in He' as [? _].
Qed.

Lemma lazyTail_spec s m :
  lazyTail s = Some m → ∃ m', m = S m' ∧ s !! m' = Some lf.
Proof.
  revert m. induction s as [|c s IH]; intros m; simpl; [done|].
  assert ((if isLineTerminator c then None else S <$> lazyTail s) = Some m →
          ∃ m', m = S m' ∧ (c :: s) !! m' = Some lf) as Hmore.
  { destruct (isLineTerminator c); [done|].
    destruct (lazyTail s) as [m0|]; [|done]. simpl. intros [= <-].
    destruct (IH _ eq_refl) as (m' & -> & Hm'). by exists (S m'). }
  case_bool_decide; [|done].
  destruct (spacesThenFeed s) as [e|] eqn:E; [|done].
  intros [= <-]. apply spacesThenFeed_spec in E as (e' & -> & He').
  by exists (S e').
Qed.

Lemma stripPrefix_spec pat s r :
  stripPrefix pat s = Some r → s = pat ++ r.
Proof.
  unfold stripPrefix. destruct (isPrefix pat s) eqn:E; [|done].
  intros [= <-]. apply isPrefix_spec in E as [r ->].
  by rewrite drop_app_length.
Qed.

(** A match starts with [#import] and ends with a line feed. *)
Lemma matchAt_spec s m :
  matchAt s = Some m →
  isPrefix (js "#import") s = true ∧
  ∃ m', m = S m' ∧ s !! m' = Some lf.
Proof.
  unfold matchAt. intros H.
  destruct (stripPrefix (js "#import") s) as [r1|] eqn:E1; [|done].
  simpl in H. case_bool_decide as Hn; [done|].
  destruct (stripPrefix (js "<React") (drop (spaceRun r1) r1)) as [r2|] eqn:E2;
    [|done].
  simpl in H. destruct (lazyTail r2) as [m2|] eqn:E3; [|done].
  simpl in H. injection H as <-.
  apply stripPrefix_spec in E1 as ->. split.
  { apply isPrefix_spec. by eexists. }
  apply lazyTail_spec in E3 as (m' & -> & Hm').
  apply stripPrefix_spec in E2.
  exists (7 + spaceRun r1 + 6 + m')%nat. split; [lia|].
  assert (length (js "#import") = 7%nat) as L7 by done.
  assert (length (js "<React") = 6%nat) as L6 by done.
  rewrite lookup_app_r by lia.
  replace (7 + spaceRun r1 + 6 + m' - length (js "#import"))%nat
    with (spaceRun r1 + (6 + m'))%nat by lia.
  rewrite <- lookup_drop, E2.
  rewrite lookup_app_r by lia.
  by replace (6 + m' - length (js "<React"))%nat with m' by lia.
Qed.

Lemma matchFrom_spec skip s x :
  x ∈ matchFrom skip s →
  ∃ i m, matchAt (drop i s) = Some m ∧ x = take m (drop i s).
Proof.
  revert skip. induction s as [|c s IH]; intros skip; simpl.
  { by intros ?%elem_of_nil. }
  assert (∀ k, x ∈ matchFrom k s →
            ∃ i m, matchAt (drop i (c :: s)) = Some m ∧
                   x = take m (drop i (c :: s))) as Hrec.
  { intros k (i & m & ? & ?)%IH. by exists (S i), m. }
  destruct skip as [|k]; [|by apply Hrec].
  destruct (matchAt (c :: s)) as [m|] eqn:E; [|by apply Hrec].
  intros [->|?]%elem_of_cons; [|by eapply Hrec].
  by exists 0%nat, m.
Qed.

(** The last match: where [indexOf] finds its text, a line ends. *)
Lemma lastImport_spec content lastImport :
  last (matchImports content) = Some lastImport →
  ∃ k, search lastImport content = Some k ∧
       (0 < length lastImport)%nat ∧
       (k + length lastImport ≤ length content)%nat ∧
       content !! (k + length lastImport - 1)%nat = Some lf ∧
       includes content (js "#import") = true.
Proof.
  intros Hlast. apply last_Some_elem_of in Hlast.
  apply matchFrom_spec in Hlast as (i & m & Hm & ->).
  apply matchAt_spec in Hm as (Hp & m' & -> & Hm').
  pose proof (lookup_lt_Some _ _ _ Hm') as Hlen.
  set (x := take (S m') (drop i content)).
  assert (length x = S m') as Hx by (unfold x; rewrite length_take; lia).
  assert (x !! m' = Some lf) as Hxl.
  { unfold x. rewrite lookup_take_lt by lia. done. }
  destruct (search_complete x content i) as (k & Hk & _).
  { apply isPrefix_spec. exists (drop (S m') (drop i content)).
    unfold x. by rewrite take_drop. }
  exists k. split; [done|].
  destruct (search_sound _ _ _ Hk) as (r & Hr & Hkl).
  assert (length (drop k content) = (length x + length r)%nat) as Hl
    by (by rewrite Hr, length_app).
  rewrite length_drop in Hl.
  split; [lia|]. split; [lia|]. split.
  - replace (k + length x - 1)%nat with (k + m')%nat by lia.
    rewrite <- lookup_drop, Hr. by rewrite lookup_app_l by lia.
  - apply isPrefix_spec in Hp as [r' Hr'].
    apply includes_spec. exists (take i content), r'.
    by rewrite <- Hr', take_drop.
Qed.

(** ** The edit *)

Lemma bindingName_uncut c d :
  c = lf ∨ d = 0x23%N → ¬ (c ∈ bindingName ∧ d ∈ bindingName).
Proof.
  assert (lf ∉ bindingName) as H1
    by (apply (bool_decide_unpack _); by vm_compute).
  assert (0x23%N ∉ bindingName) as H2
    by (apply (bool_decide_unpack _); by vm_compute).
  by intros [-> | ->] [? ?].
Qed.

Lemma Edited_fallback content :
  includes content bindingName = true →
  (includes content importLine = true ∨ matchImports content = []) →
  Edited content
    (if bool_decide (indexOf content (js "#import") ≠ -1)
     then (substring content 0 (indexOf content (js "#import")) ++
           (importLine ++ [lf]) ++
           substringFrom content (indexOf content (js "#import")), true)
     else (content, false)).
Proof.
  intros Hb Hwhy. unfold indexOf.
  destruct (search (js "#import") content) as [k|] eqn:Hs.
  - right. exists k, (importLine ++ [lf]).
    destruct (search_sound _ _ _ Hs) as (r & Hr & Hk).
    rewrite bool_decide_true by lia.
    rewrite substring_take, substringFrom_drop by done.
    repeat split; try done.
    + apply includes_search. by eexists.
    + right. by repeat split.
  - left. split; [done|]. right. by apply includes_false.
Qed.

Lemma editContent_cases content : Edited content (editContent content).
Proof.
  unfold editContent.
  destruct (includes content bindingName) eqn:Hb; cbn [andb negb].
  2:{ rewrite Hb. left. split; [done|by left]. }
  destruct (includes content importLine) eqn:Hi; cbn [andb negb].
  { rewrite Hb. apply Edited_fallback; [done|by left]. }
  destruct (last (matchImports content)) as [lastImport|] eqn:Hl.
  2:{ cbn [andb negb]. rewrite Hb.
      apply Edited_fallback; [done|]. right. by apply last_None. }
  cbn [andb negb].
  destruct (lastImport_spec _ _ Hl) as (k & Hs & Hpos & Hk & Hlf & Himp).
  right. exists (k + length lastImport)%nat, (importLine ++ [lf; lf]).
  rewrite (indexOf_search _ _ _ Hs), <- Nat2Z.inj_add.
  rewrite substring_take, substringFrom_drop by done.
  repeat split; try done.
  left. repeat split; try done. exists lastImport.
  repeat split; try done; try lia.
  by replace (k + length lastImport - length lastImport)%nat with k by lia.
Qed.

Lemma Edited_grows content res :
  Edited content res → res.2 = true →
  includes res.1 bindingName = true ∧
  includes res.1 (js "#import") = true ∧
  includes res.1 importLine = true ∧
  (length res.1 = length content + 52 ∨
   includes content importLine = false ∧
   length res.1 = length content + 53)%nat.
Proof.
  intros [[-> _]|(k & newImport & -> & Hb & Himp & Hk & Hcase)] Hres;
    [done|]. cbn [fst].
  assert (includes (take k content ++ newImport ++ drop k content) importLine
          = true ∧ length newImport = (S (length newImport - 1))%nat ∧
          (∀ c d, (0 < k)%nat → content !! (k - 1)%nat = Some c →
                  content !! k = Some d →
                  ¬ (c ∈ bindingName ∧ d ∈ bindingName)) ∧
          (length newImport = 52 ∨
           includes content importLine = false ∧ length newImport = 53)%nat)
    as (Hi & _ & Hcut & Hlen).
  { destruct Hcase as [(-> & Hno & x & _ & _ & _ & Hlf)|(-> & _ & Hs)].
    - split; [by rewrite <- (assoc_L (++) importLine), includes_middle|].
      split; [done|]. split; [|by right].
      intros c d _ Hc _. apply bindingName_uncut. left. congruence.
    - split; [by rewrite <- (assoc_L (++) importLine), includes_middle|].
      split; [done|]. split; [|by left].
      intros c d _ _ Hd. apply bindingName_uncut. right.
      destruct (search_sound _ _ _ Hs) as (r & Hr & _).
      assert (drop k content !! 0%nat = Some d) as Hd'
        by (by rewrite lookup_drop, Nat.add_0_r).
      rewrite Hr in Hd'. by injection Hd' as <-. }
  split; [by apply includes_insert|].
  split; [|split; [done|]].
  - apply (includes_trans _ importLine); [done|by vm_compute].
  - rewrite !length_app, length_take, length_drop.
    destruct Hlen as [-> | [? ->]]; [left|right; split; [done|]]; lia.
Qed.

(** ** The files *)

Lemma length_append s t :
  String.length (s +:+ t) = (String.length s + String.length t)%nat.
Proof. induction s as [|a s IH]; simpl; [done|by rewrite IH]. Qed.

Lemma paths_apart rnp : instancePath rnp ≠ backupPath rnp.
Proof.
  unfold backupPath. intros E. apply (f_equal String.length) in E.
  rewrite length_append in E. simpl in E. lia.
Qed.

(** A run on a regular file: the backup is made if there is none, and
    the file is rewritten if the edit changes it. *)
Lemma fixRCTInstance_file rnp fs content :
  fs !! instancePath rnp = Some (File content) →
  fixRCTInstance rnp fs =
    let fs1 := match fs !! backupPath rnp with
               | Some _ => fs
               | None => <[backupPath rnp := File content]> fs
               end in
    if (editContent content).2
    then {| returned := true;
            files := <[instancePath rnp := File (editContent content).1]> fs1;
            logged := [MsgFixed] |}
    else {| returned := false; files := fs1; logged := [MsgUnchanged] |}.
Proof.
  intros Hf. unfold fixRCTInstance, existsSync.
  rewrite (bool_decide_true (is_Some (fs !! instancePath rnp))) by (by rewrite Hf).
  cbn [negb].
  destruct (fs !! backupPath rnp) as [e|] eqn:Hb.
  - rewrite bool_decide_true by done. cbn [negb].
    unfold readFileSync. rewrite Hf.
    destruct (editContent content) as [c' []]; cbn [fst snd]; [|done].
    unfold writeFileSync. by rewrite Hf.
  - rewrite bool_decide_false by (by intros [? ?]). cbn [negb].
    unfold copyFileSync, readFileSync. rewrite Hf. cbn [mbind option_bind].
    unfold writeFileSync at 1. rewrite Hb.
    rewrite lookup_insert_ne by (apply not_eq_sym, paths_apart).
    rewrite Hf.
    destruct (editContent content) as [c' []]; cbn [fst snd]; [|done].
    unfold writeFileSync.
    rewrite lookup_insert_ne by (apply not_eq_sym, paths_apart).
    by rewrite Hf.
Qed.

(** A run without a regular file at the path changes nothing. *)
Lemma fixRCTInstance_nofile rnp fs :
  (∀ content, fs !! instancePath rnp ≠ Some (File content)) →
  files (fixRCTInstance rnp fs) = fs ∧
  returned (fixRCTInstance rnp fs) = false.
Proof.
  intros Hf. unfold fixRCTInstance, existsSync.
  destruct (fs !! instancePath rnp) as [[c|]|] eqn:Hi.
  - by destruct (Hf c).
  - rewrite bool_decide_true by done. cbn [negb].
    destruct (fs !! backupPath rnp) as [e|] eqn:Hb.
    + rewrite bool_decide_true by done. cbn [negb].
      unfold readFileSync. by rewrite Hi.
    + rewrite bool_decide_false by (by intros [? ?]). cbn [negb].
      unfold copyFileSync, readFileSync. by rewrite Hi.
  - rewrite bool_decide_false by (by intros [? ?]). done.
Qed.

(** One run on a file that mentions the binding and has an import. *)
Lemma fixRCTInstance_again rnp fs content :
  fs !! instancePath rnp = Some (File content) →
  includes content bindingName = true →
  includes content (js "#import") = true →
  returned (fixRCTInstance rnp fs) = true ∧
  ∃ content',
    files (fixRCTInstance rnp fs) !! instancePath rnp = Some (File content') ∧
    includes content' bindingName = true ∧
    includes content' (js "#import") = true ∧
    includes content' importLine = true ∧
    (length content' = length content + 52 ∨
     includes content importLine = false ∧
     length content' = length content + 53)%nat.
Proof.
  intros Hf Hb Hi. rewrite (fixRCTInstance_file _ _ _ Hf). cbv zeta.
  pose proof (editContent_cases content) as He.
  destruct (editContent content) as [c' m] eqn:E. cbn [fst snd].
  assert (m = true) as ->.
  { destruct He as [[_ [?|?]]|(? & ? & [= _ <-] & _)]; congruence. }
  split; [done|]. exists c'. cbn [files].
  rewrite lookup_insert_eq. split; [done|].
  by apply (Edited_grows content (c', true)).
Qed.

Lemma fixTimes_snoc n rnp fs :
  fixTimes (S n) rnp fs = files (fixRCTInstance rnp (fixTimes n rnp fs)).
Proof.
  revert fs. induction n as [|n IH]; intros fs; [done|].
  change (fixTimes (S (S n)) rnp fs)
    with (fixTimes (S n) rnp (files (fixRCTInstance rnp fs))).
  by rewrite IH.
Qed.

Lemma fixRCTInstance_backup rnp fs e :
  fs !! backupPath rnp = Some e →
  files (fixRCTInstance rnp fs) !! backupPath rnp = Some e.
Proof.
  intros Hb. destruct (fs !! instancePath rnp) as [[c|]|] eqn:Hi.
  - rewrite (fixRCTInstance_file _ _ _ Hi), Hb. cbv zeta.
    destruct (editContent c).2; cbn [files]; [|done].
    by rewrite lookup_insert_ne by apply paths_apart.
  - by rewrite (proj1 (fixRCTInstance_nofile rnp fs
                         ltac:(intros ?; congruence))).
  - by rewrite (proj1 (fixRCTInstance_nofile rnp fs
                         ltac:(intros ?; congruence))).
Qed.

Lemma fixRCTInstance_first_backup rnp fs content :
  fs !! instancePath rnp = Some (File content) →
  fs !! backupPath rnp = None →
  files (fixRCTInstance rnp fs) !! backupPath rnp = Some (File content).
Proof.
  intros Hi Hb. rewrite (fixRCTInstance_file _ _ _ Hi), Hb. cbv zeta.
  destruct (editContent content).2; cbn [files].
  - rewrite lookup_insert_ne by apply paths_apart. by rewrite lookup_insert_eq.
  - by rewrite lookup_insert_eq.
Qed.

Lemma fixRCTInstance_elsewhere rnp fs p :
  p ≠ instancePath rnp → p ≠ backupPath rnp →
  files (fixRCTInstance rnp fs) !! p = fs !! p.
Proof.
  intros H1 H2. destruct (fs !! instancePath rnp) as [[c|]|] eqn:Hi.
  - rewrite (fixRCTInstance_file _ _ _ Hi). cbv zeta.
    assert ((match fs !! backupPath rnp with
             | Some _ => fs
             | None => <[backupPath rnp:=File c]> fs
             end) !! p = fs !! p) as Hfs1.
    { destruct (fs !! backupPath rnp); [done|].
      by rewrite lookup_insert_ne. }
    destruct (editContent c).2; cbn [files]; [|done].
    by rewrite lookup_insert_ne.
  - by rewrite (proj1 (fixRCTInstance_nofile rnp fs
                         ltac:(intros ?; congruence))).
  - by rewrite (proj1 (fixRCTInstance_nofile rnp fs
                         ltac:(intros ?; congruence))).
Qed.

(** X13. [fixRCTInstance] returns [true] exactly when the path holds a
    regular file whose text mentions [RCTInstallNativeComponentRegistryBinding]
    and contains [#import] somewhere, whether or not the directive for
    [RCTNativeComponentRegistryBinding.h] is already there; the file it
    then writes is strictly longer.  When it returns [false] (no file, a
    directory, no mention of the binding, no [#import]) the entry at the
    path is what it was. *)
Theorem fix_returns_true_iff rnp fs :
  (returned (fixRCTInstance rnp fs) = true ↔
   ∃ content,
     fs !! instancePath rnp = Some (File content) ∧
     includes content bindingName = true ∧
     includes content (js "#import") = true) ∧
  (returned (fixRCTInstance rnp fs) = true →
   ∃ content content',
     fs !! instancePath rnp = Some (File content) ∧
     files (fixRCTInstance rnp fs) !! instancePath rnp =
       Some (File content') ∧
     (length content < length content')%nat) ∧
  (returned (fixRCTInstance rnp fs) = false →
   files (fixRCTInstance rnp fs) !! instancePath rnp =
     fs !! instancePath rnp).
Proof.
  assert (returned (fixRCTInstance rnp fs) = true →
          ∃ content,
            fs !! instancePath rnp = Some (File content) ∧
            includes content bindingName = true ∧
            includes content (js "#import") = true) as Hif.
  { destruct (fs !! instancePath rnp) as [[c|]|] eqn:Hi.
    - rewrite (fixRCTInstance_file _ _ _ Hi). cbv zeta.
      pose proof (editContent_cases c) as He.
      destruct (editContent c) as [c' []]; cbn [fst snd returned]; [|done].
      intros _. exists c. split; [done|].
      by destruct He as [[[=] _]|(? & ? & _ & ? & ? & _)].
    - by rewrite (proj2 (fixRCTInstance_nofile rnp fs
                           ltac:(intros ?; congruence))).
    - by rewrite (proj2 (fixRCTInstance_nofile rnp fs
                           ltac:(intros ?; congruence))). }
  split; [|split].
  - split; [done|]. intros (c & Hi & Hb & Himp).
    by destruct (fixRCTInstance_again _ _ _ Hi Hb Himp).
  - intros (c & Hi & Hb & Himp)%Hif.
    destruct (fixRCTInstance_again _ _ _ Hi Hb Himp)
      as (_ & c' & Hc' & _ & _ & _ & Hlen).
    exists c, c'. split; [done|]. split; [done|]. lia.
  - destruct (fs !! instancePath rnp) as [[c|]|] eqn:Hi.
    + rewrite (fixRCTInstance_file _ _ _ Hi). cbv zeta.
      destruct (editContent c).2; cbn [returned files]; [done|].
      intros _. destruct (fs !! backupPath rnp); [done|].
      rewrite lookup_insert_ne by (apply not_eq_sym, paths_apart). done.
    + intros _. by rewrite (proj1 (fixRCTInstance_nofile rnp fs
                                     ltac:(intros ?; congruence))).
    + intros _. by rewrite (proj1 (fixRCTInstance_nofile rnp fs
                                     ltac:(intros ?; congruence))).
Qed.

(** X14. When [fixRCTInstance] changes the file it only inserts: the new
    text is the old one with the directive put in at one position [k].
    If the directive was missing and the regular expression matched, the
    directive and an empty line go right behind the first occurrence of
    the text of the last match, which ends a line; otherwise the
    directive and one line feed go in front of the first [#import], also
    when the directive is already in the file. *)
Theorem fix_only_inserts rnp fs content :
  fs !! instancePath rnp = Some (File content) →
  returned (fixRCTInstance rnp fs) = true →
  ∃ k newImport,
    files (fixRCTInstance rnp fs) !! instancePath rnp =
      Some (File (take k content ++ newImport ++ drop k content)) ∧
    (k ≤ length content)%nat ∧
    ((newImport = importLine ++ [lf; lf] ∧
      includes content importLine = false ∧
      ∃ lastImport,
        last (matchImports content) = Some lastImport ∧
        (0 < length lastImport)%nat ∧
        Z.of_nat k = indexOf content lastImport + Z.of_nat (length lastImport) ∧
        content !! (k - 1)%nat = Some lf)
     ∨ (newImport = importLine ++ [lf] ∧
        (includes content importLine = true ∨ matchImports content = []) ∧
        Z.of_nat k = indexOf content (js "#import"))).
Proof.
  intros Hi. rewrite (fixRCTInstance_file _ _ _ Hi). cbv zeta.
  pose proof (editContent_cases content) as He.
  destruct (editContent content) as [c' []]; cbn [fst snd returned files];
    [|done].
  intros _.
  destruct He as [[[=] _]|(k & newImport & [= ->] & _ & _ & Hk & Hcase)].
  exists k, newImport. rewrite lookup_insert_eq. split; [done|].
  split; [done|].
  destruct Hcase as [(-> & Hno & x & Hl & Hx & Hs & Hlf)|(-> & Hwhy & Hs)].
  - left. split; [done|]. split; [done|]. exists x.
    rewrite (indexOf_search _ _ _ Hs). repeat split; try done; lia.
  - right. by rewrite (indexOf_search _ _ _ Hs).
Qed.

(** On the sample file the directive goes behind the only import. *)
Lemma fix_only_inserts_witness :
  ∃ k newImport,
    files (fixRCTInstance "rn" sampleFiles) !! instancePath "rn" =
      Some (File (take k sampleInstance ++ newImport ++
                  drop k sampleInstance)) ∧
    (k ≤ length sampleInstance)%nat ∧
    ((newImport = importLine ++ [lf; lf] ∧
      includes sampleInstance importLine = false ∧
      ∃ lastImport,
        last (matchImports sampleInstance) = Some lastImport ∧
        (0 < length lastImport)%nat ∧
        Z.of_nat k =
          indexOf sampleInstance lastImport + Z.of_nat (length lastImport) ∧
        sampleInstance !! (k - 1)%nat = Some lf)
     ∨ (newImport = importLine ++ [lf] ∧
        (includes sampleInstance importLine = true ∨
         matchImports sampleInstance = []) ∧
        Z.of_nat k = indexOf sampleInstance (js "#import"))).
Proof.
  refine (fix_only_inserts "rn" sampleFiles sampleInstance _ _);
    by vm_compute.
Defined.

(** X15. The script is not idempotent.  On a file that mentions the
    binding and contains [#import], every run returns [true] and
    rewrites the file, however often the script has run before: after
    [n] runs the file has grown by 52 code units per run (one more if
    the first run found the directive missing and a matching import),
    and from the first run on it contains the directive. *)
Theorem fix_never_settles rnp fs content n :
  fs !! instancePath rnp = Some (File content) →
  includes content bindingName = true →
  includes content (js "#import") = true →
  returned (fixRCTInstance rnp (fixTimes n rnp fs)) = true ∧
  ∃ content_n,
    fixTimes n rnp fs !! instancePath rnp = Some (File content_n) ∧
    (length content + 52 * n ≤ length content_n
       ≤ length content + 52 * n + 1)%nat ∧
    (includes content importLine = true →
     length content_n = (length content + 52 * n)%nat) ∧
    ((1 ≤ n)%nat → includes content_n importLine = true).
Proof.
  intros Hi Hb Himp.
  assert (∃ content_n,
            fixTimes n rnp fs !! instancePath rnp = Some (File content_n) ∧
            includes content_n bindingName = true ∧
            includes content_n (js "#import") = true ∧
            (length content + 52 * n ≤ length content_n
               ≤ length content + 52 * n + 1)%nat ∧
            (includes content_n importLine = false →
             length content_n = (length content + 52 * n)%nat) ∧
            (includes content importLine = true →
             length content_n = (length content + 52 * n)%nat ∧
             includes content_n importLine = true) ∧
            ((1 ≤ n)%nat → includes content_n importLine = true))
    as (cn & Hn & Hbn & Himpn & Hlen & _ & Hex & Hdir).
  { induction n as [|n IH].
    - exists content. repeat split; try done; try lia.
    - destruct IH as (cn & Hn & Hbn & Himpn & Hlen & Hno & Hex & Hdir).
      rewrite fixTimes_snoc.
      destruct (fixRCTInstance_again _ _ _ Hn Hbn Himpn)
        as (_ & c' & Hc' & Hb' & Himp' & Hdir' & Hlen').
      exists c'. repeat split; try done.
      + destruct Hlen' as [->|[_ ->]]; lia.
      + destruct Hlen' as [->|[Hcn ->]]; [lia|]. rewrite (Hno Hcn). lia.
      + congruence.
      + destruct (Hex H) as [Hl Hd].
        destruct Hlen' as [->|[? _]]; [lia|congruence]. }
  split.
  - by destruct (fixRCTInstance_again _ _ _ Hn Hbn Himpn).
  - exists cn. repeat split; try done; try lia. intros H. by destruct (Hex H).
Qed.

(** Three runs on the sample file. *)
Lemma fix_never_settles_witness :
  returned (fixRCTInstance "rn" (fixTimes 3 "rn" sampleFiles)) = true ∧
  ∃ content_n,
    fixTimes 3 "rn" sampleFiles !! instancePath "rn" =
      Some (File content_n) ∧
    (length sampleInstance + 52 * 3 ≤ length content_n
       ≤ length sampleInstance + 52 * 3 + 1)%nat ∧
    (includes sampleInstance importLine = true →
     length content_n = (length sampleInstance + 52 * 3)%nat) ∧
    ((1 ≤ 3)%nat → includes content_n importLine = true).
Proof.
  refine (fix_never_settles "rn" sampleFiles sampleInstance 3 _ _ _);
    by vm_compute.
Defined.

(** X16. Whatever the number of runs, [RCTInstance.mm.backup] holds what
    the file held before the first run: the copy is made once, when no
    backup exists, and an existing backup (stale, or even a directory) is
    never overwritten.  No path other than the file and its backup is
    ever touched, and if the path holds no regular file nothing is
    changed at all. *)
Theorem backup_keeps_original rnp fs n :
  (∀ content,
     fs !! instancePath rnp = Some (File content) →
     fs !! backupPath rnp = None → (1 ≤ n)%nat →
     fixTimes n rnp fs !! backupPath rnp = Some (File content)) ∧
  (∀ e, fs !! backupPath rnp = Some e →
        fixTimes n rnp fs !! backupPath rnp = Some e) ∧
  (∀ p, p ≠ instancePath rnp → p ≠ backupPath rnp →
        fixTimes n rnp fs !! p = fs !! p) ∧
  ((∀ content, fs !! instancePath rnp ≠ Some (File content)) →
   fixTimes n rnp fs = fs).
Proof.
  assert (∀ m fs' e, fs' !! backupPath rnp = Some e →
            fixTimes m rnp fs' !! backupPath rnp = Some e) as Hkeep.
  { induction m as [|m IH]; intros fs' e He; [done|].
    cbn [fixTimes]. apply IH. by apply fixRCTInstance_backup. }
  split; [|split; [|split]].
  - intros content Hi Hb Hn. destruct n as [|n]; [lia|].
    cbn [fixTimes]. apply Hkeep. by apply fixRCTInstance_first_backup.
  - apply Hkeep.
  - intros p H1 H2. revert fs. induction n as [|n IH]; intros fs; [done|].
    cbn [fixTimes]. rewrite IH. by apply fixRCTInstance_elsewhere.
  - revert fs. induction n as [|n IH]; intros fs Hno; [done|].
    cbn [fixTimes].
    rewrite (proj1 (fixRCTInstance_nofile rnp fs Hno)). by apply IH.
Qed.

(** ** The regular expression and the strings it stands for *)

Lemma take_add_drop {A} (l : list A) n k :
  take (n + k) l = take n l ++ take k (drop n l).
Proof.
  revert l. induction n as [|n IH]; intros [|x l]; simpl;
    rewrite ?take_nil; f_equal; auto.
Qed.

Lemma spaceRun_spaces s : Forall (λ c, isSpace c = true) (take (spaceRun s) s).
Proof.
  induction s as [|c s IH]; simpl; [constructor|].
  destruct (isSpace c) eqn:E; simpl; [by constructor|constructor].
Qed.

Lemma spaceRun_le s : (spaceRun s ≤ length s)%nat.
Proof.
  induction s as [|c s IH]; simpl; [lia|]. destruct (isSpace c); simpl; lia.
Qed.

Lemma spaceRun_app ws r :
  Forall (λ c, isSpace c = true) ws →
  spaceRun (ws ++ r) = (length ws + spaceRun r)%nat.
Proof.
  induction 1 as [|c ws Hc _ IH]; simpl; [done|]. by rewrite Hc, IH.
Qed.

Lemma lastFeed_is_Some ws : lf ∈ ws → is_Some (lastFeed ws).
Proof.
  induction ws as [|c ws IH]; simpl; [by intros ?%elem_of_nil|].
  intros [->|Hin]%elem_of_cons.
  - destruct (lastFeed ws); [done|]. by rewrite bool_decide_true.
  - destruct (IH Hin) as [e ->]. done.
Qed.

Lemma spacesThenFeed_sound s e :
  spacesThenFeed s = Some e →
  (e ≤ length s)%nat ∧
  ∃ ws', take e s = ws' ++ [lf] ∧ Forall (λ c, isSpace c = true) ws'.
Proof.
  unfold spacesThenFeed. intros (e' & -> & He')%lastFeed_spec.
  apply lookup_take_Some in He' as [He' Hlt].
  pose proof (lookup_lt_Some _ _ _ He') as Hlen.
  split; [lia|]. exists (take e' s). split.
  - by apply take_S_r.
  - replace (take e' s) with (take e' (take (spaceRun s) s))
      by (rewrite take_take; f_equal; lia).
    apply Forall_take, spaceRun_spaces.
Qed.

Lemma spacesThenFeed_complete ws' b :
  Forall (λ c, isSpace c = true) ws' →
  is_Some (spacesThenFeed (ws' ++ [lf] ++ b)).
Proof.
  intros Hws. unfold spacesThenFeed. apply lastFeed_is_Some.
  rewrite (assoc_L (++)), spaceRun_app
    by (apply Forall_app; split; [done|by repeat constructor]).
  rewrite take_app_ge by lia.
  apply elem_of_app. left. apply elem_of_app. right. by apply list_elem_of_singleton.
Qed.

Lemma lazyTail_sound s m :
  lazyTail s = Some m →
  (m ≤ length s)%nat ∧
  ∃ mid ws',
    take m s = mid ++ [0x3E%N] ++ ws' ++ [lf] ∧
    Forall (λ c, isLineTerminator c = false) mid ∧
    Forall (λ c, isSpace c = true) ws'.
Proof.
  revert m. induction s as [|c s IH]; intros m; simpl; [done|].
  assert ((if isLineTerminator c then None else S <$> lazyTail s) = Some m →
          (m ≤ S (length s))%nat ∧
          ∃ mid ws',
            take m (c :: s) = mid ++ [0x3E%N] ++ ws' ++ [lf] ∧
            Forall (λ c, isLineTerminator c = false) mid ∧
            Forall (λ c, isSpace c = true) ws') as Hmore.
  { destruct (isLineTerminator c) eqn:Hc; [done|].
    destruct (lazyTail s) as [m0|]; [|done]. simpl. intros [= <-].
    destruct (IH _ eq_refl) as (Hm & mid & ws' & Ht & Hmid & Hws).
    split; [lia|]. exists (c :: mid), ws'. simpl. rewrite Ht.
    split; [done|]. split; [by constructor|done]. }
  case_bool_decide as Hgt; [|done].
  destruct (spacesThenFeed s) as [e|] eqn:E; [|done].
  intros [= <-]. apply spacesThenFeed_sound in E as (He & ws' & Ht & Hws).
  split; [lia|]. exists [], ws'. simpl. rewrite Ht, Hgt.
  split; [done|]. split; [constructor|done].
Qed.

Lemma lazyTail_complete mid ws' b :
  Forall (λ c, isLineTerminator c = false) mid →
  Forall (λ c, isSpace c = true) ws' →
  is_Some (lazyTail (mid ++ [0x3E%N] ++ ws' ++ [lf] ++ b)).
Proof.
  intros Hmid Hws. induction Hmid as [|c mid Hc _ IH].
  - destruct (spacesThenFeed_complete ws' b Hws) as [e He].
    cbn [app lazyTail] in *. rewrite bool_decide_true by done.
    by rewrite He.
  - destruct IH as [m Hm]. cbn [app lazyTail] in *. rewrite Hc, Hm.
    cbn [fmap option_fmap option_map].
    case_bool_decide; [|done].
    by destruct (spacesThenFeed _).
Qed.

Lemma matchAt_sound s m :
  matchAt s = Some m → (m ≤ length s)%nat ∧ ImportShape (take m s).
Proof.
  unfold matchAt. intros H.
  destruct (stripPrefix (js "#import") s) as [r1|] eqn:E1; [|done].
  simpl in H. case_bool_decide as Hn; [done|].
  destruct (stripPrefix (js "<React") (drop (spaceRun r1) r1)) as [r2|] eqn:E2;
    [|done].
  simpl in H. destruct (lazyTail r2) as [m2|] eqn:E3; [|done].
  simpl in H. injection H as <-.
  apply stripPrefix_spec in E1 as ->. apply stripPrefix_spec in E2.
  apply lazyTail_sound in E3 as (Hm2 & mid & ws' & Ht & Hmid & Hws).
  assert (length (js "#import") = 7%nat) as L7 by done.
  assert (length (js "<React") = 6%nat) as L6 by done.
  pose proof (spaceRun_le r1) as Hle.
  assert (r1 = take (spaceRun r1) r1 ++ js "<React" ++ r2) as Hr1
    by (by rewrite <- E2, take_drop).
  assert (length r1 = (spaceRun r1 + (6 + length r2))%nat) as Hlen.
  { rewrite Hr1 at 1. rewrite !length_app, length_take, L6. lia. }
  split; [rewrite length_app; lia|].
  exists (take (spaceRun r1) r1), mid, ws'.
  split; [|split; [|split; [apply spaceRun_spaces|done]]].
  - rewrite <- Ht.
    match goal with |- take ?n _ = _ =>
      replace n with (length (js "#import") + (spaceRun r1 + 6 + m2))%nat
        by (rewrite L7; lia) end.
    rewrite take_app_add. f_equal.
    replace (spaceRun r1 + 6 + m2)%nat
      with (spaceRun r1 + (length (js "<React") + m2))%nat by lia.
    rewrite take_add_drop, E2. by rewrite take_app_add.
  - intros Hnil. apply (f_equal length) in Hnil.
    rewrite length_take in Hnil. simpl in Hnil. lia.
Qed.

Lemma matchAt_complete x b : ImportShape x → is_Some (matchAt (x ++ b)).
Proof.
  intros (ws & mid & ws' & -> & Hne & Hws & Hmid & Hws').
  unfold matchAt, stripPrefix.
  rewrite <- !(assoc_L (++)).
  rewrite (proj2 (isPrefix_spec (js "#import") _)) by (by eexists).
  rewrite drop_app_length. cbn [mbind option_bind].
  assert (spaceRun (ws ++ js "<React" ++ mid ++ [62%N] ++ ws' ++ [lf] ++ b)
          = length ws) as ->.
  { rewrite spaceRun_app by done. change (spaceRun (js "<React" ++ _)) with 0%nat. lia. }
  rewrite bool_decide_false by (by destruct ws).
  rewrite drop_app_length.
  rewrite (proj2 (isPrefix_spec (js "<React") _)) by (by eexists).
  rewrite drop_app_length. cbn [mbind option_bind].
  destruct (lazyTail_complete mid ws' b Hmid Hws') as [m Hm].
  change [62%N] with [0x3E%N]. rewrite Hm. done.
Qed.

Lemma matchFrom_complete s i :
  is_Some (matchAt (drop i s)) → matchFrom 0 s ≠ [].
Proof.
  revert i. induction s as [|c s IH]; intros i.
  - rewrite drop_nil. by intros [? ?].
  - simpl. destruct (matchAt (c :: s)) as [m|] eqn:E; [done|].
    destruct i as [|i]; simpl; [rewrite E; by intros [? ?]|]. apply IH.
Qed.

(** X17. The strings [content.match(importRegex)] returns are exactly of
    the shape the regular expression describes -- [#import], white space,
    [<React], no line terminator up to a ['>'], white space ending in a
    line feed -- and each occurs in [content]; it returns none exactly
    when no part of [content] has this shape. *)
Theorem import_regex_matches content :
  (∀ x, x ∈ matchImports content →
        ImportShape x ∧ includes content x = true) ∧
  (matchImports content = [] ↔
   ¬ ∃ a x b, content = a ++ x ++ b ∧ ImportShape x).
Proof.
  assert (∀ x, x ∈ matchImports content →
               ImportShape x ∧ includes content x = true) as Hsound.
  { intros x (i & m & Hm & ->)%matchFrom_spec.
    apply matchAt_sound in Hm as [Hle Hshape]. split; [done|].
    apply includes_spec. exists (take i content), (drop m (drop i content)).
    by rewrite take_drop, take_drop. }
  split; [done|]. split.
  - intros Hnil (a & x & b & -> & Hx).
    apply (matchFrom_complete (a ++ x ++ b) (length a)); [|done].
    rewrite drop_app_length. by apply matchAt_complete.
  - intros Hno. destruct (matchImports content) as [|x l] eqn:E; [done|].
    destruct (Hsound x) as [Hx Hin]; [by left|].
    apply includes_spec in Hin as (a & b & ->). destruct Hno. by exists a, x, b.
Qed.
